(** * Verification of the PCC prompt compiler core

    Shallow embedding of the dynamic array, the hash table, the scoped
    symbol table, the AST, the semantic analyzer, the optimizer, the code
    generator and the lexer of PCC, followed by the properties proved about
    them.

    Conventions of the embedding:
    - a C string ([char*], NUL terminated) is a [string];
    - a [PCCArray*] is a [list], [pcc_array_push] appends at the end; it
      is a list of pointers where the code may meet a [NULL] slot, and a
      list of the objects pointed at elsewhere;
    - a pointer that may be [NULL] is an [option];
    - [malloc]/[calloc]/[realloc] are taken to succeed, so the
      [PCC_ERROR_MEMORY] exits guarded by a failed allocation do not appear;
    - a function that mutates an object through a pointer returns the
      updated object next to its C return value. *)

From Stdlib Require Import ZArith NArith List String Ascii Bool Lia PrimFloat Sorted.
From stdpp Require Import base tactics option list strings.

Set Warnings "-register-all".

Local Open Scope string_scope.
Local Open Scope list_scope.
Local Open Scope Z_scope.

(* ===================================================================== *)
(** * Part I — definitions                                                *)
(* ===================================================================== *)

(** ** common.h *)

Definition INITIAL_CAPACITY : nat := 16.

Inductive PCCError : Type :=
| PCC_SUCCESS
| PCC_ERROR_MEMORY
| PCC_ERROR_SYNTAX
| PCC_ERROR_SEMANTIC
| PCC_ERROR_IO
| PCC_ERROR_RUNTIME
| PCC_ERROR_UNKNOWN.

Definition PCCError_eqb (a b : PCCError) : bool :=
  match a, b with
  | PCC_SUCCESS, PCC_SUCCESS
  | PCC_ERROR_MEMORY, PCC_ERROR_MEMORY
  | PCC_ERROR_SYNTAX, PCC_ERROR_SYNTAX
  | PCC_ERROR_SEMANTIC, PCC_ERROR_SEMANTIC
  | PCC_ERROR_IO, PCC_ERROR_IO
  | PCC_ERROR_RUNTIME, PCC_ERROR_RUNTIME
  | PCC_ERROR_UNKNOWN, PCC_ERROR_UNKNOWN => true
  | _, _ => false
  end.

(** [PCCPosition]: [line] and [column] are C [int]s. *)
Record PCCPosition : Type := mkPosition {
  pos_line : Z;
  pos_column : Z;
  pos_filename : string
}.

(** ** array.c — the dynamic array *)

(** The elements are pointers.  No entry point stores [NULL]: a [NULL]
    element is a runtime error and leaves the array as it was. *)
Definition pcc_array_size {A : Type} (array : list (option A)) : nat := length array.

Definition pcc_array_push {A : Type} (array : list (option A)) (element : option A)
  : PCCError * list (option A) :=
  match element with
  | None => (PCC_ERROR_RUNTIME, array)
  | Some _ => (PCC_SUCCESS, array ++ [element])
  end.

(** [NULL] when the index is out of bounds. *)
Definition pcc_array_get {A : Type} (array : list (option A)) (index : nat) : option A :=
  default None (array !! index).

Definition pcc_array_set {A : Type} (array : list (option A)) (index : nat)
    (element : option A) : PCCError * list (option A) :=
  match element with
  | None => (PCC_ERROR_RUNTIME, array)
  | Some _ =>
      if (length array <=? index)%nat then (PCC_ERROR_RUNTIME, array)
      else (PCC_SUCCESS, <[index := element]> array)
  end.

(** The capacity of the array is not modelled: [realloc] succeeds, and
    the elements are the slots below [size].

    [array->data[i]] read inside the allocation. *)
Definition slot {A : Type} (data : list (option A)) (i : nat) : option A :=
  default None (data !! i).

(** [pcc_array_pop]: the status, the pointer stored through [out], the
    array. *)
Definition pcc_array_pop {A : Type} (array : list (option A))
  : PCCError * option A * list (option A) :=
  match length array with
  | O => (PCC_ERROR_RUNTIME, None, array)
  | S last => (PCC_SUCCESS, slot array last, take last array)
  end.

(** [for (i = size; i > index; i--) data[i] = data[i - 1];] with
    [count] rounds left. *)
Fixpoint shift_right {A : Type} (count i : nat) (data : list (option A))
  : list (option A) :=
  match count with
  | O => data
  | S count => shift_right count (i - 1) (<[i := slot data (i - 1)]> data)
  end.

(** [pcc_array_insert].  The slot [data[size]] that the array grows by
    holds no element before the loop writes to it. *)
Definition pcc_array_insert {A : Type} (array : list (option A)) (index : nat)
    (element : option A) : PCCError * list (option A) :=
  match element with
  | None => (PCC_ERROR_RUNTIME, array)
  | Some _ =>
      if (length array <? index)%nat then (PCC_ERROR_RUNTIME, array)
      else
        let size := length array in
        let data := shift_right (size - index) size (array ++ [None]) in
        (PCC_SUCCESS, <[index := element]> data)
  end.

(** [for (i = index; i < size - 1; i++) data[i] = data[i + 1];] with
    [count] rounds left. *)
Fixpoint shift_left {A : Type} (count i : nat) (data : list (option A))
  : list (option A) :=
  match count with
  | O => data
  | S count => shift_left count (S i) (<[i := slot data (S i)]> data)
  end.

(** [pcc_array_remove]: the status, the pointer stored through [out],
    the array. *)
Definition pcc_array_remove {A : Type} (array : list (option A)) (index : nat)
  : PCCError * option A * list (option A) :=
  if (length array <=? index)%nat then (PCC_ERROR_RUNTIME, None, array)
  else
    let size := length array in
    let data := shift_left (size - 1 - index) index array in
    (PCC_SUCCESS, slot array index, take (size - 1) data).

(** The loop of [pcc_array_find], from index [i] on; an array holds far
    fewer than 2^31 elements, so the cast of the index to [int] keeps it. *)
Fixpoint find_loop {A : Type} (compare_func : option A -> option A -> Z)
    (element : option A) (data : list (option A)) (i : nat) : Z :=
  match data with
  | [] => -1
  | candidate :: data =>
      if compare_func candidate element =? 0 then Z.of_nat i
      else find_loop compare_func element data (S i)
  end.

Definition pcc_array_find {A : Type} (array : list (option A)) (element : option A)
    (compare_func : option A -> option A -> Z) : Z :=
  match element with
  | None => -1
  | Some _ => find_loop compare_func element array 0
  end.

Definition pcc_array_contains {A : Type} (array : list (option A)) (element : option A)
    (compare_func : option A -> option A -> Z) : bool :=
  negb (pcc_array_find array element compare_func =? -1).

(** [temp = data[i]; data[i] = data[j]; data[j] = temp;] *)
Definition swap_slots {A : Type} (i j : nat) (data : list (option A))
  : list (option A) :=
  let temp := slot data i in
  <[j := temp]> (<[i := slot data j]> data).

(** The inner loop of [pcc_array_sort], from [j] on, [count] rounds
    left. *)
Fixpoint sort_inner {A : Type} (compare_func : option A -> option A -> Z)
    (count j : nat) (data : list (option A)) : list (option A) :=
  match count with
  | O => data
  | S count =>
      sort_inner compare_func count (S j)
        (if 0 <? compare_func (slot data j) (slot data (S j))
         then swap_slots j (S j) data
         else data)
  end.

(** The outer loop of [pcc_array_sort], from [i] on. *)
Fixpoint sort_outer {A : Type} (compare_func : option A -> option A -> Z)
    (size count i : nat) (data : list (option A)) : list (option A) :=
  match count with
  | O => data
  | S count =>
      sort_outer compare_func size count (S i)
        (sort_inner compare_func (size - i - 1) 0 data)
  end.

(** Simple bubble sort. *)
Definition pcc_array_sort {A : Type} (array : list (option A))
    (compare_func : option A -> option A -> Z) : list (option A) :=
  if (length array <? 2)%nat then array
  else sort_outer compare_func (length array) (length array - 1) 0 array.

(** The loop of [pcc_array_reverse], from [i] on. *)
Fixpoint reverse_loop {A : Type} (size count i : nat) (data : list (option A))
  : list (option A) :=
  match count with
  | O => data
  | S count => reverse_loop size count (S i) (swap_slots i (size - 1 - i) data)
  end.

Definition pcc_array_reverse {A : Type} (array : list (option A)) : list (option A) :=
  if (length array <? 2)%nat then array
  else reverse_loop (length array) (length array / 2) 0 array.

(** What [pcc_array_sort] needs of a comparison to put the array in
    order: it never ranks two elements each above the other, and ranking
    not above is transitive. *)
Definition is_ordering {A : Type} (compare_func : A -> A -> Z) : Prop :=
  (forall a b, 0 < compare_func a b -> compare_func b a <= 0) /\
  (forall a b c, compare_func a b <= 0 -> compare_func b c <= 0 ->
                 compare_func a c <= 0).

(** ** hashtable.c — separate-chaining hash table keyed by strings *)

(** [size_t] is 64 bits wide. *)
Definition SIZE_MAX_plus_1 : Z := 2 ^ 64.

(** [int c = *key++]: a [char] read as an [int] (plain [char] is signed on
    the x86-64 ABI, so bytes above 127 are negative). *)
Definition char_to_int (c : ascii) : Z :=
  let n := Z.of_N (N_of_ascii c) in
  if n <? 128 then n else n - 256.

(** The loop of [pcc_default_hash]; [hash] lives in [size_t], so every
    update wraps modulo 2^64. *)
Fixpoint djb2_loop (key : string) (hash : Z) : Z :=
  match key with
  | EmptyString => hash
  | String c key' =>
      djb2_loop key' ((Z.shiftl hash 5 + hash + char_to_int c) mod SIZE_MAX_plus_1)
  end.

Definition pcc_default_hash (key : string) : Z := djb2_loop key 5381.

(** One link of a bucket chain; the [next] pointer is the tail of the
    list that holds the entry.  [entry_value] is a [void*]: [None] is a
    stored [NULL]. *)
Record PCCHashEntry (V : Type) : Type := mkEntry {
  entry_key : string;
  entry_value : option V
}.
Arguments mkEntry {V} _ _.
Arguments entry_key {V} _.
Arguments entry_value {V} _.

Record PCCHashTable (V : Type) : Type := mkHashTable {
  ht_buckets : list (list (PCCHashEntry V));
  ht_size : nat;
  ht_capacity : nat;
  ht_hash_func : string -> Z
}.
Arguments mkHashTable {V} _ _ _ _.
Arguments ht_buckets {V} _.
Arguments ht_size {V} _.
Arguments ht_capacity {V} _.
Arguments ht_hash_func {V} _.

Section HashTable.
Context {V : Type}.

(** [table->buckets[index]]: the chain that starts at the bucket. *)
Definition bucket_at (buckets : list (list (PCCHashEntry V))) (index : nat)
  : list (PCCHashEntry V) :=
  default [] (buckets !! index).

(** [hash % capacity]. The C expression divides by zero when
    [capacity = 0]; every statement below is about tables with
    [capacity > 0]. *)
Definition bucket_index (hash_func : string -> Z) (capacity : nat) (key : string) : nat :=
  Z.to_nat (hash_func key mod Z.of_nat capacity).

Definition pcc_hashtable_create (initial_capacity : nat)
    (hash_func : option (string -> Z)) : PCCHashTable V :=
  let initial_capacity :=
    if (initial_capacity =? 0)%nat then INITIAL_CAPACITY else initial_capacity in
  {| ht_buckets := replicate initial_capacity [];
     ht_size := 0;
     ht_capacity := initial_capacity;
     ht_hash_func := match hash_func with
                     | Some f => f
                     | None => pcc_default_hash
                     end |}.

(** Body of the rehash loop: the entry becomes the head of its new
    bucket ([entry->next = new_buckets[new_index]]). *)
Definition rehash_entry (hash_func : string -> Z) (new_capacity : nat)
    (new_buckets : list (list (PCCHashEntry V))) (entry : PCCHashEntry V)
  : list (list (PCCHashEntry V)) :=
  let new_index := bucket_index hash_func new_capacity (entry_key entry) in
  <[new_index := entry :: bucket_at new_buckets new_index]> new_buckets.

(** Buckets are visited by increasing index and every chain from its
    head: the entries are rehashed in the order of [concat]. *)
Definition pcc_hashtable_resize (table : PCCHashTable V) (new_capacity : nat)
  : PCCError * PCCHashTable V :=
  if (new_capacity <? ht_size table)%nat then (PCC_ERROR_RUNTIME, table)
  else
    let new_buckets :=
      fold_left (rehash_entry (ht_hash_func table) new_capacity)
                (concat (ht_buckets table))
                (replicate new_capacity []) in
    (PCC_SUCCESS,
     {| ht_buckets := new_buckets;
        ht_size := ht_size table;
        ht_capacity := new_capacity;
        ht_hash_func := ht_hash_func table |}).

(** The chain walk of [pcc_hashtable_put]: overwrite the value of the
    entry whose key matches, or link a new entry after the last one.
    The boolean tells whether an entry was added. *)
Fixpoint chain_put (chain : list (PCCHashEntry V)) (key : string) (value : option V)
  : list (PCCHashEntry V) * bool :=
  match chain with
  | [] => ([mkEntry key value], true)
  | entry :: next =>
      if String.eqb (entry_key entry) key
      then (mkEntry (entry_key entry) value :: next, false)
      else let '(next', added) := chain_put next key value in
           (entry :: next', added)
  end.

(** The load-factor check at the head of [pcc_hashtable_put]
    ([size > capacity * 3 / 4]). *)
Definition put_rebalance (table : PCCHashTable V) : PCCError * PCCHashTable V :=
  if (ht_capacity table * 3 / 4 <? ht_size table)%nat
  then pcc_hashtable_resize table (ht_capacity table * 2)
  else (PCC_SUCCESS, table).

(** The rest of [pcc_hashtable_put]: locate the bucket, walk its chain,
    bump [size] when an entry was linked. *)
Definition put_chain (table : PCCHashTable V) (key : string) (value : option V)
  : PCCHashTable V :=
  let index := bucket_index (ht_hash_func table) (ht_capacity table) key in
  let '(chain, added) := chain_put (bucket_at (ht_buckets table) index) key value in
  {| ht_buckets := <[index := chain]> (ht_buckets table);
     ht_size := if added then S (ht_size table) else ht_size table;
     ht_capacity := ht_capacity table;
     ht_hash_func := ht_hash_func table |}.

(** [free_old_value] only releases memory and is left out. *)
Definition pcc_hashtable_put (table : PCCHashTable V) (key : string) (value : option V)
  : PCCError * PCCHashTable V :=
  let '(err, table) := put_rebalance table in
  if negb (PCCError_eqb err PCC_SUCCESS) then (err, table)
  else (PCC_SUCCESS, put_chain table key value).

Fixpoint chain_get (chain : list (PCCHashEntry V)) (key : string) : option V :=
  match chain with
  | [] => None
  | entry :: next =>
      if String.eqb (entry_key entry) key then entry_value entry
      else chain_get next key
  end.

Definition pcc_hashtable_get (table : PCCHashTable V) (key : string) : option V :=
  chain_get
    (bucket_at (ht_buckets table)
               (bucket_index (ht_hash_func table) (ht_capacity table) key))
    key.

Definition pcc_hashtable_contains (table : PCCHashTable V) (key : string) : bool :=
  match pcc_hashtable_get table key with
  | Some _ => true
  | None => false
  end.

(** The chain walk of [pcc_hashtable_remove]: the value of the entry
    that carries the key, and the chain without that entry. *)
Fixpoint chain_remove (chain : list (PCCHashEntry V)) (key : string)
  : option (option V * list (PCCHashEntry V)) :=
  match chain with
  | [] => None
  | entry :: next =>
      if String.eqb (entry_key entry) key then Some (entry_value entry, next)
      else match chain_remove next key with
           | Some (value, next') => Some (value, entry :: next')
           | None => None
           end
  end.

(** The middle component is what the call stores through [out_value].
    [size] is decremented only after an entry was found. *)
Definition pcc_hashtable_remove (table : PCCHashTable V) (key : string)
  : PCCError * option V * PCCHashTable V :=
  let index := bucket_index (ht_hash_func table) (ht_capacity table) key in
  match chain_remove (bucket_at (ht_buckets table) index) key with
  | Some (value, chain) =>
      (PCC_SUCCESS, value,
       {| ht_buckets := <[index := chain]> (ht_buckets table);
          ht_size := (ht_size table - 1)%nat;
          ht_capacity := ht_capacity table;
          ht_hash_func := ht_hash_func table |})
  | None => (PCC_ERROR_RUNTIME (* Key not found *), None, table)
  end.

Definition pcc_hashtable_clear (table : PCCHashTable V) : PCCHashTable V :=
  {| ht_buckets := replicate (ht_capacity table) [];
     ht_size := 0;
     ht_capacity := ht_capacity table;
     ht_hash_func := ht_hash_func table |}.

Definition pcc_hashtable_size (table : PCCHashTable V) : nat := ht_size table.

(** All entries of the table, bucket after bucket. *)
Definition ht_entries (table : PCCHashTable V) : list (PCCHashEntry V) :=
  concat (ht_buckets table).

Definition ht_keys (table : PCCHashTable V) : list string :=
  entry_key <$> ht_entries table.

(** Every entry hangs off the bucket its key hashes to. *)
Definition placed (hash_func : string -> Z) (capacity : nat)
    (buckets : list (list (PCCHashEntry V))) : Prop :=
  forall index chain entry,
    buckets !! index = Some chain -> entry ∈ chain ->
    bucket_index hash_func capacity (entry_key entry) = index.

(** The representation invariant of a table built by
    [pcc_hashtable_create] and updated by [pcc_hashtable_put]. *)
Record ht_wf (table : PCCHashTable V) : Prop := mk_ht_wf {
  wf_capacity : (0 < ht_capacity table)%nat;
  wf_buckets : length (ht_buckets table) = ht_capacity table;
  wf_placed : placed (ht_hash_func table) (ht_capacity table) (ht_buckets table);
  wf_nodup : NoDup (ht_keys table);
  wf_size : ht_size table = length (ht_entries table);
  wf_load : (ht_size table <= 2 * ht_capacity table)%nat
}.

(** The tables a client can build; a resize to zero buckets is left out,
    since any later access would divide by zero. *)
Inductive ht_reachable : PCCHashTable V -> Prop :=
| ht_reach_create initial_capacity hash_func :
    ht_reachable (pcc_hashtable_create initial_capacity hash_func)
| ht_reach_put table key value :
    ht_reachable table -> ht_reachable (pcc_hashtable_put table key value).2
| ht_reach_remove table key :
    ht_reachable table -> ht_reachable (pcc_hashtable_remove table key).2
| ht_reach_clear table :
    ht_reachable table -> ht_reachable (pcc_hashtable_clear table)
| ht_reach_resize table new_capacity :
    ht_reachable table -> (0 < new_capacity)%nat ->
    ht_reachable (pcc_hashtable_resize table new_capacity).2.
End HashTable.

(** ** hashtable.h, hashtable.c — inspection, enumeration, iteration *)

Section HashTableAccess.
Context {V : Type}.

Definition pcc_hashtable_empty (table : PCCHashTable V) : bool :=
  (ht_size table =? 0)%nat.

Definition pcc_hashtable_capacity (table : PCCHashTable V) : nat := ht_capacity table.

(** The two nested loops shared by [pcc_hashtable_get_keys],
    [pcc_hashtable_get_values] and [pcc_hashtable_get_entries]: the buckets
    by increasing index, every chain from its head; what [select] reads
    from the entry is handed to [pcc_array_push], whose status is dropped,
    and the entry is counted. *)
Definition push_entries {A : Type} (select : PCCHashEntry V -> option A)
    (table : PCCHashTable V) (array : list (option A)) : nat * list (option A) :=
  fold_left
    (fun acc index =>
       fold_left
         (fun '(count, array) entry =>
            (S count, (pcc_array_push array (select entry)).2))
         (bucket_at (ht_buckets table) index) acc)
    (seq 0 (ht_capacity table)) (0%nat, array).

Definition pcc_hashtable_get_keys (table : PCCHashTable V) (keys : list (option string))
  : nat * list (option string) :=
  push_entries (fun entry => Some (entry_key entry)) table keys.

Definition pcc_hashtable_get_values (table : PCCHashTable V) (values : list (option V))
  : nat * list (option V) :=
  push_entries entry_value table values.

Definition pcc_hashtable_get_entries (table : PCCHashTable V)
    (entries : list (option (PCCHashEntry V))) : nat * list (option (PCCHashEntry V)) :=
  push_entries Some table entries.

(** [current_entry] is the chain that starts at the entry the iterator
    stands on; [NULL] is the empty chain. *)
Record PCCHashTableIterator : Type := mkIterator {
  it_table : PCCHashTable V;
  it_bucket_index : nat;
  it_current_entry : list (PCCHashEntry V)
}.

Definition is_null_chain (chain : list (PCCHashEntry V)) : bool :=
  match chain with
  | [] => true
  | _ :: _ => false
  end.

(** [while (bucket_index < capacity && buckets[bucket_index] == NULL)
    bucket_index++;] — at most [capacity - bucket_index] rounds. *)
Fixpoint skip_empty_buckets (rounds : nat) (table : PCCHashTable V) (bucket_index : nat)
  : nat :=
  match rounds with
  | O => bucket_index
  | S rounds =>
      if (bucket_index <? ht_capacity table)%nat
         && is_null_chain (bucket_at (ht_buckets table) bucket_index)
      then skip_empty_buckets rounds table (S bucket_index)
      else bucket_index
  end.

(** The search for the next non-empty bucket from [bucket_index] on, and
    the entry the iterator then stands on. *)
Definition next_bucket (table : PCCHashTable V) (bucket_index : nat)
  : PCCHashTableIterator :=
  let bucket_index :=
    skip_empty_buckets (ht_capacity table - bucket_index) table bucket_index in
  {| it_table := table;
     it_bucket_index := bucket_index;
     it_current_entry :=
       if (bucket_index <? ht_capacity table)%nat
       then bucket_at (ht_buckets table) bucket_index
       else [] |}.

Definition pcc_hashtable_iterator_create (table : PCCHashTable V)
  : PCCHashTableIterator :=
  next_bucket table 0.

(** [None] is [PCC_FALSE]; otherwise the pair stored through [out_key]
    and [out_value]. *)
Definition pcc_hashtable_iterator_next (iterator : PCCHashTableIterator)
  : option (string * option V) * PCCHashTableIterator :=
  match it_current_entry iterator with
  | [] => (None, iterator)
  | entry :: next =>
      (Some (entry_key entry, entry_value entry),
       match next with
       | [] => next_bucket (it_table iterator) (S (it_bucket_index iterator))
       | _ :: _ =>
           {| it_table := it_table iterator;
              it_bucket_index := it_bucket_index iterator;
              it_current_entry := next |}
       end)
  end.

Definition pcc_hashtable_iterator_reset (iterator : PCCHashTableIterator)
  : PCCHashTableIterator :=
  next_bucket (it_table iterator) 0.

(** [while (pcc_hashtable_iterator_next(&iter, &key, &value)) ...], as
    [scope_free] and [scope_print] run it: the pairs visited, in order. *)
Fixpoint iterate (fuel : nat) (iterator : PCCHashTableIterator)
  : list (string * option V) :=
  match fuel with
  | O => []
  | S fuel =>
      match pcc_hashtable_iterator_next iterator with
      | (Some visited, iterator) => visited :: iterate fuel iterator
      | (None, _) => []
      end
  end.
End HashTableAccess.

(** ** lexer.h — token kinds *)

Inductive TokenType : Type :=
(* keywords *)
| TOKEN_PROMPT | TOKEN_VAR | TOKEN_TEMPLATE | TOKEN_CONSTRAINT | TOKEN_OUTPUT
| TOKEN_IF | TOKEN_ELSE | TOKEN_FOR | TOKEN_WHILE | TOKEN_IN | TOKEN_AS
| TOKEN_AND | TOKEN_OR | TOKEN_NOT | TOKEN_RAW | TOKEN_TRUE | TOKEN_FALSE
(* identifiers and literals *)
| TOKEN_IDENTIFIER | TOKEN_STRING | TOKEN_NUMBER | TOKEN_BOOLEAN
(* operators *)
| TOKEN_EQ | TOKEN_NE | TOKEN_LT | TOKEN_GT | TOKEN_LE | TOKEN_GE
| TOKEN_IN_OP | TOKEN_NOT_IN
| TOKEN_ADD | TOKEN_SUB | TOKEN_MUL | TOKEN_DIV | TOKEN_MOD | TOKEN_POW
| TOKEN_ASSIGN
(* punctuation *)
| TOKEN_LBRACE | TOKEN_RBRACE | TOKEN_LPAREN | TOKEN_RPAREN
| TOKEN_LBRACKET | TOKEN_RBRACKET | TOKEN_COMMA | TOKEN_SEMICOLON
| TOKEN_COLON | TOKEN_DOT
(* special tokens *)
| TOKEN_VARIABLE_REF | TOKEN_TEMPLATE_CALL
(* end of file and error *)
| TOKEN_EOF | TOKEN_ERROR | TOKEN_UNKNOWN.

(** ** ast.h — the tagged tree *)

Inductive ASTNodeType : Type :=
| AST_PROGRAM
| AST_PROMPT_DEF | AST_VAR_DECL | AST_TEMPLATE_DEF | AST_CONSTRAINT_DEF
| AST_OUTPUT_SPEC
| AST_IDENTIFIER | AST_STRING_LITERAL | AST_NUMBER_LITERAL | AST_BOOLEAN_LITERAL
| AST_BINARY_EXPR | AST_UNARY_EXPR | AST_VARIABLE_REF
| AST_TEMPLATE_CALL | AST_FUNCTION_CALL
| AST_IF_STMT | AST_FOR_STMT | AST_WHILE_STMT
| AST_TEXT_ELEMENT | AST_VARIABLE_ELEMENT | AST_TEMPLATE_ELEMENT
| AST_CONSTRAINT_EXPR
| AST_OUTPUT_FORMAT
| AST_STATEMENT_LIST | AST_EXPRESSION_LIST | AST_PARAMETER_LIST
| AST_ARGUMENT_LIST | AST_CONSTRAINT_LIST | AST_ELEMENT_LIST
| AST_EMPTY.

(** The two tags that share the payload [ASTCallExpr]. *)
Inductive CallKind : Type := FunctionCall | TemplateCall.

(** The six tags whose [data] is the element array itself. *)
Inductive ListKind : Type :=
| StatementList | ExpressionList | ParameterList
| ArgumentList | ConstraintList | ElementList.

(** The tags for which ast.h declares no payload structure. *)
Inductive BareKind : Type :=
| BareVariableElement | BareTemplateElement | BareOutputFormat | BareEmpty.

(** An [ASTNode] with the payload its tag announces, as the
    [ast_*_create] constructors build it: one constructor per payload
    structure of ast.h.  Child pointers and arrays may be [NULL].  The
    slots of an array are pointers as well: [pcc_array_push] and
    [pcc_array_set] refuse to store [NULL], but the functions below read a
    slot with [pcc_array_get] and are defined whatever it holds. *)
Inductive ASTNode : Type :=
| Program (position : PCCPosition) (statements : option (list (option ASTNode)))
| PromptDef (position : PCCPosition) (name : string) (body : option ASTNode)
| VarDecl (position : PCCPosition) (name : string) (initializer : option ASTNode)
| TemplateDef (position : PCCPosition) (name : string)
    (parameters : option (list string)) (body : option ASTNode)
| ConstraintDef (position : PCCPosition) (name : string)
    (constraints : option (list (option ASTNode)))
| OutputSpec (position : PCCPosition) (name : string) (format : Z)
| Identifier (position : PCCPosition) (name : string)
| StringLiteral (position : PCCPosition) (string_val : string)
| NumberLiteral (position : PCCPosition) (number_val : float)
| BooleanLiteral (position : PCCPosition) (bool_val : Z)
| BinaryExpr (position : PCCPosition) (op_type : TokenType)
    (left right : option ASTNode)
| UnaryExpr (position : PCCPosition) (op_type : TokenType) (operand : option ASTNode)
| VariableRef (position : PCCPosition) (name : string)
| CallExpr (kind : CallKind) (position : PCCPosition) (name : string)
    (arguments : option (list (option ASTNode)))
| IfStmt (position : PCCPosition)
    (condition then_body else_body : option ASTNode)
| ForStmt (position : PCCPosition) (variable : string)
    (iterable body : option ASTNode)
| WhileStmt (position : PCCPosition) (condition body : option ASTNode)
| TextElement (position : PCCPosition) (text : string) (is_raw : Z)
| ConstraintExpr (position : PCCPosition) (variable : string)
    (op_type : TokenType) (value : option ASTNode)
| ListNode (kind : ListKind) (position : PCCPosition)
    (elements : option (list (option ASTNode)))
| BareNode (kind : BareKind) (position : PCCPosition).

(** [node->type]. *)
Definition node_type (node : ASTNode) : ASTNodeType :=
  match node with
  | Program _ _ => AST_PROGRAM
  | PromptDef _ _ _ => AST_PROMPT_DEF
  | VarDecl _ _ _ => AST_VAR_DECL
  | TemplateDef _ _ _ _ => AST_TEMPLATE_DEF
  | ConstraintDef _ _ _ => AST_CONSTRAINT_DEF
  | OutputSpec _ _ _ => AST_OUTPUT_SPEC
  | Identifier _ _ => AST_IDENTIFIER
  | StringLiteral _ _ => AST_STRING_LITERAL
  | NumberLiteral _ _ => AST_NUMBER_LITERAL
  | BooleanLiteral _ _ => AST_BOOLEAN_LITERAL
  | BinaryExpr _ _ _ _ => AST_BINARY_EXPR
  | UnaryExpr _ _ _ => AST_UNARY_EXPR
  | VariableRef _ _ => AST_VARIABLE_REF
  | CallExpr FunctionCall _ _ _ => AST_FUNCTION_CALL
  | CallExpr TemplateCall _ _ _ => AST_TEMPLATE_CALL
  | IfStmt _ _ _ _ => AST_IF_STMT
  | ForStmt _ _ _ _ => AST_FOR_STMT
  | WhileStmt _ _ _ => AST_WHILE_STMT
  | TextElement _ _ _ => AST_TEXT_ELEMENT
  | ConstraintExpr _ _ _ _ => AST_CONSTRAINT_EXPR
  | ListNode StatementList _ _ => AST_STATEMENT_LIST
  | ListNode ExpressionList _ _ => AST_EXPRESSION_LIST
  | ListNode ParameterList _ _ => AST_PARAMETER_LIST
  | ListNode ArgumentList _ _ => AST_ARGUMENT_LIST
  | ListNode ConstraintList _ _ => AST_CONSTRAINT_LIST
  | ListNode ElementList _ _ => AST_ELEMENT_LIST
  | BareNode BareVariableElement _ => AST_VARIABLE_ELEMENT
  | BareNode BareTemplateElement _ => AST_TEMPLATE_ELEMENT
  | BareNode BareOutputFormat _ => AST_OUTPUT_FORMAT
  | BareNode BareEmpty _ => AST_EMPTY
  end.

(** [node->position]. *)
Definition node_position (node : ASTNode) : PCCPosition :=
  match node with
  | Program p _ | PromptDef p _ _ | VarDecl p _ _ | TemplateDef p _ _ _
  | ConstraintDef p _ _ | OutputSpec p _ _ | Identifier p _
  | StringLiteral p _ | NumberLiteral p _ | BooleanLiteral p _
  | BinaryExpr p _ _ _ | UnaryExpr p _ _ | VariableRef p _
  | CallExpr _ p _ _ | IfStmt p _ _ _ | ForStmt p _ _ _ | WhileStmt p _ _
  | TextElement p _ _ | ConstraintExpr p _ _ _ | ListNode _ p _
  | BareNode _ p => p
  end.

Definition ast_node_type_name (type : ASTNodeType) : string :=
  match type with
  | AST_PROGRAM => "PROGRAM"
  | AST_PROMPT_DEF => "PROMPT_DEF"
  | AST_VAR_DECL => "VAR_DECL"
  | AST_TEMPLATE_DEF => "TEMPLATE_DEF"
  | AST_CONSTRAINT_DEF => "CONSTRAINT_DEF"
  | AST_OUTPUT_SPEC => "OUTPUT_SPEC"
  | AST_IDENTIFIER => "IDENTIFIER"
  | AST_STRING_LITERAL => "STRING_LITERAL"
  | AST_NUMBER_LITERAL => "NUMBER_LITERAL"
  | AST_BOOLEAN_LITERAL => "BOOLEAN_LITERAL"
  | AST_BINARY_EXPR => "BINARY_EXPR"
  | AST_UNARY_EXPR => "UNARY_EXPR"
  | AST_VARIABLE_REF => "VARIABLE_REF"
  | AST_TEMPLATE_CALL => "TEMPLATE_CALL"
  | AST_FUNCTION_CALL => "FUNCTION_CALL"
  | AST_IF_STMT => "IF_STMT"
  | AST_FOR_STMT => "FOR_STMT"
  | AST_WHILE_STMT => "WHILE_STMT"
  | AST_TEXT_ELEMENT => "TEXT_ELEMENT"
  | AST_VARIABLE_ELEMENT => "UNKNOWN"
  | AST_TEMPLATE_ELEMENT => "UNKNOWN"
  | AST_CONSTRAINT_EXPR => "CONSTRAINT_EXPR"
  | AST_OUTPUT_FORMAT => "OUTPUT_FORMAT"
  | AST_STATEMENT_LIST => "STATEMENT_LIST"
  | AST_EXPRESSION_LIST => "EXPRESSION_LIST"
  | AST_PARAMETER_LIST => "PARAMETER_LIST"
  | AST_ARGUMENT_LIST => "ARGUMENT_LIST"
  | AST_CONSTRAINT_LIST => "CONSTRAINT_LIST"
  | AST_ELEMENT_LIST => "ELEMENT_LIST"
  | AST_EMPTY => "EMPTY"
  end.

(** The name of a tag as the enumeration of ast.h spells it, without the
    prefix [AST_]: the kind name that [ast_node_type_name] is to return. *)
Definition enumerator_name (type : ASTNodeType) : string :=
  match type with
  | AST_PROGRAM => "PROGRAM"
  | AST_PROMPT_DEF => "PROMPT_DEF"
  | AST_VAR_DECL => "VAR_DECL"
  | AST_TEMPLATE_DEF => "TEMPLATE_DEF"
  | AST_CONSTRAINT_DEF => "CONSTRAINT_DEF"
  | AST_OUTPUT_SPEC => "OUTPUT_SPEC"
  | AST_IDENTIFIER => "IDENTIFIER"
  | AST_STRING_LITERAL => "STRING_LITERAL"
  | AST_NUMBER_LITERAL => "NUMBER_LITERAL"
  | AST_BOOLEAN_LITERAL => "BOOLEAN_LITERAL"
  | AST_BINARY_EXPR => "BINARY_EXPR"
  | AST_UNARY_EXPR => "UNARY_EXPR"
  | AST_VARIABLE_REF => "VARIABLE_REF"
  | AST_TEMPLATE_CALL => "TEMPLATE_CALL"
  | AST_FUNCTION_CALL => "FUNCTION_CALL"
  | AST_IF_STMT => "IF_STMT"
  | AST_FOR_STMT => "FOR_STMT"
  | AST_WHILE_STMT => "WHILE_STMT"
  | AST_TEXT_ELEMENT => "TEXT_ELEMENT"
  | AST_VARIABLE_ELEMENT => "VARIABLE_ELEMENT"
  | AST_TEMPLATE_ELEMENT => "TEMPLATE_ELEMENT"
  | AST_CONSTRAINT_EXPR => "CONSTRAINT_EXPR"
  | AST_OUTPUT_FORMAT => "OUTPUT_FORMAT"
  | AST_STATEMENT_LIST => "STATEMENT_LIST"
  | AST_EXPRESSION_LIST => "EXPRESSION_LIST"
  | AST_PARAMETER_LIST => "PARAMETER_LIST"
  | AST_ARGUMENT_LIST => "ARGUMENT_LIST"
  | AST_CONSTRAINT_LIST => "CONSTRAINT_LIST"
  | AST_ELEMENT_LIST => "ELEMENT_LIST"
  | AST_EMPTY => "EMPTY"
  end.

(** The two tags that the [switch] of [ast_node_type_name] has no case
    for. *)
Definition is_unnamed (type : ASTNodeType) : bool :=
  match type with
  | AST_VARIABLE_ELEMENT | AST_TEMPLATE_ELEMENT => true
  | _ => false
  end.

(** The program root carries the position [{0, 0, "<program>"}]. *)
Definition ast_program_create (statements : option (list (option ASTNode))) : ASTNode :=
  Program (mkPosition 0 0 "<program>") statements.

(** A property of the nodes behind a child pointer, and behind the slots
    of an array: the shape of the induction hypothesis on a tree that is
    nested in [option] and [list]. *)
Definition on_pointer (P : ASTNode -> Prop) (node : option ASTNode) : Prop :=
  match node with
  | Some n => P n
  | None => True
  end.

Definition on_array (P : ASTNode -> Prop) (elements : option (list (option ASTNode)))
  : Prop :=
  match elements with
  | Some elements => Forall (on_pointer P) elements
  | None => True
  end.

(** ** symbol_table.c — chained scopes *)

Inductive SymbolType : Type :=
| SYMBOL_VARIABLE | SYMBOL_TEMPLATE | SYMBOL_PROMPT
| SYMBOL_CONSTRAINT | SYMBOL_PARAMETER | SYMBOL_UNKNOWN.

Definition SymbolType_eqb (a b : SymbolType) : bool :=
  match a, b with
  | SYMBOL_VARIABLE, SYMBOL_VARIABLE | SYMBOL_TEMPLATE, SYMBOL_TEMPLATE
  | SYMBOL_PROMPT, SYMBOL_PROMPT | SYMBOL_CONSTRAINT, SYMBOL_CONSTRAINT
  | SYMBOL_PARAMETER, SYMBOL_PARAMETER | SYMBOL_UNKNOWN, SYMBOL_UNKNOWN => true
  | _, _ => false
  end.

(** [sym_data] is the [void*] that points at the defining AST node. *)
Record Symbol : Type := mkSymbol {
  sym_name : string;
  sym_type : SymbolType;
  sym_data : option ASTNode;
  sym_is_defined : Z;
  sym_is_used : Z;
  sym_position : PCCPosition
}.

(** A [Scope*] is the index of the scope in [all_scopes]: every scope the
    table creates is pushed there and none is removed before teardown. *)
Record Scope : Type := mkScope {
  scope_symbols : PCCHashTable Symbol;
  scope_parent : option nat;
  scope_level : Z
}.

Record SemanticError : Type := mkSemanticError {
  err_message : string;
  err_position : PCCPosition;
  err_code : Z
}.

Record SymbolTable : Type := mkSymbolTable {
  current_scope : nat;
  global_scope : nat;
  all_scopes : list Scope;
  st_errors : list SemanticError
}.

Definition SEM_ERROR_UNDEFINED_SYMBOL : Z := 1.
Definition SEM_ERROR_REDEFINED_SYMBOL : Z := 2.
Definition SEM_ERROR_TYPE_MISMATCH : Z := 3.
Definition SEM_ERROR_INVALID_OPERATION : Z := 4.
Definition SEM_ERROR_MISSING_ARGUMENT : Z := 5.
Definition SEM_ERROR_TOO_MANY_ARGUMENTS : Z := 6.

(** [snprintf(error_msg, sizeof(error_msg), ...)] with
    [char error_msg[512]]: the formatted text, cut after 511 characters. *)
Definition snprintf_512 (formatted : string) : string :=
  String.substring 0 511 formatted.

Definition symbol_create (name : string) (type : SymbolType) (data : option ASTNode)
    (position : PCCPosition) : Symbol :=
  {| sym_name := name; sym_type := type; sym_data := data;
     sym_is_defined := 1; sym_is_used := 0; sym_position := position |}.

Definition scope_create (parent : option nat) (level : Z) : Scope :=
  {| scope_symbols := pcc_hashtable_create INITIAL_CAPACITY None;
     scope_parent := parent;
     scope_level := level |}.

Definition symbol_table_create : SymbolTable :=
  {| current_scope := 0%nat;
     global_scope := 0%nat;
     all_scopes := [scope_create None 0];
     st_errors := [] |}.

(** Dereferencing a [Scope*].  The indices a table holds are always in
    range (see [st_wf]); the default only makes the function total. *)
Definition scope_at (table : SymbolTable) (scope : nat) : Scope :=
  default (scope_create None 0) (all_scopes table !! scope).

(** Writing through a [Scope*]. *)
Definition set_scope (table : SymbolTable) (scope : nat) (s : Scope) : SymbolTable :=
  {| current_scope := current_scope table;
     global_scope := global_scope table;
     all_scopes := <[scope := s]> (all_scopes table);
     st_errors := st_errors table |}.

(** The nesting depth is a C [int]; it is not bounded here since a
    table cannot hold 2^31 scopes. *)
Definition symbol_table_enter_scope (table : SymbolTable) : PCCError * SymbolTable :=
  let new_scope :=
    scope_create (Some (current_scope table))
                 (scope_level (scope_at table (current_scope table)) + 1) in
  (PCC_SUCCESS,
   {| current_scope := length (all_scopes table);
      global_scope := global_scope table;
      all_scopes := all_scopes table ++ [new_scope];
      st_errors := st_errors table |}).

Definition symbol_table_exit_scope (table : SymbolTable) : PCCError * SymbolTable :=
  match scope_parent (scope_at table (current_scope table)) with
  | None => (* Cannot exit global scope *) (PCC_ERROR_RUNTIME, table)
  | Some parent =>
      (PCC_SUCCESS,
       {| current_scope := parent;
          global_scope := global_scope table;
          all_scopes := all_scopes table;
          st_errors := st_errors table |})
  end.

Definition symbol_table_current_scope (table : SymbolTable) : nat := current_scope table.
Definition symbol_table_global_scope (table : SymbolTable) : nat := global_scope table.

Definition symbol_table_add_error (table : SymbolTable) (message : string)
    (position : PCCPosition) (error_code : Z) : PCCError * SymbolTable :=
  (PCC_SUCCESS,
   {| current_scope := current_scope table;
      global_scope := global_scope table;
      all_scopes := all_scopes table;
      st_errors := st_errors table ++ [mkSemanticError message position error_code] |}).

(** ["Symbol '%s' already defined in this scope"]. *)
Definition redefinition_message (name : string) : string :=
  snprintf_512 ("Symbol '" +:+ name +:+ "' already defined in this scope").

Definition symbol_table_add (table : SymbolTable) (symbol : Symbol)
  : PCCError * SymbolTable :=
  let scope := scope_at table (current_scope table) in
  if pcc_hashtable_contains (scope_symbols scope) (sym_name symbol) then
    let error_msg := redefinition_message (sym_name symbol) in
    let '(_, table) :=
      symbol_table_add_error table error_msg (sym_position symbol)
                             SEM_ERROR_REDEFINED_SYMBOL in
    (PCC_ERROR_SEMANTIC, table)
  else
    let '(err, symbols) :=
      pcc_hashtable_put (scope_symbols scope) (sym_name symbol) (Some symbol) in
    let table :=
      set_scope table (current_scope table)
        {| scope_symbols := symbols;
           scope_parent := scope_parent scope;
           scope_level := scope_level scope |} in
    if negb (PCCError_eqb err PCC_SUCCESS) then (err, table)
    else (PCC_SUCCESS, table).

(** The [while (scope != NULL)] walk of [symbol_table_lookup], together
    with the scope in which the symbol was found.  [fuel] bounds the number
    of scopes visited. *)
Fixpoint lookup_chain (fuel : nat) (table : SymbolTable) (scope : option nat)
    (name : string) : option (nat * Symbol) :=
  match fuel with
  | O => None
  | S fuel =>
      match scope with
      | None => None
      | Some s =>
          match pcc_hashtable_get (scope_symbols (scope_at table s)) name with
          | Some symbol => Some (s, symbol)
          | None => lookup_chain fuel table (scope_parent (scope_at table s)) name
          end
      end
  end.

(** A parent is always an older scope, so a walk visits at most
    [length all_scopes] scopes. *)
Definition symbol_table_lookup_in (table : SymbolTable) (name : string)
  : option (nat * Symbol) :=
  lookup_chain (length (all_scopes table)) table (Some (current_scope table)) name.

Definition symbol_table_lookup (table : SymbolTable) (name : string) : option Symbol :=
  snd <$> symbol_table_lookup_in table name.

Definition symbol_table_lookup_local (table : SymbolTable) (name : string)
  : option Symbol :=
  pcc_hashtable_get (scope_symbols (scope_at table (current_scope table))) name.

Definition symbol_table_contains (table : SymbolTable) (name : string) : bool :=
  match symbol_table_lookup table name with
  | Some _ => true
  | None => false
  end.

(** Assignment through the [Symbol*] held by a chain entry: the entry
    keeps its place, only the record it points at changes. *)
Fixpoint chain_modify (chain : list (PCCHashEntry Symbol)) (key : string)
    (f : Symbol -> Symbol) : list (PCCHashEntry Symbol) :=
  match chain with
  | [] => []
  | entry :: next =>
      if String.eqb (entry_key entry) key
      then mkEntry (entry_key entry) (f <$> entry_value entry) :: next
      else entry :: chain_modify next key f
  end.

Definition symbol_modify (symbols : PCCHashTable Symbol) (key : string)
    (f : Symbol -> Symbol) : PCCHashTable Symbol :=
  let index := bucket_index (ht_hash_func symbols) (ht_capacity symbols) key in
  {| ht_buckets :=
       <[index := chain_modify (bucket_at (ht_buckets symbols) index) key f]>
         (ht_buckets symbols);
     ht_size := ht_size symbols;
     ht_capacity := ht_capacity symbols;
     ht_hash_func := ht_hash_func symbols |}.

Definition set_is_used (symbol : Symbol) : Symbol :=
  {| sym_name := sym_name symbol; sym_type := sym_type symbol;
     sym_data := sym_data symbol; sym_is_defined := sym_is_defined symbol;
     sym_is_used := 1; sym_position := sym_position symbol |}.

Definition symbol_table_mark_used (table : SymbolTable) (name : string)
  : PCCError * SymbolTable :=
  match symbol_table_lookup_in table name with
  | None =>
      let pos := mkPosition 0 0 "<unknown>" in
      let error_msg := snprintf_512 ("Undefined symbol '" +:+ name +:+ "'") in
      let '(_, table) :=
        symbol_table_add_error table error_msg pos SEM_ERROR_UNDEFINED_SYMBOL in
      (PCC_ERROR_SEMANTIC, table)
  | Some (s, _) =>
      let scope := scope_at table s in
      (PCC_SUCCESS,
       set_scope table s
         {| scope_symbols := symbol_modify (scope_symbols scope) name set_is_used;
            scope_parent := scope_parent scope;
            scope_level := scope_level scope |})
  end.

Definition symbol_table_error_count (table : SymbolTable) : nat :=
  length (st_errors table).

Definition symbol_table_get_error (table : SymbolTable) (index : nat)
  : option SemanticError :=
  st_errors table !! index.

(** The states a client can bring a table into. *)
Inductive st_reachable : SymbolTable -> Prop :=
| reach_create : st_reachable symbol_table_create
| reach_enter_scope table :
    st_reachable table -> st_reachable (symbol_table_enter_scope table).2
| reach_exit_scope table :
    st_reachable table -> st_reachable (symbol_table_exit_scope table).2
| reach_add table symbol :
    st_reachable table -> st_reachable (symbol_table_add table symbol).2
| reach_add_error table message position error_code :
    st_reachable table ->
    st_reachable (symbol_table_add_error table message position error_code).2
| reach_mark_used table name :
    st_reachable table -> st_reachable (symbol_table_mark_used table name).2.

(** Following [parent] links [n] times. *)
Fixpoint nth_ancestor (table : SymbolTable) (n : nat) (scope : nat) : option nat :=
  match n with
  | O => Some scope
  | S n =>
      match scope_parent (scope_at table scope) with
      | None => None
      | Some parent => nth_ancestor table n parent
      end
  end.

(** Every stored value is a symbol, never [NULL]. *)
Definition values_present (symbols : PCCHashTable Symbol) : Prop :=
  forall key, key ∈ ht_keys symbols -> is_Some (pcc_hashtable_get symbols key).

(** The shape of the scope chain and of the per-scope maps. *)
Record st_wf (table : SymbolTable) : Prop := mk_st_wf {
  st_global : global_scope table = 0%nat;
  st_current : (current_scope table < length (all_scopes table))%nat;
  st_root : exists g, all_scopes table !! 0%nat = Some g /\
                      scope_parent g = None /\ scope_level g = 0;
  st_parent : forall i s, all_scopes table !! i = Some s -> i <> 0%nat ->
              exists p ps, scope_parent s = Some p /\ (p < i)%nat /\
                           all_scopes table !! p = Some ps /\
                           scope_level s = scope_level ps + 1;
  st_maps : forall i s, all_scopes table !! i = Some s ->
            ht_wf (scope_symbols s) /\ values_present (scope_symbols s)
}.

(** The state of a table while a scope opened on [table] is being
    filled. *)
Definition in_new_scope (table table' : SymbolTable) : Prop :=
  st_wf table' /\
  current_scope table' = length (all_scopes table) /\
  length (all_scopes table') = S (length (all_scopes table)) /\
  (forall i, (i < length (all_scopes table))%nat ->
     all_scopes table' !! i = all_scopes table !! i) /\
  scope_parent (scope_at table' (length (all_scopes table)))
    = Some (current_scope table) /\
  st_errors table `prefix_of` st_errors table'.

(** ** semantic.c — the semantic analyzer *)

(** [analyzer->errors] is the very array [symbol_table->errors]: it is
    read through the table. *)
Record SemanticAnalyzer : Type := mkAnalyzer {
  symbol_table : SymbolTable;
  has_errors : Z
}.

Definition analyzer_errors (analyzer : SemanticAnalyzer) : list SemanticError :=
  st_errors (symbol_table analyzer).

Definition with_table (analyzer : SemanticAnalyzer) (table : SymbolTable)
  : SemanticAnalyzer :=
  {| symbol_table := table; has_errors := has_errors analyzer |}.

Definition add_error (analyzer : SemanticAnalyzer) (message : string)
    (position : PCCPosition) (error_code : Z) : SemanticAnalyzer :=
  {| symbol_table :=
       (symbol_table_add_error (symbol_table analyzer) message position error_code).2;
     has_errors := 1 |}.

Definition semantic_analyzer_create : SemanticAnalyzer :=
  {| symbol_table := symbol_table_create; has_errors := 0 |}.

(** A call of the analyzer either returns a status and the updated
    analyzer, or does not return at all ([None]): [semantic_analyze] sends
    a [CONSTRAINT_EXPR] node to [analyze_expression], whose [default] case
    sends the same node back to [semantic_analyze]. *)
Definition Analysis : Type := option (PCCError * SemanticAnalyzer).

Notation "'run' ( x , y ) <- e 'and_then' k" :=
  (match e with
   | Some (x, y) => k
   | None => None
   end)
  (at level 10, x name, y name, e at level 100, k at level 200,
   format "'[v' 'run'  ( x ,  y )  <-  e  'and_then' '/' k ']'").

Definition is_error (err : PCCError) : bool := negb (PCCError_eqb err PCC_SUCCESS).

Section Analyze.
(** The recursive entry point on a node that exists. *)
Variable rec : ASTNode -> SemanticAnalyzer -> Analysis.

(** [semantic_analyze(analyzer, node)] on a pointer: [NULL] is a
    runtime error. *)
Definition analyze_pointer (node : option ASTNode) (analyzer : SemanticAnalyzer)
  : Analysis :=
  match node with
  | None => Some (PCC_ERROR_RUNTIME, analyzer)
  | Some n => rec n analyzer
  end.

(** [for (i...) { err = semantic_analyze(...); if (err != PCC_SUCCESS)
    return err; } return PCC_SUCCESS;] *)
Definition analyze_until_error : list (option ASTNode) -> SemanticAnalyzer -> Analysis :=
  fix loop (elements : list (option ASTNode)) (analyzer : SemanticAnalyzer) : Analysis :=
    match elements with
    | [] => Some (PCC_SUCCESS, analyzer)
    | elem :: rest =>
        run (err, analyzer) <- analyze_pointer elem analyzer and_then
        if is_error err then Some (err, analyzer) else loop rest analyzer
    end.

(** [for (i...) semantic_analyze(...);] — the statuses are dropped. *)
Definition analyze_all : list (option ASTNode) -> SemanticAnalyzer -> Analysis :=
  fix loop (elements : list (option ASTNode)) (analyzer : SemanticAnalyzer) : Analysis :=
    match elements with
    | [] => Some (PCC_SUCCESS, analyzer)
    | elem :: rest =>
        run (_err, analyzer) <- analyze_pointer elem analyzer and_then
        loop rest analyzer
    end.

(** [if (p != NULL) semantic_analyze(analyzer, p);] *)
Definition analyze_if_present (node : option ASTNode) (analyzer : SemanticAnalyzer)
  : Analysis :=
  match node with
  | None => Some (PCC_SUCCESS, analyzer)
  | Some n => run (_err, analyzer) <- rec n analyzer and_then Some (PCC_SUCCESS, analyzer)
  end.

Definition analyze_program (analyzer : SemanticAnalyzer)
    (statements : option (list (option ASTNode))) : Analysis :=
  match statements with
  | None => Some (PCC_SUCCESS, analyzer)
  | Some statements => analyze_until_error statements analyzer
  end.

(** The shared opening of the four definitions: register the symbol in
    the current scope. *)
Definition declare (analyzer : SemanticAnalyzer) (name : string) (type : SymbolType)
    (data : option ASTNode) (position : PCCPosition) : PCCError * SemanticAnalyzer :=
  let symbol := symbol_create name type data position in
  let '(err, table) := symbol_table_add (symbol_table analyzer) symbol in
  (err, with_table analyzer table).

Definition analyze_prompt_def (analyzer : SemanticAnalyzer) (node : ASTNode)
    (name : string) (body : option ASTNode) : Analysis :=
  let '(err, analyzer) :=
    declare analyzer name SYMBOL_PROMPT (Some node) (node_position node) in
  if is_error err then Some (err, analyzer)
  else match body with
       | Some body => rec body analyzer
       | None => Some (PCC_SUCCESS, analyzer)
       end.

Definition analyze_var_decl (analyzer : SemanticAnalyzer) (node : ASTNode)
    (name : string) (initializer : option ASTNode) : Analysis :=
  let '(err, analyzer) :=
    declare analyzer name SYMBOL_VARIABLE (Some node) (node_position node) in
  if is_error err then Some (err, analyzer)
  else match initializer with
       | Some initializer => rec initializer analyzer
       | None => Some (PCC_SUCCESS, analyzer)
       end.

(** The parameter loop of [analyze_template_def]; the status of each
    [symbol_table_add] is dropped. *)
Fixpoint declare_parameters (analyzer : SemanticAnalyzer) (parameters : list string)
    (position : PCCPosition) : SemanticAnalyzer :=
  match parameters with
  | [] => analyzer
  | param_name :: rest =>
      declare_parameters
        (declare analyzer param_name SYMBOL_PARAMETER None position).2 rest position
  end.

Definition analyze_template_def (analyzer : SemanticAnalyzer) (node : ASTNode)
    (name : string) (parameters : option (list string)) (body : option ASTNode)
  : Analysis :=
  let '(err, analyzer) :=
    declare analyzer name SYMBOL_TEMPLATE (Some node) (node_position node) in
  if is_error err then Some (err, analyzer)
  else
    let analyzer :=
      with_table analyzer (symbol_table_enter_scope (symbol_table analyzer)).2 in
    let analyzer :=
      match parameters with
      | Some parameters => declare_parameters analyzer parameters (node_position node)
      | None => analyzer
      end in
    run (err, analyzer) <-
      match body with
      | Some body => rec body analyzer
      | None => Some (err, analyzer)
      end and_then
    let analyzer :=
      with_table analyzer (symbol_table_exit_scope (symbol_table analyzer)).2 in
    Some (err, analyzer).

Definition analyze_constraint_def (analyzer : SemanticAnalyzer) (node : ASTNode)
    (name : string) (constraints : option (list (option ASTNode))) : Analysis :=
  let '(err, analyzer) :=
    declare analyzer name SYMBOL_CONSTRAINT (Some node) (node_position node) in
  if is_error err then Some (err, analyzer)
  else match constraints with
       | Some constraints => analyze_until_error constraints analyzer
       | None => Some (PCC_SUCCESS, analyzer)
       end.

Definition analyze_output_spec (analyzer : SemanticAnalyzer) (position : PCCPosition)
    (name : string) : Analysis :=
  match symbol_table_lookup (symbol_table analyzer) name with
  | None =>
      let error_msg :=
        snprintf_512 ("Undefined prompt '" +:+ name +:+ "' in OUTPUT specification") in
      Some (PCC_ERROR_SEMANTIC,
            add_error analyzer error_msg position SEM_ERROR_UNDEFINED_SYMBOL)
  | Some symbol =>
      if negb (SymbolType_eqb (sym_type symbol) SYMBOL_PROMPT) then
        let error_msg :=
          snprintf_512 ("'" +:+ name +:+ "' is not a prompt in OUTPUT specification") in
        Some (PCC_ERROR_SEMANTIC,
              add_error analyzer error_msg position SEM_ERROR_TYPE_MISMATCH)
      else Some (PCC_SUCCESS, analyzer)
  end.

(** [analyze_expression] on a binary node: both operands, statuses
    dropped. *)
Definition analyze_binary_expr (analyzer : SemanticAnalyzer)
    (left right : option ASTNode) : Analysis :=
  run (_err, analyzer) <- analyze_pointer left analyzer and_then
  run (_err, analyzer) <- analyze_pointer right analyzer and_then
  Some (PCC_SUCCESS, analyzer).

Definition analyze_unary_expr (analyzer : SemanticAnalyzer)
    (operand : option ASTNode) : Analysis :=
  run (_err, analyzer) <- analyze_pointer operand analyzer and_then
  Some (PCC_SUCCESS, analyzer).

Definition analyze_identifier (analyzer : SemanticAnalyzer) (position : PCCPosition)
    (name : string) : Analysis :=
  match symbol_table_lookup (symbol_table analyzer) name with
  | None =>
      let error_msg := snprintf_512 ("Undefined identifier '" +:+ name +:+ "'") in
      Some (PCC_ERROR_SEMANTIC,
            add_error analyzer error_msg position SEM_ERROR_UNDEFINED_SYMBOL)
  | Some _ => Some (PCC_SUCCESS, analyzer)
  end.

(** ["Undefined variable '$%s'"]. *)
Definition undefined_variable_message (name : string) : string :=
  snprintf_512 ("Undefined variable '$" +:+ name +:+ "'").

Definition analyze_variable_ref (analyzer : SemanticAnalyzer) (position : PCCPosition)
    (name : string) : Analysis :=
  match symbol_table_lookup (symbol_table analyzer) name with
  | None =>
      Some (PCC_ERROR_SEMANTIC,
            add_error analyzer (undefined_variable_message name) position
                      SEM_ERROR_UNDEFINED_SYMBOL)
  | Some symbol =>
      if negb (SymbolType_eqb (sym_type symbol) SYMBOL_VARIABLE) &&
         negb (SymbolType_eqb (sym_type symbol) SYMBOL_PARAMETER) then
        let error_msg := snprintf_512 ("'$" +:+ name +:+ "' is not a variable") in
        Some (PCC_ERROR_SEMANTIC,
              add_error analyzer error_msg position SEM_ERROR_TYPE_MISMATCH)
      else
        (* Mark as used *)
        Some (PCC_SUCCESS,
              with_table analyzer
                (symbol_table_mark_used (symbol_table analyzer) name).2)
  end.

(** ["Undefined template '%s'"]. *)
Definition undefined_template_message (name : string) : string :=
  snprintf_512 ("Undefined template '" +:+ name +:+ "'").

Definition analyze_function_call (analyzer : SemanticAnalyzer) (position : PCCPosition)
    (name : string) (arguments : option (list (option ASTNode))) : Analysis :=
  match symbol_table_lookup (symbol_table analyzer) name with
  | None =>
      Some (PCC_ERROR_SEMANTIC,
            add_error analyzer (undefined_template_message name) position
                      SEM_ERROR_UNDEFINED_SYMBOL)
  | Some symbol =>
      if negb (SymbolType_eqb (sym_type symbol) SYMBOL_TEMPLATE) then
        let error_msg := snprintf_512 ("'" +:+ name +:+ "' is not a template") in
        Some (PCC_ERROR_SEMANTIC,
              add_error analyzer error_msg position SEM_ERROR_TYPE_MISMATCH)
      else
        match arguments with
        | Some arguments => analyze_all arguments analyzer
        | None => Some (PCC_SUCCESS, analyzer)
        end
  end.

Definition analyze_if_stmt (analyzer : SemanticAnalyzer)
    (condition then_body else_body : option ASTNode) : Analysis :=
  run (_err, analyzer) <- analyze_if_present condition analyzer and_then
  run (_err, analyzer) <- analyze_if_present then_body analyzer and_then
  run (_err, analyzer) <- analyze_if_present else_body analyzer and_then
  Some (PCC_SUCCESS, analyzer).

Definition analyze_for_stmt (analyzer : SemanticAnalyzer) (position : PCCPosition)
    (variable : string) (iterable body : option ASTNode) : Analysis :=
  let analyzer :=
    with_table analyzer (symbol_table_enter_scope (symbol_table analyzer)).2 in
  let analyzer := (declare analyzer variable SYMBOL_VARIABLE None position).2 in
  run (_err, analyzer) <- analyze_if_present iterable analyzer and_then
  run (_err, analyzer) <- analyze_if_present body analyzer and_then
  let analyzer :=
    with_table analyzer (symbol_table_exit_scope (symbol_table analyzer)).2 in
  Some (PCC_SUCCESS, analyzer).

Definition analyze_while_stmt (analyzer : SemanticAnalyzer)
    (condition body : option ASTNode) : Analysis :=
  run (_err, analyzer) <- analyze_if_present condition analyzer and_then
  run (_err, analyzer) <- analyze_if_present body analyzer and_then
  Some (PCC_SUCCESS, analyzer).

(** The [switch] of [analyze_element_list] has no case for
    [AST_PARAMETER_LIST]. *)
Definition analyze_element_list (analyzer : SemanticAnalyzer) (kind : ListKind)
    (elements : option (list (option ASTNode))) : Analysis :=
  match kind with
  | ParameterList => Some (PCC_ERROR_RUNTIME, analyzer)
  | _ =>
      match elements with
      | None => Some (PCC_SUCCESS, analyzer)
      | Some elements => analyze_until_error elements analyzer
      end
  end.
End Analyze.

(** [semantic_analyze] on a node that exists: the dispatch on
    [node->type]. *)
Fixpoint semantic_analyze_node (node : ASTNode) (analyzer : SemanticAnalyzer)
    {struct node} : Analysis :=
  match node with
  | Program _ statements =>
      analyze_program semantic_analyze_node analyzer statements
  | PromptDef _ name body =>
      analyze_prompt_def semantic_analyze_node analyzer node name body
  | VarDecl _ name initializer =>
      analyze_var_decl semantic_analyze_node analyzer node name initializer
  | TemplateDef _ name parameters body =>
      analyze_template_def semantic_analyze_node analyzer node name parameters body
  | ConstraintDef _ name constraints =>
      analyze_constraint_def semantic_analyze_node analyzer node name constraints
  | OutputSpec position name _ => analyze_output_spec analyzer position name
  | Identifier position name => analyze_identifier analyzer position name
  | StringLiteral _ _ | NumberLiteral _ _ | BooleanLiteral _ _ =>
      Some (PCC_SUCCESS, analyzer) (* Literals are always valid *)
  | BinaryExpr _ _ lhs rhs =>
      analyze_binary_expr semantic_analyze_node analyzer lhs rhs
  | UnaryExpr _ _ operand =>
      analyze_unary_expr semantic_analyze_node analyzer operand
  | VariableRef position name => analyze_variable_ref analyzer position name
  | CallExpr _ position name arguments =>
      analyze_function_call semantic_analyze_node analyzer position name arguments
  | IfStmt _ condition then_body else_body =>
      analyze_if_stmt semantic_analyze_node analyzer condition then_body else_body
  | ForStmt position variable iterable body =>
      analyze_for_stmt semantic_analyze_node analyzer position variable iterable body
  | WhileStmt _ condition body =>
      analyze_while_stmt semantic_analyze_node analyzer condition body
  | TextElement _ _ _ => Some (PCC_SUCCESS, analyzer)
  | ConstraintExpr _ _ _ _ =>
      (* analyze_expression -> default -> semantic_analyze -> ... *)
      None
  | ListNode kind _ elements =>
      analyze_element_list semantic_analyze_node analyzer kind elements
  | BareNode _ _ => Some (PCC_SUCCESS, analyzer)
  end.

Definition semantic_analyze (analyzer : SemanticAnalyzer) (node : option ASTNode)
  : Analysis :=
  analyze_pointer semantic_analyze_node node analyzer.

Definition semantic_error_count (analyzer : SemanticAnalyzer) : nat :=
  symbol_table_error_count (symbol_table analyzer).

Definition semantic_get_error (analyzer : SemanticAnalyzer) (index : nat)
  : option SemanticError :=
  symbol_table_get_error (symbol_table analyzer) index.

Definition semantic_has_errors (analyzer : SemanticAnalyzer) : bool :=
  negb (has_errors analyzer =? 0).

(** What the caller of [semantic_analyze] observes: the status, the
    error list and [semantic_has_errors]. *)
Definition report (analysis : Analysis)
  : option (PCCError * list SemanticError * bool) :=
  match analysis with
  | Some (err, analyzer) =>
      Some (err, analyzer_errors analyzer, semantic_has_errors analyzer)
  | None => None
  end.

(** What a call leaves of the error list it found: the errors that
    were there stay in place, and a semantic-error status comes with at
    least one error more. *)
Definition errors_grow (analyzer analyzer' : SemanticAnalyzer) (status : PCCError)
  : Prop :=
  analyzer_errors analyzer `prefix_of` analyzer_errors analyzer' /\
  (status = PCC_ERROR_SEMANTIC ->
   (length (analyzer_errors analyzer) < length (analyzer_errors analyzer'))%nat).

(** The scopes of the first table are still there in the second one,
    each with the parent and the level it had. *)
Definition keeps_scopes (table table' : SymbolTable) : Prop :=
  (length (all_scopes table) <= length (all_scopes table'))%nat /\
  forall i, (i < length (all_scopes table))%nat ->
    scope_parent (scope_at table' i) = scope_parent (scope_at table i) /\
    scope_level (scope_at table' i) = scope_level (scope_at table i).

(** The call left the table in the scope it found it in. *)
Definition same_scope (analyzer analyzer' : SemanticAnalyzer) : Prop :=
  current_scope (symbol_table analyzer') = current_scope (symbol_table analyzer) /\
  global_scope (symbol_table analyzer') = global_scope (symbol_table analyzer) /\
  keeps_scopes (symbol_table analyzer) (symbol_table analyzer').

(** [has_errors] changes only to 1, and only along with a new error. *)
Definition flag_follows_errors (analyzer analyzer' : SemanticAnalyzer) : Prop :=
  analyzer_errors analyzer `prefix_of` analyzer_errors analyzer' /\
  (has_errors analyzer' = has_errors analyzer \/
   (has_errors analyzer' = 1 /\
    (length (analyzer_errors analyzer) < length (analyzer_errors analyzer'))%nat)).

(** The name a definition node registers in the current scope. *)
Definition declared_name (node : ASTNode) : option string :=
  match node with
  | PromptDef _ name _ | VarDecl _ name _ | TemplateDef _ name _ _
  | ConstraintDef _ name _ => Some name
  | _ => None
  end.

(** A test on the node behind a child pointer, and on the nodes behind
    the slots of an array; [NULL] passes. *)
Definition pointer_all (test : ASTNode -> bool) (node : option ASTNode) : bool :=
  match node with
  | Some n => test n
  | None => true
  end.

Definition array_all (test : ASTNode -> bool)
    (elements : option (list (option ASTNode))) : bool :=
  match elements with
  | Some elements => forallb (pointer_all test) elements
  | None => true
  end.

(** No [AST_CONSTRAINT_EXPR] node anywhere in the tree. *)
Fixpoint no_constraint_expr (node : ASTNode) : bool :=
  match node with
  | Program _ statements => array_all no_constraint_expr statements
  | PromptDef _ _ body => pointer_all no_constraint_expr body
  | VarDecl _ _ initializer => pointer_all no_constraint_expr initializer
  | TemplateDef _ _ _ body => pointer_all no_constraint_expr body
  | ConstraintDef _ _ constraints => array_all no_constraint_expr constraints
  | BinaryExpr _ _ lhs rhs =>
      pointer_all no_constraint_expr lhs && pointer_all no_constraint_expr rhs
  | UnaryExpr _ _ operand => pointer_all no_constraint_expr operand
  | CallExpr _ _ _ arguments => array_all no_constraint_expr arguments
  | IfStmt _ condition then_body else_body =>
      pointer_all no_constraint_expr condition &&
      pointer_all no_constraint_expr then_body &&
      pointer_all no_constraint_expr else_body
  | ForStmt _ _ iterable body =>
      pointer_all no_constraint_expr iterable && pointer_all no_constraint_expr body
  | WhileStmt _ condition body =>
      pointer_all no_constraint_expr condition && pointer_all no_constraint_expr body
  | ConstraintExpr _ _ _ _ => false
  | ListNode _ _ elements => array_all no_constraint_expr elements
  | OutputSpec _ _ _ | Identifier _ _ | StringLiteral _ _ | NumberLiteral _ _
  | BooleanLiteral _ _ | VariableRef _ _ | TextElement _ _ _ | BareNode _ _ => true
  end.

(** The scopes on the way from the current scope to the global one. *)
Fixpoint scope_chain_from (fuel : nat) (table : SymbolTable) (scope : option nat)
  : list nat :=
  match fuel with
  | O => []
  | S fuel =>
      match scope with
      | None => []
      | Some s => s :: scope_chain_from fuel table (scope_parent (scope_at table s))
      end
  end.

Definition active_scopes (table : SymbolTable) : list nat :=
  scope_chain_from (length (all_scopes table)) table (Some (current_scope table)).

(** No scope of the active chain declares [name]. *)
Definition undeclared (table : SymbolTable) (name : string) : Prop :=
  forall s, s ∈ active_scopes table ->
    name ∉ ht_keys (scope_symbols (scope_at table s)).

(** ** optimizer.c — constant folding and dead-code elimination *)

Inductive OptimizationPass : Type :=
| OPT_CONSTANT_FOLDING
| OPT_DEAD_CODE_ELIMINATION
| OPT_UNUSED_REMOVAL
| OPT_INLINE_TEMPLATES
| OPT_ALL.

(** The value of the enumerator. *)
Definition pass_number (pass : OptimizationPass) : Z :=
  match pass with
  | OPT_CONSTANT_FOLDING => 0
  | OPT_DEAD_CODE_ELIMINATION => 1
  | OPT_UNUSED_REMOVAL => 2
  | OPT_INLINE_TEMPLATES => 3
  | OPT_ALL => 4
  end.

(** [1 << pass]. *)
Definition pass_bit (pass : OptimizationPass) : Z := Z.shiftl 1 (pass_number pass).

(** Both fields are C [int]s; the counter is not bounded here. *)
Record Optimizer : Type := mkOptimizer {
  enabled_passes : Z;
  optimizations_applied : Z
}.

Definition optimizer_create (enabled_passes : Z) : Optimizer :=
  {| enabled_passes := enabled_passes; optimizations_applied := 0 |}.

Definition optimizer_enable_pass (optimizer : Optimizer) (pass : OptimizationPass)
  : Optimizer :=
  {| enabled_passes := Z.lor (enabled_passes optimizer) (pass_bit pass);
     optimizations_applied := optimizations_applied optimizer |}.

Definition optimizer_disable_pass (optimizer : Optimizer) (pass : OptimizationPass)
  : Optimizer :=
  {| enabled_passes := Z.land (enabled_passes optimizer) (Z.lnot (pass_bit pass));
     optimizations_applied := optimizations_applied optimizer |}.

Definition optimizer_is_pass_enabled (optimizer : Optimizer) (pass : OptimizationPass)
  : bool :=
  negb (Z.land (enabled_passes optimizer) (pass_bit pass) =? 0).

Definition optimizer_get_optimizations_applied (optimizer : Optimizer) : Z :=
  optimizations_applied optimizer.

Definition optimizer_reset_counter (optimizer : Optimizer) : Optimizer :=
  {| enabled_passes := enabled_passes optimizer; optimizations_applied := 0 |}.

(** [optimizer->optimizations_applied++]. *)
Definition count_optimization (optimizer : Optimizer) : Optimizer :=
  {| enabled_passes := enabled_passes optimizer;
     optimizations_applied := optimizations_applied optimizer + 1 |}.

(** What a call of the optimizer comes to: it returns; it dereferences a
    [NULL] pointer; it leaves in an array the pointer to a node it has
    freed, after which there is no tree to speak of; or the fuel that
    bounds the recursion depth of the model ran out. *)
Inductive Outcome (A : Type) : Type :=
| Returned (a : A)
| NullDereference
| DanglingElement
| OutOfFuel.
Arguments Returned {A} _.
Arguments NullDereference {A}.
Arguments DanglingElement {A}.
Arguments OutOfFuel {A}.

Notation "'step' ( x , y ) <- e 'and_then' k" :=
  (match e with
   | Returned (x, y) => k
   | NullDereference => NullDereference
   | DanglingElement => DanglingElement
   | OutOfFuel => OutOfFuel
   end)
  (at level 10, x name, y name, e at level 100, k at level 200,
   format "'[v' 'step'  ( x ,  y )  <-  e  'and_then' '/' k ']'").

Definition Rewrite : Type := Outcome (Optimizer * option ASTNode).

Definition is_constant (node : option ASTNode) : bool :=
  match node with
  | Some (NumberLiteral _ _) | Some (BooleanLiteral _ _) | Some (StringLiteral _ _) => true
  | _ => false
  end.

Definition get_numeric_value (node : option ASTNode) : float :=
  match node with
  | Some (NumberLiteral _ number_val) => number_val
  | _ => 0%float
  end.

Definition get_boolean_value (node : option ASTNode) : Z :=
  match node with
  | Some (BooleanLiteral _ bool_val) => bool_val
  | _ => 0
  end.

Definition is_number_literal (node : option ASTNode) : bool :=
  match node with
  | Some (NumberLiteral _ _) => true
  | _ => false
  end.

Definition is_boolean_literal (node : option ASTNode) : bool :=
  match node with
  | Some (BooleanLiteral _ _) => true
  | _ => false
  end.

Section Optimizer.
(** [pow] and [fmod] of the C math library, on IEEE 754 doubles. *)
Variables pow fmod : float -> float -> float.

(** The [switch (expr->op_type)] of [constant_folding_binary]:
    [Some result] when [can_fold] stays set. *)
Definition fold_binary (op_type : TokenType) (left_val right_val : float)
  : option float :=
  match op_type with
  | TOKEN_ADD => Some (left_val + right_val)%float
  | TOKEN_SUB => Some (left_val - right_val)%float
  | TOKEN_MUL => Some (left_val * right_val)%float
  | TOKEN_DIV =>
      if PrimFloat.eqb right_val 0%float
      then None (* Division by zero *)
      else Some (left_val / right_val)%float
  | TOKEN_MOD =>
      if PrimFloat.eqb right_val 0%float
      then None
      else Some (fmod left_val right_val)
  | TOKEN_POW => Some (pow left_val right_val)
  | _ => None
  end.

(** The recursive entry point, [optimizer_optimize]. *)
Variable rec : Optimizer -> option ASTNode -> Rewrite.

Definition constant_folding_binary (optimizer : Optimizer) (position : PCCPosition)
    (op_type : TokenType) (lhs rhs : option ASTNode) : Rewrite :=
  (* Recursively optimize operands *)
  step (optimizer, lhs) <- rec optimizer lhs and_then
  step (optimizer, rhs) <- rec optimizer rhs and_then
  let node := BinaryExpr position op_type lhs rhs in
  if negb (is_constant lhs) || negb (is_constant rhs) then
    Returned (optimizer, Some node)
  else if negb (is_number_literal lhs) || negb (is_number_literal rhs) then
    (* Only fold numeric operations *)
    Returned (optimizer, Some node)
  else
    match fold_binary op_type (get_numeric_value lhs) (get_numeric_value rhs) with
    | Some result =>
        Returned (count_optimization optimizer, Some (NumberLiteral position result))
    | None => Returned (optimizer, Some node)
    end.

Definition constant_folding_unary (optimizer : Optimizer) (position : PCCPosition)
    (op_type : TokenType) (operand : option ASTNode) : Rewrite :=
  step (optimizer, operand) <- rec optimizer operand and_then
  let node := UnaryExpr position op_type operand in
  if negb (is_constant operand) then Returned (optimizer, Some node)
  else
    match op_type with
    | TOKEN_SUB =>
        if is_number_literal operand then
          Returned (count_optimization optimizer,
                    Some (NumberLiteral position (- get_numeric_value operand)%float))
        else Returned (optimizer, Some node)
    | TOKEN_NOT =>
        if is_boolean_literal operand then
          Returned (count_optimization optimizer,
                    Some (BooleanLiteral position
                            (if get_boolean_value operand =? 0 then 1 else 0)))
        else Returned (optimizer, Some node)
    | _ => Returned (optimizer, Some node)
    end.

(** [if (p != NULL) p = optimizer_optimize(optimizer, p);] *)
Definition optimize_if_present (optimizer : Optimizer) (node : option ASTNode)
  : Rewrite :=
  match node with
  | None => Returned (optimizer, None)
  | Some _ => rec optimizer node
  end.

(** The tail of [dead_code_elimination_if], under the comment
    "Optimize branches". *)
Definition optimize_branches (optimizer : Optimizer) (position : PCCPosition)
    (condition then_body else_body : option ASTNode) : Rewrite :=
  step (optimizer, then_body) <- optimize_if_present optimizer then_body and_then
  step (optimizer, else_body) <- optimize_if_present optimizer else_body and_then
  Returned (optimizer, Some (IfStmt position condition then_body else_body)).

Definition dead_code_elimination_if (optimizer : Optimizer) (position : PCCPosition)
    (condition then_body else_body : option ASTNode) : Rewrite :=
  (* Optimize condition *)
  step (optimizer, condition) <- rec optimizer condition and_then
  match condition with
  | None => (* ((ASTNode* )stmt->condition)->type *) NullDereference
  | Some (BooleanLiteral _ condition_val) =>
      if negb (condition_val =? 0) then
        (* Always true, replace with then body *)
        match then_body with
        | Some result => Returned (count_optimization optimizer, Some result)
        | None => optimize_branches optimizer position condition then_body else_body
        end
      else
        (* Always false, replace with else body or empty *)
        match else_body with
        | Some result => Returned (count_optimization optimizer, Some result)
        | None => Returned (count_optimization optimizer, None)
        end
  | Some _ => optimize_branches optimizer position condition then_body else_body
  end.

(** The loop shared by [optimize_program] and [optimize_list]:
    [optimized = optimizer_optimize(optimizer, elem); if (optimized != elem)
    pcc_array_set(list, i, optimized);].  The status of [pcc_array_set] is
    dropped, and [pcc_array_set] refuses a [NULL] element: when the
    element was removed, its slot keeps the pointer to the node that has
    just been freed. *)
Fixpoint optimize_elements (optimizer : Optimizer) (elements : list (option ASTNode))
  : Outcome (Optimizer * list (option ASTNode)) :=
  match elements with
  | [] => Returned (optimizer, [])
  | elem :: rest =>
      step (optimizer, optimized) <- rec optimizer elem and_then
      match elem, optimized with
      | Some _, None => DanglingElement
      | _, _ =>
          step (optimizer, rest) <- optimize_elements optimizer rest and_then
          Returned (optimizer, optimized :: rest)
      end
  end.

Definition optimize_program (optimizer : Optimizer) (position : PCCPosition)
    (statements : option (list (option ASTNode))) : Rewrite :=
  match statements with
  | None => Returned (optimizer, Some (Program position statements))
  | Some statements =>
      step (optimizer, statements) <- optimize_elements optimizer statements and_then
      Returned (optimizer, Some (Program position (Some statements)))
  end.

Definition optimize_list (optimizer : Optimizer) (kind : ListKind)
    (position : PCCPosition) (elements : option (list (option ASTNode))) : Rewrite :=
  match kind with
  | ParameterList => Returned (optimizer, Some (ListNode kind position elements))
  | _ =>
      match elements with
      | None => Returned (optimizer, Some (ListNode kind position elements))
      | Some elements =>
          step (optimizer, elements) <- optimize_elements optimizer elements and_then
          Returned (optimizer, Some (ListNode kind position (Some elements)))
      end
  end.

Definition optimize_node (optimizer : Optimizer) (node : option ASTNode) : Rewrite :=
  match node with
  | None => Returned (optimizer, None)
  | Some (Program position statements) =>
      optimize_program optimizer position statements
  | Some (BinaryExpr position op_type lhs rhs) =>
      constant_folding_binary optimizer position op_type lhs rhs
  | Some (UnaryExpr position op_type operand) =>
      constant_folding_unary optimizer position op_type operand
  | Some (IfStmt position condition then_body else_body) =>
      dead_code_elimination_if optimizer position condition then_body else_body
  | Some (ListNode ParameterList _ _) => Returned (optimizer, node)
  | Some (ListNode kind position elements) =>
      optimize_list optimizer kind position elements
  | Some _ =>
      (* PROMPT_DEF ... WHILE_STMT: returned as-is; default: as-is *)
      Returned (optimizer, node)
  end.

(** The two tests of [optimizer_optimize] on [enabled_passes]. *)
Definition folding_requested (optimizer : Optimizer) : bool :=
  negb (Z.land (enabled_passes optimizer) (pass_bit OPT_CONSTANT_FOLDING) =? 0) ||
  negb (Z.land (enabled_passes optimizer) (pass_bit OPT_ALL) =? 0).

Definition elimination_requested (optimizer : Optimizer) : bool :=
  negb (Z.land (enabled_passes optimizer) (pass_bit OPT_DEAD_CODE_ELIMINATION) =? 0) ||
  negb (Z.land (enabled_passes optimizer) (pass_bit OPT_ALL) =? 0).

(** The body of [optimizer_optimize]. *)
Definition optimizer_optimize_body (optimizer : Optimizer) (node : option ASTNode)
  : Rewrite :=
  match node with
  | None => Returned (optimizer, node)
  | Some _ =>
      (* Apply enabled optimization passes *)
      step (optimizer, node) <-
        (if folding_requested optimizer then optimize_node optimizer node
         else Returned (optimizer, node)) and_then
      step (optimizer, node) <-
        (if elimination_requested optimizer then optimize_node optimizer node
         else Returned (optimizer, node)) and_then
      Returned (optimizer, node)
  end.
End Optimizer.

(** [optimizer_optimize]; [fuel] bounds the depth of the recursion. *)
Fixpoint optimizer_optimize (pow fmod : float -> float -> float) (fuel : nat)
    (optimizer : Optimizer) (node : option ASTNode) : Rewrite :=
  match fuel with
  | O => OutOfFuel
  | S fuel =>
      optimizer_optimize_body pow fmod (optimizer_optimize pow fmod fuel) optimizer node
  end.

(** The depth of the tree behind a pointer: the number of nested calls
    [optimizer_optimize] needs below it. *)
Definition pointer_height_with (height : ASTNode -> nat) (node : option ASTNode) : nat :=
  match node with
  | Some n => height n
  | None => 0%nat
  end.

Definition array_height_with (height : ASTNode -> nat)
    (elements : option (list (option ASTNode))) : nat :=
  match elements with
  | Some elements =>
      foldr (fun elem acc => Nat.max (pointer_height_with height elem) acc) 0%nat elements
  | None => 0%nat
  end.

Fixpoint height (node : ASTNode) : nat :=
  match node with
  | Program _ elements | ConstraintDef _ _ elements | CallExpr _ _ _ elements
  | ListNode _ _ elements =>
      S (array_height_with height elements)
  | PromptDef _ _ child | VarDecl _ _ child | TemplateDef _ _ _ child
  | UnaryExpr _ _ child | ConstraintExpr _ _ _ child =>
      S (pointer_height_with height child)
  | BinaryExpr _ _ lhs rhs | ForStmt _ _ lhs rhs | WhileStmt _ lhs rhs =>
      S (Nat.max (pointer_height_with height lhs) (pointer_height_with height rhs))
  | IfStmt _ condition then_body else_body =>
      S (Nat.max (pointer_height_with height condition)
           (Nat.max (pointer_height_with height then_body)
                    (pointer_height_with height else_body)))
  | OutputSpec _ _ _ | Identifier _ _ | StringLiteral _ _ | NumberLiteral _ _
  | BooleanLiteral _ _ | VariableRef _ _ | TextElement _ _ _ | BareNode _ _ => 1%nat
  end.

Definition pointer_height : option ASTNode -> nat := pointer_height_with height.

Definition elements_height (elements : list (option ASTNode)) : nat :=
  array_height_with height (Some elements).

(** A call that came to an end — it returned or crashed — and, when it
    returned a tree, a tree no deeper than the one it was given. *)
Definition settled {A : Type} (measure : A -> nat) (bound : nat)
    (outcome : Outcome (Optimizer * A)) : Prop :=
  match outcome with
  | Returned (_, result) => (measure result <= bound)%nat
  | NullDereference | DanglingElement => True
  | OutOfFuel => False
  end.

(** The number of nodes of the tree behind a pointer. *)
Definition pointer_count_with (count : ASTNode -> nat) (node : option ASTNode) : nat :=
  match node with
  | Some n => count n
  | None => 0%nat
  end.

Definition array_count_with (count : ASTNode -> nat)
    (elements : option (list (option ASTNode))) : nat :=
  match elements with
  | Some elements =>
      foldr (fun elem acc => (pointer_count_with count elem + acc)%nat) 0%nat elements
  | None => 0%nat
  end.

Fixpoint node_count (node : ASTNode) : nat :=
  match node with
  | Program _ elements | ConstraintDef _ _ elements | CallExpr _ _ _ elements
  | ListNode _ _ elements =>
      S (array_count_with node_count elements)
  | PromptDef _ _ child | VarDecl _ _ child | TemplateDef _ _ _ child
  | UnaryExpr _ _ child | ConstraintExpr _ _ _ child =>
      S (pointer_count_with node_count child)
  | BinaryExpr _ _ lhs rhs | ForStmt _ _ lhs rhs | WhileStmt _ lhs rhs =>
      S (pointer_count_with node_count lhs + pointer_count_with node_count rhs)
  | IfStmt _ condition then_body else_body =>
      S (pointer_count_with node_count condition +
         pointer_count_with node_count then_body +
         pointer_count_with node_count else_body)
  | OutputSpec _ _ _ | Identifier _ _ | StringLiteral _ _ | NumberLiteral _ _
  | BooleanLiteral _ _ | VariableRef _ _ | TextElement _ _ _ | BareNode _ _ => 1%nat
  end.

Definition pointer_count : option ASTNode -> nat := pointer_count_with node_count.

Definition elements_count (elements : list (option ASTNode)) : nat :=
  array_count_with node_count (Some elements).

(** What a call that returns has done to the optimizer and to the
    tree: the passes are the ones it found, the counter has not gone down,
    every optimization it counted has taken at least one node off the tree,
    and a counter left as it was comes with the tree left as it was. *)
Definition accounted {A : Type} (count : A -> nat) (optimizer : Optimizer) (tree : A)
    (outcome : Outcome (Optimizer * A)) : Prop :=
  match outcome with
  | Returned (optimizer', tree') =>
      enabled_passes optimizer' = enabled_passes optimizer /\
      optimizations_applied optimizer <= optimizations_applied optimizer' /\
      optimizations_applied optimizer' - optimizations_applied optimizer
        + Z.of_nat (count tree') <= Z.of_nat (count tree) /\
      (optimizations_applied optimizer' = optimizations_applied optimizer ->
       tree' = tree)
  | NullDereference | DanglingElement | OutOfFuel => True
  end.

(** [n] times [optimizer->optimizations_applied++]. *)
Definition count_optimizations (optimizer : Optimizer) (n : nat) : Optimizer :=
  {| enabled_passes := enabled_passes optimizer;
     optimizations_applied := optimizations_applied optimizer + Z.of_nat n |}.

(** The literal a constant expression stands for: a number or a
    boolean, computed as [constant_folding_binary] and
    [constant_folding_unary] compute it, when every operator of the
    expression can be folded. *)
Fixpoint folded_value (pow fmod : float -> float -> float) (node : ASTNode)
  : option (float + Z) :=
  match node with
  | NumberLiteral _ number_val => Some (inl number_val)
  | BooleanLiteral _ bool_val => Some (inr bool_val)
  | BinaryExpr _ op_type (Some lhs) (Some rhs) =>
      match folded_value pow fmod lhs, folded_value pow fmod rhs with
      | Some (inl left_val), Some (inl right_val) =>
          inl <$> fold_binary pow fmod op_type left_val right_val
      | _, _ => None
      end
  | UnaryExpr _ TOKEN_SUB (Some operand) =>
      match folded_value pow fmod operand with
      | Some (inl val) => Some (inl (- val)%float)
      | _ => None
      end
  | UnaryExpr _ TOKEN_NOT (Some operand) =>
      match folded_value pow fmod operand with
      | Some (inr val) => Some (inr (if val =? 0 then 1 else 0))
      | _ => None
      end
  | _ => None
  end.

Definition literal_node (position : PCCPosition) (value : float + Z) : ASTNode :=
  match value with
  | inl number_val => NumberLiteral position number_val
  | inr bool_val => BooleanLiteral position bool_val
  end.

(** The number of operator nodes of an expression. *)
Fixpoint operators (node : ASTNode) : nat :=
  match node with
  | BinaryExpr _ _ lhs rhs =>
      S (pointer_count_with operators lhs + pointer_count_with operators rhs)
  | UnaryExpr _ _ operand => S (pointer_count_with operators operand)
  | _ => 0%nat
  end.

(** ** codegen.c — the code generator *)

Inductive OutputFormat : Type :=
| OUTPUT_FORMAT_JSON | OUTPUT_FORMAT_TEXT | OUTPUT_FORMAT_MARKDOWN.

Definition BUFFER_INITIAL_CAPACITY : nat := 4096.

(** [buffer_size] is the length of the text held by [output_buffer]. *)
Record CodeGenerator : Type := mkGenerator {
  cg_format : OutputFormat;
  cg_symbol_table : option SymbolTable;
  output_buffer : string;
  buffer_capacity : nat;
  indent_level : Z
}.

Definition buffer_size (generator : CodeGenerator) : nat :=
  String.length (output_buffer generator).

(** [while (new_capacity <= new_size) new_capacity *= 2;] — at most
    [fuel] doublings, which is enough from any capacity above zero when
    [fuel] exceeds [new_size]. *)
Fixpoint grow_capacity (fuel new_capacity new_size : nat) : nat :=
  match fuel with
  | O => new_capacity
  | S fuel =>
      if (new_capacity <=? new_size)%nat
      then grow_capacity fuel (new_capacity * 2) new_size
      else new_capacity
  end.

(** [buffer_append]; every caller drops the status, which is
    [PCC_SUCCESS] for a string that exists. *)
Definition buffer_append (generator : CodeGenerator) (str : string) : CodeGenerator :=
  let len := String.length str in
  let new_size := (buffer_size generator + len)%nat in
  {| cg_format := cg_format generator;
     cg_symbol_table := cg_symbol_table generator;
     output_buffer := output_buffer generator +:+ str;
     buffer_capacity :=
       if (buffer_capacity generator <=? new_size)%nat
       then grow_capacity (S new_size) (buffer_capacity generator * 2) new_size
       else buffer_capacity generator;
     indent_level := indent_level generator |}.

(** The double quotes of a C string literal are written as apostrophes:
    [c_literal "{'type':'text'}"] is the C literal ["{\"type\":\"text\"}"]. *)
Fixpoint c_literal (s : string) : string :=
  match s with
  | EmptyString => EmptyString
  | String c s' => String (if Ascii.eqb c "'" then "034"%char else c) (c_literal s')
  end.

Definition newline : string := String "010"%char EmptyString.

Section Generate.
(** [snprintf(num_buf, sizeof(num_buf), "%g", lit->number_val)]. *)
Variable format_g : float -> string.

(** The recursive entry point on a node that exists. *)
Variable rec : ASTNode -> CodeGenerator -> PCCError * CodeGenerator.

(** [generate_*(generator, child);] with the status dropped: a [NULL]
    child is refused and appends nothing. *)
Definition emit (node : option ASTNode) (generator : CodeGenerator) : CodeGenerator :=
  match node with
  | None => generator
  | Some n => (rec n generator).2
  end.

(** [for (i...) { generate(elem); if (i < size - 1) append(separator); }] *)
Definition emit_separated (separator : string)
  : list (option ASTNode) -> CodeGenerator -> CodeGenerator :=
  fix loop (elements : list (option ASTNode)) (generator : CodeGenerator) :=
    match elements with
    | [] => generator
    | elem :: rest =>
        let generator := emit elem generator in
        match rest with
        | [] => generator
        | _ :: _ => loop rest (buffer_append generator separator)
        end
    end.

(** [for (i...) { generate(elem); append(terminator); }] *)
Definition emit_terminated (terminator : string)
  : list (option ASTNode) -> CodeGenerator -> CodeGenerator :=
  fix loop (elements : list (option ASTNode)) (generator : CodeGenerator) :=
    match elements with
    | [] => generator
    | elem :: rest => loop rest (buffer_append (emit elem generator) terminator)
    end.

Definition generate_json_program (generator : CodeGenerator)
    (statements : option (list (option ASTNode))) : PCCError * CodeGenerator :=
  match statements with
  | None =>
      (PCC_SUCCESS,
       buffer_append generator (c_literal "{'type':'program','statements':[]}"))
  | Some statements =>
      let generator :=
        buffer_append generator (c_literal "{'type':'program','statements':[") in
      let generator := emit_separated "," statements generator in
      (PCC_SUCCESS, buffer_append generator "]}")
  end.

Definition generate_json_prompt_def (generator : CodeGenerator) (name : string)
    (body : option ASTNode) : PCCError * CodeGenerator :=
  let generator :=
    buffer_append generator (c_literal "{'type':'prompt_def','name':'") in
  let generator := buffer_append generator name in
  let generator := buffer_append generator (c_literal "','body':") in
  let generator :=
    match body with
    | Some _ => emit body generator
    | None => buffer_append generator "null"
    end in
  (PCC_SUCCESS, buffer_append generator "}").

Definition generate_json_text_element (generator : CodeGenerator) (text : string)
    (is_raw : Z) : PCCError * CodeGenerator :=
  let generator := buffer_append generator (c_literal "{'type':'text','text':'") in
  let generator := buffer_append generator text in
  let generator := buffer_append generator (c_literal "','raw':") in
  let generator :=
    buffer_append generator (if is_raw =? 0 then "false" else "true") in
  (PCC_SUCCESS, buffer_append generator "}").

Definition generate_json_variable_ref (generator : CodeGenerator) (name : string)
  : PCCError * CodeGenerator :=
  let generator :=
    buffer_append generator (c_literal "{'type':'variable_ref','name':'") in
  let generator := buffer_append generator name in
  (PCC_SUCCESS, buffer_append generator (c_literal "'}")).

Definition generate_json_function_call (generator : CodeGenerator) (kind : CallKind)
    (name : string) (arguments : option (list (option ASTNode)))
  : PCCError * CodeGenerator :=
  let generator := buffer_append generator (c_literal "{'type':'") in
  let generator :=
    buffer_append generator
      match kind with
      | TemplateCall => "template_call"
      | FunctionCall => "function_call"
      end in
  let generator := buffer_append generator (c_literal "','name':'") in
  let generator := buffer_append generator name in
  let generator := buffer_append generator (c_literal "','arguments':[") in
  let generator :=
    match arguments with
    | Some arguments => emit_separated "," arguments generator
    | None => generator
    end in
  (PCC_SUCCESS, buffer_append generator "]}").

(** The [switch] of [generate_json_list] names four of the six list
    tags; [generate_json] sends it no other. *)
Definition generate_json_list (generator : CodeGenerator) (list_type : string)
    (elements : option (list (option ASTNode))) : PCCError * CodeGenerator :=
  let generator := buffer_append generator (c_literal "{'type':'") in
  let generator := buffer_append generator list_type in
  match elements with
  | None => (PCC_SUCCESS, buffer_append generator (c_literal "','elements':[]}"))
  | Some elements =>
      let generator := buffer_append generator (c_literal "','elements':[") in
      let generator := emit_separated "," elements generator in
      (PCC_SUCCESS, buffer_append generator "]}")
  end.

Definition generate_json_string (generator : CodeGenerator) (string_val : string)
  : PCCError * CodeGenerator :=
  let generator :=
    buffer_append generator (c_literal "{'type':'string','value':'") in
  let generator := buffer_append generator string_val in
  (PCC_SUCCESS, buffer_append generator (c_literal "'}")).

Definition generate_json_number (generator : CodeGenerator) (number_val : float)
  : PCCError * CodeGenerator :=
  let generator := buffer_append generator (c_literal "{'type':'number','value':") in
  let generator := buffer_append generator (format_g number_val) in
  (PCC_SUCCESS, buffer_append generator "}").

Definition generate_json_boolean (generator : CodeGenerator) (bool_val : Z)
  : PCCError * CodeGenerator :=
  let generator := buffer_append generator (c_literal "{'type':'boolean','value':") in
  let generator :=
    buffer_append generator (if bool_val =? 0 then "false" else "true") in
  (PCC_SUCCESS, buffer_append generator "}").

(** The [default] case of [generate_json]. *)
Definition generate_json_default (generator : CodeGenerator) (type : ASTNodeType)
  : PCCError * CodeGenerator :=
  let generator := buffer_append generator (c_literal "{'type':'") in
  let generator := buffer_append generator (ast_node_type_name type) in
  (PCC_SUCCESS, buffer_append generator (c_literal "'}")).
End Generate.

(** [generate_json] on a node that exists. *)
Fixpoint generate_json_node (format_g : float -> string) (node : ASTNode)
    (generator : CodeGenerator) {struct node} : PCCError * CodeGenerator :=
  match node with
  | Program _ statements =>
      generate_json_program (generate_json_node format_g) generator statements
  | PromptDef _ name body =>
      generate_json_prompt_def (generate_json_node format_g) generator name body
  | TextElement _ text is_raw => generate_json_text_element generator text is_raw
  | VariableRef _ name => generate_json_variable_ref generator name
  | CallExpr kind _ name arguments =>
      generate_json_function_call (generate_json_node format_g) generator kind name
        arguments
  | StringLiteral _ string_val => generate_json_string generator string_val
  | NumberLiteral _ number_val => generate_json_number format_g generator number_val
  | BooleanLiteral _ bool_val => generate_json_boolean generator bool_val
  | ListNode StatementList _ elements =>
      generate_json_list (generate_json_node format_g) generator "statement_list" elements
  | ListNode ExpressionList _ elements =>
      generate_json_list (generate_json_node format_g) generator "expression_list" elements
  | ListNode ElementList _ elements =>
      generate_json_list (generate_json_node format_g) generator "element_list" elements
  | ListNode ArgumentList _ elements =>
      generate_json_list (generate_json_node format_g) generator "argument_list" elements
  | _ => generate_json_default generator (node_type node)
  end.

Definition generate_json (format_g : float -> string) (generator : CodeGenerator)
    (node : option ASTNode) : PCCError * CodeGenerator :=
  match node with
  | None => (PCC_ERROR_RUNTIME, generator)
  | Some n => generate_json_node format_g n generator
  end.

(** [generate_text] on a node that exists. *)
Fixpoint generate_text_node (node : ASTNode) (generator : CodeGenerator)
    {struct node} : PCCError * CodeGenerator :=
  match node with
  | Program _ (Some statements) =>
      (PCC_SUCCESS, emit_terminated generate_text_node newline statements generator)
  | PromptDef _ name body =>
      let generator := buffer_append generator "Prompt: " in
      let generator := buffer_append generator name in
      let generator := buffer_append generator newline in
      (PCC_SUCCESS, emit generate_text_node body generator)
  | TextElement _ text _ => (PCC_SUCCESS, buffer_append generator text)
  | VariableRef _ name =>
      (PCC_SUCCESS, buffer_append (buffer_append generator "$") name)
  | CallExpr _ _ name arguments =>
      let generator := buffer_append generator "@" in
      let generator := buffer_append generator name in
      let generator := buffer_append generator "(" in
      let generator :=
        match arguments with
        | Some arguments => emit_separated generate_text_node ", " arguments generator
        | None => generator
        end in
      (PCC_SUCCESS, buffer_append generator ")")
  | ListNode ElementList _ (Some elements) =>
      (PCC_SUCCESS, emit_terminated generate_text_node EmptyString elements generator)
  | _ => (PCC_SUCCESS, generator)
  end.

(** [generate_markdown] on a node that exists. *)
Fixpoint generate_markdown_node (node : ASTNode) (generator : CodeGenerator)
    {struct node} : PCCError * CodeGenerator :=
  match node with
  | Program _ (Some statements) =>
      (PCC_SUCCESS,
       emit_terminated generate_markdown_node (newline +:+ newline) statements generator)
  | PromptDef _ name body =>
      let generator := buffer_append generator "## Prompt: " in
      let generator := buffer_append generator name in
      let generator := buffer_append generator (newline +:+ newline) in
      (PCC_SUCCESS, emit generate_markdown_node body generator)
  | TextElement _ text _ => (PCC_SUCCESS, buffer_append generator text)
  | VariableRef _ name =>
      let generator := buffer_append generator "`$" in
      let generator := buffer_append generator name in
      (PCC_SUCCESS, buffer_append generator "`")
  | CallExpr _ _ name arguments =>
      let generator := buffer_append generator "`@" in
      let generator := buffer_append generator name in
      let generator := buffer_append generator "(" in
      let generator :=
        match arguments with
        | Some arguments =>
            emit_separated generate_markdown_node ", " arguments generator
        | None => generator
        end in
      (PCC_SUCCESS, buffer_append generator ")`")
  | ListNode ElementList _ (Some elements) =>
      (PCC_SUCCESS,
       emit_terminated generate_markdown_node EmptyString elements generator)
  | _ => (PCC_SUCCESS, generator)
  end.

Definition codegen_create (format : OutputFormat) (symbol_table : option SymbolTable)
  : CodeGenerator :=
  {| cg_format := format;
     cg_symbol_table := symbol_table;
     output_buffer := EmptyString;
     buffer_capacity := BUFFER_INITIAL_CAPACITY;
     indent_level := 0 |}.

Definition codegen_clear_output (generator : CodeGenerator) : CodeGenerator :=
  {| cg_format := cg_format generator;
     cg_symbol_table := cg_symbol_table generator;
     output_buffer := EmptyString;
     buffer_capacity := buffer_capacity generator;
     indent_level := indent_level generator |}.

Definition codegen_generate (format_g : float -> string) (generator : CodeGenerator)
    (node : option ASTNode) : PCCError * CodeGenerator :=
  match node with
  | None => (PCC_ERROR_RUNTIME, generator)
  | Some n =>
      let generator := codegen_clear_output generator in
      match cg_format generator with
      | OUTPUT_FORMAT_JSON => generate_json_node format_g n generator
      | OUTPUT_FORMAT_TEXT => generate_text_node n generator
      | OUTPUT_FORMAT_MARKDOWN => generate_markdown_node n generator
      end
  end.

Definition codegen_get_output (generator : CodeGenerator) : string :=
  output_buffer generator.

(** The tags for which the [switch] of [generate_json] has a case. *)
Definition has_json_emitter (type : ASTNodeType) : bool :=
  match type with
  | AST_PROGRAM | AST_PROMPT_DEF | AST_TEXT_ELEMENT | AST_VARIABLE_REF
  | AST_FUNCTION_CALL | AST_TEMPLATE_CALL
  | AST_STRING_LITERAL | AST_NUMBER_LITERAL | AST_BOOLEAN_LITERAL
  | AST_STATEMENT_LIST | AST_EXPRESSION_LIST | AST_ELEMENT_LIST
  | AST_ARGUMENT_LIST => true
  | _ => false
  end.

(** The second generator holds the text of the first one, and more. *)
Definition extends (generator generator' : CodeGenerator) : Prop :=
  exists suffix, output_buffer generator' = output_buffer generator +:+ suffix.

(** A step of the generator that appends [text] to the buffer whatever
    the buffer holds, leaves the other fields alone, and keeps room for the
    terminating [NUL] if there was room before. *)
Definition appends (text : string) (action : CodeGenerator -> CodeGenerator) : Prop :=
  forall generator,
    output_buffer (action generator) = output_buffer generator +:+ text /\
    cg_format (action generator) = cg_format generator /\
    cg_symbol_table (action generator) = cg_symbol_table generator /\
    indent_level (action generator) = indent_level generator /\
    (buffer_capacity generator <= buffer_capacity (action generator))%nat /\
    ((buffer_size generator < buffer_capacity generator)%nat ->
     (buffer_size (action generator) < buffer_capacity (action generator))%nat).

(** A step that appends a text of its own, whatever generator it is
    run on. *)
Definition appending (action : CodeGenerator -> CodeGenerator) : Prop :=
  exists text, appends text action.

(** ** lexer.c — the tokenizer *)

(** The [value] union of a token: what was last stored in it. *)
Inductive TokenValue : Type :=
| NoValue
| StringValue (string_val : string)
| NumberValue (number_val : float).

Record Token : Type := mkToken {
  tok_type : TokenType;
  tok_lexeme : string;
  tok_position : PCCPosition;
  tok_value : TokenValue
}.

(** [position], [line] and [column] are [size_t]; a source text is far
    shorter than 2^31 characters, so their casts to [int] keep the value. *)
Record Lexer : Type := mkLexer {
  lx_source : string;
  lx_source_len : nat;
  lx_position : nat;
  lx_line : nat;
  lx_column : nat;
  lx_filename : string;
  lx_tokens : list Token;
  lx_error_message : option string
}.

Definition NUL : ascii := "000"%char.

(** [s[i]], the terminating NUL included. *)
Definition char_at (s : string) (i : nat) : ascii :=
  match String.get i s with
  | Some c => c
  | None => NUL
  end.

Definition is_char (c : ascii) (d : ascii) : bool := Ascii.eqb c d.

(** [isalpha], [isdigit] and [isalnum] in the "C" locale. *)
Definition isdigit (c : ascii) : bool :=
  let n := N_of_ascii c in ((48 <=? n) && (n <=? 57))%N.

Definition isalpha (c : ascii) : bool :=
  let n := N_of_ascii c in
  (((65 <=? n) && (n <=? 90)) || ((97 <=? n) && (n <=? 122)))%N.

Definition isalnum (c : ascii) : bool := isalpha c || isdigit c.

Definition keywords : list (string * TokenType) :=
  [("PROMPT", TOKEN_PROMPT); ("VAR", TOKEN_VAR); ("TEMPLATE", TOKEN_TEMPLATE);
   ("CONSTRAINT", TOKEN_CONSTRAINT); ("OUTPUT", TOKEN_OUTPUT); ("IF", TOKEN_IF);
   ("ELSE", TOKEN_ELSE); ("FOR", TOKEN_FOR); ("WHILE", TOKEN_WHILE);
   ("IN", TOKEN_IN); ("AS", TOKEN_AS); ("AND", TOKEN_AND); ("OR", TOKEN_OR);
   ("NOT", TOKEN_NOT); ("RAW", TOKEN_RAW); ("true", TOKEN_TRUE);
   ("false", TOKEN_FALSE)].

Definition lexer_peek (lexer : Lexer) (offset : nat) : ascii :=
  if (lx_source_len lexer <=? lx_position lexer + offset)%nat then NUL
  else char_at (lx_source lexer) (lx_position lexer + offset).

Definition lexer_advance (lexer : Lexer) : ascii * Lexer :=
  if (lx_source_len lexer <=? lx_position lexer)%nat then (NUL, lexer)
  else
    let c := char_at (lx_source lexer) (lx_position lexer) in
    (c,
     {| lx_source := lx_source lexer;
        lx_source_len := lx_source_len lexer;
        lx_position := S (lx_position lexer);
        lx_line := if is_char c "010" then S (lx_line lexer) else lx_line lexer;
        lx_column := if is_char c "010" then 1%nat else S (lx_column lexer);
        lx_filename := lx_filename lexer;
        lx_tokens := lx_tokens lexer;
        lx_error_message := lx_error_message lexer |}).

(** The number of characters not read yet: every loop of the lexer runs
    while [position < source_len] and reads at least one character per
    round, so it makes at most that many rounds. *)
Definition remaining (lexer : Lexer) : nat :=
  (lx_source_len lexer - lx_position lexer)%nat.

Definition is_whitespace (c : ascii) : bool :=
  is_char c " " || is_char c "009" || is_char c "013" || is_char c "010".

Fixpoint skip_whitespace_loop (rounds : nat) (lexer : Lexer) : Lexer :=
  match rounds with
  | O => lexer
  | S rounds =>
      if (lx_position lexer <? lx_source_len lexer)%nat then
        if is_whitespace (lexer_peek lexer 0)
        then skip_whitespace_loop rounds (lexer_advance lexer).2
        else lexer
      else lexer
  end.

Definition lexer_skip_whitespace (lexer : Lexer) : Lexer :=
  skip_whitespace_loop (remaining lexer) lexer.

(** [while (...) { c = lexer_advance(lexer); if (c == '\n') break; }] *)
Fixpoint skip_line_loop (rounds : nat) (lexer : Lexer) : Lexer :=
  match rounds with
  | O => lexer
  | S rounds =>
      if (lx_position lexer <? lx_source_len lexer)%nat then
        let '(c, lexer) := lexer_advance lexer in
        if is_char c "010" then lexer else skip_line_loop rounds lexer
      else lexer
  end.

(** [while (...) { c = lexer_advance(lexer);
      if (c == '*' && lexer_peek(lexer, 0) == '/') { lexer_advance(lexer); break; } }] *)
Fixpoint skip_block_loop (rounds : nat) (lexer : Lexer) : Lexer :=
  match rounds with
  | O => lexer
  | S rounds =>
      if (lx_position lexer <? lx_source_len lexer)%nat then
        let '(c, lexer) := lexer_advance lexer in
        if is_char c "*" && is_char (lexer_peek lexer 0) "/"
        then (lexer_advance lexer).2
        else skip_block_loop rounds lexer
      else lexer
  end.

Definition lexer_skip_comment (lexer : Lexer) : Lexer :=
  if is_char (lexer_peek lexer 0) "/" && is_char (lexer_peek lexer 1) "/" then
    skip_line_loop (remaining lexer) lexer
  else if is_char (lexer_peek lexer 0) "/" && is_char (lexer_peek lexer 1) "*" then
    let lexer := (lexer_advance lexer).2 in
    let lexer := (lexer_advance lexer).2 in
    skip_block_loop (remaining lexer) lexer
  else lexer.

Fixpoint lexer_check_keyword_in (table : list (string * TokenType)) (lexeme : string)
  : TokenType :=
  match table with
  | [] => TOKEN_IDENTIFIER
  | (keyword, token_type) :: table =>
      if String.eqb lexeme keyword then token_type
      else lexer_check_keyword_in table lexeme
  end.

Definition lexer_check_keyword (lexeme : string) : TokenType :=
  lexer_check_keyword_in keywords lexeme.

(** [lexeme] is the text of [lexeme_len] characters the C code copies. *)
Definition lexer_create_token (lexer : Lexer) (type : TokenType) (lexeme : string)
    (lexeme_len : nat) : Token :=
  {| tok_type := type;
     tok_lexeme := lexeme;
     tok_position :=
       {| pos_line := Z.of_nat (lx_line lexer);
          pos_column := Z.of_nat (lx_column lexer) - Z.of_nat lexeme_len;
          pos_filename := lx_filename lexer |};
     tok_value := NoValue |}.

Definition with_type (token : Token) (type : TokenType) : Token :=
  {| tok_type := type; tok_lexeme := tok_lexeme token;
     tok_position := tok_position token; tok_value := tok_value token |}.

Definition with_value (token : Token) (value : TokenValue) : Token :=
  {| tok_type := tok_type token; tok_lexeme := tok_lexeme token;
     tok_position := tok_position token; tok_value := value |}.

Definition is_identifier_start (c : ascii) : bool := isalpha c || is_char c "_".
Definition is_identifier_part (c : ascii) : bool := isalnum c || is_char c "_".

Fixpoint read_identifier_loop (rounds : nat) (lexer : Lexer) : Lexer :=
  match rounds with
  | O => lexer
  | S rounds =>
      if (lx_position lexer <? lx_source_len lexer)%nat then
        if is_identifier_part (lexer_peek lexer 0)
        then read_identifier_loop rounds (lexer_advance lexer).2
        else lexer
      else lexer
  end.

(** The scanners return their status, the token stored through
    [out_token] (if any) and the lexer. *)
Definition Scan : Type := PCCError * option Token * Lexer.

Definition lexer_read_identifier (lexer : Lexer) : Scan :=
  let start := lx_position lexer in
  (* Read first character (must be letter or underscore) *)
  if negb (is_identifier_start (lexer_peek lexer 0)) then (PCC_ERROR_SYNTAX, None, lexer)
  else
    let lexer := (lexer_advance lexer).2 in
    let lexer := read_identifier_loop (remaining lexer) lexer in
    let len := (lx_position lexer - start)%nat in
    let lexeme := String.substring start len (lx_source lexer) in
    let type := lexer_check_keyword lexeme in
    (PCC_SUCCESS, Some (lexer_create_token lexer type lexeme len), lexer).

(** The loop of [lexer_read_string]; the boolean is set when the loop
    is left by [return PCC_ERROR_SYNTAX] at a newline. *)
Fixpoint read_string_loop (rounds : nat) (quote : ascii) (lexer : Lexer)
  : bool * Lexer :=
  match rounds with
  | O => (false, lexer)
  | S rounds =>
      if (lx_position lexer <? lx_source_len lexer)%nat then
        let c := lexer_peek lexer 0 in
        if is_char c "\" then
          (* Escape sequence *)
          let lexer := (lexer_advance lexer).2 in
          let lexer :=
            if (lx_position lexer <? lx_source_len lexer)%nat
            then (lexer_advance lexer).2 else lexer in
          read_string_loop rounds quote lexer
        else if is_char c quote then (false, lexer)
        else if is_char c "010" then (* Unterminated string *) (true, lexer)
        else read_string_loop rounds quote (lexer_advance lexer).2
      else (false, lexer)
  end.

Definition lexer_read_string (lexer : Lexer) : Scan :=
  let quote := lexer_peek lexer 0 in
  let lexer := (lexer_advance lexer).2 in (* Skip opening quote *)
  let start := lx_position lexer in
  let '(at_newline, lexer) := read_string_loop (remaining lexer) quote lexer in
  if at_newline then (PCC_ERROR_SYNTAX, None, lexer)
  else if (lx_source_len lexer <=? lx_position lexer)%nat then
    (PCC_ERROR_SYNTAX, None, lexer) (* Unterminated string *)
  else
    let len := (lx_position lexer - start)%nat in
    let lexeme := String.substring start len (lx_source lexer) in
    let lexer := (lexer_advance lexer).2 in (* Skip closing quote *)
    let token :=
      lexer_create_token lexer TOKEN_STRING
        (String.substring (start - 1) (len + 2) (lx_source lexer)) (len + 2) in
    (PCC_SUCCESS, Some (with_value token (StringValue lexeme)), lexer).

Fixpoint read_digits_loop (rounds : nat) (lexer : Lexer) : Lexer :=
  match rounds with
  | O => lexer
  | S rounds =>
      if (lx_position lexer <? lx_source_len lexer)%nat
         && isdigit (lexer_peek lexer 0)
      then read_digits_loop rounds (lexer_advance lexer).2
      else lexer
  end.

Definition read_operator_type (c next : ascii) : option (TokenType * nat) :=
  if is_char c "=" then
    Some (if is_char next "=" then (TOKEN_EQ, 2%nat) else (TOKEN_ASSIGN, 1%nat))
  else if is_char c "!" then
    Some (if is_char next "=" then (TOKEN_NE, 2%nat) else (TOKEN_NOT, 1%nat))
  else if is_char c "<" then
    Some (if is_char next "=" then (TOKEN_LE, 2%nat) else (TOKEN_LT, 1%nat))
  else if is_char c ">" then
    Some (if is_char next "=" then (TOKEN_GE, 2%nat) else (TOKEN_GT, 1%nat))
  else if is_char c "+" then Some (TOKEN_ADD, 1%nat)
  else if is_char c "-" then Some (TOKEN_SUB, 1%nat)
  else if is_char c "*" then Some (TOKEN_MUL, 1%nat)
  else if is_char c "/" then Some (TOKEN_DIV, 1%nat)
  else if is_char c "%" then Some (TOKEN_MOD, 1%nat)
  else if is_char c "^" then Some (TOKEN_POW, 1%nat)
  else None.

(** [for (i = 0; i < len; i++) lexer_advance(lexer);] *)
Fixpoint advance_times (n : nat) (lexer : Lexer) : Lexer :=
  match n with
  | O => lexer
  | S n => advance_times n (lexer_advance lexer).2
  end.

Definition lexer_read_operator (lexer : Lexer) : Scan :=
  let c := lexer_peek lexer 0 in
  let next := lexer_peek lexer 1 in
  match read_operator_type c next with
  | None => (PCC_ERROR_SYNTAX, None, lexer)
  | Some (type, len) =>
      let token :=
        lexer_create_token lexer type
          (String.substring (lx_position lexer) len (lx_source lexer)) len in
      (PCC_SUCCESS, Some token, advance_times len lexer)
  end.

Definition punctuation_type (c : ascii) : option TokenType :=
  if is_char c "{" then Some TOKEN_LBRACE
  else if is_char c "}" then Some TOKEN_RBRACE
  else if is_char c "(" then Some TOKEN_LPAREN
  else if is_char c ")" then Some TOKEN_RPAREN
  else if is_char c "[" then Some TOKEN_LBRACKET
  else if is_char c "]" then Some TOKEN_RBRACKET
  else if is_char c "," then Some TOKEN_COMMA
  else if is_char c ";" then Some TOKEN_SEMICOLON
  else if is_char c ":" then Some TOKEN_COLON
  else if is_char c "." then Some TOKEN_DOT
  else None.

Definition is_operator_start (c : ascii) : bool :=
  is_char c "=" || is_char c "!" || is_char c "<" || is_char c ">" ||
  is_char c "+" || is_char c "-" || is_char c "*" || is_char c "/" ||
  is_char c "%" || is_char c "^".

Definition push_token (lexer : Lexer) (token : Token) : Lexer :=
  {| lx_source := lx_source lexer;
     lx_source_len := lx_source_len lexer;
     lx_position := lx_position lexer;
     lx_line := lx_line lexer;
     lx_column := lx_column lexer;
     lx_filename := lx_filename lexer;
     lx_tokens := lx_tokens lexer ++ [token];
     lx_error_message := lx_error_message lexer |}.

(** What one round of the loop of [lexer_tokenize] does once it stands
    on the first character [c] of a token: it skips the character
    ([continue]) or it runs a scanner. *)
Inductive Round : Type :=
| Skip (lexer : Lexer)
| Scanned (scan : Scan).

Section Tokenize.
(** [atof] of the C library, applied to the text of a number. *)
Variable atof : string -> float.

Definition lexer_read_number (lexer : Lexer) : Scan :=
  let start := lx_position lexer in
  (* Read integer part *)
  let lexer := read_digits_loop (remaining lexer) lexer in
  (* Check for decimal point *)
  let lexer :=
    if is_char (lexer_peek lexer 0) "." then
      let lexer := (lexer_advance lexer).2 in
      read_digits_loop (remaining lexer) lexer
    else lexer in
  let len := (lx_position lexer - start)%nat in
  let lexeme := String.substring start len (lx_source lexer) in
  let token := lexer_create_token lexer TOKEN_NUMBER lexeme len in
  (PCC_SUCCESS, Some (with_value token (NumberValue (atof lexeme))), lexer).

Definition retype (scan : Scan) (type : TokenType) : Scan :=
  match scan with
  | (PCC_SUCCESS, Some token, lexer) => (PCC_SUCCESS, Some (with_type token type), lexer)
  | _ => scan
  end.

Definition scan_token (lexer : Lexer) (c : ascii) : Round :=
  if is_char c "$" then
    (* Variable reference: $identifier *)
    Scanned (retype (lexer_read_identifier (lexer_advance lexer).2) TOKEN_VARIABLE_REF)
  else if is_char c "@" then
    (* Template call: @identifier *)
    Scanned (retype (lexer_read_identifier (lexer_advance lexer).2) TOKEN_TEMPLATE_CALL)
  else if is_char c "034" || is_char c "'" then Scanned (lexer_read_string lexer)
  else if isdigit c then Scanned (lexer_read_number lexer)
  else if is_identifier_start c then Scanned (lexer_read_identifier lexer)
  else if is_operator_start c then Scanned (lexer_read_operator lexer)
  else
    match punctuation_type c with
    | None => (* Unknown character *) Skip (lexer_advance lexer).2
    | Some type =>
        let token :=
          lexer_create_token lexer type
            (String.substring (lx_position lexer) 1 (lx_source lexer)) 1 in
        Scanned (PCC_SUCCESS, Some token, (lexer_advance lexer).2)
    end.

(** The code after the loop: [Add EOF token]. *)
Definition finish (lexer : Lexer) : PCCError * Lexer :=
  (PCC_SUCCESS, push_token lexer (lexer_create_token lexer TOKEN_EOF EmptyString 0)).

Definition is_comment_start (lexer : Lexer) : bool :=
  is_char (lexer_peek lexer 0) "/" &&
  (is_char (lexer_peek lexer 1) "/" || is_char (lexer_peek lexer 1) "*").

(** The loop of [lexer_tokenize]; [None] when [fuel] rounds do not
    reach the end of the source. *)
Fixpoint tokenize_loop (fuel : nat) (lexer : Lexer) : option (PCCError * Lexer) :=
  match fuel with
  | O => None
  | S fuel =>
      if negb (lx_position lexer <? lx_source_len lexer)%nat then Some (finish lexer)
      else
        (* Skip whitespace and comments *)
        let lexer := lexer_skip_whitespace lexer in
        if is_comment_start lexer then tokenize_loop fuel (lexer_skip_comment lexer)
        else if (lx_source_len lexer <=? lx_position lexer)%nat then
          (* Check for end of input *) Some (finish lexer)
        else
          match scan_token lexer (lexer_peek lexer 0) with
          | Skip lexer => tokenize_loop fuel lexer
          | Scanned (err, token, lexer) =>
              if is_error err then
                (* Create error token *)
                let token :=
                  lexer_create_token lexer TOKEN_ERROR
                    (String.substring (lx_position lexer) 1 (lx_source lexer)) 1 in
                Some (err, push_token lexer token)
              else
                match token with
                | Some token => tokenize_loop fuel (push_token lexer token)
                | None => tokenize_loop fuel lexer
                end
          end
  end.

(** Every round that does not leave the loop reads at least one
    character: one round more than there are characters is enough. *)
Definition lexer_tokenize (lexer : Lexer) : option (PCCError * Lexer) :=
  tokenize_loop (S (remaining lexer)) lexer.
End Tokenize.

Definition lexer_create (source : string) (filename : option string) : Lexer :=
  {| lx_source := source;
     lx_source_len := String.length source;
     lx_position := 0;
     lx_line := 1;
     lx_column := 1;
     lx_filename := match filename with Some f => f | None => "<unknown>" end;
     lx_tokens := [];
     lx_error_message := None |}.

Definition lexer_get_token (lexer : Lexer) (index : nat) : option Token :=
  lx_tokens lexer !! index.

Definition lexer_token_count (lexer : Lexer) : nat := length (lx_tokens lexer).

(** The type of the token pushed last. *)
Definition last_token_type (lexer : Lexer) : option TokenType :=
  tok_type <$> last (lx_tokens lexer).



(** The second lexer state reads the same source, not earlier in it. *)
Record advances (lexer lexer' : Lexer) : Prop := mk_advances {
  adv_source : lx_source lexer' = lx_source lexer;
  adv_source_len : lx_source_len lexer' = lx_source_len lexer;
  adv_position : (lx_position lexer <= lx_position lexer')%nat
}.

(** The two ways [lexer_tokenize] comes back. *)
Definition tokenized (result : PCCError * Lexer) : Prop :=
  (result.1 = PCC_SUCCESS /\ last_token_type result.2 = Some TOKEN_EOF) \/
  (result.1 = PCC_ERROR_SYNTAX /\ last_token_type result.2 = Some TOKEN_ERROR).

(** What the loop of [lexer_tokenize] needs from a scanner: it does not
    move backwards, it reports success or a syntax error, and a successful
    scan has read something. *)
Definition scan_ok (lexer : Lexer) (scan : Scan) : Prop :=
  let '(err, _, lexer') := scan in
  advances lexer lexer' /\
  (err = PCC_SUCCESS \/ err = PCC_ERROR_SYNTAX) /\
  (err = PCC_SUCCESS -> (lx_position lexer < lx_position lexer')%nat).


(** The text holds no [*/]. *)
Definition never_closed (body : string) : Prop :=
  forall i, ~ (char_at body i = "*"%char /\ char_at body (S i) = "/"%char).

(** The two token types that [lexer_tokenize] itself pushes: the end
    marker and the error token. *)
Definition is_sentinel (type : TokenType) : bool :=
  match type with
  | TOKEN_EOF | TOKEN_ERROR => true
  | _ => false
  end.

(** Reading touches neither the token array nor the file name, and
    does not go past the end of the source. *)
Definition keeps_tokens (lexer lexer' : Lexer) : Prop :=
  lx_tokens lexer' = lx_tokens lexer /\ lx_filename lexer' = lx_filename lexer /\
  ((lx_position lexer <= lx_source_len lexer)%nat ->
   (lx_position lexer' <= lx_source_len lexer')%nat).

(** *** The token starts of a run and the lexical errors *)





(** The states in which the rounds of the loop of [lexer_tokenize] stand
    on the first character of a token, whitespace and comments skipped, in
    the order of the run: the loop of [tokenize_loop], keeping the state of
    each round that gets to [char c = lexer_peek(lexer, 0)]. *)
Fixpoint token_starts (atof : string -> float) (fuel : nat) (lexer : Lexer)
  : list Lexer :=
  match fuel with
  | O => []
  | S fuel =>
      if negb (lx_position lexer <? lx_source_len lexer)%nat then []
      else
        let lexer := lexer_skip_whitespace lexer in
        if is_comment_start lexer then token_starts atof fuel (lexer_skip_comment lexer)
        else if (lx_source_len lexer <=? lx_position lexer)%nat then []
        else
          lexer ::
          match scan_token atof lexer (lexer_peek lexer 0) with
          | Skip lexer => token_starts atof fuel lexer
          | Scanned (err, token, lexer) =>
              if is_error err then []
              else
                match token with
                | Some token => token_starts atof fuel (push_token lexer token)
                | None => token_starts atof fuel lexer
                end
          end
  end.

(** ** Sample inputs *)

(** A table that already holds the key ["alpha"], and one more put of it. *)
Definition sample_table : PCCHashTable nat :=
  (pcc_hashtable_put (pcc_hashtable_create 0 None) "alpha" (Some 1%nat)).2.


Definition sample_position : PCCPosition := mkPosition 3 5 "demo.pcc".

(** A global [x], then a nested scope entered. *)
Definition nested_table : SymbolTable :=
  (symbol_table_enter_scope
     (symbol_table_add symbol_table_create
        (symbol_create "x" SYMBOL_VARIABLE None sample_position)).2).2.

(** An analyzer inside a nested scope, with [x] declared globally. *)
Definition declared_x : SemanticAnalyzer :=
  {| symbol_table := nested_table; has_errors := 0 |}.

(** Stand-ins for [pow] and [fmod] where a run needs two concrete
    functions; the statements hold for every choice. *)
Definition stub_pow (x y : float) : float := x.
Definition stub_fmod (x y : float) : float := x.

Definition text_a : ASTNode := TextElement sample_position "a" 0.

(** [IF true { "a" }]. *)
Definition if_true_a : ASTNode :=
  IfStmt sample_position (Some (BooleanLiteral sample_position 1))
    (Some (ListNode ElementList sample_position (Some [Some text_a]))) None.

(** [IF true { IF true { "a" } }]. *)
Definition if_true_if_true_a : ASTNode :=
  IfStmt sample_position (Some (BooleanLiteral sample_position 1))
    (Some (ListNode ElementList sample_position (Some [Some if_true_a]))) None.

(** [1 + 2]. *)
Definition one_plus_two : ASTNode :=
  BinaryExpr sample_position TOKEN_ADD
    (Some (NumberLiteral sample_position 1%float))
    (Some (NumberLiteral sample_position 2%float)).

(** [PROMPT p { IF $missing { "a" } }]. *)
Definition prompt_with_undefined_condition : ASTNode :=
  ast_program_create
    (Some [Some (PromptDef sample_position "p"
             (Some (ListNode ElementList sample_position
                (Some [Some (IfStmt sample_position
                               (Some (VariableRef sample_position "missing"))
                               (Some (ListNode ElementList sample_position
                                        (Some [Some text_a])))
                               None)]))))]).

(** [PROMPT p { $missing }]. *)
Definition prompt_with_undefined_element : ASTNode :=
  ast_program_create
    (Some [Some (PromptDef sample_position "p"
             (Some (ListNode ElementList sample_position
                (Some [Some (VariableRef sample_position "missing")]))))]).

(** [VAR x]. *)
Definition var_x : ASTNode := VarDecl sample_position "x" None.

(** [CONSTRAINT c { n < 10 }]. *)
Definition constraint_c : ASTNode :=
  ConstraintDef sample_position "c"
    (Some [Some (ConstraintExpr sample_position "n" TOKEN_LT
                   (Some (NumberLiteral sample_position 10%float)))]).

(** [-(1 + 2) * 4]. *)
Definition nested_arithmetic : ASTNode :=
  BinaryExpr sample_position TOKEN_MUL
    (Some (UnaryExpr sample_position TOKEN_SUB (Some one_plus_two)))
    (Some (NumberLiteral sample_position 4%float)).

(** [PROMPT greet { "Hello, " $name }] as the parser builds it. *)
Definition prompt_greet : ASTNode :=
  ast_program_create
    (Some [Some (PromptDef sample_position "greet"
             (Some (ListNode ElementList sample_position
                (Some [Some (TextElement sample_position "Hello, " 0);
                       Some (VariableRef sample_position "name")]))))]).

(** A comparison function for arrays of numbers: the difference, [NULL]
    counting as zero. *)
Definition compare_numbers (a b : option Z) : Z := default 0 a - default 0 b.

(** A stand-in for [atof]. *)
Definition stub_atof (lexeme : string) : float := 0%float.

(* ===================================================================== *)
(** * Part II — properties                                                *)
(* ===================================================================== *)

(** ** Induction over the tree *)

(** [ASTNode] is nested in [option] and [list]: the induction hypothesis
    has to reach the nodes behind child pointers and array slots. *)
Section ASTNodeInduction.
Variable P : ASTNode -> Prop.

Hypothesis case_Program : forall position statements,
  on_array P statements -> P (Program position statements).
Hypothesis case_PromptDef : forall position name body,
  on_pointer P body -> P (PromptDef position name body).
Hypothesis case_VarDecl : forall position name initializer,
  on_pointer P initializer -> P (VarDecl position name initializer).
Hypothesis case_TemplateDef : forall position name parameters body,
  on_pointer P body -> P (TemplateDef position name parameters body).
Hypothesis case_ConstraintDef : forall position name constraints,
  on_array P constraints -> P (ConstraintDef position name constraints).
Hypothesis case_OutputSpec : forall position name format,
  P (OutputSpec position name format).
Hypothesis case_Identifier : forall position name, P (Identifier position name).
Hypothesis case_StringLiteral : forall position string_val,
  P (StringLiteral position string_val).
Hypothesis case_NumberLiteral : forall position number_val,
  P (NumberLiteral position number_val).
Hypothesis case_BooleanLiteral : forall position bool_val,
  P (BooleanLiteral position bool_val).
Hypothesis case_BinaryExpr : forall position op_type lhs rhs,
  on_pointer P lhs -> on_pointer P rhs -> P (BinaryExpr position op_type lhs rhs).
Hypothesis case_UnaryExpr : forall position op_type operand,
  on_pointer P operand -> P (UnaryExpr position op_type operand).
Hypothesis case_VariableRef : forall position name, P (VariableRef position name).
Hypothesis case_CallExpr : forall kind position name arguments,
  on_array P arguments -> P (CallExpr kind position name arguments).
Hypothesis case_IfStmt : forall position condition then_body else_body,
  on_pointer P condition -> on_pointer P then_body -> on_pointer P else_body ->
  P (IfStmt position condition then_body else_body).
Hypothesis case_ForStmt : forall position variable iterable body,
  on_pointer P iterable -> on_pointer P body ->
  P (ForStmt position variable iterable body).
Hypothesis case_WhileStmt : forall position condition body,
  on_pointer P condition -> on_pointer P body -> P (WhileStmt position condition body).
Hypothesis case_TextElement : forall position text is_raw,
  P (TextElement position text is_raw).
Hypothesis case_ConstraintExpr : forall position variable op_type value,
  on_pointer P value -> P (ConstraintExpr position variable op_type value).
Hypothesis case_ListNode : forall kind position elements,
  on_array P elements -> P (ListNode kind position elements).
Hypothesis case_BareNode : forall kind position, P (BareNode kind position).

Lemma ASTNode_nested_ind : forall node, P node.
Proof.
  fix IH 1. intros node.
  assert (forall o, on_pointer P o) as Hpointer.
  { intros [n|]; simpl; [apply IH|exact I]. }
  assert (forall a, on_array P a) as Harray.
  { intros [l|]; simpl; [|exact I].
    induction l as [|o l IHl]; constructor; [|exact IHl].
    destruct o as [n|]; simpl; [apply IH|exact I]. }
  destruct node.
  - apply case_Program, Harray.
  - apply case_PromptDef, Hpointer.
  - apply case_VarDecl, Hpointer.
  - apply case_TemplateDef, Hpointer.
  - apply case_ConstraintDef, Harray.
  - apply case_OutputSpec.
  - apply case_Identifier.
  - apply case_StringLiteral.
  - apply case_NumberLiteral.
  - apply case_BooleanLiteral.
  - apply case_BinaryExpr; apply Hpointer.
  - apply case_UnaryExpr, Hpointer.
  - apply case_VariableRef.
  - apply case_CallExpr, Harray.
  - apply case_IfStmt; apply Hpointer.
  - apply case_ForStmt; apply Hpointer.
  - apply case_WhileStmt; apply Hpointer.
  - apply case_TextElement.
  - apply case_ConstraintExpr, Hpointer.
  - apply case_ListNode, Harray.
  - apply case_BareNode.
Qed.
End ASTNodeInduction.

(** ** The hash table *)

Section HashTableFacts.
Context {V : Type}.
Implicit Types (chain : list (PCCHashEntry V)) (key : string) (value : option V).
Implicit Types (buckets : list (list (PCCHashEntry V))) (table : PCCHashTable V).

Lemma chain_put_found chain key value :
  key ∈ entry_key <$> chain ->
  (chain_put chain key value).2 = false /\
  entry_key <$> (chain_put chain key value).1 = entry_key <$> chain.
Proof.
  induction chain as [|e next IH]; simpl; intros Hin.
  - by apply elem_of_nil in Hin.
  - destruct (String.eqb_spec (entry_key e) key) as [Heq|Hne]; [done|].
    apply elem_of_cons in Hin as [Hk|Hin]; [congruence|].
    destruct (IH Hin) as [Hb Hk].
    destruct (chain_put next key value) as [next' added]; simpl in *.
    split; [done|]. f_equal. exact Hk.
Qed.

Lemma chain_put_fresh chain key value :
  key ∉ entry_key <$> chain ->
  chain_put chain key value = (chain ++ [mkEntry key value], true).
Proof.
  induction chain as [|e next IH]; simpl; intros Hnin; [done|].
  apply not_elem_of_cons in Hnin as [Hne Hnin].
  destruct (String.eqb_spec (entry_key e) key) as [Heq|_]; [congruence|].
  by rewrite (IH Hnin).
Qed.

Lemma chain_put_elem chain key value e :
  e ∈ (chain_put chain key value).1 -> e ∈ chain \/ entry_key e = key.
Proof.
  induction chain as [|e0 next IH]; simpl.
  - intros ->%list_elem_of_singleton. by right.
  - destruct (String.eqb_spec (entry_key e0) key) as [Heq|Hne]; simpl.
    + intros [->|Hin]%elem_of_cons; [by right|]. left. by apply elem_of_cons; right.
    + destruct (chain_put next key value) as [next' added]; simpl in *.
      intros [->|Hin]%elem_of_cons; [left; by apply elem_of_cons; left|].
      destruct (IH Hin) as [?|?]; [left; by apply elem_of_cons; right|by right].
Qed.

Lemma chain_get_put chain key value :
  chain_get (chain_put chain key value).1 key = value.
Proof.
  induction chain as [|e next IH]; simpl.
  - by rewrite String.eqb_refl.
  - destruct (String.eqb_spec (entry_key e) key) as [Heq|Hne]; simpl.
    + by rewrite Heq, String.eqb_refl.
    + destruct (chain_put next key value) as [next' added]; simpl in *.
      by apply String.eqb_neq in Hne as ->.
Qed.

Lemma chain_get_put_ne chain key key' value :
  key <> key' ->
  chain_get (chain_put chain key value).1 key' = chain_get chain key'.
Proof.
  intros Hne. induction chain as [|e next IH]; simpl.
  - by apply String.eqb_neq in Hne as ->.
  - destruct (String.eqb_spec (entry_key e) key) as [Heq|Hne']; simpl.
    + rewrite Heq. by apply String.eqb_neq in Hne as ->.
    + destruct (chain_put next key value) as [next' added]; simpl in *.
      by rewrite IH.
Qed.

(** In a chain without duplicate keys, the walk of [chain_get] stops
    at the one entry that carries the key. *)
Lemma chain_get_elem chain e :
  NoDup (entry_key <$> chain) -> e ∈ chain ->
  chain_get chain (entry_key e) = entry_value e.
Proof.
  induction chain as [|e0 next IH]; simpl; intros Hnd Hin.
  - by apply elem_of_nil in Hin.
  - apply NoDup_cons in Hnd as [Hfresh Hnd].
    apply elem_of_cons in Hin as [->|Hin]; [by rewrite String.eqb_refl|].
    destruct (String.eqb_spec (entry_key e0) (entry_key e)) as [Heq|_]; [|by apply IH].
    exfalso. apply Hfresh. rewrite Heq. by apply list_elem_of_fmap_2.
Qed.

Lemma chain_get_absent chain key :
  key ∉ entry_key <$> chain -> chain_get chain key = None.
Proof.
  induction chain as [|e next IH]; simpl; [done|].
  intros [Hne Hnin]%not_elem_of_cons.
  destruct (String.eqb_spec (entry_key e) key); [congruence|by apply IH].
Qed.

(** Splitting the entries of a table around one of its buckets. *)
Lemma concat_around buckets index chain :
  buckets !! index = Some chain ->
  concat buckets =
    concat (take index buckets) ++ chain ++ concat (drop (S index) buckets).
Proof.
  intros Hl. rewrite <- (take_drop_middle _ _ _ Hl) at 1.
  by rewrite concat_app.
Qed.

Lemma concat_insert_around buckets index chain :
  (index < length buckets)%nat ->
  concat (<[index := chain]> buckets) =
    concat (take index buckets) ++ chain ++ concat (drop (S index) buckets).
Proof.
  intros Hlt. rewrite insert_take_drop by done. by rewrite concat_app.
Qed.

Lemma bucket_at_lookup buckets index :
  (index < length buckets)%nat ->
  buckets !! index = Some (bucket_at buckets index).
Proof.
  intros Hlt. unfold bucket_at.
  destruct (lookup_lt_is_Some_2 _ _ Hlt) as [c ->]. done.
Qed.

Lemma concat_insert_head buckets index e :
  (index < length buckets)%nat ->
  concat (<[index := e :: bucket_at buckets index]> buckets) ≡ₚ e :: concat buckets.
Proof.
  intros Hlt. rewrite concat_insert_around by done.
  rewrite (concat_around buckets index _ (bucket_at_lookup _ _ Hlt)) at 1.
  simpl. symmetry. apply Permutation_middle.
Qed.

Lemma bucket_index_lt hash_func capacity key :
  (0 < capacity)%nat -> (bucket_index hash_func capacity key < capacity)%nat.
Proof.
  intros Hc. unfold bucket_index.
  pose proof (Z.mod_pos_bound (hash_func key) (Z.of_nat capacity)). lia.
Qed.

Lemma elem_of_concat_bucket buckets e :
  e ∈ concat buckets <-> exists index chain, buckets !! index = Some chain /\ e ∈ chain.
Proof.
  rewrite list_elem_of_In, in_concat. split.
  - intros (chain & Hc & He). apply list_elem_of_In, list_elem_of_lookup in Hc as [i Hi].
    exists i, chain. by rewrite list_elem_of_In.
  - intros (i & chain & Hi & He). exists chain.
    rewrite <- !list_elem_of_In. split; [by eapply list_elem_of_lookup_2|done].
Qed.

(** ** Lookup against the list of entries *)

Lemma pcc_hashtable_get_elem table e :
  ht_wf table -> e ∈ ht_entries table ->
  pcc_hashtable_get table (entry_key e) = entry_value e.
Proof.
  intros Hwf Hin. unfold pcc_hashtable_get.
  apply elem_of_concat_bucket in Hin as (i & chain & Hi & He).
  rewrite (wf_placed _ Hwf _ _ _ Hi He).
  unfold bucket_at. rewrite Hi. simpl.
  apply chain_get_elem; [|done].
  pose proof (wf_nodup _ Hwf) as Hnd. unfold ht_keys, ht_entries in Hnd.
  rewrite (concat_around _ _ _ Hi), !fmap_app in Hnd.
  apply NoDup_app in Hnd as (_ & _ & Hnd). by apply NoDup_app in Hnd as (Hnd & _).
Qed.

Lemma pcc_hashtable_get_absent table key :
  ht_wf table -> key ∉ ht_keys table -> pcc_hashtable_get table key = None.
Proof.
  intros Hwf Hnin. unfold pcc_hashtable_get.
  apply chain_get_absent. intros Hin. apply Hnin.
  apply list_elem_of_fmap in Hin as (e & -> & He).
  apply list_elem_of_fmap_2. apply elem_of_concat_bucket.
  eexists _, _. split; [|exact He].
  apply bucket_at_lookup. rewrite (wf_buckets _ Hwf).
  apply bucket_index_lt, (wf_capacity _ Hwf).
Qed.

(** ** Creation *)

Lemma concat_replicate_nil (n : nat) :
  concat (replicate n ([] : list (PCCHashEntry V))) = [].
Proof. induction n; simpl; auto. Qed.

Lemma pcc_hashtable_create_wf initial_capacity hash_func :
  ht_wf (pcc_hashtable_create (V:=V) initial_capacity hash_func).
Proof.
  unfold pcc_hashtable_create.
  set (c := if (initial_capacity =? 0)%nat then INITIAL_CAPACITY else initial_capacity).
  assert (0 < c)%nat as Hc.
  { subst c. destruct (Nat.eqb_spec initial_capacity 0); unfold INITIAL_CAPACITY; lia. }
  constructor; simpl; unfold ht_keys, ht_entries; simpl;
    rewrite ?concat_replicate_nil; simpl; try done.
  - apply length_replicate.
  - intros i chain e [-> _]%lookup_replicate He. by apply elem_of_nil in He.
  - constructor.
  - lia.
Qed.

(** ** Rehashing *)

Lemma rehash_fold hash_func (n : nat) (entries : list (PCCHashEntry V)) buckets :
  (0 < n)%nat -> length buckets = n -> placed hash_func n buckets ->
  let buckets' := fold_left (rehash_entry hash_func n) entries buckets in
  length buckets' = n /\ placed hash_func n buckets' /\
  concat buckets' ≡ₚ entries ++ concat buckets.
Proof.
  intros Hn. revert buckets.
  induction entries as [|e entries IH]; intros buckets Hlen Hpl; simpl.
  - done.
  - set (i := bucket_index hash_func n (entry_key e)).
    assert (i < length buckets)%nat as Hi by (rewrite Hlen; by apply bucket_index_lt).
    destruct (IH (rehash_entry hash_func n buckets e)) as (Hl & Hp & Hperm).
    + unfold rehash_entry. by rewrite length_insert.
    + unfold rehash_entry. fold i. intros j chain e' Hj He'.
      destruct (decide (i = j)) as [<-|Hne].
      * rewrite list_lookup_insert_eq in Hj by done. injection Hj as <-.
        apply elem_of_cons in He' as [->|He']; [done|].
        eapply Hpl; [by apply bucket_at_lookup|done].
      * rewrite list_lookup_insert_ne in Hj by done. by eapply Hpl.
    + split; [done|]. split; [done|].
      rewrite Hperm. unfold rehash_entry. fold i.
      rewrite concat_insert_head by done.
      symmetry. apply Permutation_middle.
Qed.

Lemma pcc_hashtable_resize_wf table (new_capacity : nat) :
  ht_wf table -> (0 < new_capacity)%nat -> (ht_size table <= new_capacity)%nat ->
  exists table',
    pcc_hashtable_resize table new_capacity = (PCC_SUCCESS, table') /\
    ht_wf table' /\ ht_capacity table' = new_capacity /\
    ht_size table' = ht_size table /\
    ht_hash_func table' = ht_hash_func table /\
    ht_entries table' ≡ₚ ht_entries table.
Proof.
  intros Hwf Hn Hsz. unfold pcc_hashtable_resize.
  destruct (Nat.ltb_spec new_capacity (ht_size table)) as [?|_]; [lia|].
  eexists. split; [reflexivity|].
  destruct (rehash_fold (ht_hash_func table) new_capacity
              (concat (ht_buckets table)) (replicate new_capacity []))
    as (Hl & Hp & Hperm); [done|apply length_replicate| |].
  { intros i chain e [-> _]%lookup_replicate He. by apply elem_of_nil in He. }
  rewrite concat_replicate_nil, app_nil_r in Hperm.
  split; [|by repeat split].
  constructor; simpl; unfold ht_keys, ht_entries; simpl; try done.
  - rewrite Hperm. apply (wf_nodup _ Hwf).
  - rewrite Hperm. apply (wf_size _ Hwf).
  - lia.
Qed.
End HashTableFacts.

Section HashTablePut.
Context {V : Type}.
Implicit Types (key : string) (value : option V) (table : PCCHashTable V).

(** Two well-formed tables with the same entries answer every lookup
    alike, whatever the bucket layout. *)
Lemma pcc_hashtable_get_perm table table' key :
  ht_wf table -> ht_wf table' -> ht_entries table' ≡ₚ ht_entries table ->
  pcc_hashtable_get table' key = pcc_hashtable_get table key.
Proof.
  intros Hwf Hwf' Hperm.
  destruct (decide (key ∈ ht_keys table)) as [Hin|Hnin].
  - apply list_elem_of_fmap in Hin as (e & -> & He).
    rewrite (pcc_hashtable_get_elem table e Hwf He).
    apply pcc_hashtable_get_elem; [done|]. by rewrite Hperm.
  - rewrite (pcc_hashtable_get_absent table key Hwf Hnin).
    apply pcc_hashtable_get_absent; [done|].
    unfold ht_keys. by rewrite Hperm.
Qed.

Lemma put_rebalance_wf table :
  ht_wf table ->
  exists table1,
    put_rebalance table = (PCC_SUCCESS, table1) /\ ht_wf table1 /\
    ht_size table1 = ht_size table /\
    ht_entries table1 ≡ₚ ht_entries table /\
    (S (ht_size table1) <= 2 * ht_capacity table1)%nat.
Proof.
  intros Hwf. unfold put_rebalance.
  pose proof (wf_capacity _ Hwf). pose proof (wf_load _ Hwf).
  destruct (Nat.ltb_spec (ht_capacity table * 3 / 4) (ht_size table)) as [Hgt|Hle].
  - destruct (pcc_hashtable_resize_wf table (ht_capacity table * 2) Hwf)
      as (t1 & -> & Hwf1 & Hc & Hs & _ & Hp); [lia|lia|].
    exists t1. split; [done|]. split; [done|]. split; [done|]. split; [done|]. lia.
  - exists table. split; [done|]. split; [done|]. split; [done|]. split; [done|].
    assert (ht_capacity table * 3 / 4 <= ht_capacity table * 3)%nat
      by (apply Nat.Div0.div_le_upper_bound; lia).
    assert (ht_capacity table * 3 / 4 < 2 * ht_capacity table)%nat; [|lia].
    apply Nat.Div0.div_lt_upper_bound. lia.
Qed.

Lemma key_in_own_bucket table key :
  ht_wf table -> key ∈ ht_keys table ->
  key ∈ entry_key <$>
    bucket_at (ht_buckets table)
              (bucket_index (ht_hash_func table) (ht_capacity table) key).
Proof.
  intros Hwf (e & -> & He)%list_elem_of_fmap.
  apply elem_of_concat_bucket in He as (i & chain & Hi & He).
  rewrite (wf_placed _ Hwf _ _ _ Hi He). unfold bucket_at. rewrite Hi. simpl.
  by apply list_elem_of_fmap_2.
Qed.

Lemma put_chain_spec table key value :
  ht_wf table -> (S (ht_size table) <= 2 * ht_capacity table)%nat ->
  let table' := put_chain table key value in
  ht_wf table' /\
  pcc_hashtable_get table' key = value /\
  (forall key', key' <> key ->
     pcc_hashtable_get table' key' = pcc_hashtable_get table key') /\
  (key ∈ ht_keys table ->
     ht_size table' = ht_size table /\ ht_keys table' = ht_keys table) /\
  (key ∉ ht_keys table ->
     ht_size table' = S (ht_size table) /\ ht_keys table' ≡ₚ key :: ht_keys table).
Proof.
  intros Hwf Hload.
  pose proof (wf_capacity _ Hwf) as Hcap. pose proof (wf_buckets _ Hwf) as Hlen.
  set (i := bucket_index (ht_hash_func table) (ht_capacity table) key).
  assert (i < length (ht_buckets table))%nat as Hi
    by (rewrite Hlen; by apply bucket_index_lt).
  pose proof (bucket_at_lookup _ _ Hi) as Hbucket.
  set (c := bucket_at (ht_buckets table) i) in *.
  assert (ht_keys (put_chain table key value) =
            (entry_key <$> concat (take i (ht_buckets table))) ++
            (entry_key <$> (chain_put c key value).1) ++
            (entry_key <$> concat (drop (S i) (ht_buckets table)))) as Hkeys'.
  { unfold ht_keys, ht_entries, put_chain. fold i. fold c.
    destruct (chain_put c key value) as [c' added]. simpl.
    by rewrite concat_insert_around, !fmap_app. }
  assert (ht_keys table =
            (entry_key <$> concat (take i (ht_buckets table))) ++
            (entry_key <$> c) ++
            (entry_key <$> concat (drop (S i) (ht_buckets table)))) as Hkeys.
  { unfold ht_keys, ht_entries. by rewrite (concat_around _ _ _ Hbucket), !fmap_app. }
  assert (ht_size (put_chain table key value) =
            if (chain_put c key value).2 then S (ht_size table) else ht_size table)
    as Hsize'.
  { unfold put_chain. fold i. fold c. by destruct (chain_put c key value). }
  assert (key ∈ ht_keys table ->
          ht_size (put_chain table key value) = ht_size table /\
          ht_keys (put_chain table key value) = ht_keys table) as Hfound.
  { intros Hin. pose proof (key_in_own_bucket table key Hwf Hin) as Hc. fold i c in Hc.
    destruct (chain_put_found c key value Hc) as [Hadd Hk].
    rewrite Hsize', Hadd, Hkeys', Hk, Hkeys. done. }
  assert (key ∉ ht_keys table ->
          ht_size (put_chain table key value) = S (ht_size table) /\
          ht_keys (put_chain table key value) ≡ₚ key :: ht_keys table) as Hfresh.
  { intros Hnin.
    assert (key ∉ entry_key <$> c) as Hc.
    { intros Hc. apply Hnin. rewrite Hkeys, !elem_of_app. auto. }
    rewrite Hsize', Hkeys', (chain_put_fresh c key value Hc), Hkeys. simpl.
    split; [done|]. rewrite fmap_app. simpl.
    rewrite <- !app_assoc. simpl.
    rewrite (Permutation_middle _ _ key). apply Permutation_app_head.
    rewrite (Permutation_middle _ _ key). done. }
  assert (length (ht_entries (put_chain table key value)) =
          length (ht_keys (put_chain table key value))) as Hlen'
    by (unfold ht_keys; by rewrite length_fmap).
  assert (length (ht_entries table) = length (ht_keys table)) as Hlen0
    by (unfold ht_keys; by rewrite length_fmap).
  split; [|split; [|split; [|split]]]; try done.
  - (* the invariant *)
    constructor.
    + unfold put_chain. fold i c. by destruct (chain_put c key value).
    + unfold put_chain. fold i c. destruct (chain_put c key value). simpl.
      by rewrite length_insert.
    + unfold put_chain. fold i c.
      pose proof (chain_put_elem c key value) as Hel.
      destruct (chain_put c key value) as [c' added]. simpl in *.
      intros j chain e Hj He. destruct (decide (i = j)) as [<-|Hne].
      * rewrite list_lookup_insert_eq in Hj by done. injection Hj as <-.
        destruct (Hel e He) as [Hin| ->]; [|done].
        by eapply (wf_placed _ Hwf).
      * rewrite list_lookup_insert_ne in Hj by done. by eapply (wf_placed _ Hwf).
    + destruct (decide (key ∈ ht_keys table)) as [Hin|Hnin].
      * destruct (Hfound Hin) as [_ ->]. apply (wf_nodup _ Hwf).
      * destruct (Hfresh Hnin) as [_ ->]. apply NoDup_cons. split; [done|].
        apply (wf_nodup _ Hwf).
    + rewrite Hlen'. destruct (decide (key ∈ ht_keys table)) as [Hin|Hnin].
      * destruct (Hfound Hin) as [-> ->]. rewrite <- Hlen0. apply (wf_size _ Hwf).
      * destruct (Hfresh Hnin) as [-> ->]. simpl. rewrite <- Hlen0.
        f_equal. apply (wf_size _ Hwf).
    + assert (ht_capacity (put_chain table key value) = ht_capacity table) as ->.
      { unfold put_chain. fold i c. by destruct (chain_put c key value). }
      rewrite Hsize'. destruct (chain_put c key value).2; lia.
  - (* the key reads back the value just stored *)
    unfold pcc_hashtable_get, put_chain. fold i c.
    pose proof (chain_get_put c key value) as Hget.
    destruct (chain_put c key value) as [c' added]. simpl in *. fold i.
    unfold bucket_at. by rewrite list_lookup_insert_eq.
  - (* the other keys are untouched *)
    intros key' Hne. unfold pcc_hashtable_get, put_chain. fold i c.
    pose proof (chain_get_put_ne c key key' value (not_eq_sym Hne)) as Hget.
    destruct (chain_put c key value) as [c' added]. simpl in *.
    set (j := bucket_index (ht_hash_func table) (ht_capacity table) key').
    unfold bucket_at. destruct (decide (i = j)) as [<-|Hij].
    + rewrite list_lookup_insert_eq by done. simpl. rewrite Hget.
      fold (bucket_at (ht_buckets table) i). done.
    + by rewrite list_lookup_insert_ne.
Qed.
End HashTablePut.

Section HashTableClaims.
Context {V : Type}.
Implicit Types (key : string) (value : option V) (table : PCCHashTable V).

(** Everything later parts need to know about one [pcc_hashtable_put]
    on a well-formed table. *)
Lemma pcc_hashtable_put_spec table key value :
  ht_wf table ->
  exists table',
    pcc_hashtable_put table key value = (PCC_SUCCESS, table') /\
    ht_wf table' /\
    pcc_hashtable_get table' key = value /\
    (forall key', key' <> key ->
       pcc_hashtable_get table' key' = pcc_hashtable_get table key') /\
    (key ∈ ht_keys table ->
       ht_size table' = ht_size table /\ ht_keys table' ≡ₚ ht_keys table) /\
    (key ∉ ht_keys table ->
       ht_size table' = S (ht_size table) /\ ht_keys table' ≡ₚ key :: ht_keys table).
Proof.
  intros Hwf. unfold pcc_hashtable_put.
  destruct (put_rebalance_wf table Hwf) as (t1 & -> & Hwf1 & Hs1 & Hp1 & Hload1).
  simpl. eexists. split; [reflexivity|].
  destruct (put_chain_spec t1 key value Hwf1 Hload1)
    as (Hwf' & Hget & Hframe & Hfound & Hfresh).
  assert (ht_keys t1 ≡ₚ ht_keys table) as Hk1 by (unfold ht_keys; by rewrite Hp1).
  split; [done|]. split; [done|]. split; [|split].
  - intros key' Hne. rewrite (Hframe key' Hne).
    by apply pcc_hashtable_get_perm.
  - intros Hin. rewrite <- Hk1 in Hin. destruct (Hfound Hin) as [-> ->].
    by rewrite Hs1.
  - intros Hnin. rewrite <- Hk1 in Hnin. destruct (Hfresh Hnin) as [-> ->].
    by rewrite Hs1, Hk1.
Qed.

Lemma pcc_hashtable_put_wf table key value :
  ht_wf table -> ht_wf (pcc_hashtable_put table key value).2.
Proof.
  intros Hwf.
  by destruct (pcc_hashtable_put_spec table key value Hwf) as (t' & -> & ? & _).
Qed.

Lemma chain_remove_split (chain : list (PCCHashEntry V)) key value chain' :
  chain_remove chain key = Some (value, chain') ->
  exists before entry after,
    chain = before ++ entry :: after /\ chain' = before ++ after /\
    entry_key entry = key /\ entry_value entry = value.
Proof.
  revert chain'. induction chain as [|e next IH]; intros chain'; simpl; [done|].
  destruct (String.eqb_spec (entry_key e) key) as [Hk|Hk].
  - intros [= <- <-]. by exists [], e, next.
  - destruct (chain_remove next key) as [[v next']|]; [|done].
    intros [= <- <-]. destruct (IH next' eq_refl) as (b & x & a & -> & -> & ? & ?).
    by exists (e :: b), x, a.
Qed.

Lemma pcc_hashtable_remove_wf table key :
  ht_wf table -> ht_wf (pcc_hashtable_remove table key).2.
Proof.
  intros Hwf. unfold pcc_hashtable_remove.
  set (i := bucket_index (ht_hash_func table) (ht_capacity table) key).
  assert (i < length (ht_buckets table))%nat as Hi.
  { rewrite (wf_buckets _ Hwf). apply bucket_index_lt, (wf_capacity _ Hwf). }
  pose proof (bucket_at_lookup _ _ Hi) as Hbucket.
  destruct (chain_remove _ key) as [[value chain']|] eqn:Hrem; [|done]. simpl.
  destruct (chain_remove_split _ _ _ _ Hrem) as (b & e & a & Hc & -> & Hk & _).
  assert (ht_entries table ≡ₚ
            e :: concat (<[i := b ++ a]> (ht_buckets table))) as Hperm.
  { unfold ht_entries. rewrite concat_insert_around by done.
    rewrite (concat_around _ _ _ Hbucket), Hc.
    rewrite <- !app_assoc. simpl. by rewrite <- !Permutation_middle. }
  constructor; simpl; unfold ht_keys, ht_entries; simpl.
  - apply (wf_capacity _ Hwf).
  - rewrite length_insert. apply (wf_buckets _ Hwf).
  - intros j chain x Hj Hx. destruct (decide (i = j)) as [<-|Hij].
    + rewrite list_lookup_insert_eq in Hj by done. injection Hj as <-.
      apply (wf_placed _ Hwf _ _ _ Hbucket). rewrite Hc.
      apply elem_of_app in Hx as [?|?]; apply elem_of_app; [by left|right].
      by apply elem_of_cons; right.
    + rewrite list_lookup_insert_ne in Hj by done. by eapply (wf_placed _ Hwf).
  - pose proof (wf_nodup _ Hwf) as Hnd. unfold ht_keys in Hnd.
    rewrite Hperm, fmap_cons in Hnd. by apply NoDup_cons in Hnd as [_ ?].
  - pose proof (wf_size _ Hwf) as Hsize. rewrite Hperm in Hsize.
    simpl in Hsize. lia.
  - pose proof (wf_load _ Hwf). lia.
Qed.

Lemma pcc_hashtable_clear_wf table : ht_wf table -> ht_wf (pcc_hashtable_clear table).
Proof.
  intros Hwf. pose proof (wf_capacity _ Hwf).
  constructor; simpl; unfold ht_keys, ht_entries; simpl;
    rewrite ?concat_replicate_nil; simpl; try done.
  - apply length_replicate.
  - intros i chain e [-> _]%lookup_replicate He. by apply elem_of_nil in He.
  - constructor.
  - lia.
Qed.

(** Every table a client can build satisfies the invariant. *)
Lemma ht_reachable_wf table : ht_reachable table -> ht_wf table.
Proof.
  induction 1 as [| | | |table n Hreach IH Hn].
  - apply pcc_hashtable_create_wf.
  - by apply pcc_hashtable_put_wf.
  - by apply pcc_hashtable_remove_wf.
  - by apply pcc_hashtable_clear_wf.
  - destruct (decide (ht_size table <= n)%nat) as [Hle|Hgt].
    + by destruct (pcc_hashtable_resize_wf table n IH Hn Hle) as (t' & -> & ? & _).
    + unfold pcc_hashtable_resize.
      by destruct (Nat.ltb_spec n (ht_size table)); [|lia].
Qed.

(** C10 — the hash map underlying every scope keeps its keys unique.
    On a well-formed table [pcc_hashtable_put] succeeds and leaves a
    well-formed table, whose keys are pairwise distinct.  When the key is
    already present the stored value is replaced: no entry is added, the
    entry count ([size] and the number of chained entries) and the set of
    keys are unchanged.  When the key is absent exactly one entry is
    added, for that key.  In both cases [pcc_hashtable_get] of the key
    returns the value just stored, and the other keys keep their value. *)
Theorem pcc_hashtable_put_keeps_keys_unique table key value :
  ht_wf table ->
  exists table',
    pcc_hashtable_put table key value = (PCC_SUCCESS, table') /\
    ht_wf table' /\ NoDup (ht_keys table') /\
    pcc_hashtable_get table' key = value /\
    (forall key', key' <> key ->
       pcc_hashtable_get table' key' = pcc_hashtable_get table key') /\
    (key ∈ ht_keys table ->
       pcc_hashtable_size table' = pcc_hashtable_size table /\
       length (ht_entries table') = length (ht_entries table) /\
       ht_keys table' ≡ₚ ht_keys table) /\
    (key ∉ ht_keys table ->
       pcc_hashtable_size table' = S (pcc_hashtable_size table) /\
       length (ht_entries table') = S (length (ht_entries table)) /\
       ht_keys table' ≡ₚ key :: ht_keys table).
Proof.
  intros Hwf.
  destruct (pcc_hashtable_put_spec table key value Hwf)
    as (t' & Hput & Hwf' & Hget & Hframe & Hfound & Hfresh).
  exists t'. split; [done|]. split; [done|].
  split; [apply (wf_nodup _ Hwf')|]. split; [done|]. split; [done|].
  unfold pcc_hashtable_size.
  rewrite <- (wf_size _ Hwf'), <- (wf_size _ Hwf). split.
  - intros Hin. destruct (Hfound Hin) as [Hs Hk]. by rewrite Hs.
  - intros Hnin. destruct (Hfresh Hnin) as [Hs Hk]. by rewrite Hs.
Qed.
End HashTableClaims.

Lemma pcc_hashtable_put_keeps_keys_unique_witness :
  ht_wf sample_table /\
  exists table',
    pcc_hashtable_put sample_table "alpha" (Some 2%nat) = (PCC_SUCCESS, table') /\
    ht_wf table' /\ NoDup (ht_keys table') /\
    pcc_hashtable_get table' "alpha" = Some 2%nat /\
    (forall key', key' <> "alpha"%string ->
       pcc_hashtable_get table' key' = pcc_hashtable_get sample_table key') /\
    ("alpha"%string ∈ ht_keys sample_table ->
       pcc_hashtable_size table' = pcc_hashtable_size sample_table /\
       length (ht_entries table') = length (ht_entries sample_table) /\
       ht_keys table' ≡ₚ ht_keys sample_table) /\
    ("alpha"%string ∉ ht_keys sample_table ->
       pcc_hashtable_size table' = S (pcc_hashtable_size sample_table) /\
       length (ht_entries table') = S (length (ht_entries sample_table)) /\
       ht_keys table' ≡ₚ "alpha"%string :: ht_keys sample_table).
Proof.
  assert (ht_wf sample_table) as Hwf
    by apply pcc_hashtable_put_wf, pcc_hashtable_create_wf.
  split; [exact Hwf|].
  exact (pcc_hashtable_put_keeps_keys_unique sample_table "alpha" (Some 2%nat) Hwf).
Defined.

(** ** The symbol table *)

Section ChainModify.
Implicit Types (chain : list (PCCHashEntry Symbol)) (key : string).

Lemma chain_modify_keys chain key f :
  entry_key <$> chain_modify chain key f = entry_key <$> chain.
Proof.
  induction chain as [|e next IH]; simpl; [done|].
  destruct (String.eqb (entry_key e) key); simpl; [done|]. by f_equal.
Qed.

Lemma chain_modify_elem chain key f e :
  e ∈ chain_modify chain key f ->
  exists e0, e0 ∈ chain /\ entry_key e0 = entry_key e.
Proof.
  intros He. apply (list_elem_of_fmap_2 entry_key) in He.
  rewrite chain_modify_keys in He.
  apply list_elem_of_fmap in He as (e0 & Hk & He0). eauto.
Qed.

Lemma chain_get_modify chain key key' f :
  chain_get (chain_modify chain key f) key' =
    if String.eqb key key' then f <$> chain_get chain key'
    else chain_get chain key'.
Proof.
  induction chain as [|e next IH]; simpl.
  - by destruct (String.eqb key key').
  - destruct (String.eqb_spec (entry_key e) key) as [Hk|Hk]; simpl.
    + rewrite Hk. destruct (String.eqb_spec key key'); simpl; done.
    + rewrite IH. destruct (String.eqb_spec key key') as [<-|_]; [|done].
      by apply String.eqb_neq in Hk as ->.
Qed.

Lemma symbol_modify_keys symbols key f :
  ht_wf symbols -> ht_keys (symbol_modify symbols key f) = ht_keys symbols.
Proof.
  intros Hwf. unfold ht_keys, ht_entries, symbol_modify. simpl.
  set (i := bucket_index _ _ key).
  assert (i < length (ht_buckets symbols))%nat as Hi.
  { rewrite (wf_buckets _ Hwf). apply bucket_index_lt, (wf_capacity _ Hwf). }
  rewrite concat_insert_around by done.
  rewrite (concat_around _ i _ (bucket_at_lookup _ _ Hi)) at 1.
  by rewrite !fmap_app, chain_modify_keys.
Qed.

Lemma symbol_modify_get symbols key key' f :
  ht_wf symbols ->
  pcc_hashtable_get (symbol_modify symbols key f) key' =
    if String.eqb key key' then f <$> pcc_hashtable_get symbols key'
    else pcc_hashtable_get symbols key'.
Proof.
  intros Hwf. unfold pcc_hashtable_get, symbol_modify. simpl.
  set (i := bucket_index _ _ key). set (j := bucket_index _ _ key').
  assert (i < length (ht_buckets symbols))%nat as Hi.
  { rewrite (wf_buckets _ Hwf). apply bucket_index_lt, (wf_capacity _ Hwf). }
  destruct (String.eqb_spec key key') as [<-|Hne].
  - subst j. fold i. unfold bucket_at at 1. rewrite list_lookup_insert_eq by done.
    simpl. by rewrite chain_get_modify, String.eqb_refl.
  - destruct (decide (i = j)) as [<-|Hij].
    + unfold bucket_at at 1. rewrite list_lookup_insert_eq by done. simpl.
      rewrite chain_get_modify. by apply String.eqb_neq in Hne as ->.
    + unfold bucket_at at 1. by rewrite list_lookup_insert_ne.
Qed.

Lemma symbol_modify_wf symbols key f :
  ht_wf symbols -> ht_wf (symbol_modify symbols key f).
Proof.
  intros Hwf. pose proof (symbol_modify_keys symbols key f Hwf) as Hkeys.
  assert (bucket_index (ht_hash_func symbols) (ht_capacity symbols) key
          < length (ht_buckets symbols))%nat as Hi.
  { rewrite (wf_buckets _ Hwf). apply bucket_index_lt, (wf_capacity _ Hwf). }
  constructor.
  - apply (wf_capacity _ Hwf).
  - simpl. rewrite length_insert. apply (wf_buckets _ Hwf).
  - simpl. set (i := bucket_index _ _ key) in *.
    intros j chain e Hj He. destruct (decide (i = j)) as [<-|Hij].
    + rewrite list_lookup_insert_eq in Hj by done. injection Hj as <-.
      apply chain_modify_elem in He as (e0 & He0 & <-).
      eapply (wf_placed _ Hwf); [by apply bucket_at_lookup|done].
    + rewrite list_lookup_insert_ne in Hj by done. by eapply (wf_placed _ Hwf).
  - rewrite Hkeys. apply (wf_nodup _ Hwf).
  - apply (f_equal length) in Hkeys. unfold ht_keys in Hkeys.
    rewrite !length_fmap in Hkeys. rewrite Hkeys. apply (wf_size _ Hwf).
  - apply (wf_load _ Hwf).
Qed.

Lemma symbol_modify_values symbols key f :
  ht_wf symbols -> values_present symbols ->
  values_present (symbol_modify symbols key f).
Proof.
  intros Hwf Hv k Hk. rewrite symbol_modify_keys in Hk by done.
  rewrite symbol_modify_get by done.
  destruct (Hv k Hk) as [v ->]. by destruct (String.eqb key k).
Qed.
End ChainModify.

Section SymbolTableFacts.
Implicit Types (table : SymbolTable) (symbols : PCCHashTable Symbol).

(** Presence of a key, as [pcc_hashtable_contains] reports it. *)
Lemma pcc_hashtable_contains_keys symbols key :
  ht_wf symbols -> values_present symbols ->
  pcc_hashtable_contains symbols key = true <-> key ∈ ht_keys symbols.
Proof.
  intros Hwf Hv. unfold pcc_hashtable_contains. split.
  - intros Hc. destruct (decide (key ∈ ht_keys symbols)) as [|Hnin]; [done|].
    by rewrite (pcc_hashtable_get_absent _ _ Hwf Hnin) in Hc.
  - intros Hin. by destruct (Hv key Hin) as [v ->].
Qed.

Lemma put_values_present symbols key (symbol : Symbol) :
  ht_wf symbols -> values_present symbols ->
  values_present (pcc_hashtable_put symbols key (Some symbol)).2.
Proof.
  intros Hwf Hv.
  destruct (pcc_hashtable_put_spec symbols key (Some symbol) Hwf)
    as (t' & -> & Hwf' & Hget & Hframe & Hfound & Hfresh). simpl.
  intros k Hk. destruct (decide (k = key)) as [->|Hne]; [by rewrite Hget|].
  rewrite (Hframe k Hne). apply Hv.
  destruct (decide (key ∈ ht_keys symbols)) as [Hin|Hnin].
  - destruct (Hfound Hin) as [_ Hp]. by rewrite <- Hp.
  - destruct (Hfresh Hnin) as [_ Hp]. rewrite Hp in Hk.
    apply elem_of_cons in Hk as [?|?]; [congruence|done].
Qed.

Lemma scope_at_lookup table i s :
  all_scopes table !! i = Some s -> scope_at table i = s.
Proof. intros H. unfold scope_at. by rewrite H. Qed.

Lemma scope_at_current table :
  st_wf table ->
  all_scopes table !! current_scope table =
    Some (scope_at table (current_scope table)).
Proof.
  intros Hwf. unfold scope_at.
  destruct (lookup_lt_is_Some_2 _ _ (st_current _ Hwf)) as [s ->]. done.
Qed.

Lemma symbol_table_create_wf : st_wf symbol_table_create.
Proof.
  constructor; simpl; try done.
  - lia.
  - eexists. by split.
  - intros [|i] s Hl Hi; [done|]. by destruct i.
  - intros [|i] s Hl; [|by destruct i]. injection Hl as <-. simpl. split.
    + apply pcc_hashtable_create_wf.
    + intros k Hk. by apply elem_of_nil in Hk.
Qed.

Lemma symbol_table_enter_scope_wf table :
  st_wf table -> st_wf (symbol_table_enter_scope table).2.
Proof.
  intros Hwf. pose proof (st_current _ Hwf) as Hcur.
  pose proof (scope_at_current _ Hwf) as Hc.
  constructor; simpl.
  - apply (st_global _ Hwf).
  - rewrite length_app. simpl. lia.
  - destruct (st_root _ Hwf) as (g & Hg & ?). exists g.
    split; [|done]. rewrite lookup_app_l; [done|lia].
  - intros i s Hl Hi.
    destruct (decide (i < length (all_scopes table))%nat) as [Hlt|Hge].
    + rewrite lookup_app_l in Hl by done.
      destruct (st_parent _ Hwf i s Hl Hi) as (p & ps & Hp & Hpi & Hps & Hlev).
      exists p, ps. repeat split; try done. rewrite lookup_app_l; [done|lia].
    + rewrite lookup_app_r in Hl by lia.
      destruct (i - length (all_scopes table))%nat as [|k] eqn:Hk; [|by destruct k].
      injection Hl as <-. simpl.
      exists (current_scope table), (scope_at table (current_scope table)).
      repeat split; try done; [lia|]. by rewrite lookup_app_l.
  - intros i s Hl.
    destruct (decide (i < length (all_scopes table))%nat) as [Hlt|Hge].
    + rewrite lookup_app_l in Hl by done. by eapply (st_maps _ Hwf).
    + rewrite lookup_app_r in Hl by lia.
      destruct (i - length (all_scopes table))%nat as [|k]; [|by destruct k].
      injection Hl as <-. simpl. split; [apply pcc_hashtable_create_wf|].
      intros k Hk. by apply elem_of_nil in Hk.
Qed.

Lemma symbol_table_exit_scope_wf table :
  st_wf table -> st_wf (symbol_table_exit_scope table).2.
Proof.
  intros Hwf. unfold symbol_table_exit_scope.
  destruct (scope_parent _) as [p|] eqn:Hp; [|done].
  pose proof (scope_at_current _ Hwf) as Hc.
  constructor; simpl; try apply Hwf.
  destruct (decide (current_scope table = 0%nat)) as [H0|H0].
  - destruct (st_root _ Hwf) as (g & Hg & Hgp & _).
    rewrite H0, Hg in Hc. injection Hc as Hc. rewrite H0, <- Hc in Hp. congruence.
  - destruct (st_parent _ Hwf _ _ Hc H0) as (p' & ps & Hp' & Hlt & _).
    rewrite Hp in Hp'. injection Hp' as <-. pose proof (st_current _ Hwf). lia.
Qed.

Lemma symbol_table_add_error_wf table message position error_code :
  st_wf table -> st_wf (symbol_table_add_error table message position error_code).2.
Proof. intros Hwf. constructor; simpl; apply Hwf. Qed.

(** Replacing the map of a scope, its links untouched. *)
Lemma set_scope_wf table i symbols :
  st_wf table -> (i < length (all_scopes table))%nat ->
  ht_wf symbols -> values_present symbols ->
  st_wf (set_scope table i
           {| scope_symbols := symbols;
              scope_parent := scope_parent (scope_at table i);
              scope_level := scope_level (scope_at table i) |}).
Proof.
  intros Hwf Hi Hs Hv.
  destruct (lookup_lt_is_Some_2 _ _ Hi) as [si Hsi].
  rewrite (scope_at_lookup _ _ _ Hsi).
  assert (forall j s, <[i := {| scope_symbols := symbols;
                                scope_parent := scope_parent si;
                                scope_level := scope_level si |}]>
                        (all_scopes table) !! j = Some s ->
            exists s0, all_scopes table !! j = Some s0 /\
                       scope_parent s = scope_parent s0 /\
                       scope_level s = scope_level s0 /\
                       (j <> i -> s = s0)) as Hsame.
  { intros j s Hj. destruct (decide (i = j)) as [<-|Hij].
    - rewrite list_lookup_insert_eq in Hj by done. injection Hj as <-.
      exists si. by repeat split.
    - rewrite list_lookup_insert_ne in Hj by done. exists s. by repeat split. }
  assert (forall j s0, all_scopes table !! j = Some s0 ->
            exists s, <[i := {| scope_symbols := symbols;
                                scope_parent := scope_parent si;
                                scope_level := scope_level si |}]>
                        (all_scopes table) !! j = Some s /\
                      scope_level s = scope_level s0) as Hback.
  { intros j s0 Hj. destruct (decide (i = j)) as [<-|Hij].
    - rewrite list_lookup_insert_eq by done. eexists. split; [done|]. simpl.
      congruence.
    - rewrite list_lookup_insert_ne by done. eauto. }
  constructor; simpl.
  - apply (st_global _ Hwf).
  - rewrite length_insert. apply (st_current _ Hwf).
  - destruct (st_root _ Hwf) as (g & Hg & Hgp & Hgl).
    destruct (Hback _ _ Hg) as (g' & Hg' & Hl'). exists g'. split; [done|].
    destruct (Hsame _ _ Hg') as (g0 & Hg0 & Hp0 & Hl0 & _).
    rewrite Hg in Hg0. injection Hg0 as <-. split; congruence.
  - intros j s Hj Hj0. destruct (Hsame _ _ Hj) as (s0 & Hs0 & Hp0 & Hl0 & _).
    destruct (st_parent _ Hwf j s0 Hs0 Hj0) as (p & ps & Hp & Hlt & Hps & Hlev).
    destruct (Hback _ _ Hps) as (ps' & Hps' & Hl').
    exists p, ps'. repeat split; try done; congruence.
  - intros j s Hj. destruct (decide (i = j)) as [<-|Hij].
    + rewrite list_lookup_insert_eq in Hj by done. by injection Hj as <-.
    + rewrite list_lookup_insert_ne in Hj by done. by eapply (st_maps _ Hwf).
Qed.

Lemma symbol_table_add_wf table symbol :
  st_wf table -> st_wf (symbol_table_add table symbol).2.
Proof.
  intros Hwf. unfold symbol_table_add.
  destruct (pcc_hashtable_contains _ _); [by apply symbol_table_add_error_wf|].
  destruct (st_maps _ Hwf _ _ (scope_at_current _ Hwf)) as [Hs Hv].
  pose proof (pcc_hashtable_put_wf _ (sym_name symbol) (Some symbol) Hs) as Hs'.
  pose proof (put_values_present _ (sym_name symbol) symbol Hs Hv) as Hv'.
  destruct (pcc_hashtable_put _ _ _) as [err symbols'] eqn:Hput. simpl in *.
  assert (st_wf (set_scope table (current_scope table)
                   {| scope_symbols := symbols';
                      scope_parent := scope_parent (scope_at table (current_scope table));
                      scope_level := scope_level (scope_at table (current_scope table)) |}))
    by (apply set_scope_wf; [done|apply (st_current _ Hwf)|done|done]).
  by destruct (negb _).
Qed.

Lemma lookup_chain_in_range table fuel scope name s symbol :
  st_wf table ->
  (forall i, scope = Some i -> (i < length (all_scopes table))%nat) ->
  lookup_chain fuel table scope name = Some (s, symbol) ->
  (s < length (all_scopes table))%nat.
Proof.
  intros Hwf. revert scope. induction fuel as [|fuel IH]; intros scope Hr; simpl; [done|].
  destruct scope as [i|]; [|done].
  destruct (pcc_hashtable_get _ name) as [sym|].
  - intros [= <- _]. by apply Hr.
  - apply IH. intros p Hp. specialize (Hr i eq_refl).
    destruct (lookup_lt_is_Some_2 _ _ Hr) as [si Hsi].
    rewrite (scope_at_lookup _ _ _ Hsi) in Hp.
    destruct (decide (i = 0%nat)) as [->|Hi0].
    + destruct (st_root _ Hwf) as (g & Hg & Hgp & _). congruence.
    + destruct (st_parent _ Hwf i si Hsi Hi0) as (p' & ps & Hp' & Hlt & _).
      rewrite Hp in Hp'. injection Hp' as <-. lia.
Qed.

Lemma symbol_table_mark_used_wf table name :
  st_wf table -> st_wf (symbol_table_mark_used table name).2.
Proof.
  intros Hwf. unfold symbol_table_mark_used.
  destruct (symbol_table_lookup_in table name) as [[s sym]|] eqn:Hl;
    [|by apply symbol_table_add_error_wf].
  simpl.
  assert (s < length (all_scopes table))%nat as Hs.
  { eapply lookup_chain_in_range; [done| |exact Hl].
    intros i [= <-]. apply (st_current _ Hwf). }
  destruct (lookup_lt_is_Some_2 _ _ Hs) as [ss Hss].
  destruct (st_maps _ Hwf _ _ Hss) as [Hm Hv].
  rewrite (scope_at_lookup _ _ _ Hss) in *.
  pose proof (set_scope_wf table s (symbol_modify (scope_symbols ss) name set_is_used)
                Hwf Hs (symbol_modify_wf _ _ _ Hm)
                (symbol_modify_values _ _ _ Hm Hv)) as Hres.
  by rewrite (scope_at_lookup _ _ _ Hss) in Hres.
Qed.

Lemma st_reachable_wf table : st_reachable table -> st_wf table.
Proof.
  induction 1.
  - apply symbol_table_create_wf.
  - by apply symbol_table_enter_scope_wf.
  - by apply symbol_table_exit_scope_wf.
  - by apply symbol_table_add_wf.
  - by apply symbol_table_add_error_wf.
  - by apply symbol_table_mark_used_wf.
Qed.
End SymbolTableFacts.

Section ScopeChain.
Implicit Types (table : SymbolTable).

(** The level of a scope counts its ancestors: walking up that many
    parent links ends at the global scope. *)
Lemma nth_ancestor_level table :
  st_wf table ->
  forall i, (i < length (all_scopes table))%nat ->
    0 <= scope_level (scope_at table i) /\
    nth_ancestor table (Z.to_nat (scope_level (scope_at table i))) i = Some 0%nat.
Proof.
  intros Hwf i. induction i as [i IH] using lt_wf_ind. intros Hi.
  destruct (lookup_lt_is_Some_2 _ _ Hi) as [si Hsi].
  rewrite (scope_at_lookup _ _ _ Hsi).
  destruct (decide (i = 0%nat)) as [->|Hi0].
  - destruct (st_root _ Hwf) as (g & Hg & _ & Hgl).
    rewrite Hsi in Hg. injection Hg as ->. by rewrite Hgl.
  - destruct (st_parent _ Hwf i si Hsi Hi0) as (p & ps & Hp & Hlt & Hps & Hlev).
    destruct (IH p Hlt) as [Hpos Hanc]; [lia|].
    rewrite (scope_at_lookup _ _ _ Hps) in Hpos, Hanc.
    split; [lia|]. rewrite Hlev, Z2Nat.inj_add by lia.
    change (Z.to_nat 1) with 1%nat. rewrite Nat.add_1_r. simpl.
    by rewrite (scope_at_lookup _ _ _ Hsi), Hp.
Qed.

(** C8 — the scope chain.  In every reachable state the global scope is
    the scope of level 0 without parent; every other scope has one
    parent, an older scope one level below it; walking up from the
    current scope as many parent links as its level ends at the global
    scope.  [symbol_table_enter_scope] succeeds and makes the current
    scope the parent of a fresh scope, one level deeper, which becomes
    current.  [symbol_table_exit_scope] moves to the parent, and on the
    global scope it fails and leaves the table as it was. *)
Theorem scope_chain_invariant table :
  st_reachable table ->
  let current := current_scope table in
  let global := global_scope table in
  (scope_parent (scope_at table global) = None /\
   scope_level (scope_at table global) = 0) /\
  (forall i, (i < length (all_scopes table))%nat -> i <> global ->
     exists p, scope_parent (scope_at table i) = Some p /\ (p < i)%nat /\
               scope_level (scope_at table i) = scope_level (scope_at table p) + 1) /\
  nth_ancestor table (Z.to_nat (scope_level (scope_at table current))) current
    = Some global /\
  (exists table',
     symbol_table_enter_scope table = (PCC_SUCCESS, table') /\
     all_scopes table' = all_scopes table ++ [scope_at table' (current_scope table')] /\
     current_scope table' = length (all_scopes table) /\
     global_scope table' = global /\
     scope_parent (scope_at table' (current_scope table')) = Some current /\
     scope_level (scope_at table' (current_scope table'))
       = scope_level (scope_at table current) + 1) /\
  (current <> global ->
     exists p, scope_parent (scope_at table current) = Some p /\
               symbol_table_exit_scope table =
                 (PCC_SUCCESS,
                  {| current_scope := p; global_scope := global;
                     all_scopes := all_scopes table;
                     st_errors := st_errors table |})) /\
  (current = global ->
     symbol_table_exit_scope table = (PCC_ERROR_RUNTIME, table)).
Proof.
  intros Hreach. apply st_reachable_wf in Hreach as Hwf. simpl.
  pose proof (st_global _ Hwf) as Hglobal. rewrite Hglobal.
  destruct (st_root _ Hwf) as (g & Hg & Hgp & Hgl).
  pose proof (scope_at_lookup _ _ _ Hg) as Hat0.
  split; [by rewrite Hat0|].
  split.
  { intros i Hi Hi0. destruct (lookup_lt_is_Some_2 _ _ Hi) as [si Hsi].
    destruct (st_parent _ Hwf i si Hsi Hi0) as (p & ps & Hp & Hlt & Hps & Hlev).
    exists p. by rewrite (scope_at_lookup _ _ _ Hsi), (scope_at_lookup _ _ _ Hps). }
  split; [apply nth_ancestor_level; [done|apply (st_current _ Hwf)]|].
  split.
  { eexists. split; [reflexivity|]. simpl.
    assert (scope_at
              {| current_scope := length (all_scopes table);
                 global_scope := global_scope table;
                 all_scopes := all_scopes table ++
                   [scope_create (Some (current_scope table))
                      (scope_level (scope_at table (current_scope table)) + 1)];
                 st_errors := st_errors table |}
              (length (all_scopes table))
            = scope_create (Some (current_scope table))
                (scope_level (scope_at table (current_scope table)) + 1)) as ->.
    { unfold scope_at. simpl. rewrite lookup_app_r by lia.
      by rewrite Nat.sub_diag. }
    by repeat split. }
  unfold symbol_table_exit_scope. split.
  - intros Hne. pose proof (scope_at_current _ Hwf) as Hc.
    destruct (st_parent _ Hwf _ _ Hc Hne) as (p & ps & Hp & _).
    exists p. by rewrite Hp, Hglobal.
  - intros ->. by rewrite Hat0, Hgp.
Qed.
End ScopeChain.

Lemma scope_chain_invariant_witness :
  st_reachable nested_table /\
  let table := nested_table in
  let current := current_scope table in
  let global := global_scope table in
  (scope_parent (scope_at table global) = None /\
   scope_level (scope_at table global) = 0) /\
  (forall i, (i < length (all_scopes table))%nat -> i <> global ->
     exists p, scope_parent (scope_at table i) = Some p /\ (p < i)%nat /\
               scope_level (scope_at table i) = scope_level (scope_at table p) + 1) /\
  nth_ancestor table (Z.to_nat (scope_level (scope_at table current))) current
    = Some global /\
  (exists table',
     symbol_table_enter_scope table = (PCC_SUCCESS, table') /\
     all_scopes table' = all_scopes table ++ [scope_at table' (current_scope table')] /\
     current_scope table' = length (all_scopes table) /\
     global_scope table' = global /\
     scope_parent (scope_at table' (current_scope table')) = Some current /\
     scope_level (scope_at table' (current_scope table'))
       = scope_level (scope_at table current) + 1) /\
  (current <> global ->
     exists p, scope_parent (scope_at table current) = Some p /\
               symbol_table_exit_scope table =
                 (PCC_SUCCESS,
                  {| current_scope := p; global_scope := global;
                     all_scopes := all_scopes table;
                     st_errors := st_errors table |})) /\
  (current = global ->
     symbol_table_exit_scope table = (PCC_ERROR_RUNTIME, table)).
Proof.
  assert (st_reachable nested_table) as Hreach.
  { unfold nested_table. apply reach_enter_scope, reach_add, reach_create. }
  split; [exact Hreach|].
  exact (scope_chain_invariant nested_table Hreach).
Defined.

Section SymbolTableAdd.
Implicit Types (table : SymbolTable) (symbol : Symbol).

(** The message of a redefinition error. *)
Lemma symbol_table_add_unfold table symbol :
  symbol_table_add table symbol =
    let scope := scope_at table (current_scope table) in
    if pcc_hashtable_contains (scope_symbols scope) (sym_name symbol) then
      (PCC_ERROR_SEMANTIC,
       {| current_scope := current_scope table;
          global_scope := global_scope table;
          all_scopes := all_scopes table;
          st_errors := st_errors table ++
            [mkSemanticError (redefinition_message (sym_name symbol))
               (sym_position symbol) SEM_ERROR_REDEFINED_SYMBOL] |})
    else
      let put := pcc_hashtable_put (scope_symbols scope) (sym_name symbol) (Some symbol) in
      (put.1,
       set_scope table (current_scope table)
         {| scope_symbols := put.2;
            scope_parent := scope_parent scope;
            scope_level := scope_level scope |}).
Proof.
  unfold symbol_table_add. simpl.
  destruct (pcc_hashtable_contains _ _); [done|].
  destruct (pcc_hashtable_put _ _ _) as [err symbols']. simpl.
  by destruct err.
Qed.

(** C4 — [symbol_table_add] and redefinitions.  The symbol goes into the
    map of the current scope and nowhere else.  A redefinition error is
    reported, exactly one, with the scopes left as they were, if and only
    if the current scope already holds the name; a holder of the name in
    any other scope, an enclosing one included, changes nothing: the add
    succeeds and the new symbol is what a local lookup returns. *)
Theorem symbol_table_add_redefinition table symbol :
  st_wf table ->
  let current := current_scope table in
  let local_names := ht_keys (scope_symbols (scope_at table current)) in
  let result := symbol_table_add table symbol in
  (sym_name symbol ∈ local_names ->
     result.1 = PCC_ERROR_SEMANTIC /\
     all_scopes result.2 = all_scopes table /\
     current_scope result.2 = current /\
     st_errors result.2 =
       st_errors table ++
         [mkSemanticError (redefinition_message (sym_name symbol))
            (sym_position symbol) SEM_ERROR_REDEFINED_SYMBOL]) /\
  (sym_name symbol ∉ local_names ->
     result.1 = PCC_SUCCESS /\
     st_errors result.2 = st_errors table /\
     current_scope result.2 = current /\
     symbol_table_lookup_local result.2 (sym_name symbol) = Some symbol /\
     ht_keys (scope_symbols (scope_at result.2 current))
       ≡ₚ sym_name symbol :: local_names /\
     (forall other, other <> sym_name symbol ->
        symbol_table_lookup_local result.2 other =
          symbol_table_lookup_local table other) /\
     (forall i, i <> current ->
        all_scopes result.2 !! i = all_scopes table !! i)) /\
  (result.1 = PCC_ERROR_SEMANTIC <-> sym_name symbol ∈ local_names) /\
  (forall outer, outer <> current ->
     sym_name symbol ∈ ht_keys (scope_symbols (scope_at table outer)) ->
     sym_name symbol ∉ local_names ->
     result.1 = PCC_SUCCESS /\ st_errors result.2 = st_errors table).
Proof.
  intros Hwf. simpl.
  pose proof (st_current _ Hwf) as Hcur.
  destruct (st_maps _ Hwf _ _ (scope_at_current _ Hwf)) as [Hs Hv].
  pose proof (pcc_hashtable_contains_keys _ (sym_name symbol) Hs Hv) as Hcontains.
  rewrite symbol_table_add_unfold. simpl.
  set (scope := scope_at table (current_scope table)) in *.
  destruct (pcc_hashtable_put_spec (scope_symbols scope) (sym_name symbol)
              (Some symbol) Hs)
    as (symbols' & Hput & Hwf' & Hget & Hframe & _ & Hfresh).
  assert (sym_name symbol ∉ ht_keys (scope_symbols scope) ->
          pcc_hashtable_contains (scope_symbols scope) (sym_name symbol) = false)
    as Hnot.
  { intros Hnin. apply not_true_is_false. intros Hc. by apply Hnin, Hcontains. }
  assert (forall s', scope_at (set_scope table (current_scope table) s')
                       (current_scope table) = s') as Hat.
  { intros s'. unfold scope_at, set_scope. simpl.
    by rewrite list_lookup_insert_eq. }
  split; [|split; [|split]].
  - intros Hin. apply Hcontains in Hin. by rewrite Hin.
  - intros Hnin. rewrite (Hnot Hnin), Hput. simpl.
    unfold symbol_table_lookup_local. simpl. rewrite Hat. simpl.
    destruct (Hfresh Hnin) as [_ Hkeys].
    split; [done|]. split; [done|]. split; [done|]. split; [done|].
    split; [done|]. split.
    + intros other Hne. by apply Hframe.
    + intros i Hi. by rewrite list_lookup_insert_ne.
  - split.
    + intros Herr. destruct (decide (sym_name symbol ∈ ht_keys (scope_symbols scope)))
        as [|Hnin]; [done|].
      rewrite (Hnot Hnin), Hput in Herr. discriminate.
    + intros Hin. apply Hcontains in Hin. by rewrite Hin.
  - intros outer _ _ Hnin. by rewrite (Hnot Hnin), Hput.
Qed.
End SymbolTableAdd.

Lemma symbol_table_add_redefinition_witness :
  st_wf nested_table /\
  let table := nested_table in
  let symbol := symbol_create "x" SYMBOL_PARAMETER None sample_position in
  let current := current_scope table in
  let local_names := ht_keys (scope_symbols (scope_at table current)) in
  let result := symbol_table_add table symbol in
  (sym_name symbol ∈ local_names ->
     result.1 = PCC_ERROR_SEMANTIC /\
     all_scopes result.2 = all_scopes table /\
     current_scope result.2 = current /\
     st_errors result.2 =
       st_errors table ++
         [mkSemanticError (redefinition_message (sym_name symbol))
            (sym_position symbol) SEM_ERROR_REDEFINED_SYMBOL]) /\
  (sym_name symbol ∉ local_names ->
     result.1 = PCC_SUCCESS /\
     st_errors result.2 = st_errors table /\
     current_scope result.2 = current /\
     symbol_table_lookup_local result.2 (sym_name symbol) = Some symbol /\
     ht_keys (scope_symbols (scope_at result.2 current))
       ≡ₚ sym_name symbol :: local_names /\
     (forall other, other <> sym_name symbol ->
        symbol_table_lookup_local result.2 other =
          symbol_table_lookup_local table other) /\
     (forall i, i <> current ->
        all_scopes result.2 !! i = all_scopes table !! i)) /\
  (result.1 = PCC_ERROR_SEMANTIC <-> sym_name symbol ∈ local_names) /\
  (forall outer, outer <> current ->
     sym_name symbol ∈ ht_keys (scope_symbols (scope_at table outer)) ->
     sym_name symbol ∉ local_names ->
     result.1 = PCC_SUCCESS /\ st_errors result.2 = st_errors table).
Proof.
  assert (st_wf nested_table) as Hwf.
  { apply st_reachable_wf. unfold nested_table.
    apply reach_enter_scope, reach_add, reach_create. }
  split; [exact Hwf|].
  exact (symbol_table_add_redefinition nested_table
           (symbol_create "x" SYMBOL_PARAMETER None sample_position) Hwf).
Defined.

(** The two cases of C4 on concrete tables: [x] declared again inside a
    nested scope is accepted, [x] declared twice in the global scope is
    reported once. *)
Example shadowing_is_accepted :
  let result :=
    symbol_table_add nested_table
      (symbol_create "x" SYMBOL_PARAMETER None sample_position) in
  result.1 = PCC_SUCCESS /\ st_errors result.2 = [].
Proof. vm_compute. done. Qed.

Example same_scope_is_reported :
  let declare table :=
    symbol_table_add table (symbol_create "x" SYMBOL_VARIABLE None sample_position) in
  let result := declare (declare symbol_table_create).2 in
  result.1 = PCC_ERROR_SEMANTIC /\
  st_errors result.2 =
    [mkSemanticError "Symbol 'x' already defined in this scope" sample_position 2].
Proof. vm_compute. done. Qed.

(** ** The semantic analyzer *)

Section Lookup.
Implicit Types (table : SymbolTable) (name : string).

Lemma parent_in_range table i p :
  st_wf table -> (i < length (all_scopes table))%nat ->
  scope_parent (scope_at table i) = Some p -> (p < i)%nat.
Proof.
  intros Hwf Hi Hp. destruct (lookup_lt_is_Some_2 _ _ Hi) as [si Hsi].
  rewrite (scope_at_lookup _ _ _ Hsi) in Hp.
  destruct (decide (i = 0%nat)) as [->|Hi0].
  - destruct (st_root _ Hwf) as (g & Hg & Hgp & _). congruence.
  - destruct (st_parent _ Hwf i si Hsi Hi0) as (p' & ps & Hp' & Hlt & _).
    congruence.
Qed.

(** A name no scope of the chain declares is not found by the walk. *)
Lemma lookup_chain_undeclared table name fuel scope :
  st_wf table ->
  (forall i, scope = Some i -> (i < length (all_scopes table))%nat) ->
  (forall s, s ∈ scope_chain_from fuel table scope ->
     name ∉ ht_keys (scope_symbols (scope_at table s))) ->
  lookup_chain fuel table scope name = None.
Proof.
  intros Hwf. revert scope.
  induction fuel as [|fuel IH]; intros scope Hr Hun; simpl; [done|].
  destruct scope as [i|]; [|done]. specialize (Hr i eq_refl) as Hi.
  destruct (lookup_lt_is_Some_2 _ _ Hi) as [si Hsi].
  destruct (st_maps _ Hwf _ _ Hsi) as [Hm _].
  rewrite (scope_at_lookup _ _ _ Hsi) in *.
  rewrite pcc_hashtable_get_absent; [|done|].
  - apply IH.
    + intros p Hp. rewrite <- (scope_at_lookup _ _ _ Hsi) in Hp.
      pose proof (parent_in_range _ _ _ Hwf Hi Hp). lia.
    + intros s Hs. apply Hun. simpl. apply elem_of_cons. right.
      by rewrite (scope_at_lookup _ _ _ Hsi).
  - rewrite <- (scope_at_lookup _ _ _ Hsi). apply Hun. simpl.
    apply elem_of_cons. by left.
Qed.

Lemma symbol_table_lookup_undeclared table name :
  st_wf table -> undeclared table name -> symbol_table_lookup table name = None.
Proof.
  intros Hwf Hun. unfold symbol_table_lookup, symbol_table_lookup_in.
  rewrite (lookup_chain_undeclared table name _ _ Hwf); [done| |exact Hun].
  intros i [= <-]. apply (st_current _ Hwf).
Qed.

(** The walk from a scope ends within as many rounds as the scope has
    ancestors, itself included: more fuel changes nothing, and the fuel of
    [symbol_table_lookup_in] is never the reason for an answer. *)
Lemma lookup_chain_enough_fuel table name fuel i :
  st_wf table -> (i < length (all_scopes table))%nat -> (i < fuel)%nat ->
  lookup_chain fuel table (Some i) name = lookup_chain (S i) table (Some i) name.
Proof.
  intros Hwf. revert fuel.
  induction i as [i IH] using lt_wf_ind. intros fuel Hi Hfuel.
  destruct fuel as [|fuel]; [lia|]. simpl.
  destruct (pcc_hashtable_get _ name); [done|].
  destruct (scope_parent (scope_at table i)) as [p|] eqn:Hp.
  - pose proof (parent_in_range _ _ _ Hwf Hi Hp) as Hlt.
    rewrite (IH p Hlt fuel) by lia. by rewrite (IH p Hlt i) by lia.
  - destruct fuel, i; done.
Qed.

Lemma symbol_table_lookup_in_fuel table name extra :
  st_wf table ->
  lookup_chain (length (all_scopes table) + extra) table
    (Some (current_scope table)) name
  = symbol_table_lookup_in table name.
Proof.
  intros Hwf. pose proof (st_current _ Hwf) as Hcur.
  unfold symbol_table_lookup_in.
  rewrite (lookup_chain_enough_fuel table name (length (all_scopes table) + extra))
    by (done || lia).
  by rewrite (lookup_chain_enough_fuel table name (length (all_scopes table))).
Qed.

(** [active_scopes] misses no ancestor of the current scope. *)
Lemma scope_chain_from_ancestor table fuel :
  st_wf table ->
  forall n i s, (i < fuel)%nat -> (i < length (all_scopes table))%nat ->
    nth_ancestor table n i = Some s -> s ∈ scope_chain_from fuel table (Some i).
Proof.
  intros Hwf. induction fuel as [|fuel IH]; intros n i s Hfuel Hi Hanc; [lia|].
  simpl. destruct n as [|n]; simpl in Hanc.
  - injection Hanc as <-. apply elem_of_cons. by left.
  - destruct (scope_parent (scope_at table i)) as [p|] eqn:Hp; [|done].
    pose proof (parent_in_range _ _ _ Hwf Hi Hp).
    apply elem_of_cons. right. apply (IH n); [lia|lia|done].
Qed.

Lemma active_scopes_complete table n s :
  st_wf table -> nth_ancestor table n (current_scope table) = Some s ->
  s ∈ active_scopes table.
Proof.
  intros Hwf. pose proof (st_current _ Hwf).
  by apply scope_chain_from_ancestor.
Qed.
End Lookup.

(** C5 — undefined references.  When no scope on the way from the current
    scope to the global one declares [name], analyzing the variable
    reference [$name], or a call [@name(...)] of either call kind, returns
    the semantic-error status and appends exactly one error to the list: an
    undefined-symbol error whose position is the position of the
    referencing node. *)
Theorem undefined_reference_reported (analyzer : SemanticAnalyzer)
    (position : PCCPosition) (name : string) (kind : CallKind)
    (arguments : option (list (option ASTNode))) :
  st_wf (symbol_table analyzer) ->
  undeclared (symbol_table analyzer) name ->
  (exists analyzer',
     semantic_analyze analyzer (Some (VariableRef position name))
       = Some (PCC_ERROR_SEMANTIC, analyzer') /\
     analyzer_errors analyzer' =
       analyzer_errors analyzer ++
         [mkSemanticError (undefined_variable_message name)
            (node_position (VariableRef position name))
            SEM_ERROR_UNDEFINED_SYMBOL]) /\
  (exists analyzer',
     semantic_analyze analyzer (Some (CallExpr kind position name arguments))
       = Some (PCC_ERROR_SEMANTIC, analyzer') /\
     analyzer_errors analyzer' =
       analyzer_errors analyzer ++
         [mkSemanticError (undefined_template_message name)
            (node_position (CallExpr kind position name arguments))
            SEM_ERROR_UNDEFINED_SYMBOL]).
Proof.
  intros Hwf Hun.
  pose proof (symbol_table_lookup_undeclared _ _ Hwf Hun) as Hlookup.
  split; eexists; simpl.
  - unfold analyze_variable_ref. rewrite Hlookup. split; reflexivity.
  - unfold analyze_function_call. rewrite Hlookup. split; reflexivity.
Qed.

Lemma undefined_reference_reported_witness :
  st_wf (symbol_table declared_x) /\
  undeclared (symbol_table declared_x) "y" /\
  (exists analyzer',
     semantic_analyze declared_x (Some (VariableRef sample_position "y"))
       = Some (PCC_ERROR_SEMANTIC, analyzer') /\
     analyzer_errors analyzer' =
       analyzer_errors declared_x ++
         [mkSemanticError (undefined_variable_message "y")
            (node_position (VariableRef sample_position "y"))
            SEM_ERROR_UNDEFINED_SYMBOL]) /\
  (exists analyzer',
     semantic_analyze declared_x
       (Some (CallExpr TemplateCall sample_position "y" (Some [])))
       = Some (PCC_ERROR_SEMANTIC, analyzer') /\
     analyzer_errors analyzer' =
       analyzer_errors declared_x ++
         [mkSemanticError (undefined_template_message "y")
            (node_position (CallExpr TemplateCall sample_position "y" (Some [])))
            SEM_ERROR_UNDEFINED_SYMBOL]).
Proof.
  assert (st_wf (symbol_table declared_x)) as Hwf.
  { apply st_reachable_wf. apply reach_enter_scope, reach_add, reach_create. }
  assert (undeclared (symbol_table declared_x) "y") as Hun.
  { intros s Hs. vm_compute in Hs.
    apply elem_of_cons in Hs as [->|Hs];
      [|apply elem_of_cons in Hs as [->|Hs]; [|by apply elem_of_nil in Hs]].
    - vm_compute. intros H. by apply elem_of_nil in H.
    - vm_compute. intros H. apply elem_of_cons in H as [H|H]; [discriminate|].
      by apply elem_of_nil in H. }
  split; [exact Hwf|]. split; [exact Hun|].
  exact (undefined_reference_reported declared_x sample_position "y" TemplateCall
           (Some []) Hwf Hun).
Defined.

(** *** The status against the error list *)

(** One direction of the correspondence between the status and the error
    list holds on every tree: a call that returns [PCC_ERROR_SEMANTIC] has
    recorded an error. *)
Lemma pcc_hashtable_put_status {V} (table : PCCHashTable V) key value :
  (pcc_hashtable_put table key value).1 = PCC_SUCCESS \/
  (pcc_hashtable_put table key value).1 = PCC_ERROR_RUNTIME.
Proof.
  unfold pcc_hashtable_put, put_rebalance, pcc_hashtable_resize.
  repeat case_match; simplify_eq/=; auto.
Qed.

Lemma declare_semantic_error analyzer name type data position analyzer' :
  declare analyzer name type data position = (PCC_ERROR_SEMANTIC, analyzer') ->
  analyzer_errors analyzer' <> [].
Proof.
  unfold declare, symbol_table_add.
  destruct (pcc_hashtable_contains _ _).
  - simpl. intros [= <-]. unfold analyzer_errors. simpl. by destruct (st_errors _).
  - pose proof (pcc_hashtable_put_status
                  (scope_symbols (scope_at (symbol_table analyzer)
                                           (current_scope (symbol_table analyzer))))
                  name (Some (symbol_create name type data position))) as Hput.
    simpl in *. destruct (pcc_hashtable_put _ _ _) as [err symbols].
    simpl in Hput. by destruct Hput as [-> | ->].
Qed.

Lemma add_error_recorded analyzer message position error_code :
  analyzer_errors (add_error analyzer message position error_code) <> [].
Proof. unfold analyzer_errors. simpl. by destruct (st_errors _). Qed.

Section StatusAndErrors.
Let recorded (node : ASTNode) : Prop :=
  forall analyzer analyzer',
    semantic_analyze_node node analyzer = Some (PCC_ERROR_SEMANTIC, analyzer') ->
    analyzer_errors analyzer' <> [].

Lemma analyze_until_error_recorded elements :
  Forall (on_pointer recorded) elements ->
  forall analyzer analyzer',
    analyze_until_error semantic_analyze_node elements analyzer
      = Some (PCC_ERROR_SEMANTIC, analyzer') ->
    analyzer_errors analyzer' <> [].
Proof.
  induction 1 as [|elem rest Helem _ IH]; intros analyzer analyzer'; simpl; [done|].
  destruct elem as [n|]; simpl; [|done].
  destruct (semantic_analyze_node n analyzer) as [[err a1]|] eqn:Hn; [|done].
  destruct (is_error err) eqn:Herr.
  - intros [= -> ->]. by eapply Helem.
  - apply IH.
Qed.

Lemma analyze_all_status rec elements analyzer err analyzer' :
  analyze_all rec elements analyzer = Some (err, analyzer') -> err = PCC_SUCCESS.
Proof.
  revert analyzer. induction elements as [|elem rest IH]; intros analyzer; simpl.
  - by intros [= <- _].
  - destruct (analyze_pointer rec elem analyzer) as [[e a1]|]; [apply IH|done].
Qed.

Lemma analyze_if_present_status rec node analyzer err analyzer' :
  analyze_if_present rec node analyzer = Some (err, analyzer') -> err = PCC_SUCCESS.
Proof.
  destruct node as [n|]; simpl; [|by intros [= <- _]].
  destruct (rec n analyzer) as [[e a1]|]; [by intros [= <- _]|done].
Qed.

Lemma semantic_failure_is_recorded node analyzer analyzer' :
  semantic_analyze_node node analyzer = Some (PCC_ERROR_SEMANTIC, analyzer') ->
  analyzer_errors analyzer' <> [].
Proof.
  revert analyzer analyzer'. change (recorded node).
  induction node using ASTNode_nested_ind; intros analyzer analyzer'; simpl.
  - (* Program *)
    destruct statements as [statements|]; simpl; [|done].
    by apply analyze_until_error_recorded.
  - (* PromptDef *)
    unfold analyze_prompt_def.
    destruct (declare _ _ _ _ _) as [err a1] eqn:Hdeclare.
    destruct err; simpl; try done.
    + destruct body as [body|]; [apply H|done].
    + intros [= <-]. by eapply declare_semantic_error.
  - (* VarDecl *)
    unfold analyze_var_decl.
    destruct (declare _ _ _ _ _) as [err a1] eqn:Hdeclare.
    destruct err; simpl; try done.
    + destruct initializer as [initializer|]; [apply H|done].
    + intros [= <-]. by eapply declare_semantic_error.
  - (* TemplateDef *)
    unfold analyze_template_def.
    destruct (declare _ _ _ _ _) as [err a1] eqn:Hdeclare.
    destruct err; simpl; try done.
    + destruct body as [body|]; [|done].
      destruct (semantic_analyze_node body _) as [[err a2]|] eqn:Hbody; [|done].
      intros [= -> <-]. apply H in Hbody.
      unfold analyzer_errors, symbol_table_exit_scope in *. simpl.
      by destruct (scope_parent _).
    + intros [= <-]. by eapply declare_semantic_error.
  - (* ConstraintDef *)
    unfold analyze_constraint_def.
    destruct (declare _ _ _ _ _) as [err a1] eqn:Hdeclare.
    destruct err; simpl; try done.
    + destruct constraints as [constraints|]; [|done].
      by apply analyze_until_error_recorded.
    + intros [= <-]. by eapply declare_semantic_error.
  - (* OutputSpec *)
    unfold analyze_output_spec.
    repeat case_match; try done; intros [= <-]; apply add_error_recorded.
  - (* Identifier *)
    unfold analyze_identifier.
    repeat case_match; try done; intros [= <-]; apply add_error_recorded.
  - done.
  - done.
  - done.
  - (* BinaryExpr *)
    unfold analyze_binary_expr. repeat case_match; done.
  - (* UnaryExpr *)
    unfold analyze_unary_expr. repeat case_match; done.
  - (* VariableRef *)
    unfold analyze_variable_ref.
    repeat case_match; try done; intros [= <-]; apply add_error_recorded.
  - (* CallExpr *)
    unfold analyze_function_call.
    destruct (symbol_table_lookup _ _) as [symbol|];
      [|intros [= <-]; apply add_error_recorded].
    destruct (negb _); [intros [= <-]; apply add_error_recorded|].
    destruct arguments as [arguments|]; [|done].
    by intros ?%analyze_all_status.
  - (* IfStmt *)
    unfold analyze_if_stmt. repeat case_match; done.
  - (* ForStmt *)
    unfold analyze_for_stmt. repeat case_match; done.
  - (* WhileStmt *)
    unfold analyze_while_stmt. repeat case_match; done.
  - done.
  - done.
  - (* ListNode *)
    unfold analyze_element_list.
    destruct kind; try done;
      (destruct elements as [elements|]; simpl; [|done]);
      by apply analyze_until_error_recorded.
  - done.
Qed.
End StatusAndErrors.

(** C6 on the code — the status of the top-level call against the error
    list.  For [PROMPT p { IF $missing { "a" } }] the undefined variable is
    recorded, [has_errors] is set, and [semantic_analyze] returns
    [PCC_SUCCESS]: [analyze_if_stmt] drops the status of the condition.  The
    same reference placed directly in the prompt body makes the call return
    [PCC_ERROR_SEMANTIC]: [analyze_element_list] hands the status on. *)
Theorem success_status_with_recorded_error :
  let undefined_missing :=
    mkSemanticError "Undefined variable '$missing'" sample_position
      SEM_ERROR_UNDEFINED_SYMBOL in
  report (semantic_analyze semantic_analyzer_create
            (Some prompt_with_undefined_condition))
    = Some (PCC_SUCCESS, [undefined_missing], true) /\
  report (semantic_analyze semantic_analyzer_create
            (Some prompt_with_undefined_element))
    = Some (PCC_ERROR_SEMANTIC, [undefined_missing], true).
Proof. vm_compute. split; reflexivity. Qed.

(** ** The optimizer *)

Section OptimizerFacts.
Variables pow fmod : float -> float -> float.
Implicit Types (optimizer : Optimizer) (fuel : nat).

Lemma requested_count_optimization optimizer :
  folding_requested (count_optimization optimizer) = folding_requested optimizer /\
  elimination_requested (count_optimization optimizer)
    = elimination_requested optimizer.
Proof. done. Qed.

(** A literal goes through [optimizer_optimize] untouched, whatever the
    passes. *)
Lemma optimizer_optimize_number fuel optimizer position number_val :
  optimizer_optimize pow fmod (S fuel) optimizer
    (Some (NumberLiteral position number_val))
  = Returned (optimizer, Some (NumberLiteral position number_val)).
Proof.
  simpl. unfold optimizer_optimize_body.
  destruct (folding_requested optimizer), (elimination_requested optimizer); done.
Qed.

Lemma optimizer_optimize_boolean fuel optimizer position bool_val :
  optimizer_optimize pow fmod (S fuel) optimizer
    (Some (BooleanLiteral position bool_val))
  = Returned (optimizer, Some (BooleanLiteral position bool_val)).
Proof.
  simpl. unfold optimizer_optimize_body.
  destruct (folding_requested optimizer), (elimination_requested optimizer); done.
Qed.

(** One traversal over a binary node with two numeric literals. *)
Lemma constant_folding_binary_literals fuel optimizer position op_type
    position_a a position_b b :
  constant_folding_binary pow fmod (optimizer_optimize pow fmod (S fuel))
    optimizer position op_type
    (Some (NumberLiteral position_a a)) (Some (NumberLiteral position_b b))
  = match fold_binary pow fmod op_type a b with
    | Some result =>
        Returned (count_optimization optimizer, Some (NumberLiteral position result))
    | None =>
        Returned (optimizer,
                  Some (BinaryExpr position op_type
                          (Some (NumberLiteral position_a a))
                          (Some (NumberLiteral position_b b))))
    end.
Proof.
  unfold constant_folding_binary. by rewrite !optimizer_optimize_number.
Qed.

(** [optimizer_optimize] on such a node, as soon as one of its two
    tests on [enabled_passes] holds. *)
Lemma optimizer_optimize_binary_literals fuel optimizer position op_type
    position_a a position_b b :
  folding_requested optimizer || elimination_requested optimizer = true ->
  optimizer_optimize pow fmod (S (S fuel)) optimizer
    (Some (BinaryExpr position op_type
             (Some (NumberLiteral position_a a)) (Some (NumberLiteral position_b b))))
  = match fold_binary pow fmod op_type a b with
    | Some result =>
        Returned (count_optimization optimizer, Some (NumberLiteral position result))
    | None =>
        Returned (optimizer,
                  Some (BinaryExpr position op_type
                          (Some (NumberLiteral position_a a))
                          (Some (NumberLiteral position_b b))))
    end.
Proof.
  intros Hreq.
  change (optimizer_optimize pow fmod (S (S fuel)) optimizer ?n)
    with (optimizer_optimize_body pow fmod (optimizer_optimize pow fmod (S fuel))
            optimizer n).
  unfold optimizer_optimize_body, optimize_node.
  destruct (folding_requested optimizer) eqn:Hf,
           (elimination_requested optimizer) eqn:He; try discriminate.
  - rewrite constant_folding_binary_literals.
    destruct (fold_binary pow fmod op_type a b) as [result|] eqn:Hfold.
    + destruct (requested_count_optimization optimizer) as [_ ->]. by rewrite He.
    + rewrite He. by rewrite constant_folding_binary_literals, Hfold.
  - rewrite constant_folding_binary_literals.
    destruct (fold_binary pow fmod op_type a b) as [result|].
    + destruct (requested_count_optimization optimizer) as [_ ->]. by rewrite He.
    + by rewrite He.
  - rewrite constant_folding_binary_literals.
    by destruct (fold_binary pow fmod op_type a b).
Qed.

(** C1 — constant folding of literal arithmetic.  With at least one pass
    requested, [optimizer_optimize] turns a binary expression over the
    numeric literals [a] and [b] into one numeric literal, at the position
    of the expression: [a + b], [a - b], [a * b] in double arithmetic and
    [pow a b] for [^], counting one optimization.  A division or a modulo
    whose right operand compares equal to zero is returned as the same
    binary expression over the same two literals, nothing counted. *)
Theorem constant_folding_of_literals fuel optimizer position
    position_a a position_b b :
  folding_requested optimizer || elimination_requested optimizer = true ->
  (2 <= fuel)%nat ->
  let literal_a := Some (NumberLiteral position_a a) in
  let literal_b := Some (NumberLiteral position_b b) in
  let optimize op_type :=
    optimizer_optimize pow fmod fuel optimizer
      (Some (BinaryExpr position op_type literal_a literal_b)) in
  let folded result :=
    Returned (count_optimization optimizer, Some (NumberLiteral position result)) in
  optimize TOKEN_ADD = folded (a + b)%float /\
  optimize TOKEN_SUB = folded (a - b)%float /\
  optimize TOKEN_MUL = folded (a * b)%float /\
  optimize TOKEN_POW = folded (pow a b) /\
  (PrimFloat.eqb b 0%float = true ->
     optimize TOKEN_DIV =
       Returned (optimizer, Some (BinaryExpr position TOKEN_DIV literal_a literal_b)) /\
     optimize TOKEN_MOD =
       Returned (optimizer, Some (BinaryExpr position TOKEN_MOD literal_a literal_b))).
Proof.
  intros Hreq Hfuel. destruct fuel as [|[|fuel]]; [lia|lia|]. cbv zeta beta.
  rewrite !(optimizer_optimize_binary_literals fuel optimizer) by done.
  unfold fold_binary.
  split; [done|]. split; [done|]. split; [done|]. split; [done|].
  intros ->. by split.
Qed.
End OptimizerFacts.

(** *** The fuel of the model *)

(** The recursion of [optimizer_optimize] follows the tree: fuel beyond
    the height of the tree is never used up, so [OutOfFuel] is no outcome
    of the code.  The rewritten tree is never deeper than the given one,
    which is what lets the second traversal go through on the same fuel. *)
Section OptimizerFuel.
Variables pow fmod : float -> float -> float.
Variable rec : Optimizer -> option ASTNode -> Rewrite.
Variable depth : nat.
Hypothesis rec_settled : forall optimizer node,
  (pointer_height node <= depth)%nat ->
  settled pointer_height (pointer_height node) (rec optimizer node).

Lemma optimize_elements_settled optimizer elements :
  (elements_height elements <= depth)%nat ->
  settled elements_height (elements_height elements)
    (optimize_elements rec optimizer elements).
Proof.
  revert optimizer. induction elements as [|elem rest IH]; intros optimizer Hdepth.
  - simpl. unfold elements_height. simpl. lia.
  - unfold elements_height in *. simpl in *.
    pose proof (rec_settled optimizer elem) as Helem.
    fold pointer_height in *.
    destruct (rec optimizer elem) as [[o1 elem']| | |]; simpl in *; [|done|done|lia].
    specialize (IH o1).
    destruct elem as [e|], elem' as [e'|]; simpl in *; try done;
      (destruct (optimize_elements rec o1 rest) as [[o2 rest']| | |]; simpl in *;
         [|done|done|lia]);
      fold pointer_height; lia.
Qed.

Lemma optimize_node_settled optimizer node :
  (pointer_height node <= S depth)%nat ->
  settled pointer_height (pointer_height node) (optimize_node pow fmod rec optimizer node).
Proof.
  destruct node as [node|]; [|simpl; lia].
  destruct node; intros Hdepth; try (simpl; lia).
  - (* Program *)
    simpl. destruct statements as [statements|]; [|simpl; lia].
    pose proof (optimize_elements_settled optimizer statements) as Hloop.
    unfold elements_height in *. simpl in *.
    destruct (optimize_elements rec optimizer statements) as [[o1 l]| | |];
      simpl in *; lia.
  - (* BinaryExpr *)
    simpl in *. unfold constant_folding_binary. fold pointer_height in *.
    pose proof (rec_settled optimizer left) as Hleft.
    destruct (rec optimizer left) as [[o1 lhs]| | |]; simpl in *; [|done|done|lia].
    pose proof (rec_settled o1 right) as Hright.
    destruct (rec o1 right) as [[o2 rhs]| | |]; simpl in *; [|done|done|lia].
    repeat case_match; simpl; fold pointer_height; lia.
  - (* UnaryExpr *)
    simpl in *. unfold constant_folding_unary. fold pointer_height in *.
    pose proof (rec_settled optimizer operand) as Hoperand.
    destruct (rec optimizer operand) as [[o1 operand']| | |]; simpl in *; [|done|done|lia].
    repeat case_match; simpl; fold pointer_height; lia.
  - (* IfStmt *)
    simpl in *. unfold dead_code_elimination_if. fold pointer_height in *.
    pose proof (rec_settled optimizer condition) as Hcondition.
    destruct (rec optimizer condition) as [[o1 condition']| | |]; simpl in *;
      [|done|done|lia].
    assert (settled pointer_height
              (S (Nat.max (pointer_height condition)
                    (Nat.max (pointer_height then_body) (pointer_height else_body))))
              (optimize_branches rec o1 position condition' then_body else_body))
      as Hbranches.
    { unfold optimize_branches, optimize_if_present.
      pose proof (rec_settled o1 then_body) as Hthen.
      destruct then_body as [then_body|]; simpl in *.
      - destruct (rec o1 (Some then_body)) as [[o2 then_body']| | |]; simpl in *;
          [|done|done|lia].
        pose proof (rec_settled o2 else_body) as Helse.
        destruct else_body as [else_body|]; simpl in *.
        + destruct (rec o2 (Some else_body)) as [[o3 else_body']| | |]; simpl in *;
            fold pointer_height; lia.
        + fold pointer_height. lia.
      - pose proof (rec_settled o1 else_body) as Helse.
        destruct else_body as [else_body|]; simpl in *.
        + destruct (rec o1 (Some else_body)) as [[o3 else_body']| | |]; simpl in *;
            fold pointer_height; lia.
        + fold pointer_height. lia. }
    destruct condition' as [c|]; [|done].
    destruct c; try exact Hbranches.
    destruct (negb (bool_val =? 0)).
    + destruct then_body as [result|]; [simpl; lia|exact Hbranches].
    + destruct else_body as [result|]; simpl; lia.
  - (* ListNode *)
    simpl in *.
    assert (settled pointer_height (S (array_height_with height elements))
              (optimize_list rec optimizer kind position elements)) as Hlist.
    { unfold optimize_list.
      destruct elements as [elements|]; [|destruct kind; simpl; lia].
      pose proof (optimize_elements_settled optimizer elements) as Hloop.
      unfold elements_height in *. simpl in *.
      destruct kind; try (simpl; lia);
        destruct (optimize_elements rec optimizer elements) as [[o1 l]| | |];
        simpl in *; lia. }
    destruct kind; exact Hlist.
Qed.

Lemma optimizer_optimize_body_settled optimizer node :
  (pointer_height node <= S depth)%nat ->
  settled pointer_height (pointer_height node)
    (optimizer_optimize_body pow fmod rec optimizer node).
Proof.
  intros Hdepth. unfold optimizer_optimize_body.
  destruct node as [node|]; [|simpl; lia].
  assert (forall o n, (pointer_height n <= pointer_height (Some node))%nat ->
            forall requested : bool,
            settled pointer_height (pointer_height (Some node))
              (if requested then optimize_node pow fmod rec o n else Returned (o, n)))
    as Hpass.
  { intros o n Hn [|]; [|exact Hn].
    pose proof (optimize_node_settled o n) as H.
    destruct (optimize_node pow fmod rec o n) as [[o' n']| | |]; simpl in *; lia. }
  pose proof (Hpass optimizer (Some node) (Nat.le_refl _)
                (folding_requested optimizer)) as Hfirst.
  destruct (if folding_requested optimizer then _ else _) as [[o1 n1]| | |];
    [|done|done|done].
  pose proof (Hpass o1 n1 Hfirst (elimination_requested o1)) as Hsecond.
  by destruct (if elimination_requested o1 then _ else _) as [[o2 n2]| | |].
Qed.
End OptimizerFuel.

(** With more fuel than the tree is high, [optimizer_optimize] comes to
    an end. *)
Lemma optimizer_optimize_settled pow fmod fuel optimizer node :
  (pointer_height node < fuel)%nat ->
  settled pointer_height (pointer_height node)
    (optimizer_optimize pow fmod fuel optimizer node).
Proof.
  revert optimizer node. induction fuel as [|fuel IH]; intros optimizer node Hfuel;
    [lia|].
  simpl. destruct fuel as [|fuel].
  - destruct node as [node|]; [|simpl; lia].
    assert (1 <= pointer_height (Some node))%nat by (destruct node; simpl; lia). lia.
  - apply (optimizer_optimize_body_settled pow fmod _ fuel); [|lia].
    intros o n Hn. apply IH. lia.
Qed.

(** Fuel that was not used up does not show in the outcome. *)
Section OptimizerStable.
Variables pow fmod : float -> float -> float.
Variables rec rec' : Optimizer -> option ASTNode -> Rewrite.
Hypothesis rec_stable : forall optimizer node,
  rec optimizer node <> OutOfFuel -> rec' optimizer node = rec optimizer node.

Local Ltac call optimizer node :=
  let E := fresh "Hcall" in
  destruct (rec optimizer node) as [[? ?]| | |] eqn:E;
  [rewrite (rec_stable optimizer node) by (by rewrite E); rewrite E
  |rewrite (rec_stable optimizer node) by (by rewrite E); rewrite E
  |rewrite (rec_stable optimizer node) by (by rewrite E); rewrite E
  |]; simpl; try done.

Lemma optimize_elements_stable optimizer elements :
  optimize_elements rec optimizer elements <> OutOfFuel ->
  optimize_elements rec' optimizer elements = optimize_elements rec optimizer elements.
Proof.
  revert optimizer. induction elements as [|elem rest IH]; intros optimizer; simpl;
    [done|].
  call optimizer elem.
  destruct elem as [e|], o0 as [e'|]; try done;
    intros Hrest; (rewrite IH; [done|]); intros Heq; apply Hrest; by rewrite Heq.
Qed.

Lemma optimize_branches_stable optimizer position condition then_body else_body :
  optimize_branches rec optimizer position condition then_body else_body <> OutOfFuel ->
  optimize_branches rec' optimizer position condition then_body else_body
  = optimize_branches rec optimizer position condition then_body else_body.
Proof.
  unfold optimize_branches, optimize_if_present.
  destruct then_body as [then_body|]; [call optimizer (Some then_body)|];
    (destruct else_body as [else_body|]; [|done]).
  - by call o (Some else_body).
  - by call optimizer (Some else_body).
Qed.

Lemma optimize_node_stable optimizer node :
  optimize_node pow fmod rec optimizer node <> OutOfFuel ->
  optimize_node pow fmod rec' optimizer node = optimize_node pow fmod rec optimizer node.
Proof.
  destruct node as [node|]; [|done].
  destruct node; try done; simpl.
  - (* Program *)
    destruct statements as [statements|]; [|done]. simpl. intros Hloop.
    rewrite optimize_elements_stable; [done|]. intros Heq. apply Hloop.
    by rewrite Heq.
  - (* BinaryExpr *)
    unfold constant_folding_binary. call optimizer left. by call o right.
  - (* UnaryExpr *)
    unfold constant_folding_unary. by call optimizer operand.
  - (* IfStmt *)
    unfold dead_code_elimination_if. call optimizer condition.
    destruct o0 as [c|]; [|done].
    destruct c; try apply optimize_branches_stable.
    destruct (negb (bool_val =? 0)); [|done].
    destruct then_body; [done|apply optimize_branches_stable].
  - (* ListNode *)
    assert (optimize_list rec optimizer kind position elements <> OutOfFuel ->
            optimize_list rec' optimizer kind position elements
            = optimize_list rec optimizer kind position elements) as Hlist.
    { unfold optimize_list. destruct elements as [elements|]; [|done].
      destruct kind; try done; intros Hloop;
        (rewrite optimize_elements_stable; [done|]); intros Heq; apply Hloop;
        by rewrite Heq. }
    destruct kind; try done; exact Hlist.
Qed.

Lemma optimizer_optimize_body_stable optimizer node :
  optimizer_optimize_body pow fmod rec optimizer node <> OutOfFuel ->
  optimizer_optimize_body pow fmod rec' optimizer node
  = optimizer_optimize_body pow fmod rec optimizer node.
Proof.
  unfold optimizer_optimize_body. destruct node as [node|]; [|done].
  assert (forall (requested : bool) o n,
            (if requested then optimize_node pow fmod rec o n else Returned (o, n))
              <> OutOfFuel ->
            (if requested then optimize_node pow fmod rec' o n else Returned (o, n))
            = (if requested then optimize_node pow fmod rec o n else Returned (o, n)))
    as Hpass.
  { intros [|] o n; [apply optimize_node_stable|done]. }
  intros Hbody.
  rewrite (Hpass (folding_requested optimizer));
    [|intros Heq; apply Hbody; by rewrite Heq].
  destruct (if folding_requested optimizer then _ else _) as [[o1 n1]| | |];
    [|done|done|done].
  rewrite (Hpass (elimination_requested o1));
    [done|intros Heq; apply Hbody; by rewrite Heq].
Qed.
End OptimizerStable.

Lemma optimizer_optimize_extra_fuel pow fmod fuel extra optimizer node :
  optimizer_optimize pow fmod fuel optimizer node <> OutOfFuel ->
  optimizer_optimize pow fmod (fuel + extra) optimizer node
  = optimizer_optimize pow fmod fuel optimizer node.
Proof.
  revert optimizer node. induction fuel as [|fuel IH]; intros optimizer node; [done|].
  simpl. apply optimizer_optimize_body_stable. exact IH.
Qed.

(** The outcome of [optimizer_optimize] on a tree is the one computed
    with one unit of fuel more than the tree is high. *)
Lemma optimizer_optimize_fuel_irrelevant pow fmod fuel optimizer node :
  (pointer_height node < fuel)%nat ->
  optimizer_optimize pow fmod fuel optimizer node
  = optimizer_optimize pow fmod (S (pointer_height node)) optimizer node.
Proof.
  intros Hfuel.
  replace fuel with (S (pointer_height node) + (fuel - S (pointer_height node)))%nat
    by lia.
  apply optimizer_optimize_extra_fuel.
  pose proof (optimizer_optimize_settled pow fmod (S (pointer_height node))
                optimizer node (Nat.lt_succ_diag_r _)) as H.
  intros Heq. by rewrite Heq in H.
Qed.

Lemma optimizer_optimize_never_out_of_fuel pow fmod optimizer node :
  optimizer_optimize pow fmod (S (pointer_height node)) optimizer node <> OutOfFuel.
Proof.
  pose proof (optimizer_optimize_settled pow fmod (S (pointer_height node))
                optimizer node (Nat.lt_succ_diag_r _)) as H.
  intros Heq. by rewrite Heq in H.
Qed.

Lemma constant_folding_of_literals_witness :
  let optimizer := optimizer_create (pass_bit OPT_CONSTANT_FOLDING) in
  let a := 6%float in
  let b := 0%float in
  folding_requested optimizer || elimination_requested optimizer = true /\
  (2 <= 2)%nat /\
  let literal_a := Some (NumberLiteral sample_position a) in
  let literal_b := Some (NumberLiteral sample_position b) in
  let optimize op_type :=
    optimizer_optimize stub_pow stub_fmod 2 optimizer
      (Some (BinaryExpr sample_position op_type literal_a literal_b)) in
  let folded result :=
    Returned (count_optimization optimizer, Some (NumberLiteral sample_position result)) in
  optimize TOKEN_ADD = folded (a + b)%float /\
  optimize TOKEN_SUB = folded (a - b)%float /\
  optimize TOKEN_MUL = folded (a * b)%float /\
  optimize TOKEN_POW = folded (stub_pow a b) /\
  (PrimFloat.eqb b 0%float = true ->
     optimize TOKEN_DIV =
       Returned (optimizer,
                 Some (BinaryExpr sample_position TOKEN_DIV literal_a literal_b)) /\
     optimize TOKEN_MOD =
       Returned (optimizer,
                 Some (BinaryExpr sample_position TOKEN_MOD literal_a literal_b))).
Proof.
  split; [reflexivity|]. split; [lia|].
  apply (constant_folding_of_literals stub_pow stub_fmod 2
           (optimizer_create (pass_bit OPT_CONSTANT_FOLDING))
           sample_position sample_position 6%float sample_position 0%float);
    [reflexivity|lia].
Defined.

Section DeadCode.
Variables pow fmod : float -> float -> float.
Implicit Types (optimizer : Optimizer) (fuel : nat).

Lemma optimizer_optimize_unfold fuel optimizer node :
  optimizer_optimize pow fmod (S fuel) optimizer node
  = optimizer_optimize_body pow fmod (optimizer_optimize pow fmod fuel)
      optimizer node.
Proof. reflexivity. Qed.

Lemma optimize_node_if rec optimizer position condition then_body else_body :
  optimize_node pow fmod rec optimizer
    (Some (IfStmt position condition then_body else_body))
  = dead_code_elimination_if rec optimizer position condition then_body else_body.
Proof. reflexivity. Qed.

(** One traversal over an [IF] whose condition is a boolean literal. *)
Lemma dead_code_elimination_if_literal fuel optimizer position position_c
    condition_val then_body else_body :
  dead_code_elimination_if (optimizer_optimize pow fmod (S fuel)) optimizer position
    (Some (BooleanLiteral position_c condition_val)) then_body else_body
  = if negb (condition_val =? 0) then
      match then_body with
      | Some result => Returned (count_optimization optimizer, Some result)
      | None =>
          optimize_branches (optimizer_optimize pow fmod (S fuel)) optimizer position
            (Some (BooleanLiteral position_c condition_val)) then_body else_body
      end
    else
      match else_body with
      | Some result => Returned (count_optimization optimizer, Some result)
      | None => Returned (count_optimization optimizer, None)
      end.
Proof.
  unfold dead_code_elimination_if. by rewrite optimizer_optimize_boolean.
Qed.

(** [optimizer_optimize] on an [IF] over a boolean literal, for every
    setting of the pass flags.  Each test that holds runs one traversal.
    The first traversal replaces an [IF] over a true literal by its
    then-branch and an [IF] over a false literal without else-branch by
    [NULL], and counts one optimization; when both tests hold, the second
    traversal is run on what the first one returned. *)
Lemma optimizer_optimize_if_literal fuel optimizer position position_c condition_val
    (then_body : ASTNode) (else_body any_then : option ASTNode) :
  condition_val <> 0 ->
  let if_true :=
    IfStmt position (Some (BooleanLiteral position_c condition_val))
      (Some then_body) else_body in
  let if_false :=
    IfStmt position (Some (BooleanLiteral position_c 0)) any_then None in
  let counted := count_optimization optimizer in
  optimizer_optimize pow fmod (S (S fuel)) optimizer (Some if_true)
  = (if folding_requested optimizer then
       if elimination_requested optimizer then
         match optimize_node pow fmod (optimizer_optimize pow fmod (S fuel)) counted
                 (Some then_body) with
         | Returned (optimizer, node) => Returned (optimizer, node)
         | stopped => stopped
         end
       else Returned (counted, Some then_body)
     else
       if elimination_requested optimizer then Returned (counted, Some then_body)
       else Returned (optimizer, Some if_true)) /\
  optimizer_optimize pow fmod (S (S fuel)) optimizer (Some if_false)
  = (if folding_requested optimizer || elimination_requested optimizer
     then Returned (counted, None)
     else Returned (optimizer, Some if_false)).
Proof.
  intros Hval. cbv zeta.
  rewrite !(optimizer_optimize_unfold (S fuel)). unfold optimizer_optimize_body.
  destruct (requested_count_optimization optimizer) as [Hf' He'].
  apply Z.eqb_neq in Hval.
  split.
  - destruct (folding_requested optimizer) eqn:Hf,
             (elimination_requested optimizer) eqn:He.
    + rewrite optimize_node_if, dead_code_elimination_if_literal, Hval.
      cbn [negb]. by rewrite He'.
    + rewrite optimize_node_if, dead_code_elimination_if_literal, Hval.
      cbn [negb]. by rewrite ?He'.
    + rewrite optimize_node_if, dead_code_elimination_if_literal, Hval.
      cbn [negb]. by rewrite ?He'.
    + done.
  - destruct (folding_requested optimizer) eqn:Hf,
             (elimination_requested optimizer) eqn:He; cbn [orb].
    + rewrite optimize_node_if, dead_code_elimination_if_literal.
      cbn [Z.eqb negb]. by rewrite ?He'.
    + rewrite optimize_node_if, dead_code_elimination_if_literal.
      cbn [Z.eqb negb]. by rewrite ?He'.
    + rewrite optimize_node_if, dead_code_elimination_if_literal.
      cbn [Z.eqb negb]. by rewrite ?He'.
    + done.
Qed.
End DeadCode.

(** C2 on the code — an [IF] over a true literal under both traversals.
    [optimizer_optimize] runs [optimize_node] once for each of its two
    tests that holds.  With [OPT_ALL], or with both passes enabled, both
    hold: the then-branch of [IF true { IF true { "a" } }] returned by the
    first traversal is rewritten by the second, the result is not the
    then-branch and two optimizations are counted.  With one pass enabled
    the same node is replaced by exactly its then-branch and one
    optimization is counted.  [IF false { "a" }] without else-branch is
    replaced by [NULL] with one optimization counted, also under
    [OPT_ALL]. *)
Theorem dead_branch_rewritten_twice :
  let then_branch := ListNode ElementList sample_position (Some [Some if_true_a]) in
  let rewritten :=
    ListNode ElementList sample_position
      (Some [Some (ListNode ElementList sample_position (Some [Some text_a]))]) in
  let if_false :=
    IfStmt sample_position (Some (BooleanLiteral sample_position 0))
      (Some (ListNode ElementList sample_position (Some [Some text_a]))) None in
  let optimize passes node :=
    optimizer_optimize stub_pow stub_fmod 8 (optimizer_create passes) (Some node) in
  let both :=
    Z.lor (pass_bit OPT_CONSTANT_FOLDING) (pass_bit OPT_DEAD_CODE_ELIMINATION) in
  if_true_if_true_a =
    IfStmt sample_position (Some (BooleanLiteral sample_position 1))
      (Some then_branch) None /\
  then_branch <> rewritten /\
  optimize (pass_bit OPT_ALL) if_true_if_true_a
    = Returned ({| enabled_passes := 16; optimizations_applied := 2 |}, Some rewritten) /\
  optimize both if_true_if_true_a
    = Returned ({| enabled_passes := 3; optimizations_applied := 2 |}, Some rewritten) /\
  optimize (pass_bit OPT_DEAD_CODE_ELIMINATION) if_true_if_true_a
    = Returned ({| enabled_passes := 2; optimizations_applied := 1 |}, Some then_branch) /\
  optimize (pass_bit OPT_ALL) if_false
    = Returned ({| enabled_passes := 16; optimizations_applied := 1 |}, None).
Proof. vm_compute. repeat split. discriminate. Qed.

(** [pcc_array_set] never stores [NULL]. *)
Lemma pcc_array_set_null {A : Type} (array : list (option A)) (index : nat) :
  pcc_array_set array index None = (PCC_ERROR_RUNTIME, array).
Proof. done. Qed.

(** A removed element of an array: [IF false { "a" }] is freed, the
    traversal of the list has [NULL] to store and [pcc_array_set] refuses
    it, so that the slot still points at the freed node. *)
Lemma removed_element_stays_in_array :
  let optimizer := optimizer_create (pass_bit OPT_DEAD_CODE_ELIMINATION) in
  let if_false :=
    IfStmt sample_position (Some (BooleanLiteral sample_position 0))
      (Some text_a) None in
  optimizer_optimize stub_pow stub_fmod 8 optimizer (Some if_false)
    = Returned (count_optimization optimizer, None) /\
  optimizer_optimize stub_pow stub_fmod 8 optimizer
    (Some (ListNode ElementList sample_position (Some [Some if_false])))
    = DanglingElement /\
  optimizer_optimize stub_pow stub_fmod 8 optimizer
    (Some (ast_program_create (Some [Some if_false])))
    = DanglingElement.
Proof. vm_compute. repeat split. Qed.

(** C3 on the code — the two tests of [optimizer_optimize] guard the same
    traversal.  With only [OPT_CONSTANT_FOLDING] enabled the [IF] over a
    true literal is replaced by its then-branch; with only
    [OPT_DEAD_CODE_ELIMINATION] enabled [1 + 2] is folded to [3]. *)
Theorem passes_share_one_traversal :
  let folding_only := optimizer_create (pass_bit OPT_CONSTANT_FOLDING) in
  let elimination_only := optimizer_create (pass_bit OPT_DEAD_CODE_ELIMINATION) in
  (optimizer_is_pass_enabled folding_only OPT_DEAD_CODE_ELIMINATION = false /\
   optimizer_is_pass_enabled folding_only OPT_ALL = false /\
   optimizer_optimize stub_pow stub_fmod 8 folding_only (Some if_true_a)
   = Returned (count_optimization folding_only,
               Some (ListNode ElementList sample_position (Some [Some text_a])))) /\
  (optimizer_is_pass_enabled elimination_only OPT_CONSTANT_FOLDING = false /\
   optimizer_is_pass_enabled elimination_only OPT_ALL = false /\
   optimizer_optimize stub_pow stub_fmod 8 elimination_only (Some one_plus_two)
   = Returned (count_optimization elimination_only,
               Some (NumberLiteral sample_position 3%float))).
Proof. vm_compute. repeat split. Qed.

(** ** The JSON generator *)

Lemma append_assoc (a b c : string) : (a +:+ b) +:+ c = a +:+ (b +:+ c).
Proof.
  induction a as [|x a IH]; [done|].
  change (String x ((a +:+ b) +:+ c) = String x (a +:+ (b +:+ c))). by f_equal.
Qed.

Lemma append_empty_r (a : string) : a +:+ EmptyString = a.
Proof.
  induction a as [|x a IH]; [done|].
  change (String x (a +:+ EmptyString) = String x a). by f_equal.
Qed.

Section GenerateFacts.
Variable format_g : float -> string.
Implicit Types (generator : CodeGenerator) (node : ASTNode).

Lemma buffer_append_output generator str :
  output_buffer (buffer_append generator str) = output_buffer generator +:+ str.
Proof. reflexivity. Qed.

Lemma extends_refl generator : extends generator generator.
Proof. exists EmptyString. by rewrite append_empty_r. Qed.

Lemma extends_trans g1 g2 g3 : extends g1 g2 -> extends g2 g3 -> extends g1 g3.
Proof.
  intros [s1 H1] [s2 H2]. exists (s1 +:+ s2). by rewrite H2, H1, append_assoc.
Qed.

Lemma extends_buffer_append generator str :
  extends generator (buffer_append generator str).
Proof. by exists str. Qed.

Lemma extends_append_l g1 g2 str :
  extends g1 g2 -> extends g1 (buffer_append g2 str).
Proof. intros H. eapply extends_trans; [exact H|apply extends_buffer_append]. Qed.

Section Children.
Variable rec : ASTNode -> CodeGenerator -> PCCError * CodeGenerator.
Let grows (n : ASTNode) : Prop := forall g, extends g (rec n g).2.

Lemma emit_extends child generator :
  on_pointer grows child -> extends generator (emit rec child generator).
Proof. destruct child as [n|]; simpl; intros H; [apply H|apply extends_refl]. Qed.

Lemma emit_separated_extends separator elements generator :
  Forall (on_pointer grows) elements ->
  extends generator (emit_separated rec separator elements generator).
Proof.
  intros Hall. revert generator.
  induction Hall as [|elem rest Helem Hrest IH]; intros g; simpl;
    [apply extends_refl|].
  destruct rest as [|next rest]; [by apply emit_extends|].
  eapply extends_trans; [|apply IH].
  by apply extends_append_l, emit_extends.
Qed.
End Children.

(** Whatever the node, [generate_json] succeeds and only appends. *)
Lemma generate_json_node_extends node :
  forall generator,
    (generate_json_node format_g node generator).1 = PCC_SUCCESS /\
    extends generator (generate_json_node format_g node generator).2.
Proof.
  induction node using ASTNode_nested_ind; intros g;
    try (split; [reflexivity|];
         repeat apply extends_append_l; apply extends_refl).
  - (* Program *)
    destruct statements as [l|]; simpl.
    + split; [done|]. apply extends_append_l.
      eapply extends_trans; [apply extends_buffer_append|].
      apply emit_separated_extends. simpl in H.
      eapply Forall_impl; [exact H|]. intros [n|] Hn; simpl; [|done].
      intros g'. apply Hn.
    + split; [done|]. apply extends_buffer_append.
  - (* PromptDef *)
    simpl. split; [done|]. unfold generate_json_prompt_def. simpl.
    apply extends_append_l. destruct body as [b|].
    + eapply extends_trans; [|apply H].
      repeat apply extends_append_l. apply extends_refl.
    + repeat apply extends_append_l. apply extends_refl.
  - (* CallExpr *)
    simpl. split; [done|]. unfold generate_json_function_call. simpl.
    apply extends_append_l. destruct arguments as [l|].
    + eapply extends_trans; [|apply emit_separated_extends].
      * repeat apply extends_append_l. apply extends_refl.
      * simpl in H. eapply Forall_impl; [exact H|].
        intros [n|] Hn; simpl; [|done]. intros g'. apply Hn.
    + repeat apply extends_append_l. apply extends_refl.
  - (* ListNode *)
    assert (forall list_type,
              (generate_json_list (generate_json_node format_g) g list_type elements).1
                = PCC_SUCCESS /\
              extends g
                (generate_json_list (generate_json_node format_g) g list_type
                   elements).2) as Hlist.
    { intros list_type. unfold generate_json_list. destruct elements as [l|]; simpl.
      - split; [done|]. apply extends_append_l.
        eapply extends_trans; [|apply emit_separated_extends].
        + repeat apply extends_append_l. apply extends_refl.
        + simpl in H. eapply Forall_impl; [exact H|].
          intros [n|] Hn; simpl; [|done]. intros g'. apply Hn.
      - split; [done|]. repeat apply extends_append_l. apply extends_refl. }
    destruct kind; simpl; try apply Hlist.
    all: split; [reflexivity|]; repeat apply extends_append_l; apply extends_refl.
Qed.

(** [ast_node_type_name] returns the name of the tag, but for the two
    tags that its [switch] misses, where it returns ["UNKNOWN"]. *)
Lemma ast_node_type_name_cases type :
  ast_node_type_name type =
    if is_unnamed type then "UNKNOWN" else enumerator_name type.
Proof. by destruct type. Qed.

(** C9 on the code — JSON output of unhandled kinds and of string
    payloads.  For a node whose tag has no case in the [switch] of
    [generate_json], the call succeeds and appends exactly
    [{"type":"<name>"}], where the name is that of the tag, except for
    [AST_VARIABLE_ELEMENT] and [AST_TEMPLATE_ELEMENT]: the [switch] of
    [ast_node_type_name] has no case for them and the object reads
    [{"type":"UNKNOWN"}].  The text of a string literal, of a text element,
    and the names of a variable reference, of a prompt definition and of a
    call are appended as they are, between the quotes the generator writes
    around them. *)
Theorem generate_json_fallback_names_and_payloads generator :
  (forall node, has_json_emitter (node_type node) = false ->
     (generate_json format_g generator (Some node)).1 = PCC_SUCCESS /\
     output_buffer (generate_json format_g generator (Some node)).2 =
       output_buffer generator +:+
         c_literal "{'type':'" +:+
         (if is_unnamed (node_type node) then "UNKNOWN"
          else enumerator_name (node_type node)) +:+
         c_literal "'}") /\
  (forall position,
     let variable_element := BareNode BareVariableElement position in
     let template_element := BareNode BareTemplateElement position in
     let fresh := codegen_create OUTPUT_FORMAT_JSON None in
     node_type variable_element = AST_VARIABLE_ELEMENT /\
     node_type template_element = AST_TEMPLATE_ELEMENT /\
     generate_json format_g generator (Some variable_element)
       = generate_json format_g generator (Some template_element) /\
     output_buffer (generate_json format_g fresh (Some variable_element)).2
       = c_literal "{'type':'UNKNOWN'}" /\
     output_buffer (generate_json format_g fresh (Some variable_element)).2
       <> c_literal "{'type':'VARIABLE_ELEMENT'}" /\
     output_buffer (generate_json format_g fresh (Some template_element)).2
       <> c_literal "{'type':'TEMPLATE_ELEMENT'}") /\
  (forall position string_val,
     output_buffer
       (generate_json format_g generator (Some (StringLiteral position string_val))).2 =
       output_buffer generator +:+
         c_literal "{'type':'string','value':'" +:+ string_val +:+ c_literal "'}") /\
  (forall position text is_raw,
     output_buffer
       (generate_json format_g generator (Some (TextElement position text is_raw))).2 =
       output_buffer generator +:+
         c_literal "{'type':'text','text':'" +:+ text +:+ c_literal "','raw':" +:+
         (if is_raw =? 0 then "false" else "true") +:+ "}") /\
  (forall position name,
     output_buffer
       (generate_json format_g generator (Some (VariableRef position name))).2 =
       output_buffer generator +:+
         c_literal "{'type':'variable_ref','name':'" +:+ name +:+ c_literal "'}") /\
  (forall position name body, exists rest,
     output_buffer
       (generate_json format_g generator (Some (PromptDef position name body))).2 =
       output_buffer generator +:+
         c_literal "{'type':'prompt_def','name':'" +:+ name +:+
         c_literal "','body':" +:+ rest) /\
  (forall kind position name arguments, exists rest,
     output_buffer
       (generate_json format_g generator
          (Some (CallExpr kind position name arguments))).2 =
       output_buffer generator +:+
         c_literal "{'type':'" +:+
         match kind with
         | TemplateCall => "template_call"
         | FunctionCall => "function_call"
         end +:+
         c_literal "','name':'" +:+ name +:+ c_literal "','arguments':[" +:+ rest).
Proof.
  split; [|split; [|split; [|split; [|split; [|split]]]]].
  - intros node Hnode.
    assert (generate_json format_g generator (Some node)
            = generate_json_default generator (node_type node)) as ->.
    { destruct node as [| | | | | | | | | | | | |[]| | | | | |[]|]; try done. }
    split; [done|]. unfold generate_json_default. simpl.
    by rewrite ?buffer_append_output, ?append_assoc, ast_node_type_name_cases.
  - intros position. cbv zeta. split; [done|]. split; [done|]. split; [done|].
    split; [done|]. split; intros [=].
  - intros position string_val. simpl. unfold generate_json_string. simpl.
    by rewrite ?buffer_append_output, ?append_assoc.
  - intros position text is_raw. simpl. unfold generate_json_text_element. simpl.
    by rewrite ?buffer_append_output, ?append_assoc.
  - intros position name. simpl. unfold generate_json_variable_ref. simpl.
    by rewrite ?buffer_append_output, ?append_assoc.
  - intros position name body. simpl. unfold generate_json_prompt_def. simpl.
    set (g3 := buffer_append (buffer_append (buffer_append generator _) name) _).
    assert (extends g3 (match body with
                        | Some _ => emit (generate_json_node format_g) body g3
                        | None => buffer_append g3 "null"
                        end)) as [suffix Hs].
    { destruct body as [b|]; [|apply extends_buffer_append].
      apply (generate_json_node_extends b). }
    exists (suffix +:+ "}"). rewrite ?buffer_append_output, Hs. subst g3.
    by rewrite ?buffer_append_output, ?append_assoc.
  - intros kind position name arguments. simpl.
    unfold generate_json_function_call. simpl.
    set (g5 := buffer_append (buffer_append (buffer_append (buffer_append
                 (buffer_append generator _) _) _) name) _).
    assert (extends g5 (match arguments with
                        | Some arguments =>
                            emit_separated (generate_json_node format_g) ","
                              arguments g5
                        | None => g5
                        end)) as [suffix Hs].
    { destruct arguments as [l|]; [|apply extends_refl].
      apply emit_separated_extends. apply Forall_forall. intros [n|] _; simpl; [|done].
      intros g'. apply (generate_json_node_extends n). }
    exists (suffix +:+ "]}"). rewrite ?buffer_append_output, Hs. subst g5.
    by rewrite ?buffer_append_output, ?append_assoc.
Qed.
End GenerateFacts.

(** A string literal that holds a double quote and a backslash: both
    reach the output as they are. *)
Example quote_and_backslash_unescaped :
  output_buffer
    (generate_json (fun _ => EmptyString) (codegen_create OUTPUT_FORMAT_JSON None)
       (Some (StringLiteral sample_position (c_literal "say 'hi' \ now")))).2
  = c_literal "{'type':'string','value':'say 'hi' \ now'}".
Proof. reflexivity. Qed.

Example if_statement_has_no_emitter :
  generate_json (fun _ => EmptyString) (codegen_create OUTPUT_FORMAT_JSON None)
    (Some if_true_a)
  = (PCC_SUCCESS,
     buffer_append
       (buffer_append
          (buffer_append (codegen_create OUTPUT_FORMAT_JSON None)
             (c_literal "{'type':'"))
          "IF_STMT")
       (c_literal "'}")).
Proof. reflexivity. Qed.

(** ** The lexer *)

Section LexerMoves.
Implicit Types (lexer : Lexer).

Lemma advances_refl lexer : advances lexer lexer.
Proof. by constructor. Qed.

Lemma advances_trans l1 l2 l3 : advances l1 l2 -> advances l2 l3 -> advances l1 l3.
Proof.
  intros [S1 L1 P1] [S2 L2 P2]. constructor; [congruence|congruence|lia].
Qed.

Lemma lexer_advance_advances lexer : advances lexer (lexer_advance lexer).2.
Proof.
  unfold lexer_advance. destruct (_ <=? _)%nat; simpl; [apply advances_refl|].
  constructor; simpl; [done|done|lia].
Qed.

Lemma lexer_advance_position lexer :
  (lx_position lexer < lx_source_len lexer)%nat ->
  lx_position (lexer_advance lexer).2 = S (lx_position lexer).
Proof.
  intros Hlt. unfold lexer_advance.
  by destruct (Nat.leb_spec (lx_source_len lexer) (lx_position lexer)); [lia|].
Qed.

Lemma push_token_advances lexer token : advances lexer (push_token lexer token).
Proof. by constructor. Qed.

Lemma skip_whitespace_loop_advances rounds lexer :
  advances lexer (skip_whitespace_loop rounds lexer).
Proof.
  revert lexer. induction rounds as [|rounds IH]; intros lexer; simpl;
    [apply advances_refl|].
  destruct (_ <? _)%nat; [|apply advances_refl].
  destruct (is_whitespace _); [|apply advances_refl].
  eapply advances_trans; [apply lexer_advance_advances|apply IH].
Qed.

Lemma skip_line_loop_advances rounds lexer :
  advances lexer (skip_line_loop rounds lexer).
Proof.
  revert lexer. induction rounds as [|rounds IH]; intros lexer; simpl;
    [apply advances_refl|].
  destruct (_ <? _)%nat; [|apply advances_refl].
  pose proof (lexer_advance_advances lexer) as Ha.
  destruct (lexer_advance lexer) as [c lexer']. simpl in Ha.
  destruct (is_char c _); [done|].
  eapply advances_trans; [exact Ha|apply IH].
Qed.

Lemma skip_block_loop_advances rounds lexer :
  advances lexer (skip_block_loop rounds lexer).
Proof.
  revert lexer. induction rounds as [|rounds IH]; intros lexer; simpl;
    [apply advances_refl|].
  destruct (_ <? _)%nat; [|apply advances_refl].
  pose proof (lexer_advance_advances lexer) as Ha.
  destruct (lexer_advance lexer) as [c lexer']. simpl in Ha.
  destruct (_ && _).
  - eapply advances_trans; [exact Ha|apply lexer_advance_advances].
  - eapply advances_trans; [exact Ha|apply IH].
Qed.

Lemma read_identifier_loop_advances rounds lexer :
  advances lexer (read_identifier_loop rounds lexer).
Proof.
  revert lexer. induction rounds as [|rounds IH]; intros lexer; simpl;
    [apply advances_refl|].
  destruct (_ <? _)%nat; [|apply advances_refl].
  destruct (is_identifier_part _); [|apply advances_refl].
  eapply advances_trans; [apply lexer_advance_advances|apply IH].
Qed.

Lemma read_digits_loop_advances rounds lexer :
  advances lexer (read_digits_loop rounds lexer).
Proof.
  revert lexer. induction rounds as [|rounds IH]; intros lexer; simpl;
    [apply advances_refl|].
  destruct (_ && _); [|apply advances_refl].
  eapply advances_trans; [apply lexer_advance_advances|apply IH].
Qed.

Lemma read_string_loop_advances rounds quote lexer :
  advances lexer (read_string_loop rounds quote lexer).2.
Proof.
  revert lexer. induction rounds as [|rounds IH]; intros lexer; simpl;
    [apply advances_refl|].
  destruct (_ <? _)%nat; [|apply advances_refl].
  destruct (is_char (lexer_peek lexer 0) "\").
  - eapply advances_trans; [|apply IH].
    eapply advances_trans; [apply lexer_advance_advances|].
    destruct (_ <? _)%nat; [apply lexer_advance_advances|apply advances_refl].
  - destruct (is_char _ quote); [apply advances_refl|].
    destruct (is_char _ _); [apply advances_refl|].
    eapply advances_trans; [apply lexer_advance_advances|apply IH].
Qed.

Lemma advance_times_advances n lexer : advances lexer (advance_times n lexer).
Proof.
  revert lexer. induction n as [|n IH]; intros lexer; simpl; [apply advances_refl|].
  eapply advances_trans; [apply lexer_advance_advances|apply IH].
Qed.

Lemma lexer_skip_whitespace_advances lexer :
  advances lexer (lexer_skip_whitespace lexer).
Proof. apply skip_whitespace_loop_advances. Qed.

(** A character that is not NUL was read inside the source. *)
Lemma lexer_peek_in_source lexer :
  lexer_peek lexer 0 <> NUL -> (lx_position lexer < lx_source_len lexer)%nat.
Proof.
  unfold lexer_peek. rewrite Nat.add_0_r.
  destruct (Nat.leb_spec (lx_source_len lexer) (lx_position lexer)); [done|lia].
Qed.

Lemma is_char_not_NUL c d : is_char c d = true -> d <> NUL -> c <> NUL.
Proof. unfold is_char. intros ->%Ascii.eqb_eq. done. Qed.

(** One step forward, then any number of steps. *)
Lemma moves_after_advance lexer lexer' :
  (lx_position lexer < lx_source_len lexer)%nat ->
  advances (lexer_advance lexer).2 lexer' ->
  advances lexer lexer' /\ (lx_position lexer < lx_position lexer')%nat.
Proof.
  intros Hlt Ha. split.
  - eapply advances_trans; [apply lexer_advance_advances|exact Ha].
  - pose proof (adv_position _ _ Ha). rewrite lexer_advance_position in * by done. lia.
Qed.

Lemma remaining_pos lexer :
  (lx_position lexer < lx_source_len lexer)%nat ->
  exists rounds, remaining lexer = S rounds.
Proof. unfold remaining. intros H. exists (lx_source_len lexer - lx_position lexer - 1)%nat. lia. Qed.

Lemma lexer_skip_comment_moves lexer :
  is_comment_start lexer = true ->
  advances lexer (lexer_skip_comment lexer) /\
  (lx_position lexer < lx_position (lexer_skip_comment lexer))%nat.
Proof.
  unfold is_comment_start. intros [Hslash Hnext]%andb_true_iff.
  assert (lx_position lexer < lx_source_len lexer)%nat as Hlt.
  { apply lexer_peek_in_source. by eapply is_char_not_NUL. }
  unfold lexer_skip_comment. rewrite Hslash. simpl.
  destruct (is_char (lexer_peek lexer 1) "/") eqn:Hline.
  - destruct (remaining_pos _ Hlt) as [rounds ->]. simpl.
    apply Nat.ltb_lt in Hlt as Hltb. rewrite Hltb.
    pose proof (moves_after_advance lexer) as Hm.
    destruct (lexer_advance lexer) as [c lexer'] eqn:Hadv. simpl in Hm.
    destruct (is_char c _).
    + apply Hm; [done|apply advances_refl].
    + apply Hm; [done|apply skip_line_loop_advances].
  - simpl in Hnext. rewrite Hnext.
    apply moves_after_advance; [done|].
    eapply advances_trans; [apply lexer_advance_advances|apply skip_block_loop_advances].
Qed.
End LexerMoves.

Section Scanners.
Variable atof : string -> float.
Implicit Types (lexer : Lexer).

Lemma lexer_read_identifier_advances lexer :
  advances lexer (lexer_read_identifier lexer).2.
Proof.
  unfold lexer_read_identifier.
  destruct (negb _); simpl; [apply advances_refl|].
  eapply advances_trans; [apply lexer_advance_advances|].
  apply read_identifier_loop_advances.
Qed.

Lemma lexer_read_identifier_status lexer :
  (lexer_read_identifier lexer).1.1 = PCC_SUCCESS \/
  (lexer_read_identifier lexer).1.1 = PCC_ERROR_SYNTAX.
Proof. unfold lexer_read_identifier. destruct (negb _); simpl; auto. Qed.


Lemma lexer_read_identifier_ok lexer :
  (lx_position lexer < lx_source_len lexer)%nat ->
  scan_ok lexer (lexer_read_identifier lexer).
Proof.
  intros Hlt. unfold lexer_read_identifier.
  destruct (negb _); simpl.
  - split; [apply advances_refl|]. split; [by right|done].
  - destruct (moves_after_advance lexer
                (read_identifier_loop (remaining (lexer_advance lexer).2)
                   (lexer_advance lexer).2) Hlt
                (read_identifier_loop_advances _ _)) as [Ha Hp].
    split; [done|]. split; [by left|done].
Qed.

Lemma retype_ok lexer scan type : scan_ok lexer scan -> scan_ok lexer (retype scan type).
Proof.
  destruct scan as [[err token] lexer']. unfold retype.
  destruct err; try done. by destruct token.
Qed.

Lemma scan_ok_after_advance lexer scan :
  (lx_position lexer < lx_source_len lexer)%nat ->
  (let '(err, _, lexer') := scan in
   advances (lexer_advance lexer).2 lexer' /\
   (err = PCC_SUCCESS \/ err = PCC_ERROR_SYNTAX)) ->
  scan_ok lexer scan.
Proof.
  intros Hlt. destruct scan as [[err token] lexer']. intros [Ha Hs].
  destruct (moves_after_advance lexer lexer' Hlt Ha) as [Ha' Hp].
  split; [exact Ha'|]. split; [exact Hs|]. intros _. exact Hp.
Qed.

Lemma lexer_read_string_ok lexer :
  (lx_position lexer < lx_source_len lexer)%nat ->
  scan_ok lexer (lexer_read_string lexer).
Proof.
  intros Hlt. apply scan_ok_after_advance; [done|].
  unfold lexer_read_string.
  pose proof (read_string_loop_advances
                (remaining (lexer_advance lexer).2) (lexer_peek lexer 0)
                (lexer_advance lexer).2) as Ha.
  destruct (read_string_loop _ _ _) as [at_newline lexer']. simpl in Ha.
  destruct at_newline; [split; [done|by right]|].
  destruct (_ <=? _)%nat; [split; [done|by right]|].
  split; [|by left].
  eapply advances_trans; [exact Ha|apply lexer_advance_advances].
Qed.

Lemma lexer_read_number_ok lexer :
  (lx_position lexer < lx_source_len lexer)%nat ->
  isdigit (lexer_peek lexer 0) = true ->
  scan_ok lexer (lexer_read_number atof lexer).
Proof.
  intros Hlt Hdigit. unfold lexer_read_number.
  set (lexer1 := read_digits_loop (remaining lexer) lexer).
  assert (advances lexer lexer1 /\ (lx_position lexer < lx_position lexer1)%nat)
    as [Ha1 Hp1].
  { subst lexer1. destruct (remaining_pos _ Hlt) as [rounds ->]. simpl.
    apply Nat.ltb_lt in Hlt as Hltb. rewrite Hltb, Hdigit. simpl.
    apply moves_after_advance; [done|apply read_digits_loop_advances]. }
  set (lexer2 := if is_char (lexer_peek lexer1 0) "." then _ else _).
  assert (advances lexer1 lexer2) as Ha2.
  { subst lexer2. destruct (is_char _ _); [|apply advances_refl].
    eapply advances_trans; [apply lexer_advance_advances|].
    apply read_digits_loop_advances. }
  simpl. split; [by eapply advances_trans|]. split; [by left|].
  intros _. pose proof (adv_position _ _ Ha2). lia.
Qed.

Lemma read_operator_type_len c next type len :
  read_operator_type c next = Some (type, len) -> exists n, len = S n.
Proof.
  unfold read_operator_type.
  repeat (destruct (is_char c _);
          [try destruct (is_char next _); intros [= <- <-]; eauto|]).
  done.
Qed.

Lemma lexer_read_operator_ok lexer :
  (lx_position lexer < lx_source_len lexer)%nat ->
  scan_ok lexer (lexer_read_operator lexer).
Proof.
  intros Hlt. unfold lexer_read_operator.
  destruct (read_operator_type _ _) as [[type len]|] eqn:Hop; simpl.
  - destruct (read_operator_type_len _ _ _ _ Hop) as [n ->]. simpl.
    destruct (moves_after_advance lexer (advance_times n (lexer_advance lexer).2)
                Hlt (advance_times_advances _ _)) as [Ha Hp].
    split; [done|]. split; [by left|done].
  - split; [apply advances_refl|]. split; [by right|done].
Qed.


(** One round of the loop, standing at a character of the source. *)
Lemma scan_token_ok lexer :
  (lx_position lexer < lx_source_len lexer)%nat ->
  match scan_token atof lexer (lexer_peek lexer 0) with
  | Skip lexer' =>
      advances lexer lexer' /\ (lx_position lexer < lx_position lexer')%nat
  | Scanned scan => scan_ok lexer scan
  end.
Proof.
  intros Hlt. unfold scan_token.
  assert (forall type,
            scan_ok lexer
              (retype (lexer_read_identifier (lexer_advance lexer).2) type)) as Hsigil.
  { intros type. apply scan_ok_after_advance; [done|].
    pose proof (lexer_read_identifier_advances (lexer_advance lexer).2) as Ha.
    pose proof (lexer_read_identifier_status (lexer_advance lexer).2) as Hs.
    destruct (lexer_read_identifier _) as [[err token] lexer']. simpl in *.
    unfold retype. destruct err, token; simpl; auto. }
  destruct (is_char _ "$"); [apply Hsigil|].
  destruct (is_char _ "@"); [apply Hsigil|].
  destruct (_ || _); [by apply lexer_read_string_ok|].
  destruct (isdigit _) eqn:Hdigit; [by apply lexer_read_number_ok|].
  destruct (is_identifier_start _); [by apply lexer_read_identifier_ok|].
  destruct (is_operator_start _); [by apply lexer_read_operator_ok|].
  destruct (punctuation_type _).
  - destruct (moves_after_advance lexer (lexer_advance lexer).2 Hlt
                (advances_refl _)) as [Ha Hp].
    split; [done|]. split; [by left|done].
  - apply moves_after_advance; [done|apply advances_refl].
Qed.

Lemma last_token_type_push lexer token :
  last_token_type (push_token lexer token) = Some (tok_type token).
Proof. unfold last_token_type, push_token. simpl. by rewrite last_snoc. Qed.

Lemma finish_tokenized lexer : tokenized (finish lexer).
Proof. left. split; [done|]. apply last_token_type_push. Qed.

Lemma remaining_decreases lexer lexer' :
  advances lexer lexer' -> (lx_position lexer < lx_position lexer')%nat ->
  (lx_position lexer < lx_source_len lexer)%nat ->
  (remaining lexer' < remaining lexer)%nat.
Proof. intros [_ Hl _] Hp Hlt. unfold remaining. rewrite Hl. lia. Qed.

Lemma remaining_monotone lexer lexer' :
  advances lexer lexer' -> (remaining lexer' <= remaining lexer)%nat.
Proof. intros [_ Hl Hp]. unfold remaining. rewrite Hl. lia. Qed.

(** The loop comes back, in one of the two ways, as soon as the fuel
    exceeds the number of characters left. *)
Lemma tokenize_loop_tokenized fuel lexer :
  (remaining lexer < fuel)%nat ->
  exists result, tokenize_loop atof fuel lexer = Some result /\ tokenized result.
Proof.
  revert lexer. induction fuel as [|fuel IH]; intros lexer Hfuel; [lia|]. simpl.
  destruct (Nat.ltb_spec (lx_position lexer) (lx_source_len lexer)) as [Hlt|Hge];
    simpl; [|eexists; split; [done|apply finish_tokenized]].
  pose proof (lexer_skip_whitespace_advances lexer) as Hws.
  set (lexer1 := lexer_skip_whitespace lexer) in *.
  pose proof (remaining_monotone _ _ Hws) as Hrem1.
  destruct (is_comment_start lexer1) eqn:Hcomment.
  { destruct (lexer_skip_comment_moves lexer1 Hcomment) as [Ha Hp].
    apply IH.
    assert (lx_position lexer1 < lx_source_len lexer1)%nat as Hlt1.
    { apply lexer_peek_in_source.
      apply andb_true_iff in Hcomment as [Hslash _]. by eapply is_char_not_NUL. }
    pose proof (remaining_decreases _ _ Ha Hp Hlt1). lia. }
  destruct (Nat.leb_spec (lx_source_len lexer1) (lx_position lexer1)) as [Hend|Hlt1];
    [eexists; split; [done|apply finish_tokenized]|].
  pose proof (scan_token_ok lexer1 Hlt1) as Hscan.
  destruct (scan_token atof lexer1 (lexer_peek lexer1 0))
    as [lexer2|[[err token] lexer2]].
  - destruct Hscan as [Ha Hp]. apply IH.
    pose proof (remaining_decreases _ _ Ha Hp Hlt1). lia.
  - destruct Hscan as (Ha & Hstatus & Hp).
    destruct Hstatus as [-> | ->]; simpl.
    + specialize (Hp eq_refl).
      pose proof (remaining_decreases _ _ Ha Hp Hlt1) as Hdec.
      destruct token as [token|]; apply IH; [|lia].
      unfold remaining in *. simpl. lia.
    + eexists. split; [done|]. right. split; [done|]. apply last_token_type_push.
Qed.
End Scanners.

Section LexerReads.
(** What [lexer_advance] keeps, every loop and every scanner of the
    lexer keeps. *)
Variable R : Lexer -> Lexer -> Prop.
Hypothesis R_refl : forall lexer, R lexer lexer.
Hypothesis R_trans : forall l1 l2 l3, R l1 l2 -> R l2 l3 -> R l1 l3.
Hypothesis R_advance : forall lexer, R lexer (lexer_advance lexer).2.

Lemma skip_whitespace_loop_reads rounds lexer : R lexer (skip_whitespace_loop rounds lexer).
Proof.
  revert lexer. induction rounds as [|rounds IH]; intros lexer; simpl; [done|].
  destruct (_ <? _)%nat; [|done]. destruct (is_whitespace _); [|done].
  eapply R_trans; [apply R_advance|apply IH].
Qed.

Lemma skip_line_loop_reads rounds lexer : R lexer (skip_line_loop rounds lexer).
Proof.
  revert lexer. induction rounds as [|rounds IH]; intros lexer; simpl; [done|].
  destruct (_ <? _)%nat; [|done].
  pose proof (R_advance lexer) as Ha.
  destruct (lexer_advance lexer) as [c lexer']. simpl in Ha.
  destruct (is_char c _); [done|]. eapply R_trans; [exact Ha|apply IH].
Qed.

Lemma skip_block_loop_reads rounds lexer : R lexer (skip_block_loop rounds lexer).
Proof.
  revert lexer. induction rounds as [|rounds IH]; intros lexer; simpl; [done|].
  destruct (_ <? _)%nat; [|done].
  pose proof (R_advance lexer) as Ha.
  destruct (lexer_advance lexer) as [c lexer']. simpl in Ha.
  destruct (_ && _); (eapply R_trans; [exact Ha|]); [apply R_advance|apply IH].
Qed.

Lemma lexer_skip_comment_reads lexer : R lexer (lexer_skip_comment lexer).
Proof.
  unfold lexer_skip_comment.
  destruct (_ && _); [apply skip_line_loop_reads|].
  destruct (_ && _); [|done].
  eapply R_trans; [apply R_advance|].
  eapply R_trans; [apply R_advance|apply skip_block_loop_reads].
Qed.

Lemma read_identifier_loop_reads rounds lexer : R lexer (read_identifier_loop rounds lexer).
Proof.
  revert lexer. induction rounds as [|rounds IH]; intros lexer; simpl; [done|].
  destruct (_ <? _)%nat; [|done]. destruct (is_identifier_part _); [|done].
  eapply R_trans; [apply R_advance|apply IH].
Qed.

Lemma read_digits_loop_reads rounds lexer : R lexer (read_digits_loop rounds lexer).
Proof.
  revert lexer. induction rounds as [|rounds IH]; intros lexer; simpl; [done|].
  destruct (_ && _); [|done]. eapply R_trans; [apply R_advance|apply IH].
Qed.

Lemma read_string_loop_reads rounds quote lexer :
  R lexer (read_string_loop rounds quote lexer).2.
Proof.
  revert lexer. induction rounds as [|rounds IH]; intros lexer; simpl; [done|].
  destruct (_ <? _)%nat; [|done].
  destruct (is_char (lexer_peek lexer 0) "\").
  - eapply R_trans; [|apply IH]. eapply R_trans; [apply R_advance|].
    destruct (_ <? _)%nat; [apply R_advance|done].
  - destruct (is_char _ quote); [done|]. destruct (is_char _ _); [done|].
    eapply R_trans; [apply R_advance|apply IH].
Qed.

Lemma advance_times_reads n lexer : R lexer (advance_times n lexer).
Proof.
  revert lexer. induction n as [|n IH]; intros lexer; simpl; [done|].
  eapply R_trans; [apply R_advance|apply IH].
Qed.

Lemma lexer_read_identifier_reads lexer : R lexer (lexer_read_identifier lexer).2.
Proof.
  unfold lexer_read_identifier. destruct (negb _); simpl; [done|].
  eapply R_trans; [apply R_advance|apply read_identifier_loop_reads].
Qed.

Lemma lexer_read_string_reads lexer : R lexer (lexer_read_string lexer).2.
Proof.
  unfold lexer_read_string.
  pose proof (read_string_loop_reads (remaining (lexer_advance lexer).2)
                (lexer_peek lexer 0) (lexer_advance lexer).2) as Ha.
  destruct (read_string_loop _ _ _) as [at_newline lexer']. simpl in Ha.
  assert (R lexer lexer') as H by (eapply R_trans; [apply R_advance|exact Ha]).
  destruct at_newline; [done|]. destruct (_ <=? _)%nat; [done|]. simpl.
  eapply R_trans; [exact H|apply R_advance].
Qed.

Lemma lexer_read_number_reads atof lexer : R lexer (lexer_read_number atof lexer).2.
Proof.
  unfold lexer_read_number. simpl.
  eapply R_trans; [apply read_digits_loop_reads|].
  destruct (is_char _ _); [|done].
  eapply R_trans; [apply R_advance|apply read_digits_loop_reads].
Qed.

Lemma lexer_read_operator_reads lexer : R lexer (lexer_read_operator lexer).2.
Proof.
  unfold lexer_read_operator.
  destruct (read_operator_type _ _) as [[type len]|]; simpl; [|done].
  apply advance_times_reads.
Qed.

Lemma retype_lexer scan type : (retype scan type).2 = scan.2.
Proof. destruct scan as [[[] [token|]] lexer]; done. Qed.

Lemma scan_token_reads atof lexer c :
  match scan_token atof lexer c with
  | Skip lexer' => R lexer lexer'
  | Scanned scan => R lexer scan.2
  end.
Proof.
  unfold scan_token.
  assert (forall type,
            R lexer (retype (lexer_read_identifier (lexer_advance lexer).2) type).2)
    as Hsigil.
  { intros type. rewrite retype_lexer.
    eapply R_trans; [apply R_advance|apply lexer_read_identifier_reads]. }
  destruct (is_char c "$"); [apply Hsigil|].
  destruct (is_char c "@"); [apply Hsigil|].
  destruct (_ || _); [apply lexer_read_string_reads|].
  destruct (isdigit c); [apply lexer_read_number_reads|].
  destruct (is_identifier_start c); [apply lexer_read_identifier_reads|].
  destruct (is_operator_start c); [apply lexer_read_operator_reads|].
  destruct (punctuation_type c); simpl; apply R_advance.
Qed.
End LexerReads.

Lemma keeps_tokens_refl (lexer : Lexer) : keeps_tokens lexer lexer.
Proof. done. Qed.

Lemma keeps_tokens_trans (l1 l2 l3 : Lexer) :
  keeps_tokens l1 l2 -> keeps_tokens l2 l3 -> keeps_tokens l1 l3.
Proof.
  intros (H1 & H1' & Hb1) (H2 & H2' & Hb2).
  split_and!; [congruence|congruence|]. intros H. by apply Hb2, Hb1.
Qed.

Lemma keeps_tokens_advance (lexer : Lexer) : keeps_tokens lexer (lexer_advance lexer).2.
Proof.
  unfold lexer_advance.
  destruct (Nat.leb_spec (lx_source_len lexer) (lx_position lexer)); [done|].
  split_and!; [done|done|]. simpl. lia.
Qed.

Section LexicalErrors.
Variable atof : string -> float.
Implicit Types (lexer : Lexer).


(** A failed string scan stopped at a newline or at the end of the
    input: the string is unterminated. *)
Lemma read_string_loop_newline rounds quote lexer :
  (read_string_loop rounds quote lexer).1 = true ->
  lexer_peek (read_string_loop rounds quote lexer).2 0 = "010"%char.
Proof.
  revert lexer. induction rounds as [|rounds IH]; intros lexer; simpl; [done|].
  destruct (_ <? _)%nat; [|done].
  destruct (is_char (lexer_peek lexer 0) "\"); [apply IH|].
  destruct (is_char _ quote); [done|].
  destruct (is_char (lexer_peek lexer 0) "010") eqn:Hnl; [|apply IH].
  intros _. simpl. by apply Ascii.eqb_eq in Hnl.
Qed.

Lemma lexer_read_string_unterminated lexer :
  (lexer_read_string lexer).1.1 = PCC_ERROR_SYNTAX ->
  let lexer' := (lexer_read_string lexer).2 in
  lexer_peek lexer' 0 = "010"%char \/
  (lx_source_len lexer' <= lx_position lexer')%nat.
Proof.
  unfold lexer_read_string.
  pose proof (read_string_loop_newline
                (remaining (lexer_advance lexer).2) (lexer_peek lexer 0)
                (lexer_advance lexer).2) as Hnl.
  destruct (read_string_loop _ _ _) as [at_newline lexer']. simpl in Hnl.
  destruct at_newline; simpl; [intros _; by left; apply Hnl|].
  destruct (Nat.leb_spec (lx_source_len lexer') (lx_position lexer')); simpl;
    [intros _; by right|done].
Qed.



End LexicalErrors.

Section TokenStarts.
Variable atof : string -> float.
Implicit Types (lexer : Lexer).




End TokenStarts.



Example unterminated_string_fails :
  exists lexer,
    lexer_tokenize stub_atof (lexer_create (c_literal "VAR x = 'abc") None)
      = Some (PCC_ERROR_SYNTAX, lexer) /\
    tok_type <$> lx_tokens lexer =
      [TOKEN_VAR; TOKEN_IDENTIFIER; TOKEN_ASSIGN; TOKEN_ERROR].
Proof. vm_compute. eexists. split; reflexivity. Qed.

Example end_to_end_tokens :
  exists lexer,
    lexer_tokenize stub_atof
      (lexer_create (c_literal "VAR greeting = 'Hi'; OUTPUT p AS JSON;") None)
      = Some (PCC_SUCCESS, lexer) /\
    tok_type <$> lx_tokens lexer =
      [TOKEN_VAR; TOKEN_IDENTIFIER; TOKEN_ASSIGN; TOKEN_STRING; TOKEN_SEMICOLON;
       TOKEN_OUTPUT; TOKEN_IDENTIFIER; TOKEN_AS; TOKEN_IDENTIFIER; TOKEN_SEMICOLON;
       TOKEN_EOF].
Proof. vm_compute. eexists. split; reflexivity. Qed.

(** An unterminated string inside a comment is not reached: the source
    holds a quote that nothing closes, and is tokenized. *)
Example quote_inside_comment_is_not_reached :
  exists lexer,
    lexer_tokenize stub_atof (lexer_create (c_literal "/* 'open */ x") None)
      = Some (PCC_SUCCESS, lexer) /\
    tok_type <$> lx_tokens lexer = [TOKEN_IDENTIFIER; TOKEN_EOF].
Proof. vm_compute. eexists. split; reflexivity. Qed.

(** The token starts of [VAR x = 'abc]: the rounds stand at the
    positions 0, 4, 6 and 8, and the run ends on the quote at 8. *)
Example token_starts_of_unterminated_string :
  let lexer := lexer_create (c_literal "VAR x = 'abc") None in
  lx_position <$> token_starts stub_atof (S (remaining lexer)) lexer
  = [0; 4; 6; 8]%nat.
Proof. vm_compute. reflexivity. Qed.

(* ===================================================================== *)
(** * Part III — further properties of the modelled code                  *)
(* ===================================================================== *)

(** ** The hash table: removal, resizing, clearing, enumeration *)

Section HashTableMore.
Context {V : Type}.
Implicit Types (chain : list (PCCHashEntry V)) (key : string) (table : PCCHashTable V).

Lemma chain_remove_absent chain key :
  key ∉ entry_key <$> chain -> chain_remove chain key = None.
Proof.
  induction chain as [|e next IH]; simpl; [done|]. intros Hnin.
  apply not_elem_of_cons in Hnin as [Hne Hnin].
  destruct (String.eqb_spec (entry_key e) key); [congruence|]. by rewrite IH.
Qed.

Lemma chain_remove_present chain key :
  key ∈ entry_key <$> chain -> is_Some (chain_remove chain key).
Proof.
  induction chain as [|e next IH]; simpl; intros Hin.
  - by apply elem_of_nil in Hin.
  - destruct (String.eqb_spec (entry_key e) key); [done|].
    apply elem_of_cons in Hin as [?|Hin]; [congruence|].
    by destruct (IH Hin) as [[v c] ->].
Qed.

(** What a successful removal takes out of the entries. *)
Lemma pcc_hashtable_remove_entries table key value table' :
  ht_wf table -> pcc_hashtable_remove table key = (PCC_SUCCESS, value, table') ->
  exists e, entry_key e = key /\ entry_value e = value /\
            ht_size table' = (ht_size table - 1)%nat /\
            ht_entries table ≡ₚ e :: ht_entries table'.
Proof.
  intros Hwf. unfold pcc_hashtable_remove.
  set (i := bucket_index (ht_hash_func table) (ht_capacity table) key).
  assert (i < length (ht_buckets table))%nat as Hi.
  { rewrite (wf_buckets _ Hwf). apply bucket_index_lt, (wf_capacity _ Hwf). }
  pose proof (bucket_at_lookup _ _ Hi) as Hbucket.
  destruct (chain_remove _ key) as [[v chain']|] eqn:Hrem; [|done].
  intros [= <- <-].
  destruct (chain_remove_split _ _ _ _ Hrem) as (b & e & a & Hc & -> & Hk & Hv).
  exists e. split; [done|]. split; [done|]. split; [done|].
  unfold ht_entries. simpl. rewrite concat_insert_around by done.
  rewrite (concat_around _ _ _ Hbucket), Hc.
  rewrite <- !app_assoc. simpl. by rewrite <- !Permutation_middle.
Qed.

(** X1 — [pcc_hashtable_remove].  On a well-formed table, removing a key
    that is present succeeds, hands out the value that a lookup returned,
    takes exactly that key out (the entry count drops by one), makes later
    lookups of the key miss and leaves every other key with its value;
    removing a key that is absent is a runtime error and changes nothing. *)
Theorem pcc_hashtable_remove_outcome table key :
  ht_wf table ->
  let result := pcc_hashtable_remove table key in
  ht_wf result.2 /\
  (key ∈ ht_keys table ->
     result.1.1 = PCC_SUCCESS /\
     result.1.2 = pcc_hashtable_get table key /\
     S (pcc_hashtable_size result.2) = pcc_hashtable_size table /\
     ht_keys table ≡ₚ key :: ht_keys result.2 /\
     pcc_hashtable_get result.2 key = None /\
     (forall key', key' <> key ->
        pcc_hashtable_get result.2 key' = pcc_hashtable_get table key')) /\
  (key ∉ ht_keys table -> result = (PCC_ERROR_RUNTIME, None, table)).
Proof.
  intros Hwf result.
  pose proof (pcc_hashtable_remove_wf table key Hwf) as Hwf'. fold result in Hwf'.
  split; [done|]. split.
  - intros Hin.
    destruct (chain_remove_present _ _ (key_in_own_bucket _ _ Hwf Hin))
      as [[value chain'] Hrem].
    assert (exists table', result = (PCC_SUCCESS, value, table')) as [table' Hres].
    { subst result. unfold pcc_hashtable_remove. rewrite Hrem. by eexists. }
    destruct (pcc_hashtable_remove_entries _ _ _ _ Hwf Hres)
      as (e & Hk & Hv & Hsize & Hperm).
    rewrite Hres in *. simpl in *.
    assert (ht_keys table ≡ₚ key :: ht_keys table') as Hkeys.
    { unfold ht_keys. by rewrite Hperm, fmap_cons, Hk. }
    assert (e ∈ ht_entries table) as He by (rewrite Hperm; apply elem_of_cons; by left).
    pose proof (wf_nodup _ Hwf) as Hnd. rewrite Hkeys in Hnd.
    apply NoDup_cons in Hnd as [Hfresh Hnd].
    split; [done|]. split.
    { rewrite <- Hk, (pcc_hashtable_get_elem table e Hwf He). done. }
    split.
    { unfold pcc_hashtable_size. rewrite Hsize, (wf_size _ Hwf), Hperm. simpl. lia. }
    split; [done|]. split; [by apply pcc_hashtable_get_absent|].
    intros key' Hne.
    destruct (decide (key' ∈ ht_keys table')) as [Hin'|Hnin'].
    + apply list_elem_of_fmap in Hin' as (e' & -> & He').
      rewrite (pcc_hashtable_get_elem table' e' Hwf' He').
      symmetry. apply pcc_hashtable_get_elem; [done|].
      rewrite Hperm. apply elem_of_cons. by right.
    + rewrite (pcc_hashtable_get_absent table' key' Hwf' Hnin').
      symmetry. apply pcc_hashtable_get_absent; [done|].
      rewrite Hkeys. intros [?|?]%elem_of_cons; done.
  - intros Hnin. subst result. unfold pcc_hashtable_remove.
    rewrite chain_remove_absent; [done|].
    intros Hin. apply Hnin.
    apply list_elem_of_fmap in Hin as (e & -> & He).
    apply list_elem_of_fmap_2, elem_of_concat_bucket.
    eexists _, _. split; [|exact He].
    apply bucket_at_lookup. rewrite (wf_buckets _ Hwf).
    apply bucket_index_lt, (wf_capacity _ Hwf).
Qed.

(** X2 — [pcc_hashtable_resize].  A capacity below the number of entries
    is refused with a runtime error and the table is left alone.  Any
    other capacity above zero is taken: the table is rehashed into that
    many buckets, it holds the same number of entries and every lookup
    answers as before. *)
Theorem pcc_hashtable_resize_keeps_lookups table (new_capacity : nat) :
  ht_wf table ->
  let result := pcc_hashtable_resize table new_capacity in
  ((new_capacity < pcc_hashtable_size table)%nat ->
     result = (PCC_ERROR_RUNTIME, table)) /\
  ((pcc_hashtable_size table <= new_capacity)%nat -> (0 < new_capacity)%nat ->
     result.1 = PCC_SUCCESS /\ ht_wf result.2 /\
     pcc_hashtable_capacity result.2 = new_capacity /\
     pcc_hashtable_size result.2 = pcc_hashtable_size table /\
     ht_keys result.2 ≡ₚ ht_keys table /\
     (forall key, pcc_hashtable_get result.2 key = pcc_hashtable_get table key)).
Proof.
  intros Hwf result. split.
  - intros Hlt. subst result. unfold pcc_hashtable_resize, pcc_hashtable_size in *.
    by destruct (Nat.ltb_spec new_capacity (ht_size table)); [|lia].
  - intros Hle Hpos.
    destruct (pcc_hashtable_resize_wf table new_capacity Hwf Hpos Hle)
      as (t' & Hres & Hwf' & Hcap & Hsize & _ & Hperm).
    subst result. rewrite Hres. simpl.
    split; [done|]. split; [done|]. split; [done|]. split; [done|].
    split; [unfold ht_keys; by rewrite Hperm|].
    intros key. by apply pcc_hashtable_get_perm.
Qed.


Lemma fold_left_buckets {S : Type} (g : S -> list (PCCHashEntry V) -> S)
    (buckets : list (list (PCCHashEntry V))) (acc : S) (offset : nat) :
  fold_left (fun acc index => g acc (bucket_at buckets index))
            (seq offset (length buckets - offset)) acc
  = fold_left g (drop offset buckets) acc.
Proof.
  remember (length buckets - offset)%nat as n eqn:Hn.
  revert offset acc Hn. induction n as [|n IH]; intros offset acc Hn; simpl.
  - rewrite drop_ge by lia. done.
  - assert (offset < length buckets)%nat as Hlt by lia.
    rewrite (drop_S _ _ _ (bucket_at_lookup _ _ Hlt)). simpl.
    apply IH. lia.
Qed.

Lemma push_entries_spec {A : Type} (select : PCCHashEntry V -> option A) table
    (array : list (option A)) :
  length (ht_buckets table) = ht_capacity table ->
  push_entries select table array
  = (length (ht_entries table), array ++ (Some <$> omap select (ht_entries table))).
Proof.
  intros Hlen. unfold push_entries, ht_entries.
  pose proof (fold_left_buckets
                (fun acc chain =>
                   fold_left
                     (fun '(count, array) entry =>
                        (S count, (pcc_array_push array (select entry)).2))
                     chain acc)
                (ht_buckets table) (0%nat, array) 0) as Hfold.
  rewrite Nat.sub_0_r, Hlen, drop_0 in Hfold. rewrite Hfold. clear Hfold.
  assert (forall entries count (array : list (option A)),
            fold_left
              (fun '(count, array) entry =>
                 (S count, (pcc_array_push array (select entry)).2))
              entries (count, array)
            = ((count + length entries)%nat,
               array ++ (Some <$> omap select entries))) as Hchain.
  { induction entries as [|e entries IH]; intros count arr; simpl.
    - by rewrite Nat.add_0_r, app_nil_r.
    - rewrite IH. f_equal; [lia|].
      unfold pcc_array_push. destruct (select e) as [a|]; simpl; [|done].
      by rewrite <- app_assoc. }
  assert (forall buckets count (array : list (option A)),
            fold_left
              (fun acc chain =>
                 fold_left
                   (fun '(count, array) entry =>
                      (S count, (pcc_array_push array (select entry)).2))
                   chain acc)
              buckets (count, array)
            = ((count + length (concat buckets))%nat,
               array ++ (Some <$> omap select (concat buckets)))) as Hall.
  { induction buckets as [|chain buckets IH]; intros count arr; simpl.
    - by rewrite Nat.add_0_r, app_nil_r.
    - rewrite Hchain, IH. rewrite length_app, omap_app, fmap_app, <- app_assoc.
      f_equal. lia. }
  by rewrite Hall.
Qed.

(** X4 — [pcc_hashtable_get_keys] and [pcc_hashtable_get_values].  Both
    return the number of entries.  The keys array receives every key of
    the table, once, bucket after bucket.  The values array receives the
    values in the same order, except the [NULL] ones, which
    [pcc_array_push] refuses: the count returned can exceed the number of
    elements appended. *)
Theorem pcc_hashtable_get_keys_values table (keys : list (option string))
    (values : list (option V)) :
  ht_wf table ->
  pcc_hashtable_get_keys table keys
    = (pcc_hashtable_size table, keys ++ (Some <$> ht_keys table)) /\
  pcc_hashtable_get_values table values
    = (pcc_hashtable_size table,
       values ++ (Some <$> omap entry_value (ht_entries table))).
Proof.
  intros Hwf. unfold pcc_hashtable_get_keys, pcc_hashtable_get_values.
  rewrite !push_entries_spec by apply (wf_buckets _ Hwf).
  unfold pcc_hashtable_size. rewrite (wf_size _ Hwf). split; [|done].
  replace (omap (fun entry => Some (entry_key entry)) (ht_entries table))
    with (ht_keys table); [done|].
  unfold ht_keys.
  induction (ht_entries table) as [|e l IH]; simpl; [done|]. by f_equal.
Qed.

(** The buckets from [bucket_index] on hold what the iterator has yet
    to visit. *)
Lemma skip_empty_buckets_spec table (rounds bucket_index : nat) :
  length (ht_buckets table) = ht_capacity table ->
  (ht_capacity table <= bucket_index + rounds)%nat ->
  let stop := skip_empty_buckets rounds table bucket_index in
  concat (drop stop (ht_buckets table)) = concat (drop bucket_index (ht_buckets table)) /\
  ((stop < ht_capacity table)%nat -> bucket_at (ht_buckets table) stop <> []).
Proof.
  intros Hlen. revert bucket_index.
  induction rounds as [|rounds IH]; intros i Hr; simpl.
  - split; [done|lia].
  - destruct (Nat.ltb_spec i (ht_capacity table)) as [Hlt|Hge]; simpl; [|split; [done|lia]].
    destruct (bucket_at (ht_buckets table) i) as [|e chain] eqn:Hb; simpl.
    + destruct (IH (S i)) as [Hc Hn]; [lia|]. split; [|done].
      rewrite Hc.
      assert (i < length (ht_buckets table))%nat as Hi by lia.
      rewrite (drop_S _ _ i (bucket_at_lookup _ _ Hi)), Hb. done.
    + split; [done|]. intros _. by rewrite Hb.
Qed.

Lemma next_bucket_spec table (bucket_index : nat) :
  length (ht_buckets table) = ht_capacity table ->
  let iterator := next_bucket table bucket_index in
  it_table iterator = table /\
  it_current_entry iterator
    ++ concat (drop (S (it_bucket_index iterator)) (ht_buckets table))
  = concat (drop bucket_index (ht_buckets table)) /\
  (it_current_entry iterator = [] ->
   concat (drop bucket_index (ht_buckets table)) = []).
Proof.
  intros Hlen. unfold next_bucket. simpl.
  assert (ht_capacity table <= bucket_index + (ht_capacity table - bucket_index))%nat
    as Hrounds by lia.
  destruct (skip_empty_buckets_spec table (ht_capacity table - bucket_index)
              bucket_index Hlen Hrounds) as [Hc Hn].
  set (stop := skip_empty_buckets _ table bucket_index) in *.
  split; [done|].
  destruct (Nat.ltb_spec stop (ht_capacity table)) as [Hlt|Hge].
  - assert (stop < length (ht_buckets table))%nat as Hs by lia. split.
    + rewrite <- Hc.
      by rewrite (drop_S _ _ stop (bucket_at_lookup _ _ Hs)).
    + intros Hnil. by destruct (Hn Hlt).
  - rewrite <- Hc. rewrite !drop_ge by lia. done.
Qed.

Lemma iterate_spec table (fuel : nat) :
  length (ht_buckets table) = ht_capacity table ->
  forall iterator rest,
    it_table iterator = table ->
    it_current_entry iterator
      ++ concat (drop (S (it_bucket_index iterator)) (ht_buckets table)) = rest ->
    (it_current_entry iterator = [] -> rest = []) ->
    (length rest < fuel)%nat ->
    iterate fuel iterator = (fun e => (entry_key e, entry_value e)) <$> rest.
Proof.
  intros Hlen. induction fuel as [|fuel IH]; intros iterator rest Ht Hrest Hnil Hfuel;
    [lia|].
  simpl. unfold pcc_hashtable_iterator_next.
  destruct (it_current_entry iterator) as [|e next] eqn:Hcur.
  - by rewrite Hnil.
  - simpl in Hrest. subst rest. simpl in *. f_equal.
    destruct next as [|e' next].
    + rewrite Ht.
      destruct (next_bucket_spec table (S (it_bucket_index iterator)) Hlen)
        as (Ht' & Hc' & Hn').
      apply IH; [done|done|done|lia].
    + apply IH; simpl; [done|done|done|simpl in Hfuel; lia].
Qed.

(** X5 — the iterator.  Started on a well-formed table and advanced
    until it reports the end, it hands out every entry of the table once,
    bucket after bucket and every chain from its head, with the key and the
    value stored in it; advancing it further hands out nothing. *)
Theorem iterate_visits_every_entry table (fuel : nat) :
  ht_wf table -> (length (ht_entries table) < fuel)%nat ->
  iterate fuel (pcc_hashtable_iterator_create table)
    = (fun e => (entry_key e, entry_value e)) <$> ht_entries table /\
  length (iterate fuel (pcc_hashtable_iterator_create table)) = pcc_hashtable_size table.
Proof.
  intros Hwf Hfuel. pose proof (wf_buckets _ Hwf) as Hlen.
  destruct (next_bucket_spec table 0 Hlen) as (Ht & Hc & Hn).
  rewrite drop_0 in Hc, Hn.
  assert (iterate fuel (pcc_hashtable_iterator_create table)
          = (fun e => (entry_key e, entry_value e)) <$> ht_entries table) as ->.
  { by eapply iterate_spec. }
  split; [done|]. rewrite length_fmap. symmetry. apply (wf_size _ Hwf).
Qed.

(** X6 — the invariant of the table.  Whatever sequence of
    [create], [put], [remove], [clear] and [resize] (to a capacity above
    zero) built the table: it has buckets, [size] is the number of chained
    entries, no key is chained twice, [pcc_hashtable_empty] tells whether
    any entry is chained, a lookup returns the value of the entry that
    carries the key, and a key that no entry carries is not found. *)
Theorem hashtable_api_invariant table :
  ht_reachable table ->
  (0 < pcc_hashtable_capacity table)%nat /\
  length (ht_buckets table) = pcc_hashtable_capacity table /\
  pcc_hashtable_size table = length (ht_entries table) /\
  NoDup (ht_keys table) /\
  (pcc_hashtable_empty table = true <-> ht_entries table = []) /\
  (forall e, e ∈ ht_entries table ->
     pcc_hashtable_get table (entry_key e) = entry_value e) /\
  (forall key, key ∉ ht_keys table -> pcc_hashtable_get table key = None).
Proof.
  intros Hwf%ht_reachable_wf.
  split; [apply (wf_capacity _ Hwf)|]. split; [apply (wf_buckets _ Hwf)|].
  split; [apply (wf_size _ Hwf)|]. split; [apply (wf_nodup _ Hwf)|].
  split; [|split].
  - unfold pcc_hashtable_empty. rewrite (wf_size _ Hwf).
    destruct (ht_entries table); simpl; split; done.
  - intros e He. by apply pcc_hashtable_get_elem.
  - intros key Hk. by apply pcc_hashtable_get_absent.
Qed.
End HashTableMore.

Lemma sample_table_wf : ht_wf sample_table.
Proof. apply pcc_hashtable_put_wf, pcc_hashtable_create_wf. Qed.

Lemma pcc_hashtable_remove_outcome_witness :
  ht_wf sample_table /\
  let result := pcc_hashtable_remove sample_table "alpha" in
  ht_wf result.2 /\
  ("alpha"%string ∈ ht_keys sample_table ->
     result.1.1 = PCC_SUCCESS /\
     result.1.2 = pcc_hashtable_get sample_table "alpha" /\
     S (pcc_hashtable_size result.2) = pcc_hashtable_size sample_table /\
     ht_keys sample_table ≡ₚ "alpha"%string :: ht_keys result.2 /\
     pcc_hashtable_get result.2 "alpha" = None /\
     (forall key', key' <> "alpha"%string ->
        pcc_hashtable_get result.2 key' = pcc_hashtable_get sample_table key')) /\
  ("alpha"%string ∉ ht_keys sample_table ->
     result = (PCC_ERROR_RUNTIME, None, sample_table)).
Proof.
  split; [exact sample_table_wf|].
  exact (pcc_hashtable_remove_outcome sample_table "alpha" sample_table_wf).
Defined.

Lemma pcc_hashtable_resize_keeps_lookups_witness :
  ht_wf sample_table /\
  let result := pcc_hashtable_resize sample_table 4 in
  ((4 < pcc_hashtable_size sample_table)%nat ->
     result = (PCC_ERROR_RUNTIME, sample_table)) /\
  ((pcc_hashtable_size sample_table <= 4)%nat -> (0 < 4)%nat ->
     result.1 = PCC_SUCCESS /\ ht_wf result.2 /\
     pcc_hashtable_capacity result.2 = 4%nat /\
     pcc_hashtable_size result.2 = pcc_hashtable_size sample_table /\
     ht_keys result.2 ≡ₚ ht_keys sample_table /\
     (forall key, pcc_hashtable_get result.2 key = pcc_hashtable_get sample_table key)).
Proof.
  split; [exact sample_table_wf|].
  exact (pcc_hashtable_resize_keeps_lookups sample_table 4 sample_table_wf).
Defined.

Lemma pcc_hashtable_get_keys_values_witness :
  ht_wf sample_table /\
  pcc_hashtable_get_keys sample_table []
    = (pcc_hashtable_size sample_table, [] ++ (Some <$> ht_keys sample_table)) /\
  pcc_hashtable_get_values sample_table []
    = (pcc_hashtable_size sample_table,
       [] ++ (Some <$> omap entry_value (ht_entries sample_table))).
Proof.
  split; [exact sample_table_wf|].
  exact (pcc_hashtable_get_keys_values sample_table [] [] sample_table_wf).
Defined.

Lemma iterate_visits_every_entry_witness :
  ht_wf sample_table /\ (length (ht_entries sample_table) < 2)%nat /\
  iterate 2 (pcc_hashtable_iterator_create sample_table)
    = (fun e => (entry_key e, entry_value e)) <$> ht_entries sample_table /\
  length (iterate 2 (pcc_hashtable_iterator_create sample_table))
    = pcc_hashtable_size sample_table.
Proof.
  assert (length (ht_entries sample_table) < 2)%nat as Hfuel by (vm_compute; lia).
  split; [exact sample_table_wf|]. split; [exact Hfuel|].
  exact (iterate_visits_every_entry sample_table 2 sample_table_wf Hfuel).
Defined.

Lemma hashtable_api_invariant_witness :
  let table := (pcc_hashtable_remove sample_table "alpha").2 in
  ht_reachable table /\
  (0 < pcc_hashtable_capacity table)%nat /\
  length (ht_buckets table) = pcc_hashtable_capacity table /\
  pcc_hashtable_size table = length (ht_entries table) /\
  NoDup (ht_keys table) /\
  (pcc_hashtable_empty table = true <-> ht_entries table = []) /\
  (forall e, e ∈ ht_entries table ->
     pcc_hashtable_get table (entry_key e) = entry_value e) /\
  (forall key, key ∉ ht_keys table -> pcc_hashtable_get table key = None).
Proof.
  assert (ht_reachable (pcc_hashtable_remove sample_table "alpha").2) as Hreach
    by apply ht_reach_remove, ht_reach_put, ht_reach_create.
  split; [exact Hreach|].
  exact (hashtable_api_invariant _ Hreach).
Defined.

(** ** The symbol table: lookups through the scope chain *)

Section SymbolTableMore.
Implicit Types (table : SymbolTable) (name : string) (symbol : Symbol).

(** A walk depends only on the scopes it can visit: those below the one
    it starts from. *)
Lemma lookup_chain_agree table table' name (bound : nat) :
  st_wf table -> (bound <= length (all_scopes table))%nat ->
  (forall i, (i < bound)%nat ->
     scope_parent (scope_at table' i) = scope_parent (scope_at table i) /\
     pcc_hashtable_get (scope_symbols (scope_at table' i)) name
       = pcc_hashtable_get (scope_symbols (scope_at table i)) name) ->
  forall fuel i, (i < bound)%nat ->
    lookup_chain fuel table' (Some i) name = lookup_chain fuel table (Some i) name.
Proof.
  intros Hwf Hbound Hsame. induction fuel as [|fuel IH]; intros i Hi; simpl; [done|].
  destruct (Hsame i Hi) as [-> ->].
  destruct (pcc_hashtable_get _ name); [done|].
  destruct (scope_parent (scope_at table i)) as [p|] eqn:Hp; [|by destruct fuel].
  apply IH. pose proof (parent_in_range table i p Hwf ltac:(lia) Hp). lia.
Qed.

Lemma scope_at_set_scope table i j s :
  (i < length (all_scopes table))%nat ->
  scope_at (set_scope table i s) j = if decide (i = j) then s else scope_at table j.
Proof.
  intros Hi. unfold scope_at, set_scope. simpl.
  destruct (decide (i = j)) as [<-|Hne].
  - by rewrite list_lookup_insert_eq.
  - by rewrite list_lookup_insert_ne.
Qed.

(** [symbol_table_add] of a name that the current scope does not hold. *)
Lemma symbol_table_add_fresh table symbol :
  st_wf table ->
  sym_name symbol ∉ ht_keys (scope_symbols (scope_at table (current_scope table))) ->
  exists symbols',
    symbol_table_add table symbol =
      (PCC_SUCCESS,
       set_scope table (current_scope table)
         {| scope_symbols := symbols';
            scope_parent := scope_parent (scope_at table (current_scope table));
            scope_level := scope_level (scope_at table (current_scope table)) |}) /\
    pcc_hashtable_get symbols' (sym_name symbol) = Some symbol /\
    (forall other, other <> sym_name symbol ->
       pcc_hashtable_get symbols' other =
         pcc_hashtable_get (scope_symbols (scope_at table (current_scope table))) other).
Proof.
  intros Hwf Hnin.
  destruct (st_maps _ Hwf _ _ (scope_at_current _ Hwf)) as [Hs Hv].
  rewrite symbol_table_add_unfold. simpl.
  destruct (pcc_hashtable_put_spec _ (sym_name symbol) (Some symbol) Hs)
    as (symbols' & Hput & _ & Hget & Hframe & _).
  destruct (pcc_hashtable_contains _ _) eqn:Hc;
    [by apply (pcc_hashtable_contains_keys _ _ Hs Hv) in Hc|].
  rewrite Hput. simpl. by exists symbols'.
Qed.

(** X7 — declaring and finding.  On a well-formed table, once a name new
    to the current scope has been added, [symbol_table_lookup] of that name
    returns the symbol just added, whatever enclosing scopes declare under
    the same name: the innermost declaration wins.  Every other name
    resolves as it did before. *)
Theorem symbol_table_add_then_lookup table symbol :
  st_wf table ->
  sym_name symbol ∉ ht_keys (scope_symbols (scope_at table (current_scope table))) ->
  let table' := (symbol_table_add table symbol).2 in
  symbol_table_lookup table' (sym_name symbol) = Some symbol /\
  symbol_table_contains table' (sym_name symbol) = true /\
  (forall other, other <> sym_name symbol ->
     symbol_table_lookup table' other = symbol_table_lookup table other).
Proof.
  intros Hwf Hnin.
  destruct (symbol_table_add_fresh table symbol Hwf Hnin)
    as (symbols' & -> & Hget & Hframe).
  simpl. pose proof (st_current _ Hwf) as Hcur.
  assert (symbol_table_lookup
            (set_scope table (current_scope table)
               {| scope_symbols := symbols';
                  scope_parent := scope_parent (scope_at table (current_scope table));
                  scope_level := scope_level (scope_at table (current_scope table)) |})
            (sym_name symbol) = Some symbol) as Hfound.
  { unfold symbol_table_lookup, symbol_table_lookup_in. simpl.
    rewrite length_insert.
    destruct (length (all_scopes table)) as [|n] eqn:Hn; [lia|]. simpl.
    rewrite scope_at_set_scope by lia.
    destruct (decide (current_scope table = current_scope table)); [|done].
    simpl. by rewrite Hget. }
  split; [done|]. split; [unfold symbol_table_contains; by rewrite Hfound|].
  intros other Hne. unfold symbol_table_lookup, symbol_table_lookup_in. simpl.
  rewrite length_insert. f_equal.
  apply (lookup_chain_agree table _ other (length (all_scopes table))); [done|lia| |done].
  intros i Hi. rewrite scope_at_set_scope by done.
  destruct (decide (current_scope table = i)) as [<-|]; [|done].
  simpl. split; [done|]. by apply Hframe.
Qed.

Lemma enter_scope_in_new_scope table :
  st_wf table -> in_new_scope table (symbol_table_enter_scope table).2.
Proof.
  intros Hwf. split; [by apply symbol_table_enter_scope_wf|]. simpl.
  split; [done|]. split; [rewrite length_app; simpl; lia|]. split; [|split].
  - intros i Hi. by rewrite lookup_app_l.
  - unfold scope_at. simpl. rewrite lookup_app_r by lia.
    by rewrite Nat.sub_diag.
  - done.
Qed.

Lemma add_in_new_scope table table' symbol :
  in_new_scope table table' -> in_new_scope table (symbol_table_add table' symbol).2.
Proof.
  intros (Hwf' & Hcur & Hlen & Hold & Hparent & Herr).
  split; [by apply symbol_table_add_wf|].
  rewrite symbol_table_add_unfold. simpl.
  destruct (pcc_hashtable_contains _ _); simpl.
  - split; [done|]. split; [done|]. split; [done|]. split; [done|].
    etrans; [exact Herr|]. by apply prefix_app_r.
  - rewrite length_insert. split; [done|]. split; [done|]. split; [|split; [|done]].
    + intros i Hi. rewrite list_lookup_insert_ne by lia. by apply Hold.
    + rewrite <- Hcur. rewrite scope_at_set_scope by (rewrite Hcur; lia).
      destruct (decide (current_scope table' = current_scope table')); [|done].
      simpl. by rewrite Hcur.
Qed.

(** X8 — scopes end.  Open a scope on a well-formed table, add any
    symbols in it — some of the adds may fail as redefinitions — and leave
    it: [symbol_table_exit_scope] succeeds, the table is back in the scope
    it was in, and every name resolves exactly as it did before the scope
    was opened.  What was declared inside is out of reach, and no error
    recorded earlier is lost. *)
Theorem inner_declarations_end_with_scope table (symbols : list Symbol) :
  st_wf table ->
  let inside :=
    fold_left (fun table symbol => (symbol_table_add table symbol).2) symbols
              (symbol_table_enter_scope table).2 in
  let result := symbol_table_exit_scope inside in
  result.1 = PCC_SUCCESS /\
  current_scope result.2 = current_scope table /\
  st_wf result.2 /\
  st_errors table `prefix_of` st_errors result.2 /\
  (forall name, symbol_table_lookup result.2 name = symbol_table_lookup table name).
Proof.
  intros Hwf inside result.
  assert (in_new_scope table inside) as (Hwf' & Hcur & Hlen & Hold & Hparent & Herr).
  { subst inside. generalize (enter_scope_in_new_scope table Hwf).
    generalize (symbol_table_enter_scope table).2.
    induction symbols as [|symbol symbols IH]; intros t Ht; simpl; [done|].
    apply IH. by apply add_in_new_scope. }
  pose proof (symbol_table_exit_scope_wf inside Hwf') as Hwfr. fold result in Hwfr.
  subst result. unfold symbol_table_exit_scope in *.
  rewrite Hcur, Hparent in *. simpl.
  split; [done|]. split; [done|]. split; [done|]. split; [done|].
  intros name. unfold symbol_table_lookup. f_equal.
  unfold symbol_table_lookup_in at 1. simpl. rewrite Hlen.
  rewrite <- (symbol_table_lookup_in_fuel table name 1 Hwf), Nat.add_1_r.
  apply (lookup_chain_agree table _ name (length (all_scopes table)));
    [done|lia| |apply (st_current _ Hwf)].
  intros i Hi. unfold scope_at. simpl. by rewrite (Hold i Hi).
Qed.

(** The walk on a table where one symbol of the scope [s] was written
    to. *)
Lemma lookup_chain_modified table name (s : nat) (f : Symbol -> Symbol) symbol :
  st_wf table -> (s < length (all_scopes table))%nat ->
  let table' :=
    set_scope table s
      {| scope_symbols := symbol_modify (scope_symbols (scope_at table s)) name f;
         scope_parent := scope_parent (scope_at table s);
         scope_level := scope_level (scope_at table s) |} in
  forall fuel i, (i < length (all_scopes table))%nat ->
    lookup_chain fuel table (Some i) name = Some (s, symbol) ->
    lookup_chain fuel table' (Some i) name = Some (s, f symbol).
Proof.
  intros Hwf Hs table'. induction fuel as [|fuel IH]; intros i Hi; simpl; [done|].
  assert (ht_wf (scope_symbols (scope_at table s))) as Hmap.
  { apply (st_maps _ Hwf s). unfold scope_at.
    by destruct (lookup_lt_is_Some_2 _ _ Hs) as [x ->]. }
  subst table'. rewrite scope_at_set_scope by done.
  destruct (decide (s = i)) as [<-|Hne]; simpl.
  - rewrite symbol_modify_get, String.eqb_refl by done.
    destruct (pcc_hashtable_get _ name) as [sym|]; simpl; [by intros [= <-]|].
    destruct (scope_parent (scope_at table s)) as [p|] eqn:Hp; [|by destruct fuel].
    apply IH. pose proof (parent_in_range table s p Hwf Hs Hp). lia.
  - destruct (pcc_hashtable_get _ name) as [sym|]; [intros [= ? _]; lia|].
    destruct (scope_parent (scope_at table i)) as [p|] eqn:Hp; [|by destruct fuel].
    apply IH. pose proof (parent_in_range table i p Hwf Hi Hp). lia.
Qed.

(** X9 — [symbol_table_mark_used].  When the name resolves, the call
    succeeds and the symbol a lookup then returns is the same symbol with
    [is_used] set; the other names resolve as before and no error is
    recorded.  When the name does not resolve, the call returns the
    semantic-error status and records the undefined-symbol error at the
    position [{0, 0, "<unknown>"}], the scopes untouched. *)
Theorem symbol_table_mark_used_outcome table name :
  st_wf table ->
  let result := symbol_table_mark_used table name in
  match symbol_table_lookup table name with
  | Some symbol =>
      result.1 = PCC_SUCCESS /\
      symbol_table_lookup result.2 name = Some (set_is_used symbol) /\
      (forall other, other <> name ->
         symbol_table_lookup result.2 other = symbol_table_lookup table other) /\
      st_errors result.2 = st_errors table /\
      current_scope result.2 = current_scope table
  | None =>
      result.1 = PCC_ERROR_SEMANTIC /\
      all_scopes result.2 = all_scopes table /\
      current_scope result.2 = current_scope table /\
      st_errors result.2 =
        st_errors table ++
          [mkSemanticError (snprintf_512 ("Undefined symbol '" +:+ name +:+ "'"))
             (mkPosition 0 0 "<unknown>") SEM_ERROR_UNDEFINED_SYMBOL]
  end.
Proof.
  intros Hwf result. subst result.
  unfold symbol_table_lookup, symbol_table_mark_used.
  destruct (symbol_table_lookup_in table name) as [[s symbol]|] eqn:Hlook; simpl;
    [|done].
  pose proof (st_current _ Hwf) as Hcur.
  assert (s < length (all_scopes table))%nat as Hs.
  { eapply lookup_chain_in_range; [done| |exact Hlook]. by intros i [= <-]. }
  split; [done|]. split; [|split; [|done]].
  - unfold symbol_table_lookup_in in *. simpl. rewrite length_insert.
    by rewrite (lookup_chain_modified table name s set_is_used symbol Hwf Hs _ _ Hcur Hlook).
  - intros other Hne. unfold symbol_table_lookup_in. simpl. rewrite length_insert.
    f_equal.
    apply (lookup_chain_agree table _ other (length (all_scopes table)));
      [done|lia| |done].
    intros i Hi. rewrite scope_at_set_scope by done.
    destruct (decide (s = i)) as [<-|]; [|done]. simpl. split; [done|].
    rewrite symbol_modify_get.
    + by destruct (String.eqb_spec name other); [congruence|].
    + apply (st_maps _ Hwf s). unfold scope_at.
      by destruct (lookup_lt_is_Some_2 _ _ Hs) as [x ->].
Qed.

(** X10 — nothing is forgotten.  None of the operations that change a
    symbol table removes a recorded error or a scope: the earlier errors
    stay where they are in the list, [symbol_table_add_error] appends
    exactly one, which [symbol_table_get_error] returns under the index the
    count had, and the number of scopes never goes down (a scope that was
    left stays allocated until the table is freed). *)
Theorem symbol_table_never_forgets table symbol name message position error_code :
  let grows table' :=
    st_errors table `prefix_of` st_errors table' /\
    (length (all_scopes table) <= length (all_scopes table'))%nat in
  grows (symbol_table_enter_scope table).2 /\
  grows (symbol_table_exit_scope table).2 /\
  grows (symbol_table_add table symbol).2 /\
  grows (symbol_table_mark_used table name).2 /\
  grows (symbol_table_add_error table message position error_code).2 /\
  let reported := (symbol_table_add_error table message position error_code).2 in
  symbol_table_error_count reported = S (symbol_table_error_count table) /\
  symbol_table_get_error reported (symbol_table_error_count table)
    = Some (mkSemanticError message position error_code) /\
  symbol_table_get_error table (symbol_table_error_count table) = None.
Proof.
  cbv zeta. split_and!.
  - done.
  - simpl. rewrite length_app. lia.
  - unfold symbol_table_exit_scope. by destruct (scope_parent _).
  - unfold symbol_table_exit_scope. by destruct (scope_parent _).
  - rewrite symbol_table_add_unfold. simpl.
    destruct (pcc_hashtable_contains _ _); simpl; [by apply prefix_app_r|done].
  - rewrite symbol_table_add_unfold. simpl.
    destruct (pcc_hashtable_contains _ _); simpl; [done|]. by rewrite length_insert.
  - unfold symbol_table_mark_used.
    destruct (symbol_table_lookup_in table name) as [[s sym]|]; simpl;
      [done|by apply prefix_app_r].
  - unfold symbol_table_mark_used.
    destruct (symbol_table_lookup_in table name) as [[s sym]|]; simpl; [|done].
    by rewrite length_insert.
  - by apply prefix_app_r.
  - done.
  - unfold symbol_table_error_count. simpl. rewrite length_app. simpl. lia.
  - unfold symbol_table_get_error, symbol_table_error_count. simpl.
    rewrite lookup_app_r by lia. by rewrite Nat.sub_diag.
  - unfold symbol_table_get_error, symbol_table_error_count.
    apply lookup_ge_None. lia.
Qed.
End SymbolTableMore.

Lemma nested_table_wf : st_wf nested_table.
Proof.
  apply st_reachable_wf. unfold nested_table.
  apply reach_enter_scope, reach_add, reach_create.
Qed.

Lemma symbol_table_add_then_lookup_witness :
  let symbol := symbol_create "x" SYMBOL_PARAMETER None sample_position in
  st_wf nested_table /\
  (sym_name symbol
     ∉ ht_keys (scope_symbols (scope_at nested_table (current_scope nested_table)))) /\
  let table' := (symbol_table_add nested_table symbol).2 in
  symbol_table_lookup table' (sym_name symbol) = Some symbol /\
  symbol_table_contains table' (sym_name symbol) = true /\
  (forall other, other <> sym_name symbol ->
     symbol_table_lookup table' other = symbol_table_lookup nested_table other).
Proof.
  assert (sym_name (symbol_create "x" SYMBOL_PARAMETER None sample_position)
            ∉ ht_keys (scope_symbols
                         (scope_at nested_table (current_scope nested_table))))
    as Hfresh.
  { vm_compute. intros H. by apply elem_of_nil in H. }
  split; [exact nested_table_wf|]. split; [exact Hfresh|].
  exact (symbol_table_add_then_lookup nested_table
           (symbol_create "x" SYMBOL_PARAMETER None sample_position)
           nested_table_wf Hfresh).
Defined.

Lemma inner_declarations_end_with_scope_witness :
  let symbols :=
    [symbol_create "x" SYMBOL_PARAMETER None sample_position;
     symbol_create "y" SYMBOL_VARIABLE None sample_position;
     symbol_create "y" SYMBOL_VARIABLE None sample_position] in
  st_wf nested_table /\
  let inside :=
    fold_left (fun table symbol => (symbol_table_add table symbol).2) symbols
              (symbol_table_enter_scope nested_table).2 in
  let result := symbol_table_exit_scope inside in
  result.1 = PCC_SUCCESS /\
  current_scope result.2 = current_scope nested_table /\
  st_wf result.2 /\
  st_errors nested_table `prefix_of` st_errors result.2 /\
  (forall name,
     symbol_table_lookup result.2 name = symbol_table_lookup nested_table name).
Proof.
  split; [exact nested_table_wf|].
  exact (inner_declarations_end_with_scope nested_table _ nested_table_wf).
Defined.

Lemma symbol_table_mark_used_outcome_witness :
  st_wf nested_table /\
  let result := symbol_table_mark_used nested_table "x" in
  match symbol_table_lookup nested_table "x" with
  | Some symbol =>
      result.1 = PCC_SUCCESS /\
      symbol_table_lookup result.2 "x" = Some (set_is_used symbol) /\
      (forall other, other <> "x"%string ->
         symbol_table_lookup result.2 other = symbol_table_lookup nested_table other) /\
      st_errors result.2 = st_errors nested_table /\
      current_scope result.2 = current_scope nested_table
  | None =>
      result.1 = PCC_ERROR_SEMANTIC /\
      all_scopes result.2 = all_scopes nested_table /\
      current_scope result.2 = current_scope nested_table /\
      st_errors result.2 =
        st_errors nested_table ++
          [mkSemanticError (snprintf_512 ("Undefined symbol '" +:+ "x" +:+ "'"))
             (mkPosition 0 0 "<unknown>") SEM_ERROR_UNDEFINED_SYMBOL]
  end.
Proof.
  split; [exact nested_table_wf|].
  exact (symbol_table_mark_used_outcome nested_table "x" nested_table_wf).
Defined.

(** ** The semantic analyzer: what a traversal does to the analyzer *)

Section ErrorsGrow.
Implicit Types (analyzer : SemanticAnalyzer) (status : PCCError).

Lemma errors_grow_same analyzer analyzer' status :
  analyzer_errors analyzer' = analyzer_errors analyzer ->
  status <> PCC_ERROR_SEMANTIC -> errors_grow analyzer analyzer' status.
Proof. intros He Hs. split; [by rewrite He|done]. Qed.

Lemma errors_grow_after analyzer analyzer1 analyzer2 status :
  analyzer_errors analyzer `prefix_of` analyzer_errors analyzer1 ->
  errors_grow analyzer1 analyzer2 status -> errors_grow analyzer analyzer2 status.
Proof.
  intros Hp [Hp' Hlt]. split; [by etrans|].
  intros Hs. pose proof (prefix_length _ _ Hp). specialize (Hlt Hs). lia.
Qed.

Lemma errors_grow_then analyzer analyzer1 analyzer2 status :
  errors_grow analyzer analyzer1 status ->
  analyzer_errors analyzer1 `prefix_of` analyzer_errors analyzer2 ->
  errors_grow analyzer analyzer2 status.
Proof.
  intros [Hp Hlt] Hp'. split; [by etrans|].
  intros Hs. pose proof (prefix_length _ _ Hp'). specialize (Hlt Hs). lia.
Qed.

Lemma errors_grow_add_error analyzer message position error_code status :
  errors_grow analyzer (add_error analyzer message position error_code) status.
Proof.
  unfold errors_grow, analyzer_errors. simpl. split; [by apply prefix_app_r|].
  intros _. rewrite length_app. simpl. lia.
Qed.

Lemma errors_grow_declare analyzer name type data position :
  errors_grow analyzer (declare analyzer name type data position).2
              (declare analyzer name type data position).1.
Proof.
  unfold declare. rewrite symbol_table_add_unfold. simpl.
  destruct (pcc_hashtable_contains _ _); simpl.
  - unfold errors_grow, analyzer_errors. simpl. split; [by apply prefix_app_r|].
    intros _. rewrite length_app. simpl. lia.
  - apply errors_grow_same; [done|].
    pose proof (pcc_hashtable_put_status
                  (scope_symbols (scope_at (symbol_table analyzer)
                                           (current_scope (symbol_table analyzer))))
                  name (Some (symbol_create name type data position))) as Hput.
    simpl in Hput. by destruct Hput as [-> | ->].
Qed.

Lemma errors_prefix_declare_parameters analyzer parameters position :
  analyzer_errors analyzer
    `prefix_of` analyzer_errors (declare_parameters analyzer parameters position).
Proof.
  revert analyzer. induction parameters as [|p rest IH]; intros analyzer; simpl; [done|].
  etrans; [|apply IH]. apply errors_grow_declare.
Qed.

Lemma errors_same_exit_scope analyzer :
  analyzer_errors
    (with_table analyzer (symbol_table_exit_scope (symbol_table analyzer)).2)
  = analyzer_errors analyzer.
Proof.
  unfold analyzer_errors, symbol_table_exit_scope. simpl.
  by destruct (scope_parent _).
Qed.

Lemma errors_prefix_mark_used analyzer name :
  analyzer_errors analyzer
    `prefix_of` analyzer_errors
                  (with_table analyzer
                     (symbol_table_mark_used (symbol_table analyzer) name).2).
Proof.
  unfold analyzer_errors, symbol_table_mark_used. simpl.
  destruct (symbol_table_lookup_in _ _) as [[s sym]|]; simpl;
    [done|by apply prefix_app_r].
Qed.

Section Traversal.
Variable rec : ASTNode -> SemanticAnalyzer -> Analysis.
Let grows (node : ASTNode) : Prop :=
  forall analyzer status analyzer',
    rec node analyzer = Some (status, analyzer') ->
    errors_grow analyzer analyzer' status.

Lemma analyze_pointer_grows node analyzer status analyzer' :
  on_pointer grows node ->
  analyze_pointer rec node analyzer = Some (status, analyzer') ->
  errors_grow analyzer analyzer' status.
Proof.
  destruct node as [n|]; simpl; [intros H; apply H|].
  intros _ [= <- <-]. by apply errors_grow_same.
Qed.

Lemma analyze_if_present_grows node analyzer status analyzer' :
  on_pointer grows node ->
  analyze_if_present rec node analyzer = Some (status, analyzer') ->
  status = PCC_SUCCESS /\
  analyzer_errors analyzer `prefix_of` analyzer_errors analyzer'.
Proof.
  destruct node as [n|]; simpl; [|by intros _ [= <- <-]].
  intros H. destruct (rec n analyzer) as [[s a1]|] eqn:Hn; [|done].
  intros [= <- <-]. split; [done|]. by apply (H _ _ _ Hn).
Qed.

Lemma analyze_until_error_grows elements :
  Forall (on_pointer grows) elements ->
  forall analyzer status analyzer',
    analyze_until_error rec elements analyzer = Some (status, analyzer') ->
    errors_grow analyzer analyzer' status.
Proof.
  induction 1 as [|elem rest Helem _ IH]; intros analyzer status analyzer'; simpl.
  - intros [= <- <-]. by apply errors_grow_same.
  - destruct (analyze_pointer rec elem analyzer) as [[err a1]|] eqn:Hn; [|done].
    pose proof (analyze_pointer_grows _ _ _ _ Helem Hn) as Hg.
    destruct (is_error err).
    + by intros [= <- <-].
    + intros Hrest. eapply errors_grow_after; [apply Hg|by apply IH].
Qed.

Lemma analyze_all_grows elements :
  Forall (on_pointer grows) elements ->
  forall analyzer status analyzer',
    analyze_all rec elements analyzer = Some (status, analyzer') ->
    status = PCC_SUCCESS /\
    analyzer_errors analyzer `prefix_of` analyzer_errors analyzer'.
Proof.
  induction 1 as [|elem rest Helem _ IH]; intros analyzer status analyzer'; simpl.
  - by intros [= <- <-].
  - destruct (analyze_pointer rec elem analyzer) as [[err a1]|] eqn:Hn; [|done].
    pose proof (analyze_pointer_grows _ _ _ _ Helem Hn) as [Hp _].
    intros Hrest. destruct (IH _ _ _ Hrest) as [-> Hp']. split; [done|by etrans].
Qed.
End Traversal.

Lemma errors_grow_prefix analyzer analyzer' status :
  analyzer_errors analyzer `prefix_of` analyzer_errors analyzer' ->
  status <> PCC_ERROR_SEMANTIC -> errors_grow analyzer analyzer' status.
Proof. intros Hp Hs. by split. Qed.

Lemma is_error_false err : is_error err = false -> err = PCC_SUCCESS.
Proof. by destruct err. Qed.

Lemma semantic_analyze_node_grows node analyzer status analyzer' :
  semantic_analyze_node node analyzer = Some (status, analyzer') ->
  errors_grow analyzer analyzer' status.
Proof.
  revert analyzer status analyzer'.
  induction node using ASTNode_nested_ind; intros analyzer status analyzer'; simpl.
  - (* Program *)
    destruct statements as [statements|]; simpl.
    + by apply analyze_until_error_grows.
    + intros [= <- <-]. by apply errors_grow_same.
  - (* PromptDef *)
    unfold analyze_prompt_def.
    pose proof (errors_grow_declare analyzer name SYMBOL_PROMPT
                  (Some (PromptDef position name body)) position) as Hd.
    simpl in Hd. destruct (declare _ _ _ _ _) as [err a1]. simpl in Hd.
    destruct (is_error err); [by intros [= <- <-]|].
    destruct body as [body|].
    + intros Hb. eapply errors_grow_after; [apply Hd|by apply H].
    + intros [= <- <-]. by apply errors_grow_prefix; [apply Hd|].
  - (* VarDecl *)
    unfold analyze_var_decl.
    pose proof (errors_grow_declare analyzer name SYMBOL_VARIABLE
                  (Some (VarDecl position name initializer)) position) as Hd.
    simpl in Hd. destruct (declare _ _ _ _ _) as [err a1]. simpl in Hd.
    destruct (is_error err); [by intros [= <- <-]|].
    destruct initializer as [initializer|].
    + intros Hb. eapply errors_grow_after; [apply Hd|by apply H].
    + intros [= <- <-]. by apply errors_grow_prefix; [apply Hd|].
  - (* TemplateDef *)
    unfold analyze_template_def. cbn [node_position].
    pose proof (errors_grow_declare analyzer name SYMBOL_TEMPLATE
                  (Some (TemplateDef position name parameters body)) position) as Hd.
    destruct (declare _ _ _ _ _) as [err a1]. simpl in Hd.
    destruct (is_error err) eqn:Herr; [by intros [= <- <-]|].
    apply is_error_false in Herr as ->.
    set (a2 := with_table a1 (symbol_table_enter_scope (symbol_table a1)).2).
    set (a3 := match parameters with
               | Some parameters => declare_parameters a2 parameters position
               | None => a2
               end).
    assert (analyzer_errors analyzer `prefix_of` analyzer_errors a3) as Hp3.
    { etrans; [apply Hd|]. subst a3.
      destruct parameters as [parameters|]; [|done].
      apply (errors_prefix_declare_parameters a2). }
    destruct body as [body|].
    + destruct (semantic_analyze_node body a3) as [[err' a4]|] eqn:Hb; [|done].
      intros [= <- <-]. eapply errors_grow_after; [exact Hp3|].
      eapply errors_grow_then; [by apply H|]. by rewrite errors_same_exit_scope.
    + intros [= <- <-]. apply errors_grow_prefix; [|done].
      by rewrite errors_same_exit_scope.
  - (* ConstraintDef *)
    unfold analyze_constraint_def.
    pose proof (errors_grow_declare analyzer name SYMBOL_CONSTRAINT
                  (Some (ConstraintDef position name constraints)) position) as Hd.
    simpl in Hd. destruct (declare _ _ _ _ _) as [err a1]. simpl in Hd.
    destruct (is_error err); [by intros [= <- <-]|].
    destruct constraints as [constraints|].
    + intros Hb. eapply errors_grow_after; [apply Hd|].
      by eapply analyze_until_error_grows.
    + intros [= <- <-]. by apply errors_grow_prefix; [apply Hd|].
  - (* OutputSpec *)
    unfold analyze_output_spec.
    destruct (symbol_table_lookup _ _) as [symbol|];
      [|intros [= <- <-]; apply errors_grow_add_error].
    destruct (negb _); intros [= <- <-];
      [apply errors_grow_add_error|by apply errors_grow_same].
  - (* Identifier *)
    unfold analyze_identifier.
    destruct (symbol_table_lookup _ _) as [symbol|]; intros [= <- <-];
      [by apply errors_grow_same|apply errors_grow_add_error].
  - intros [= <- <-]. by apply errors_grow_same.
  - intros [= <- <-]. by apply errors_grow_same.
  - intros [= <- <-]. by apply errors_grow_same.
  - (* BinaryExpr *)
    unfold analyze_binary_expr.
    destruct (analyze_pointer _ lhs analyzer) as [[e1 a1]|] eqn:E1; [|done].
    destruct (analyze_pointer _ rhs a1) as [[e2 a2]|] eqn:E2; [|done].
    intros [= <- <-]. apply errors_grow_prefix; [|done].
    pose proof (analyze_pointer_grows _ _ _ _ _ H E1) as [Hp1 _].
    pose proof (analyze_pointer_grows _ _ _ _ _ H0 E2) as [Hp2 _].
    by etrans.
  - (* UnaryExpr *)
    unfold analyze_unary_expr.
    destruct (analyze_pointer _ operand analyzer) as [[e1 a1]|] eqn:E1; [|done].
    intros [= <- <-]. apply errors_grow_prefix; [|done].
    by pose proof (analyze_pointer_grows _ _ _ _ _ H E1) as [Hp1 _].
  - (* VariableRef *)
    unfold analyze_variable_ref.
    destruct (symbol_table_lookup _ _) as [symbol|];
      [|intros [= <- <-]; apply errors_grow_add_error].
    destruct (_ && _); intros [= <- <-]; [apply errors_grow_add_error|].
    apply errors_grow_prefix; [apply errors_prefix_mark_used|done].
  - (* CallExpr *)
    unfold analyze_function_call.
    destruct (symbol_table_lookup _ _) as [symbol|];
      [|intros [= <- <-]; apply errors_grow_add_error].
    destruct (negb _); [intros [= <- <-]; apply errors_grow_add_error|].
    destruct arguments as [arguments|].
    + intros Ha. destruct (analyze_all_grows _ _ H _ _ _ Ha) as [-> Hp].
      by apply errors_grow_prefix.
    + intros [= <- <-]. by apply errors_grow_same.
  - (* IfStmt *)
    unfold analyze_if_stmt.
    destruct (analyze_if_present _ condition analyzer) as [[e1 a1]|] eqn:E1; [|done].
    destruct (analyze_if_present _ then_body a1) as [[e2 a2]|] eqn:E2; [|done].
    destruct (analyze_if_present _ else_body a2) as [[e3 a3]|] eqn:E3; [|done].
    intros [= <- <-]. apply errors_grow_prefix; [|done].
    pose proof (analyze_if_present_grows _ _ _ _ _ H E1) as [_ Hp1].
    pose proof (analyze_if_present_grows _ _ _ _ _ H0 E2) as [_ Hp2].
    pose proof (analyze_if_present_grows _ _ _ _ _ H1 E3) as [_ Hp3].
    etrans; [exact Hp1|by etrans].
  - (* ForStmt *)
    unfold analyze_for_stmt.
    set (a0 := with_table analyzer (symbol_table_enter_scope (symbol_table analyzer)).2).
    pose proof (errors_grow_declare a0 variable SYMBOL_VARIABLE None position) as [Hd _].
    destruct (analyze_if_present _ iterable _) as [[e1 a1]|] eqn:E1; [|done].
    destruct (analyze_if_present _ body a1) as [[e2 a2]|] eqn:E2; [|done].
    intros [= <- <-]. apply errors_grow_prefix; [|done].
    rewrite errors_same_exit_scope.
    pose proof (analyze_if_present_grows _ _ _ _ _ H E1) as [_ Hp1].
    pose proof (analyze_if_present_grows _ _ _ _ _ H0 E2) as [_ Hp2].
    etrans; [exact Hd|by etrans].
  - (* WhileStmt *)
    unfold analyze_while_stmt.
    destruct (analyze_if_present _ condition analyzer) as [[e1 a1]|] eqn:E1; [|done].
    destruct (analyze_if_present _ body a1) as [[e2 a2]|] eqn:E2; [|done].
    intros [= <- <-]. apply errors_grow_prefix; [|done].
    pose proof (analyze_if_present_grows _ _ _ _ _ H E1) as [_ Hp1].
    pose proof (analyze_if_present_grows _ _ _ _ _ H0 E2) as [_ Hp2].
    by etrans.
  - intros [= <- <-]. by apply errors_grow_same.
  - done.
  - (* ListNode *)
    unfold analyze_element_list.
    destruct kind;
      try (intros [= <- <-]; by apply errors_grow_same);
      (destruct elements as [elements|];
         [by apply analyze_until_error_grows
         |intros [= <- <-]; by apply errors_grow_same]).
  - intros [= <- <-]. by apply errors_grow_same.
Qed.

(** X11 — errors accumulate.  Whatever the tree and whatever the
    analyzer holds, a call of [semantic_analyze] that returns leaves every
    error recorded before in its place in the list, and a
    [PCC_ERROR_SEMANTIC] status comes with at least one error recorded
    during the call: a caller that counts the errors before and after can
    rely on the status in this direction. *)
Theorem semantic_errors_accumulate (analyzer : SemanticAnalyzer)
    (node : option ASTNode) :
  match semantic_analyze analyzer node with
  | Some (status, analyzer') =>
      analyzer_errors analyzer `prefix_of` analyzer_errors analyzer' /\
      (semantic_error_count analyzer <= semantic_error_count analyzer')%nat /\
      (status = PCC_ERROR_SEMANTIC ->
       (semantic_error_count analyzer < semantic_error_count analyzer')%nat /\
       exists error, last (analyzer_errors analyzer') = Some error)
  | None => True
  end.
Proof.
  unfold semantic_analyze, analyze_pointer.
  destruct node as [node|].
  - destruct (semantic_analyze_node node analyzer) as [[status analyzer']|] eqn:Hrun;
      [|done].
    destruct (semantic_analyze_node_grows _ _ _ _ Hrun) as [Hp Hlt].
    split; [done|]. split; [by apply prefix_length|].
    intros Hs. specialize (Hlt Hs). split; [done|].
    unfold analyzer_errors in *.
    destruct (st_errors (symbol_table analyzer')) as [|e l] using rev_ind;
      [simpl in Hlt; lia|].
    exists e. by rewrite last_snoc.
  - split; [done|]. split; [done|]. done.
Qed.

End ErrorsGrow.

(** ** The semantic analyzer: relations every traversal keeps *)

Section AnalyzerInvariant.
(** A relation between the analyzer a call finds and the one it leaves
    that every primitive step of the analyzer keeps, and that a scope
    entered and left again keeps as well, holds across the traversal of any
    tree. *)
Variable R : SemanticAnalyzer -> SemanticAnalyzer -> Prop.
Hypothesis R_refl : forall a, R a a.
Hypothesis R_trans : forall a b c, R a b -> R b c -> R a c.
Hypothesis R_add_error : forall a message position error_code,
  R a (add_error a message position error_code).
Hypothesis R_declare : forall a name type data position,
  R a (declare a name type data position).2.
Hypothesis R_mark_used : forall a name,
  R a (with_table a (symbol_table_mark_used (symbol_table a) name).2).
Hypothesis R_scope : forall a b,
  R (with_table a (symbol_table_enter_scope (symbol_table a)).2) b ->
  R a (with_table b (symbol_table_exit_scope (symbol_table b)).2).

Lemma declare_parameters_invariant parameters position a :
  R a (declare_parameters a parameters position).
Proof.
  revert a. induction parameters as [|p rest IH]; intros a; simpl; [done|].
  eapply R_trans; [apply R_declare|apply IH].
Qed.

Section Steps.
Variable rec : ASTNode -> SemanticAnalyzer -> Analysis.

Let kept (node : ASTNode) : Prop :=
  forall a status a', rec node a = Some (status, a') -> R a a'.

Lemma analyze_pointer_invariant node a status a' :
  on_pointer kept node ->
  analyze_pointer rec node a = Some (status, a') -> R a a'.
Proof.
  destruct node as [n|]; simpl; [intros H; apply H|].
  by intros _ [= _ <-].
Qed.

Lemma analyze_if_present_invariant node a status a' :
  on_pointer kept node ->
  analyze_if_present rec node a = Some (status, a') -> R a a'.
Proof.
  destruct node as [n|]; simpl; [|by intros _ [= _ <-]].
  intros H. destruct (rec n a) as [[s a1]|] eqn:Hn; [|done].
  intros [= _ <-]. by apply (H _ _ _ Hn).
Qed.

Lemma analyze_until_error_invariant elements :
  Forall (on_pointer kept) elements ->
  forall a status a',
    analyze_until_error rec elements a = Some (status, a') -> R a a'.
Proof.
  induction 1 as [|elem rest Helem _ IH]; intros a status a'; simpl.
  - by intros [= _ <-].
  - destruct (analyze_pointer rec elem a) as [[err a1]|] eqn:Hn; [|done].
    pose proof (analyze_pointer_invariant _ _ _ _ Helem Hn) as Hg.
    destruct (is_error err).
    + by intros [= _ <-].
    + intros Hrest. eapply R_trans; [apply Hg|by eapply IH].
Qed.

Lemma analyze_all_invariant elements :
  Forall (on_pointer kept) elements ->
  forall a status a',
    analyze_all rec elements a = Some (status, a') -> R a a'.
Proof.
  induction 1 as [|elem rest Helem _ IH]; intros a status a'; simpl.
  - by intros [= _ <-].
  - destruct (analyze_pointer rec elem a) as [[err a1]|] eqn:Hn; [|done].
    pose proof (analyze_pointer_invariant _ _ _ _ Helem Hn) as Hg.
    intros Hrest. eapply R_trans; [apply Hg|by eapply IH].
Qed.
End Steps.

Lemma semantic_analyze_node_invariant node a status a' :
  semantic_analyze_node node a = Some (status, a') -> R a a'.
Proof.
  revert a status a'.
  induction node using ASTNode_nested_ind; intros a status a'; simpl.
  - (* Program *)
    destruct statements as [statements|]; simpl.
    + by apply analyze_until_error_invariant.
    + by intros [= _ <-].
  - (* PromptDef *)
    unfold analyze_prompt_def.
    pose proof (R_declare a name SYMBOL_PROMPT
                  (Some (PromptDef position name body)) position) as Hd.
    simpl in Hd. destruct (declare _ _ _ _ _) as [err a1]. simpl in Hd.
    destruct (is_error err); [by intros [= _ <-]|].
    destruct body as [body|].
    + intros Hb. eapply R_trans; [apply Hd|by eapply H].
    + by intros [= _ <-].
  - (* VarDecl *)
    unfold analyze_var_decl.
    pose proof (R_declare a name SYMBOL_VARIABLE
                  (Some (VarDecl position name initializer)) position) as Hd.
    simpl in Hd. destruct (declare _ _ _ _ _) as [err a1]. simpl in Hd.
    destruct (is_error err); [by intros [= _ <-]|].
    destruct initializer as [initializer|].
    + intros Hb. eapply R_trans; [apply Hd|by eapply H].
    + by intros [= _ <-].
  - (* TemplateDef *)
    unfold analyze_template_def. cbn [node_position].
    pose proof (R_declare a name SYMBOL_TEMPLATE
                  (Some (TemplateDef position name parameters body)) position) as Hd.
    destruct (declare _ _ _ _ _) as [err a1]. simpl in Hd.
    destruct (is_error err); [by intros [= _ <-]|].
    set (a2 := with_table a1 (symbol_table_enter_scope (symbol_table a1)).2).
    set (a3 := match parameters with
               | Some parameters => declare_parameters a2 parameters position
               | None => a2
               end).
    assert (R a2 a3) as Hp3.
    { subst a3. destruct parameters as [parameters|]; [|done].
      apply declare_parameters_invariant. }
    destruct body as [body|].
    + destruct (semantic_analyze_node body a3) as [[err' a4]|] eqn:Hb; [|done].
      intros [= _ <-]. eapply R_trans; [exact Hd|].
      apply R_scope. eapply R_trans; [exact Hp3|by eapply H].
    + intros [= _ <-]. eapply R_trans; [exact Hd|]. by apply R_scope.
  - (* ConstraintDef *)
    unfold analyze_constraint_def.
    pose proof (R_declare a name SYMBOL_CONSTRAINT
                  (Some (ConstraintDef position name constraints)) position) as Hd.
    simpl in Hd. destruct (declare _ _ _ _ _) as [err a1]. simpl in Hd.
    destruct (is_error err); [by intros [= _ <-]|].
    destruct constraints as [constraints|].
    + intros Hb. eapply R_trans; [apply Hd|].
      by eapply analyze_until_error_invariant.
    + by intros [= _ <-].
  - (* OutputSpec *)
    unfold analyze_output_spec.
    destruct (symbol_table_lookup _ _) as [symbol|];
      [|intros [= _ <-]; apply R_add_error].
    destruct (negb _); intros [= _ <-]; [apply R_add_error|done].
  - (* Identifier *)
    unfold analyze_identifier.
    destruct (symbol_table_lookup _ _) as [symbol|]; intros [= _ <-];
      [done|apply R_add_error].
  - by intros [= _ <-].
  - by intros [= _ <-].
  - by intros [= _ <-].
  - (* BinaryExpr *)
    unfold analyze_binary_expr.
    destruct (analyze_pointer _ lhs a) as [[e1 a1]|] eqn:E1; [|done].
    destruct (analyze_pointer _ rhs a1) as [[e2 a2]|] eqn:E2; [|done].
    intros [= _ <-].
    eapply R_trans;
      [exact (analyze_pointer_invariant _ _ _ _ _ H E1)
      |exact (analyze_pointer_invariant _ _ _ _ _ H0 E2)].
  - (* UnaryExpr *)
    unfold analyze_unary_expr.
    destruct (analyze_pointer _ operand a) as [[e1 a1]|] eqn:E1; [|done].
    intros [= _ <-]. exact (analyze_pointer_invariant _ _ _ _ _ H E1).
  - (* VariableRef *)
    unfold analyze_variable_ref.
    destruct (symbol_table_lookup _ _) as [symbol|];
      [|intros [= _ <-]; apply R_add_error].
    destruct (_ && _); intros [= _ <-]; [apply R_add_error|apply R_mark_used].
  - (* CallExpr *)
    unfold analyze_function_call.
    destruct (symbol_table_lookup _ _) as [symbol|];
      [|intros [= _ <-]; apply R_add_error].
    destruct (negb _); [intros [= _ <-]; apply R_add_error|].
    destruct arguments as [arguments|].
    + by apply analyze_all_invariant.
    + by intros [= _ <-].
  - (* IfStmt *)
    unfold analyze_if_stmt.
    destruct (analyze_if_present _ condition a) as [[e1 a1]|] eqn:E1; [|done].
    destruct (analyze_if_present _ then_body a1) as [[e2 a2]|] eqn:E2; [|done].
    destruct (analyze_if_present _ else_body a2) as [[e3 a3]|] eqn:E3; [|done].
    intros [= _ <-].
    eapply R_trans; [exact (analyze_if_present_invariant _ _ _ _ _ H E1)|].
    eapply R_trans;
      [exact (analyze_if_present_invariant _ _ _ _ _ H0 E2)
      |exact (analyze_if_present_invariant _ _ _ _ _ H1 E3)].
  - (* ForStmt *)
    unfold analyze_for_stmt.
    set (a0 := with_table a (symbol_table_enter_scope (symbol_table a)).2).
    pose proof (R_declare a0 variable SYMBOL_VARIABLE None position) as Hd.
    destruct (analyze_if_present _ iterable _) as [[e1 a1]|] eqn:E1; [|done].
    destruct (analyze_if_present _ body a1) as [[e2 a2]|] eqn:E2; [|done].
    intros [= _ <-]. apply R_scope.
    eapply R_trans; [exact Hd|].
    eapply R_trans;
      [exact (analyze_if_present_invariant _ _ _ _ _ H E1)
      |exact (analyze_if_present_invariant _ _ _ _ _ H0 E2)].
  - (* WhileStmt *)
    unfold analyze_while_stmt.
    destruct (analyze_if_present _ condition a) as [[e1 a1]|] eqn:E1; [|done].
    destruct (analyze_if_present _ body a1) as [[e2 a2]|] eqn:E2; [|done].
    intros [= _ <-].
    eapply R_trans;
      [exact (analyze_if_present_invariant _ _ _ _ _ H E1)
      |exact (analyze_if_present_invariant _ _ _ _ _ H0 E2)].
  - by intros [= _ <-].
  - done.
  - (* ListNode *)
    unfold analyze_element_list.
    destruct kind;
      try (by intros [= _ <-]);
      (destruct elements as [elements|];
         [by apply analyze_until_error_invariant|by intros [= _ <-]]).
  - by intros [= _ <-].
Qed.
End AnalyzerInvariant.

Section ScopesRestored.

Lemma keeps_scopes_refl table : keeps_scopes table table.
Proof. by split. Qed.

Lemma keeps_scopes_trans t1 t2 t3 :
  keeps_scopes t1 t2 -> keeps_scopes t2 t3 -> keeps_scopes t1 t3.
Proof.
  intros [Hl1 H1] [Hl2 H2]. split; [lia|].
  intros i Hi. destruct (H1 i Hi) as [<- <-]. apply H2. lia.
Qed.

Lemma keeps_scopes_same table table' :
  all_scopes table' = all_scopes table -> keeps_scopes table table'.
Proof. intros H. unfold keeps_scopes, scope_at. by rewrite H. Qed.

Lemma keeps_scopes_set_scope table i s :
  scope_parent s = scope_parent (scope_at table i) ->
  scope_level s = scope_level (scope_at table i) ->
  keeps_scopes table (set_scope table i s).
Proof.
  intros Hp Hl. split; [simpl; by rewrite length_insert|].
  intros j Hj. destruct (decide (i = j)) as [<-|Hne].
  - rewrite scope_at_set_scope by done. by rewrite decide_True.
  - unfold scope_at, set_scope. simpl. by rewrite list_lookup_insert_ne.
Qed.

Lemma symbol_table_add_scopes table symbol :
  current_scope (symbol_table_add table symbol).2 = current_scope table /\
  global_scope (symbol_table_add table symbol).2 = global_scope table /\
  keeps_scopes table (symbol_table_add table symbol).2.
Proof.
  unfold symbol_table_add.
  destruct (pcc_hashtable_contains _ _); simpl.
  - split_and!; [done|done|by apply keeps_scopes_same].
  - destruct (pcc_hashtable_put _ _ _) as [err symbols].
    destruct (negb _); simpl; (split_and!; [done|done|]);
      by apply keeps_scopes_set_scope.
Qed.

Lemma symbol_table_mark_used_scopes table name :
  current_scope (symbol_table_mark_used table name).2 = current_scope table /\
  global_scope (symbol_table_mark_used table name).2 = global_scope table /\
  keeps_scopes table (symbol_table_mark_used table name).2.
Proof.
  unfold symbol_table_mark_used.
  destruct (symbol_table_lookup_in table name) as [[s symbol]|]; simpl.
  - split_and!; [done|done|]. by apply keeps_scopes_set_scope.
  - split_and!; [done|done|by apply keeps_scopes_same].
Qed.

Lemma same_scope_refl a : same_scope a a.
Proof. split_and!; [done|done|apply keeps_scopes_refl]. Qed.

Lemma same_scope_trans a b c : same_scope a b -> same_scope b c -> same_scope a c.
Proof.
  intros (Hc1 & Hg1 & Hk1) (Hc2 & Hg2 & Hk2).
  split_and!; [congruence|congruence|by eapply keeps_scopes_trans].
Qed.

Lemma same_scope_add_error a message position error_code :
  same_scope a (add_error a message position error_code).
Proof. split_and!; [done|done|by apply keeps_scopes_same]. Qed.

Lemma same_scope_declare a name type data position :
  same_scope a (declare a name type data position).2.
Proof.
  unfold declare.
  pose proof (symbol_table_add_scopes (symbol_table a)
                (symbol_create name type data position)) as H.
  by destruct (symbol_table_add _ _) as [err table].
Qed.

Lemma same_scope_mark_used a name :
  same_scope a (with_table a (symbol_table_mark_used (symbol_table a) name).2).
Proof. apply symbol_table_mark_used_scopes. Qed.

Lemma same_scope_bracket a b :
  same_scope (with_table a (symbol_table_enter_scope (symbol_table a)).2) b ->
  same_scope a (with_table b (symbol_table_exit_scope (symbol_table b)).2).
Proof.
  intros (Hc & Hg & Hl & Hk). simpl in Hc, Hg, Hl, Hk.
  rewrite length_app in Hl, Hk. simpl in Hl, Hk.
  assert (scope_parent (scope_at (symbol_table b) (length (all_scopes (symbol_table a))))
          = Some (current_scope (symbol_table a))) as Hparent.
  { destruct (Hk (length (all_scopes (symbol_table a)))) as [-> _]; [lia|].
    unfold scope_at. simpl. by rewrite lookup_app_r, Nat.sub_diag by done. }
  unfold symbol_table_exit_scope. rewrite Hc, Hparent.
  split_and!; [done|done|]. split; [simpl; lia|].
  intros i Hi. destruct (Hk i) as [Hp Hlv]; [lia|].
  unfold scope_at in *. simpl in *. by rewrite lookup_app_l in Hp, Hlv by done.
Qed.

(** X12 — the scope is restored.  When [semantic_analyze] returns, on
    any tree and any analyzer, the table is back in the scope the call
    found it in: every scope a template or a loop opened has been left
    again, also when the body reported an error.  The scopes that were
    there keep their parent and their level, and the global scope is the
    same. *)
Theorem semantic_analysis_restores_scope (analyzer : SemanticAnalyzer)
    (node : option ASTNode) :
  match semantic_analyze analyzer node with
  | Some (_, analyzer') =>
      symbol_table_current_scope (symbol_table analyzer')
        = symbol_table_current_scope (symbol_table analyzer) /\
      symbol_table_global_scope (symbol_table analyzer')
        = symbol_table_global_scope (symbol_table analyzer) /\
      keeps_scopes (symbol_table analyzer) (symbol_table analyzer')
  | None => True
  end.
Proof.
  unfold semantic_analyze, analyze_pointer.
  destruct node as [node|]; [|split_and!; [done|done|apply keeps_scopes_refl]].
  destruct (semantic_analyze_node node analyzer) as [[status analyzer']|] eqn:Hrun;
    [|done].
  apply (semantic_analyze_node_invariant same_scope same_scope_refl same_scope_trans
           same_scope_add_error same_scope_declare same_scope_mark_used
           same_scope_bracket _ _ _ _ Hrun).
Qed.

End ScopesRestored.

Section TableStaysReachable.

Let reachable_kept (a b : SemanticAnalyzer) : Prop :=
  st_reachable (symbol_table a) -> st_reachable (symbol_table b).

(** X13 — the table stays well formed.  The analyzer drives its symbol
    table through the table's own operations only: started on a table that
    a client can have built, a traversal that returns leaves a table that a
    client can have built, with the scope chain and the per-scope maps in
    the shape every such table has. *)
Theorem semantic_analysis_keeps_table_wf (analyzer : SemanticAnalyzer)
    (node : option ASTNode) :
  st_reachable (symbol_table analyzer) ->
  match semantic_analyze analyzer node with
  | Some (_, analyzer') =>
      st_reachable (symbol_table analyzer') /\ st_wf (symbol_table analyzer')
  | None => True
  end.
Proof.
  intros Hreach. unfold semantic_analyze, analyze_pointer.
  destruct node as [node|]; [|by split; [|apply st_reachable_wf]].
  destruct (semantic_analyze_node node analyzer) as [[status analyzer']|] eqn:Hrun;
    [|done].
  assert (st_reachable (symbol_table analyzer')) as H;
    [|by split; [|apply st_reachable_wf]].
  revert Hreach.
  apply (semantic_analyze_node_invariant reachable_kept) with (node := node)
    (status := status); subst reachable_kept; simpl; try done.
  - intros a b c Hab Hbc Ha. by apply Hbc, Hab.
  - intros a message position error_code Ha. by apply reach_add_error.
  - intros a name type data position Ha. unfold declare.
    pose proof (reach_add _ (symbol_create name type data position) Ha) as H.
    by destruct (symbol_table_add _ _).
  - intros a name Ha. by apply reach_mark_used.
  - intros a b Hab Ha. apply reach_exit_scope, Hab. by apply reach_enter_scope.
Qed.

End TableStaysReachable.

Section FlagAndErrors.

Lemma flag_follows_errors_trans a b c :
  flag_follows_errors a b -> flag_follows_errors b c -> flag_follows_errors a c.
Proof.
  intros [Hp1 H1] [Hp2 H2]. split; [by etrans|].
  pose proof (prefix_length _ _ Hp1). pose proof (prefix_length _ _ Hp2).
  destruct H2 as [H2|[H2 Hlt2]].
  - rewrite H2. destruct H1 as [H1|[H1 Hlt1]]; [by left|right; split; [done|lia]].
  - right. split; [done|lia].
Qed.

Lemma flag_follows_errors_table a table :
  analyzer_errors a `prefix_of` st_errors table ->
  flag_follows_errors a (with_table a table).
Proof. intros Hp. split; [done|by left]. Qed.

Lemma semantic_analyze_node_flag node a status a' :
  semantic_analyze_node node a = Some (status, a') -> flag_follows_errors a a'.
Proof.
  apply semantic_analyze_node_invariant.
  - intros a0. split; [done|by left].
  - apply flag_follows_errors_trans.
  - intros a0 message position error_code. split.
    + by apply prefix_app_r.
    + right. split; [done|]. unfold analyzer_errors. simpl.
      rewrite length_app. simpl. lia.
  - intros a0 name type data position.
    pose proof (errors_grow_declare a0 name type data position) as H.
    unfold declare in *. destruct (symbol_table_add _ _) as [err table]. simpl in *.
    apply flag_follows_errors_table, H.
  - intros a0 name. apply flag_follows_errors_table, (errors_prefix_mark_used a0).
  - intros a0 b [Hp H]. split.
    + by rewrite errors_same_exit_scope.
    + unfold analyzer_errors in *. simpl in *.
      pose proof (errors_same_exit_scope b) as He. unfold analyzer_errors in He.
      simpl in He. by rewrite He.
Qed.

(** X14 — the flag is never raised without an error.  When
    [semantic_analyze] returns, [has_errors] either has the value the call
    found or is 1 with a longer error list: on an analyzer whose flag was
    clear, [semantic_has_errors] answering true means that this call
    recorded an error. *)
Theorem semantic_has_errors_sound (analyzer : SemanticAnalyzer)
    (node : option ASTNode) :
  match semantic_analyze analyzer node with
  | Some (_, analyzer') =>
      (has_errors analyzer' = has_errors analyzer \/
       (has_errors analyzer' = 1 /\
        (semantic_error_count analyzer < semantic_error_count analyzer')%nat)) /\
      (semantic_has_errors analyzer = false ->
       semantic_has_errors analyzer' = true ->
       (semantic_error_count analyzer < semantic_error_count analyzer')%nat)
  | None => True
  end.
Proof.
  unfold semantic_analyze, analyze_pointer.
  destruct node as [node|].
  - destruct (semantic_analyze_node node analyzer) as [[status analyzer']|] eqn:Hrun;
      [|done].
    destruct (semantic_analyze_node_flag _ _ _ _ Hrun) as [_ H].
    split; [exact H|]. unfold semantic_has_errors.
    destruct H as [->|[_ Hlt]]; [|done].
    intros ->. done.
  - split; [by left|]. by intros ->.
Qed.

End FlagAndErrors.

Section Redefinition.

(** X15 — a redefinition is reported but not flagged.  A definition
    (PROMPT, VAR, TEMPLATE, CONSTRAINT) of a name the current scope already
    holds returns [PCC_ERROR_SEMANTIC] at once: the redefinition error, at
    the position of the node, is the one error added, the scopes are left
    as they were (the body is not visited), and [has_errors] keeps its
    value, since the error is recorded by [symbol_table_add] and not through
    the analyzer's [add_error].  After such a call on a fresh analyzer
    [semantic_has_errors] answers false while [semantic_error_count] is 1. *)
Theorem redefinition_reported_but_not_flagged (analyzer : SemanticAnalyzer)
    (node : ASTNode) (name : string) (symbol : Symbol) :
  declared_name node = Some name ->
  symbol_table_lookup_local (symbol_table analyzer) name = Some symbol ->
  exists analyzer',
    semantic_analyze analyzer (Some node) = Some (PCC_ERROR_SEMANTIC, analyzer') /\
    analyzer_errors analyzer' =
      analyzer_errors analyzer ++
        [mkSemanticError (redefinition_message name) (node_position node)
           SEM_ERROR_REDEFINED_SYMBOL] /\
    all_scopes (symbol_table analyzer') = all_scopes (symbol_table analyzer) /\
    current_scope (symbol_table analyzer') = current_scope (symbol_table analyzer) /\
    semantic_has_errors analyzer' = semantic_has_errors analyzer.
Proof.
  intros Hname Hlocal.
  assert (forall type data position,
            declare analyzer name type data position =
              (PCC_ERROR_SEMANTIC,
               with_table analyzer
                 {| current_scope := current_scope (symbol_table analyzer);
                    global_scope := global_scope (symbol_table analyzer);
                    all_scopes := all_scopes (symbol_table analyzer);
                    st_errors := st_errors (symbol_table analyzer) ++
                      [mkSemanticError (redefinition_message name) position
                         SEM_ERROR_REDEFINED_SYMBOL] |})) as Hdeclare.
  { intros type data position. unfold declare.
    rewrite symbol_table_add_unfold. simpl.
    unfold symbol_table_lookup_local in Hlocal.
    unfold pcc_hashtable_contains. by rewrite Hlocal. }
  destruct node; simplify_eq/=.
  - unfold analyze_prompt_def. rewrite Hdeclare. simpl. by eexists.
  - unfold analyze_var_decl. rewrite Hdeclare. simpl. by eexists.
  - unfold analyze_template_def. rewrite Hdeclare. simpl. by eexists.
  - unfold analyze_constraint_def. rewrite Hdeclare. simpl. by eexists.
Qed.

End Redefinition.

Section Returns.

Section Steps.
Variable rec : ASTNode -> SemanticAnalyzer -> Analysis.

Let returns (node : ASTNode) : Prop :=
  no_constraint_expr node = true -> forall a, is_Some (rec node a).

Lemma analyze_pointer_returns node a :
  on_pointer returns node -> pointer_all no_constraint_expr node = true ->
  is_Some (analyze_pointer rec node a).
Proof. destruct node as [n|]; simpl; [intros H Hn; by apply H|done]. Qed.

Lemma analyze_if_present_returns node a :
  on_pointer returns node -> pointer_all no_constraint_expr node = true ->
  is_Some (analyze_if_present rec node a).
Proof.
  destruct node as [n|]; simpl; [|done].
  intros H Hn. by destruct (H Hn a) as [[s a1] ->].
Qed.

Lemma analyze_until_error_returns elements :
  Forall (on_pointer returns) elements ->
  forallb (pointer_all no_constraint_expr) elements = true ->
  forall a, is_Some (analyze_until_error rec elements a).
Proof.
  induction 1 as [|elem rest Helem _ IH]; simpl; [done|].
  intros [He Hr]%andb_prop a.
  destruct (analyze_pointer_returns elem a Helem He) as [[err a1] ->].
  destruct (is_error err); [done|by apply IH].
Qed.

Lemma analyze_all_returns elements :
  Forall (on_pointer returns) elements ->
  forallb (pointer_all no_constraint_expr) elements = true ->
  forall a, is_Some (analyze_all rec elements a).
Proof.
  induction 1 as [|elem rest Helem _ IH]; simpl; [done|].
  intros [He Hr]%andb_prop a.
  destruct (analyze_pointer_returns elem a Helem He) as [[err a1] ->].
  by apply IH.
Qed.
End Steps.

Lemma semantic_analyze_node_returns node :
  no_constraint_expr node = true ->
  forall a, is_Some (semantic_analyze_node node a).
Proof.
  induction node using ASTNode_nested_ind; simpl; intros Hfree a; try done.
  - (* Program *)
    destruct statements as [statements|]; simpl; [|done].
    by apply analyze_until_error_returns.
  - (* PromptDef *)
    unfold analyze_prompt_def. destruct (declare _ _ _ _ _) as [err a1].
    destruct (is_error err); [done|]. destruct body as [body|]; [by apply H|done].
  - (* VarDecl *)
    unfold analyze_var_decl. destruct (declare _ _ _ _ _) as [err a1].
    destruct (is_error err); [done|].
    destruct initializer as [initializer|]; [by apply H|done].
  - (* TemplateDef *)
    unfold analyze_template_def. destruct (declare _ _ _ _ _) as [err a1].
    destruct (is_error err); [done|].
    destruct body as [body|]; [|done].
    match goal with
    | |- context [semantic_analyze_node body ?a3] =>
        by destruct (H Hfree a3) as [[s a4] ->]
    end.
  - (* ConstraintDef *)
    unfold analyze_constraint_def. destruct (declare _ _ _ _ _) as [err a1].
    destruct (is_error err); [done|].
    destruct constraints as [constraints|]; [|done].
    by apply analyze_until_error_returns.
  - (* OutputSpec *)
    unfold analyze_output_spec.
    destruct (symbol_table_lookup _ _); [by destruct (negb _)|done].
  - (* Identifier *)
    unfold analyze_identifier. by destruct (symbol_table_lookup _ _).
  - (* BinaryExpr *)
    apply andb_prop in Hfree as [Hl Hr]. unfold analyze_binary_expr.
    destruct (analyze_pointer_returns _ lhs a H Hl) as [[e1 a1] ->].
    by destruct (analyze_pointer_returns _ rhs a1 H0 Hr) as [[e2 a2] ->].
  - (* UnaryExpr *)
    unfold analyze_unary_expr.
    by destruct (analyze_pointer_returns _ operand a H Hfree) as [[e1 a1] ->].
  - (* VariableRef *)
    unfold analyze_variable_ref.
    destruct (symbol_table_lookup _ _); [by destruct (_ && _)|done].
  - (* CallExpr *)
    unfold analyze_function_call.
    destruct (symbol_table_lookup _ _); [|done]. destruct (negb _); [done|].
    destruct arguments as [arguments|]; [|done]. by apply analyze_all_returns.
  - (* IfStmt *)
    apply andb_prop in Hfree as [[Hc Ht]%andb_prop He]. unfold analyze_if_stmt.
    destruct (analyze_if_present_returns _ condition a H Hc) as [[e1 a1] ->].
    destruct (analyze_if_present_returns _ then_body a1 H0 Ht) as [[e2 a2] ->].
    by destruct (analyze_if_present_returns _ else_body a2 H1 He) as [[e3 a3] ->].
  - (* ForStmt *)
    apply andb_prop in Hfree as [Hi Hb]. unfold analyze_for_stmt.
    match goal with
    | |- context [analyze_if_present _ iterable ?a0] =>
        destruct (analyze_if_present_returns _ iterable a0 H Hi) as [[e1 a1] ->]
    end.
    by destruct (analyze_if_present_returns _ body a1 H0 Hb) as [[e2 a2] ->].
  - (* WhileStmt *)
    apply andb_prop in Hfree as [Hc Hb]. unfold analyze_while_stmt.
    destruct (analyze_if_present_returns _ condition a H Hc) as [[e1 a1] ->].
    by destruct (analyze_if_present_returns _ body a1 H0 Hb) as [[e2 a2] ->].
  - (* ListNode *)
    unfold analyze_element_list.
    destruct kind; try done;
      (destruct elements as [elements|]; [|done]);
      by apply analyze_until_error_returns.
Qed.

(** X16 — the analysis returns on a tree without constraint
    expressions.  On every tree that holds no [AST_CONSTRAINT_EXPR] node,
    and for every analyzer, [semantic_analyze] returns a status; so does a
    call on [NULL]. *)
Theorem semantic_analyze_returns (analyzer : SemanticAnalyzer)
    (node : option ASTNode) :
  pointer_all no_constraint_expr node = true ->
  exists status analyzer', semantic_analyze analyzer node = Some (status, analyzer').
Proof.
  intros Hfree. unfold semantic_analyze, analyze_pointer.
  destruct node as [node|]; [|by eexists _, _].
  destruct (semantic_analyze_node_returns node Hfree analyzer) as [[s a1] ->].
  by eexists _, _.
Qed.

(** X17 — a constraint definition with a constraint expression does not
    return.  [semantic_analyze] hands an [AST_CONSTRAINT_EXPR] node to
    [analyze_expression], whose default case hands it back to
    [semantic_analyze]: on a well-formed table, the analysis of
    [CONSTRAINT name { <expr>, ... }] for a name new to the current scope
    registers the name and then never returns, and neither does the
    analysis of any program whose first statement is such a definition. *)
Theorem constraint_expression_never_returns (analyzer : SemanticAnalyzer)
    (position position' : PCCPosition) (name variable : string) (op_type : TokenType)
    (value : option ASTNode) (constraints statements : list (option ASTNode)) :
  st_wf (symbol_table analyzer) ->
  symbol_table_lookup_local (symbol_table analyzer) name = None ->
  let definition :=
    ConstraintDef position name
      (Some (Some (ConstraintExpr position' variable op_type value) :: constraints)) in
  semantic_analyze analyzer (Some definition) = None /\
  semantic_analyze analyzer (Some (ast_program_create (Some (Some definition :: statements))))
    = None.
Proof.
  intros Hwf Hlocal. cbv zeta.
  assert (semantic_analyze_node
            (ConstraintDef position name
               (Some (Some (ConstraintExpr position' variable op_type value)
                        :: constraints))) analyzer = None) as Hnone.
  { simpl. unfold analyze_constraint_def, declare. cbn [node_position].
    destruct (symbol_table_add_fresh (symbol_table analyzer)
                (symbol_create name SYMBOL_CONSTRAINT
                   (Some (ConstraintDef position name
                            (Some (Some (ConstraintExpr position' variable op_type value)
                                     :: constraints)))) position) Hwf)
      as (symbols' & -> & _).
    - simpl. destruct (st_maps _ Hwf _ _ (scope_at_current _ Hwf)) as [Hs Hv].
      intros Hin. apply Hv in Hin as [s Hs'].
      unfold symbol_table_lookup_local in Hlocal. congruence.
    - done. }
  split; [exact Hnone|]. simpl in *. by rewrite Hnone.
Qed.

End Returns.

Lemma semantic_analysis_keeps_table_wf_witness :
  st_reachable (symbol_table semantic_analyzer_create) /\
  report (semantic_analyze semantic_analyzer_create
            (Some prompt_with_undefined_condition)) <> None /\
  match semantic_analyze semantic_analyzer_create
          (Some prompt_with_undefined_condition) with
  | Some (_, analyzer') =>
      st_reachable (symbol_table analyzer') /\ st_wf (symbol_table analyzer')
  | None => True
  end.
Proof.
  split; [apply reach_create|]. split; [by vm_compute|].
  exact (semantic_analysis_keeps_table_wf semantic_analyzer_create
           (Some prompt_with_undefined_condition) reach_create).
Defined.

Lemma redefinition_reported_but_not_flagged_witness :
  let analyzer :=
    with_table semantic_analyzer_create
      (symbol_table_add symbol_table_create
         (symbol_create "x" SYMBOL_VARIABLE None sample_position)).2 in
  declared_name var_x = Some "x" /\
  symbol_table_lookup_local (symbol_table analyzer) "x"
    = Some (symbol_create "x" SYMBOL_VARIABLE None sample_position) /\
  exists analyzer',
    semantic_analyze analyzer (Some var_x) = Some (PCC_ERROR_SEMANTIC, analyzer') /\
    analyzer_errors analyzer' =
      analyzer_errors analyzer ++
        [mkSemanticError (redefinition_message "x") (node_position var_x)
           SEM_ERROR_REDEFINED_SYMBOL] /\
    all_scopes (symbol_table analyzer') = all_scopes (symbol_table analyzer) /\
    current_scope (symbol_table analyzer') = current_scope (symbol_table analyzer) /\
    semantic_has_errors analyzer' = semantic_has_errors analyzer.
Proof.
  cbv zeta.
  assert (symbol_table_lookup_local
            (symbol_table
               (with_table semantic_analyzer_create
                  (symbol_table_add symbol_table_create
                     (symbol_create "x" SYMBOL_VARIABLE None sample_position)).2)) "x"
          = Some (symbol_create "x" SYMBOL_VARIABLE None sample_position)) as Hlocal.
  { by vm_compute. }
  split; [reflexivity|]. split; [exact Hlocal|].
  exact (redefinition_reported_but_not_flagged _ var_x "x" _ eq_refl Hlocal).
Defined.

Lemma semantic_analyze_returns_witness :
  pointer_all no_constraint_expr (Some prompt_with_undefined_condition) = true /\
  exists status analyzer',
    semantic_analyze semantic_analyzer_create (Some prompt_with_undefined_condition)
      = Some (status, analyzer').
Proof.
  split; [reflexivity|].
  exact (semantic_analyze_returns semantic_analyzer_create
           (Some prompt_with_undefined_condition) eq_refl).
Defined.

Lemma constraint_expression_never_returns_witness :
  st_wf (symbol_table semantic_analyzer_create) /\
  symbol_table_lookup_local (symbol_table semantic_analyzer_create) "c" = None /\
  semantic_analyze semantic_analyzer_create (Some constraint_c) = None /\
  semantic_analyze semantic_analyzer_create
    (Some (ast_program_create (Some [Some constraint_c]))) = None.
Proof.
  split; [apply symbol_table_create_wf|]. split; [reflexivity|].
  exact (constraint_expression_never_returns semantic_analyzer_create
           sample_position sample_position "c" "n" TOKEN_LT
           (Some (NumberLiteral sample_position 10%float)) [] []
           symbol_table_create_wf eq_refl).
Defined.

(** ** The optimizer: the pass flags, the counter, nested constants *)

Section PassFlags.

Lemma pass_number_nonneg pass : 0 <= pass_number pass.
Proof. by destruct pass. Qed.

Lemma pass_number_inj p q : pass_number p = pass_number q -> p = q.
Proof. by destruct p, q. Qed.

Lemma land_pass_bit (flags : Z) pass :
  (Z.land flags (pass_bit pass) =? 0) = negb (Z.testbit flags (pass_number pass)).
Proof.
  unfold pass_bit. pose proof (pass_number_nonneg pass) as Hn.
  destruct (Z.testbit flags (pass_number pass)) eqn:Hbit; simpl.
  - apply Z.eqb_neq. intros Hzero.
    assert (Z.testbit (Z.land flags (Z.shiftl 1 (pass_number pass))) (pass_number pass)
            = true) as H.
    { rewrite Z.land_spec, Hbit, Z.shiftl_spec, Z.sub_diag by done. done. }
    rewrite Hzero, Z.bits_0 in H. done.
  - apply Z.eqb_eq, Z.bits_inj'. intros n Hpos.
    rewrite Z.land_spec, Z.bits_0, Z.shiftl_spec by done.
    destruct (decide (n = pass_number pass)) as [->|Hne].
    + by rewrite Hbit.
    + rewrite andb_false_iff. right.
      destruct (Z.lt_ge_cases n (pass_number pass)) as [Hlt|Hge].
      * apply Z.testbit_neg_r. lia.
      * apply Z.bits_above_log2; [done|]. simpl. lia.
Qed.

Lemma optimizer_is_pass_enabled_testbit optimizer pass :
  optimizer_is_pass_enabled optimizer pass
  = Z.testbit (enabled_passes optimizer) (pass_number pass).
Proof.
  unfold optimizer_is_pass_enabled. rewrite land_pass_bit. apply negb_involutive.
Qed.

Lemma pass_bit_own p : Z.testbit (pass_bit p) (pass_number p) = true.
Proof. by destruct p. Qed.

Lemma pass_bit_other p q : q <> p -> Z.testbit (pass_bit p) (pass_number q) = false.
Proof. by destruct p, q. Qed.

(** X18 — the pass flags.  After [optimizer_enable_pass] the pass is
    reported enabled, after [optimizer_disable_pass] it is reported
    disabled, whatever [enabled_passes] held; neither changes what
    [optimizer_is_pass_enabled] answers for any other pass, nor the counter
    of optimizations. *)
Theorem optimizer_pass_flags (optimizer : Optimizer) (pass other : OptimizationPass) :
  optimizer_is_pass_enabled (optimizer_enable_pass optimizer pass) pass = true /\
  optimizer_is_pass_enabled (optimizer_disable_pass optimizer pass) pass = false /\
  (other <> pass ->
   optimizer_is_pass_enabled (optimizer_enable_pass optimizer pass) other
     = optimizer_is_pass_enabled optimizer other /\
   optimizer_is_pass_enabled (optimizer_disable_pass optimizer pass) other
     = optimizer_is_pass_enabled optimizer other) /\
  optimizer_get_optimizations_applied (optimizer_enable_pass optimizer pass)
    = optimizer_get_optimizations_applied optimizer /\
  optimizer_get_optimizations_applied (optimizer_disable_pass optimizer pass)
    = optimizer_get_optimizations_applied optimizer.
Proof.
  rewrite !optimizer_is_pass_enabled_testbit. simpl.
  rewrite !Z.lor_spec, !Z.land_spec, !Z.lnot_spec by apply pass_number_nonneg.
  rewrite !pass_bit_own.
  split; [apply orb_true_r|]. split; [apply andb_false_r|].
  split; [|done]. intros Hne.
  rewrite !pass_bit_other by done.
  split; [apply orb_false_r|apply andb_true_r].
Qed.

End PassFlags.

Section OptimizerAccounts.
Variables pow fmod : float -> float -> float.
Variable rec : Optimizer -> option ASTNode -> Rewrite.
Hypothesis rec_accounted : forall optimizer node,
  accounted pointer_count optimizer node (rec optimizer node).

Lemma optimize_elements_accounted optimizer elements :
  accounted elements_count optimizer elements (optimize_elements rec optimizer elements).
Proof.
  revert optimizer. induction elements as [|elem rest IH]; intros optimizer.
  - simpl. split_and!; [done|lia|lia|done].
  - simpl. pose proof (rec_accounted optimizer elem) as Helem.
    destruct (rec optimizer elem) as [[o1 elem']| | |]; [|done|done|done].
    destruct Helem as (Hp1 & Hle1 & Hn1 & Heq1).
    assert (accounted elements_count optimizer (elem :: rest)
              (step (o2, rest') <- optimize_elements rec o1 rest and_then
               Returned (o2, elem' :: rest'))) as Hrest.
    { specialize (IH o1).
      destruct (optimize_elements rec o1 rest) as [[o2 rest']| | |]; [|done|done|done].
      destruct IH as (Hp2 & Hle2 & Hn2 & Heq2).
      unfold elements_count in *. simpl in *. unfold pointer_count in *.
      split_and!; [congruence|lia|lia|].
      intros Heq. rewrite Heq1, Heq2 by lia. done. }
    destruct elem as [e|], elem' as [e'|]; done.
Qed.

Lemma optimize_branches_accounted optimizer position condition then_body else_body :
  match optimize_branches rec optimizer position condition then_body else_body with
  | Returned (optimizer', tree') =>
      enabled_passes optimizer' = enabled_passes optimizer /\
      optimizations_applied optimizer <= optimizations_applied optimizer' /\
      exists then_body' else_body',
        tree' = Some (IfStmt position condition then_body' else_body') /\
        optimizations_applied optimizer' - optimizations_applied optimizer
          + Z.of_nat (pointer_count then_body' + pointer_count else_body')
          <= Z.of_nat (pointer_count then_body + pointer_count else_body) /\
        (optimizations_applied optimizer' = optimizations_applied optimizer ->
         then_body' = then_body /\ else_body' = else_body)
  | _ => True
  end.
Proof.
  unfold optimize_branches.
  assert (forall o n, accounted pointer_count o n (optimize_if_present rec o n)) as Hp.
  { intros o [n|]; simpl; [apply rec_accounted|]. split_and!; [done|lia|lia|done]. }
  pose proof (Hp optimizer then_body) as Ht.
  destruct (optimize_if_present rec optimizer then_body) as [[o1 t']| | |];
    [|done|done|done].
  pose proof (Hp o1 else_body) as He.
  destruct (optimize_if_present rec o1 else_body) as [[o2 e']| | |]; [|done|done|done].
  destruct Ht as (Hp1 & Hle1 & Hn1 & Heq1), He as (Hp2 & Hle2 & Hn2 & Heq2).
  split_and!; [congruence|lia|]. exists t', e'.
  split_and!; [done|lia|]. intros Heq. split; [apply Heq1|apply Heq2]; lia.
Qed.

Lemma accounted_unchanged optimizer node :
  accounted pointer_count optimizer node (Returned (optimizer, node)).
Proof. split_and!; [done|lia|lia|done]. Qed.

Lemma optimize_node_accounted optimizer node :
  accounted pointer_count optimizer node (optimize_node pow fmod rec optimizer node).
Proof.
  destruct node as [node|]; [|apply accounted_unchanged].
  destruct node; try apply accounted_unchanged.
  - (* Program *)
    simpl. destruct statements as [statements|]; [|apply accounted_unchanged].
    pose proof (optimize_elements_accounted optimizer statements) as Hloop. simpl.
    destruct (optimize_elements rec optimizer statements) as [[o1 l]| | |];
      [|done|done|done].
    destruct Hloop as (Hp & Hle & Hn & Heq). unfold elements_count in *. simpl in *.
    split_and!; [done|lia|lia|]. intros H. by rewrite Heq.
  - (* BinaryExpr *)
    simpl. unfold constant_folding_binary.
    pose proof (rec_accounted optimizer left) as Hl.
    destruct (rec optimizer left) as [[o1 lhs]| | |]; [|done|done|done].
    pose proof (rec_accounted o1 right) as Hr.
    destruct (rec o1 right) as [[o2 rhs]| | |]; [|done|done|done].
    destruct Hl as (Hp1 & Hle1 & Hn1 & Heq1), Hr as (Hp2 & Hle2 & Hn2 & Heq2).
    assert (accounted pointer_count optimizer
              (Some (BinaryExpr position op_type left right))
              (Returned (o2, Some (BinaryExpr position op_type lhs rhs)))) as Hsame.
    { simpl in *. unfold pointer_count in *. split_and!; [congruence|lia|lia|].
      intros Heq. rewrite Heq1, Heq2 by lia. done. }
    destruct (negb (is_constant lhs) || negb (is_constant rhs)) eqn:Hconst;
      [exact Hsame|].
    destruct (negb (is_number_literal lhs) || negb (is_number_literal rhs));
      [exact Hsame|].
    destruct (fold_binary pow fmod op_type _ _); [|exact Hsame].
    apply orb_false_elim in Hconst as [Hcl Hcr].
    assert (1 <= pointer_count lhs)%nat by (by destruct lhs as [[]|]).
    assert (1 <= pointer_count rhs)%nat by (by destruct rhs as [[]|]).
    simpl in *. unfold pointer_count in *. split_and!; [congruence|lia|lia|lia].
  - (* UnaryExpr *)
    simpl. unfold constant_folding_unary.
    pose proof (rec_accounted optimizer operand) as Ho.
    destruct (rec optimizer operand) as [[o1 operand']| | |]; [|done|done|done].
    destruct Ho as (Hp1 & Hle1 & Hn1 & Heq1).
    assert (accounted pointer_count optimizer
              (Some (UnaryExpr position op_type operand))
              (Returned (o1, Some (UnaryExpr position op_type operand')))) as Hsame.
    { simpl in *. unfold pointer_count in *. split_and!; [congruence|lia|lia|].
      intros Heq. by rewrite Heq1. }
    destruct (negb (is_constant operand')) eqn:Hconst; [exact Hsame|].
    assert (1 <= pointer_count operand')%nat by (by destruct operand' as [[]|]).
    destruct op_type; try exact Hsame.
    + destruct (is_boolean_literal operand'); [|exact Hsame].
      simpl in *. unfold pointer_count in *. split_and!; [congruence|lia|lia|lia].
    + destruct (is_number_literal operand'); [|exact Hsame].
      simpl in *. unfold pointer_count in *. split_and!; [congruence|lia|lia|lia].
  - (* IfStmt *)
    simpl. unfold dead_code_elimination_if.
    pose proof (rec_accounted optimizer condition) as Hc.
    destruct (rec optimizer condition) as [[o1 condition']| | |]; [|done|done|done].
    destruct Hc as (Hp1 & Hle1 & Hn1 & Heq1).
    assert (accounted pointer_count optimizer
              (Some (IfStmt position condition then_body else_body))
              (optimize_branches rec o1 position condition' then_body else_body))
      as Hbranches.
    { pose proof (optimize_branches_accounted o1 position condition' then_body
                    else_body) as Hb.
      destruct (optimize_branches _ _ _ _ _ _) as [[o2 n']| | |]; [|done|done|done].
      destruct Hb as (Hp2 & Hle2 & t' & e' & -> & Hn2 & Heq2).
      simpl in *. unfold pointer_count in *. split_and!; [congruence|lia|lia|].
      intros Heq. destruct Heq2 as [-> ->]; [lia|]. rewrite Heq1 by lia. done. }
    destruct condition' as [c|]; [|done].
    destruct c; try exact Hbranches.
    simpl in Hn1. unfold pointer_count in *.
    destruct (negb (bool_val =? 0)).
    + destruct then_body as [result|]; [|exact Hbranches].
      simpl in *. unfold pointer_count in *. split_and!; [congruence|lia|lia|lia].
    + destruct else_body as [result|];
        simpl in *; unfold pointer_count in *; (split_and!; [congruence|lia|lia|lia]).
  - (* ListNode *)
    simpl.
    assert (accounted pointer_count optimizer (Some (ListNode kind position elements))
              (optimize_list rec optimizer kind position elements)) as Hlist.
    { unfold optimize_list.
      destruct elements as [elements|]; [|destruct kind; apply accounted_unchanged].
      pose proof (optimize_elements_accounted optimizer elements) as Hloop.
      destruct kind; try apply accounted_unchanged;
        (destruct (optimize_elements rec optimizer elements) as [[o1 l]| | |];
           [|done|done|done]);
        destruct Hloop as (Hp & Hle & Hn & Heq); unfold elements_count in *;
        simpl in *; (split_and!; [done|lia|lia|]); intros H; by rewrite Heq. }
    destruct kind; first [exact Hlist|apply accounted_unchanged].
Qed.

Lemma accounted_then {A} (count : A -> nat) o1 n1 o2 n2 outcome :
  accounted count o1 n1 (Returned (o2, n2)) ->
  accounted count o2 n2 outcome ->
  accounted count o1 n1 outcome.
Proof.
  intros (Hp1 & Hle1 & Hn1 & Heq1) H.
  destruct outcome as [[o3 n3]| | |]; [|done|done|done].
  destruct H as (Hp2 & Hle2 & Hn2 & Heq2).
  split_and!; [congruence|lia|lia|].
  intros Heq. rewrite Heq2, Heq1 by lia. done.
Qed.

Lemma optimizer_optimize_body_accounted optimizer node :
  accounted pointer_count optimizer node
    (optimizer_optimize_body pow fmod rec optimizer node).
Proof.
  unfold optimizer_optimize_body.
  destruct node as [node|]; [|apply accounted_unchanged].
  assert (forall (requested : bool) o n,
            accounted pointer_count o n
              (if requested then optimize_node pow fmod rec o n else Returned (o, n)))
    as Hpass.
  { intros [|] o n; [apply optimize_node_accounted|apply accounted_unchanged]. }
  pose proof (Hpass (folding_requested optimizer) optimizer (Some node)) as Hfirst.
  destruct (if folding_requested optimizer then _ else _) as [[o1 n1]| | |];
    [|done|done|done].
  pose proof (Hpass (elimination_requested o1) o1 n1) as Hsecond.
  destruct (if elimination_requested o1 then _ else _) as [[o2 n2]| | |];
    [|done|done|done].
  by eapply accounted_then.
Qed.
End OptimizerAccounts.

Lemma optimizer_optimize_accounted pow fmod fuel optimizer node :
  accounted pointer_count optimizer node
    (optimizer_optimize pow fmod fuel optimizer node).
Proof.
  revert optimizer node. induction fuel as [|fuel IH]; intros optimizer node; [done|].
  simpl. by apply optimizer_optimize_body_accounted.
Qed.

(** X19 — what the counter counts.  When [optimizer_optimize] returns,
    the enabled passes are the ones it found and the counter has not gone
    down; every optimization counted has taken at least one node off the
    tree, so that a call counts at most as many optimizations as the tree
    has nodes; and the counter is left as it was exactly when the tree is
    returned as it was. *)
Theorem optimizations_applied_accounts_for_the_tree (pow fmod : float -> float -> float)
    (fuel : nat) (optimizer : Optimizer) (node : option ASTNode) :
  match optimizer_optimize pow fmod fuel optimizer node with
  | Returned (optimizer', node') =>
      let applied :=
        optimizer_get_optimizations_applied optimizer'
        - optimizer_get_optimizations_applied optimizer in
      enabled_passes optimizer' = enabled_passes optimizer /\
      0 <= applied /\
      applied + Z.of_nat (pointer_count node') <= Z.of_nat (pointer_count node) /\
      (applied = 0 <-> node' = node)
  | NullDereference | DanglingElement | OutOfFuel => True
  end.
Proof.
  pose proof (optimizer_optimize_accounted pow fmod fuel optimizer node) as H.
  destruct (optimizer_optimize pow fmod fuel optimizer node) as [[o' n']| | |];
    [|done|done|done].
  destruct H as (Hp & Hle & Hn & Heq). cbv zeta.
  unfold optimizer_get_optimizations_applied.
  split_and!; [done|lia|lia|].
  split; [intros H; apply Heq; lia|intros ->; lia].
Qed.

Section CompleteFolding.
Variables pow fmod : float -> float -> float.

Lemma count_optimizations_none optimizer : count_optimizations optimizer 0 = optimizer.
Proof. destruct optimizer. unfold count_optimizations. simpl. f_equal. lia. Qed.

Lemma count_optimizations_binary optimizer (m n : nat) :
  count_optimization (count_optimizations (count_optimizations optimizer m) n)
  = count_optimizations optimizer (S (m + n)).
Proof. unfold count_optimization, count_optimizations. simpl. f_equal. lia. Qed.

Lemma count_optimizations_unary optimizer (n : nat) :
  count_optimization (count_optimizations optimizer n)
  = count_optimizations optimizer (S n).
Proof. unfold count_optimization, count_optimizations. simpl. f_equal. lia. Qed.

Lemma requested_same_passes o o' :
  enabled_passes o' = enabled_passes o ->
  folding_requested o' = folding_requested o /\
  elimination_requested o' = elimination_requested o.
Proof. unfold folding_requested, elimination_requested. by intros ->. Qed.

(** One traversal that ends on a literal is all the two passes do. *)
Lemma optimizer_optimize_body_literal rec o node o' position value :
  folding_requested o || elimination_requested o = true ->
  enabled_passes o' = enabled_passes o ->
  optimize_node pow fmod rec o (Some node)
    = Returned (o', Some (literal_node position value)) ->
  optimizer_optimize_body pow fmod rec o (Some node)
    = Returned (o', Some (literal_node position value)).
Proof.
  intros Hreq Hsame Hnode. unfold optimizer_optimize_body.
  destruct (requested_same_passes o o' Hsame) as [_ He].
  assert (optimize_node pow fmod rec o' (Some (literal_node position value))
          = Returned (o', Some (literal_node position value))) as Hliteral.
  { by destruct value. }
  destruct (folding_requested o) eqn:Hf.
  - rewrite Hnode, He. destruct (elimination_requested o); [by rewrite Hliteral|done].
  - simpl in Hreq. rewrite Hreq. by rewrite Hnode.
Qed.

Lemma folds_completely node :
  forall constant, folded_value pow fmod node = Some constant ->
  forall fuel o,
    folding_requested o || elimination_requested o = true ->
    (height node < fuel)%nat ->
    optimizer_optimize pow fmod fuel o (Some node)
    = Returned (count_optimizations o (operators node),
                Some (literal_node (node_position node) constant)).
Proof.
  induction node using ASTNode_nested_ind; intros constant Hvalue fuel o Hreq Hfuel;
    try discriminate.
  - (* NumberLiteral *)
    injection Hvalue as <-. destruct fuel as [|fuel]; [simpl in Hfuel; lia|].
    by rewrite optimizer_optimize_number, count_optimizations_none.
  - (* BooleanLiteral *)
    injection Hvalue as <-. destruct fuel as [|fuel]; [simpl in Hfuel; lia|].
    by rewrite optimizer_optimize_boolean, count_optimizations_none.
  - (* BinaryExpr *)
    destruct lhs as [lhs|], rhs as [rhs|]; try discriminate. simpl in Hvalue.
    destruct (folded_value pow fmod lhs) as [[a|]|] eqn:Hl; try discriminate.
    destruct (folded_value pow fmod rhs) as [[b|]|] eqn:Hr; try discriminate.
    destruct (fold_binary pow fmod op_type a b) as [result|] eqn:Hfold;
      [|discriminate].
    injection Hvalue as <-.
    destruct fuel as [|fuel]; [lia|]. simpl in Hfuel. simpl in H, H0.
    change (optimizer_optimize pow fmod (S fuel) o ?n)
      with (optimizer_optimize_body pow fmod (optimizer_optimize pow fmod fuel) o n).
    apply optimizer_optimize_body_literal with (value := inl result); [done|done|].
    simpl. unfold constant_folding_binary.
    rewrite (H _ Hl fuel o Hreq) by lia.
    rewrite (H0 _ Hr fuel (count_optimizations o (operators lhs))) by (done || lia).
    simpl. rewrite Hfold. by rewrite count_optimizations_binary.
  - (* UnaryExpr *)
    destruct operand as [operand|]; [|by destruct op_type]. simpl in H.
    destruct fuel as [|fuel]; [lia|]. simpl in Hfuel.
    change (optimizer_optimize pow fmod (S fuel) o ?n)
      with (optimizer_optimize_body pow fmod (optimizer_optimize pow fmod fuel) o n).
    destruct op_type; try discriminate; simpl in Hvalue.
    + (* TOKEN_NOT *)
      destruct (folded_value pow fmod operand) as [[a|b]|] eqn:Ho; try discriminate.
      injection Hvalue as <-.
      apply optimizer_optimize_body_literal
        with (value := inr (if b =? 0 then 1 else 0)); [done|done|].
      simpl. unfold constant_folding_unary.
      rewrite (H _ eq_refl fuel o Hreq) by lia.
      simpl. by rewrite count_optimizations_unary.
    + (* TOKEN_SUB *)
      destruct (folded_value pow fmod operand) as [[a|b]|] eqn:Ho; try discriminate.
      injection Hvalue as <-.
      apply optimizer_optimize_body_literal with (value := inl (- a)%float);
        [done|done|].
      simpl. unfold constant_folding_unary.
      rewrite (H _ eq_refl fuel o Hreq) by lia.
      simpl. by rewrite count_optimizations_unary.
Qed.

(** X20 — constant expressions fold completely.  With a pass
    requested, one call of [optimizer_optimize] turns an expression built
    from numeric and boolean literals with binary arithmetic, unary minus
    and logical not — no division or modulo by zero — into the single
    literal it stands for, at the position of the expression, the operands
    folded before the operators above them; it counts one optimization for
    every operator of the expression. *)
Theorem constant_expressions_fold_completely (fuel : nat) (optimizer : Optimizer)
    (node : ASTNode) (value : float + Z) :
  folding_requested optimizer || elimination_requested optimizer = true ->
  folded_value pow fmod node = Some value ->
  (height node < fuel)%nat ->
  optimizer_optimize pow fmod fuel optimizer (Some node)
  = Returned (count_optimizations optimizer (operators node),
              Some (literal_node (node_position node) value)).
Proof. intros Hreq Hvalue Hfuel. by apply folds_completely. Qed.

End CompleteFolding.

Lemma constant_expressions_fold_completely_witness :
  let optimizer := optimizer_create (pass_bit OPT_CONSTANT_FOLDING) in
  folding_requested optimizer || elimination_requested optimizer = true /\
  folded_value stub_pow stub_fmod nested_arithmetic = Some (inl (-12)%float) /\
  (height nested_arithmetic < 5)%nat /\
  optimizer_optimize stub_pow stub_fmod 5 optimizer (Some nested_arithmetic)
  = Returned (count_optimizations optimizer (operators nested_arithmetic),
              Some (literal_node (node_position nested_arithmetic)
                      (inl (-12)%float))).
Proof.
  cbv zeta.
  assert (height nested_arithmetic < 5)%nat as Hfuel by (vm_compute; lia).
  split; [reflexivity|]. split; [reflexivity|]. split; [exact Hfuel|].
  exact (constant_expressions_fold_completely stub_pow stub_fmod 5
           (optimizer_create (pass_bit OPT_CONSTANT_FOLDING)) nested_arithmetic
           (inl (-12)%float) eq_refl eq_refl Hfuel).
Defined.

(** ** The code generator: what a run appends *)

Section GeneratorAppends.

Lemma grow_capacity_enough fuel capacity new_size :
  (0 < capacity)%nat -> (new_size < fuel + capacity)%nat ->
  (new_size < grow_capacity fuel capacity new_size)%nat /\
  (capacity <= grow_capacity fuel capacity new_size)%nat.
Proof.
  revert capacity. induction fuel as [|fuel IH]; intros capacity Hpos Hfuel; simpl.
  - lia.
  - destruct (Nat.leb_spec capacity new_size) as [Hle|Hgt]; [|lia].
    destruct (IH (capacity * 2)%nat) as [H1 H2]; lia.
Qed.

Lemma string_length_append (a b : string) :
  String.length (a +:+ b) = (String.length a + String.length b)%nat.
Proof. induction a as [|x a IH]; simpl; [done|]. by rewrite <- IH. Qed.

Lemma appends_nothing : appends EmptyString (fun generator => generator).
Proof. intros g. rewrite append_empty_r. by split_and!. Qed.

Lemma appends_buffer_append str :
  appends str (fun generator => buffer_append generator str).
Proof.
  intros g. unfold buffer_append, buffer_size.
  cbn [output_buffer buffer_capacity cg_format cg_symbol_table indent_level].
  set (size := String.length (output_buffer g)).
  set (len := String.length str).
  split_and!; try done.
  - destruct (Nat.leb_spec (buffer_capacity g) (size + len)); [|lia].
    destruct (buffer_capacity g) as [|c] eqn:Hc; [lia|].
    assert (0 < S c * 2)%nat as Hpos by lia.
    assert (size + len < S (size + len) + S c * 2)%nat as Hfuel by lia.
    destruct (grow_capacity_enough _ _ _ Hpos Hfuel) as [_ H']. lia.
  - intros Hroom. rewrite string_length_append. fold size len.
    destruct (Nat.leb_spec (buffer_capacity g) (size + len)); [|lia].
    apply grow_capacity_enough; lia.
Qed.

Lemma appends_then s t (f h : CodeGenerator -> CodeGenerator) :
  appends s f -> appends t h -> appends (s +:+ t) (fun generator => h (f generator)).
Proof.
  intros Hf Hh g.
  destruct (Hf g) as (Ho1 & Hf1 & Hs1 & Hi1 & Hc1 & Hr1).
  destruct (Hh (f g)) as (Ho2 & Hf2 & Hs2 & Hi2 & Hc2 & Hr2).
  split_and!; [|congruence|congruence|congruence|lia|by intros H; apply Hr2, Hr1].
  by rewrite Ho2, Ho1, append_assoc.
Qed.

Lemma appends_ext s (f h : CodeGenerator -> CodeGenerator) :
  (forall generator, h generator = f generator) -> appends s f -> appends s h.
Proof. intros Heq Hf g. rewrite Heq. apply Hf. Qed.

Lemma appending_nothing : appending (fun generator => generator).
Proof. eexists. apply appends_nothing. Qed.

Lemma appending_buffer_append str : appending (fun generator => buffer_append generator str).
Proof. eexists. apply appends_buffer_append. Qed.

Lemma appending_then (f h : CodeGenerator -> CodeGenerator) :
  appending f -> appending h -> appending (fun generator => h (f generator)).
Proof. intros [s Hf] [t Hh]. eexists. by apply appends_then. Qed.

Lemma appending_ext (f h : CodeGenerator -> CodeGenerator) :
  (forall generator, h generator = f generator) -> appending f -> appending h.
Proof. intros Heq [s Hf]. exists s. by eapply appends_ext. Qed.

Section Children.
Variable rec : ASTNode -> CodeGenerator -> PCCError * CodeGenerator.
Let regular (n : ASTNode) : Prop := appending (fun generator => (rec n generator).2).

Lemma emit_appending child :
  on_pointer regular child -> appending (emit rec child).
Proof. destruct child as [n|]; simpl; intros H; [apply H|apply appending_nothing]. Qed.

Lemma emit_separated_appending separator elements :
  Forall (on_pointer regular) elements ->
  appending (emit_separated rec separator elements).
Proof.
  induction 1 as [|elem rest Helem Hrest IH]; simpl; [apply appending_nothing|].
  destruct rest as [|next rest]; [by apply emit_appending|].
  apply (appending_then (fun g => buffer_append (emit rec elem g) separator)
           (emit_separated rec separator (next :: rest))); [|exact IH].
  apply (appending_then (emit rec elem) (fun g => buffer_append g separator));
    [by apply emit_appending|apply appending_buffer_append].
Qed.

Lemma emit_terminated_appending terminator elements :
  Forall (on_pointer regular) elements ->
  appending (emit_terminated rec terminator elements).
Proof.
  induction 1 as [|elem rest Helem Hrest IH]; simpl; [apply appending_nothing|].
  apply (appending_then (fun g => buffer_append (emit rec elem g) terminator)
           (emit_terminated rec terminator rest)); [|exact IH].
  apply (appending_then (emit rec elem) (fun g => buffer_append g terminator));
    [by apply emit_appending|apply appending_buffer_append].
Qed.
End Children.

Local Ltac steps :=
  repeat first
    [ apply appending_nothing
    | apply appending_buffer_append
    | match goal with
      | |- appending (fun g => buffer_append (@?f g) ?s) =>
          apply (appending_then f (fun g => buffer_append g s))
      end ].

Lemma generate_json_node_appending format_g node :
  appending (fun generator => (generate_json_node format_g node generator).2).
Proof.
  induction node using ASTNode_nested_ind; simpl;
    try (unfold generate_json_default, generate_json_text_element,
           generate_json_variable_ref, generate_json_string, generate_json_number,
           generate_json_boolean; simpl; by steps).
  - (* Program *)
    destruct statements as [l|]; simpl; [|by steps].
    apply (appending_then
             (fun g => emit_separated (generate_json_node format_g) ","
                         l (buffer_append g _))
             (fun g => buffer_append g "]}")); [|by steps].
    apply (appending_then (fun g => buffer_append g _)
             (emit_separated (generate_json_node format_g) "," l)); [by steps|].
    by apply emit_separated_appending.
  - (* PromptDef *)
    unfold generate_json_prompt_def. simpl.
    apply (appending_then
             (fun g => match body with
                       | Some _ => emit (generate_json_node format_g) body _
                       | None => buffer_append _ "null"
                       end)
             (fun g => buffer_append g "}")); [|by steps].
    destruct body as [b|]; [|by steps].
    apply (appending_then
             (fun g => buffer_append (buffer_append (buffer_append g _) name) _)
             (emit (generate_json_node format_g) (Some b))); [by steps|].
    by apply emit_appending.
  - (* CallExpr *)
    unfold generate_json_function_call. simpl.
    apply (appending_then
             (fun g => match arguments with
                       | Some arguments =>
                           emit_separated (generate_json_node format_g) "," arguments _
                       | None => _
                       end)
             (fun g => buffer_append g "]}")); [|by steps].
    destruct arguments as [l|]; [|by steps].
    apply (appending_then
             (fun g => buffer_append (buffer_append (buffer_append (buffer_append
                         (buffer_append g _) _) _) name) _)
             (emit_separated (generate_json_node format_g) "," l)); [by steps|].
    by apply emit_separated_appending.
  - (* ListNode *)
    assert (forall list_type,
              appending (fun g => (generate_json_list (generate_json_node format_g) g
                                     list_type elements).2)) as Hlist.
    { intros list_type. unfold generate_json_list.
      destruct elements as [l|]; simpl; [|by steps].
      apply (appending_then
               (fun g => emit_separated (generate_json_node format_g) "," l
                           (buffer_append (buffer_append (buffer_append g _) list_type) _))
               (fun g => buffer_append g "]}")); [|by steps].
      apply (appending_then
               (fun g => buffer_append (buffer_append (buffer_append g _) list_type) _)
               (emit_separated (generate_json_node format_g) "," l)); [by steps|].
      by apply emit_separated_appending. }
    destruct kind; simpl; try apply Hlist;
      unfold generate_json_default; simpl; by steps.
Qed.

Lemma generate_text_node_appending node :
  appending (fun generator => (generate_text_node node generator).2).
Proof.
  induction node using ASTNode_nested_ind; simpl; try (by steps).
  - (* Program *)
    destruct statements as [l|]; simpl; [|by steps].
    by apply emit_terminated_appending.
  - (* PromptDef *)
    apply (appending_then
             (fun g => buffer_append (buffer_append (buffer_append g _) name) _)
             (emit generate_text_node body)); [by steps|].
    by apply emit_appending.
  - (* CallExpr *)
    apply (appending_then
             (fun g => match arguments with
                       | Some arguments =>
                           emit_separated generate_text_node ", " arguments _
                       | None => _
                       end)
             (fun g => buffer_append g ")")); [|by steps].
    destruct arguments as [l|]; [|by steps].
    apply (appending_then
             (fun g => buffer_append (buffer_append (buffer_append g _) name) _)
             (emit_separated generate_text_node ", " l)); [by steps|].
    by apply emit_separated_appending.
  - (* ListNode *)
    destruct kind; simpl; try (by steps).
    destruct elements as [l|]; simpl; [|by steps].
    by apply emit_terminated_appending.
Qed.

Lemma generate_markdown_node_appending node :
  appending (fun generator => (generate_markdown_node node generator).2).
Proof.
  induction node using ASTNode_nested_ind; simpl; try (by steps).
  - (* Program *)
    destruct statements as [l|]; simpl; [|by steps].
    by apply emit_terminated_appending.
  - (* PromptDef *)
    apply (appending_then
             (fun g => buffer_append (buffer_append (buffer_append g _) name) _)
             (emit generate_markdown_node body)); [by steps|].
    by apply emit_appending.
  - (* CallExpr *)
    apply (appending_then
             (fun g => match arguments with
                       | Some arguments =>
                           emit_separated generate_markdown_node ", " arguments _
                       | None => _
                       end)
             (fun g => buffer_append g ")`")); [|by steps].
    destruct arguments as [l|]; [|by steps].
    apply (appending_then
             (fun g => buffer_append (buffer_append (buffer_append g _) name) _)
             (emit_separated generate_markdown_node ", " l)); [by steps|].
    by apply emit_separated_appending.
  - (* ListNode *)
    destruct kind; simpl; try (by steps).
    destruct elements as [l|]; simpl; [|by steps].
    by apply emit_terminated_appending.
Qed.

Lemma generate_text_node_status node generator :
  (generate_text_node node generator).1 = PCC_SUCCESS.
Proof. destruct node as [? []| | | | | | | | | | | | | | | | | | |[] ? []|]; done. Qed.

Lemma generate_markdown_node_status node generator :
  (generate_markdown_node node generator).1 = PCC_SUCCESS.
Proof. destruct node as [? []| | | | | | | | | | | | | | | | | | |[] ? []|]; done. Qed.

End GeneratorAppends.

Section GeneratorOutput.
Variable format_g : float -> string.

Lemma codegen_generate_appending (format : OutputFormat) (node : ASTNode) :
  appending (fun generator =>
               match format with
               | OUTPUT_FORMAT_JSON => (generate_json_node format_g node generator).2
               | OUTPUT_FORMAT_TEXT => (generate_text_node node generator).2
               | OUTPUT_FORMAT_MARKDOWN => (generate_markdown_node node generator).2
               end).
Proof.
  destruct format;
    [apply generate_json_node_appending|apply generate_text_node_appending
    |apply generate_markdown_node_appending].
Qed.

Lemma codegen_generate_unfold generator node :
  codegen_generate format_g generator (Some node) =
    match cg_format generator with
    | OUTPUT_FORMAT_JSON =>
        generate_json_node format_g node (codegen_clear_output generator)
    | OUTPUT_FORMAT_TEXT => generate_text_node node (codegen_clear_output generator)
    | OUTPUT_FORMAT_MARKDOWN =>
        generate_markdown_node node (codegen_clear_output generator)
    end.
Proof. reflexivity. Qed.

Lemma codegen_generate_status generator node :
  (codegen_generate format_g generator (Some node)).1 = PCC_SUCCESS.
Proof.
  rewrite codegen_generate_unfold. destruct (cg_format generator).
  - apply generate_json_node_extends.
  - apply generate_text_node_status.
  - apply generate_markdown_node_status.
Qed.

(** X21 — the output is a function of the tree and the format.  For
    every tree and every output format there is one text that
    [codegen_generate] leaves in the buffer, whatever the buffer held
    before: the call succeeds, the earlier output is gone, the format is
    kept, and generating the same tree again gives the same text. *)
Theorem codegen_generate_output (format : OutputFormat) (node : ASTNode) :
  exists text, forall generator,
    cg_format generator = format ->
    let generated := codegen_generate format_g generator (Some node) in
    generated.1 = PCC_SUCCESS /\
    codegen_get_output generated.2 = text /\
    cg_format generated.2 = format /\
    cg_symbol_table generated.2 = cg_symbol_table generator /\
    codegen_get_output (codegen_generate format_g generated.2 (Some node)).2 = text.
Proof.
  destruct (codegen_generate_appending format node) as [text Htext].
  exists text.
  assert (forall generator, cg_format generator = format ->
            codegen_get_output (codegen_generate format_g generator (Some node)).2
              = text /\
            cg_format (codegen_generate format_g generator (Some node)).2 = format /\
            cg_symbol_table (codegen_generate format_g generator (Some node)).2
              = cg_symbol_table generator) as Hrun.
  { intros generator Hformat. rewrite codegen_generate_unfold, Hformat.
    destruct (Htext (codegen_clear_output generator)) as (Ho & Hf & Hs & _).
    unfold codegen_get_output.
    destruct format; simpl in *; rewrite Ho, Hf, Hs; by rewrite Hformat. }
  intros generator Hformat. cbv zeta.
  destruct (Hrun generator Hformat) as (Ho & Hf & Hs).
  split; [apply codegen_generate_status|].
  split; [exact Ho|]. split; [exact Hf|]. split; [exact Hs|].
  by destruct (Hrun _ Hf) as (Ho' & _).
Qed.

(** X22 — room in the buffer.  When the text in the buffer is shorter
    than the capacity, which holds from [codegen_create] on, it still is
    after [buffer_append] of any string and after [codegen_generate] of any
    tree in any format: the [memcpy] of [buffer_append], which writes the
    text and its terminating [NUL] at the end of the buffer, stays inside
    the allocation.  The capacity never shrinks. *)
Theorem output_buffer_keeps_room (generator : CodeGenerator) (node : option ASTNode)
    (str : string) :
  (buffer_size generator < buffer_capacity generator)%nat ->
  let appended := buffer_append generator str in
  let generated := (codegen_generate format_g generator node).2 in
  (buffer_size appended < buffer_capacity appended)%nat /\
  (buffer_capacity generator <= buffer_capacity appended)%nat /\
  (buffer_size generated < buffer_capacity generated)%nat /\
  (buffer_capacity generator <= buffer_capacity generated)%nat.
Proof.
  intros Hroom. cbv zeta.
  destruct (appends_buffer_append str generator) as (_ & _ & _ & _ & Hc & Hr).
  split; [by apply Hr|]. split; [exact Hc|].
  destruct node as [node|]; [|by split].
  rewrite codegen_generate_unfold.
  destruct (codegen_generate_appending (cg_format generator) node) as [text Htext].
  destruct (Htext (codegen_clear_output generator)) as (_ & _ & _ & _ & Hc' & Hr').
  assert (buffer_size (codegen_clear_output generator)
          < buffer_capacity (codegen_clear_output generator))%nat as Hclear.
  { unfold buffer_size. simpl. lia. }
  specialize (Hr' Hclear).
  by destruct (cg_format generator).
Qed.

End GeneratorOutput.

Lemma output_buffer_keeps_room_witness :
  let generator := codegen_create OUTPUT_FORMAT_TEXT None in
  (buffer_size generator < buffer_capacity generator)%nat /\
  let appended := buffer_append generator "Hello" in
  let generated :=
    (codegen_generate (fun _ => EmptyString) generator (Some prompt_greet)).2 in
  (buffer_size appended < buffer_capacity appended)%nat /\
  (buffer_capacity generator <= buffer_capacity appended)%nat /\
  (buffer_size generated < buffer_capacity generated)%nat /\
  (buffer_capacity generator <= buffer_capacity generated)%nat.
Proof.
  cbv zeta.
  assert (buffer_size (codegen_create OUTPUT_FORMAT_TEXT None)
          < buffer_capacity (codegen_create OUTPUT_FORMAT_TEXT None))%nat as Hroom.
  { unfold buffer_size, codegen_create, BUFFER_INITIAL_CAPACITY. simpl. lia. }
  split; [exact Hroom|].
  exact (output_buffer_keeps_room (fun _ => EmptyString)
           (codegen_create OUTPUT_FORMAT_TEXT None) (Some prompt_greet) "Hello" Hroom).
Defined.

(** The three renderings of [prompt_greet]. *)
Example prompt_greet_text :
  codegen_get_output
    (codegen_generate (fun _ => EmptyString) (codegen_create OUTPUT_FORMAT_TEXT None)
       (Some prompt_greet)).2
  = "Prompt: greet" +:+ newline +:+ "Hello, $name" +:+ newline.
Proof. reflexivity. Qed.

(** ** The lexer: the shape of the token sequence *)

Section TokenSequence.
Variable atof : string -> float.
Implicit Types (lexer : Lexer).

Lemma lexer_check_keyword_in_proper table lexeme :
  Forall (fun entry => is_sentinel entry.2 = false) table ->
  is_sentinel (lexer_check_keyword_in table lexeme) = false.
Proof.
  induction 1 as [|[keyword type] table Hentry _ IH]; simpl; [done|].
  by destruct (String.eqb lexeme keyword).
Qed.

Lemma lexer_check_keyword_proper lexeme :
  is_sentinel (lexer_check_keyword lexeme) = false.
Proof.
  apply lexer_check_keyword_in_proper. unfold keywords. repeat constructor.
Qed.

Lemma read_operator_type_proper c next type len :
  read_operator_type c next = Some (type, len) -> is_sentinel type = false.
Proof.
  unfold read_operator_type.
  repeat (destruct (is_char c _);
          [try destruct (is_char next _); by intros [= <- <-]|]).
  done.
Qed.

Lemma punctuation_type_proper c type :
  punctuation_type c = Some type -> is_sentinel type = false.
Proof.
  unfold punctuation_type.
  repeat (destruct (is_char c _); [by intros [= <-]|]). done.
Qed.

(** A token that a scanner hands back is neither the end marker nor the
    error token. *)
Lemma scan_token_proper lexer c :
  match scan_token atof lexer c with
  | Scanned (_, Some token, _) => is_sentinel (tok_type token) = false
  | _ => True
  end.
Proof.
  unfold scan_token.
  assert (forall l type, is_sentinel type = false ->
            match retype (lexer_read_identifier l) type with
            | (_, Some token, _) => is_sentinel (tok_type token) = false
            | _ => True
            end) as Hsigil.
  { intros l type Htype. unfold lexer_read_identifier.
    destruct (negb _); simpl; [done|exact Htype]. }
  destruct (is_char c "$"); [by apply Hsigil|].
  destruct (is_char c "@"); [by apply Hsigil|].
  destruct (_ || _).
  { unfold lexer_read_string. destruct (read_string_loop _ _ _) as [[] l]; [done|].
    by destruct (_ <=? _)%nat. }
  destruct (isdigit c); [done|].
  destruct (is_identifier_start c).
  { unfold lexer_read_identifier. destruct (negb _); simpl; [done|].
    apply lexer_check_keyword_proper. }
  destruct (is_operator_start c).
  { unfold lexer_read_operator.
    destruct (read_operator_type _ _) as [[type len]|] eqn:Hop; [|done].
    simpl. by eapply read_operator_type_proper. }
  destruct (punctuation_type c) as [type|] eqn:Hp; [|done].
  simpl. by eapply punctuation_type_proper.
Qed.

(** The tokens a run of the loop adds to the array. *)
Lemma tokenize_loop_sequence fuel lexer :
  (remaining lexer < fuel)%nat ->
  exists err lexer' tokens final,
    tokenize_loop atof fuel lexer = Some (err, lexer') /\
    advances lexer lexer' /\
    lx_filename lexer' = lx_filename lexer /\
    ((lx_position lexer <= lx_source_len lexer)%nat ->
     (lx_position lexer' <= lx_source_len lexer')%nat) /\
    lx_tokens lexer' = lx_tokens lexer ++ tokens ++ [final] /\
    Forall (fun token => is_sentinel (tok_type token) = false) tokens /\
    (length tokens <= lx_position lexer' - lx_position lexer)%nat /\
    ((err = PCC_SUCCESS /\ remaining lexer' = 0%nat /\
      final = lexer_create_token lexer' TOKEN_EOF EmptyString 0) \/
     (err = PCC_ERROR_SYNTAX /\ tok_type final = TOKEN_ERROR)).
Proof.
  revert lexer. induction fuel as [|fuel IH]; intros lexer Hfuel; [lia|]. simpl.
  assert (forall l, advances lexer l -> keeps_tokens lexer l ->
            (lx_source_len l <= lx_position l)%nat ->
            exists err lexer' tokens final,
              Some (finish l) = Some (err, lexer') /\
              advances lexer lexer' /\
              lx_filename lexer' = lx_filename lexer /\
              ((lx_position lexer <= lx_source_len lexer)%nat ->
               (lx_position lexer' <= lx_source_len lexer')%nat) /\
              lx_tokens lexer' = lx_tokens lexer ++ tokens ++ [final] /\
              Forall (fun token => is_sentinel (tok_type token) = false) tokens /\
              (length tokens <= lx_position lexer' - lx_position lexer)%nat /\
              ((err = PCC_SUCCESS /\ remaining lexer' = 0%nat /\
                final = lexer_create_token lexer' TOKEN_EOF EmptyString 0) \/
               (err = PCC_ERROR_SYNTAX /\ tok_type final = TOKEN_ERROR))) as Hfinish.
  { intros l Ha (Ht & Hf & Hb) Hend. eexists _, _, [], _. split; [reflexivity|].
    split; [by eapply advances_trans; [exact Ha|apply push_token_advances]|].
    split; [exact Hf|]. split; [exact Hb|]. split; [simpl; by rewrite Ht|].
    split; [constructor|]. split; [simpl; lia|].
    left. split; [done|]. split; [unfold remaining; simpl; lia|done]. }
  assert (forall l, advances lexer l -> keeps_tokens lexer l ->
            (lx_position lexer < lx_position l)%nat ->
            (lx_position lexer < lx_source_len lexer)%nat ->
            exists err lexer' tokens final,
              tokenize_loop atof fuel l = Some (err, lexer') /\
              advances lexer lexer' /\
              lx_filename lexer' = lx_filename lexer /\
              ((lx_position lexer <= lx_source_len lexer)%nat ->
               (lx_position lexer' <= lx_source_len lexer')%nat) /\
              lx_tokens lexer' = lx_tokens lexer ++ tokens ++ [final] /\
              Forall (fun token => is_sentinel (tok_type token) = false) tokens /\
              (length tokens <= lx_position lexer' - lx_position lexer)%nat /\
              ((err = PCC_SUCCESS /\ remaining lexer' = 0%nat /\
                final = lexer_create_token lexer' TOKEN_EOF EmptyString 0) \/
               (err = PCC_ERROR_SYNTAX /\ tok_type final = TOKEN_ERROR))) as Hnext.
  { intros l Ha (Ht & Hf & Hb) Hp Hlt.
    pose proof (remaining_decreases _ _ Ha Hp Hlt) as Hdec.
    destruct (IH l) as (err & lexer' & tokens & final & Hrun & Ha' & Hf' & Hb' & Ht'
                        & Hall & Hlen & Hcases); [lia|].
    exists err, lexer', tokens, final. split; [exact Hrun|].
    split; [by eapply advances_trans|]. split; [congruence|].
    split; [by intros H; apply Hb', Hb|].
    split; [by rewrite Ht', Ht|]. split; [exact Hall|]. split; [lia|exact Hcases]. }
  destruct (Nat.ltb_spec (lx_position lexer) (lx_source_len lexer)) as [Hlt|Hge];
    simpl; [|by apply Hfinish; [apply advances_refl| |]].
  pose proof (lexer_skip_whitespace_advances lexer) as Hws.
  pose proof (skip_whitespace_loop_reads keeps_tokens keeps_tokens_refl
                keeps_tokens_trans keeps_tokens_advance (remaining lexer) lexer) as Hwt.
  fold (lexer_skip_whitespace lexer) in Hwt.
  set (lexer1 := lexer_skip_whitespace lexer) in *.
  destruct (is_comment_start lexer1) eqn:Hcomment.
  { destruct (lexer_skip_comment_moves lexer1 Hcomment) as [Ha Hp].
    apply Hnext; [by eapply advances_trans| |pose proof (adv_position _ _ Hws); lia
                 |done].
    eapply keeps_tokens_trans; [exact Hwt|].
    apply (lexer_skip_comment_reads keeps_tokens keeps_tokens_refl keeps_tokens_trans
             keeps_tokens_advance). }
  destruct (Nat.leb_spec (lx_source_len lexer1) (lx_position lexer1)) as [Hend|Hlt1];
    [by apply Hfinish|].
  pose proof (scan_token_ok atof lexer1 Hlt1) as Hscan.
  pose proof (scan_token_reads keeps_tokens keeps_tokens_refl keeps_tokens_trans
                keeps_tokens_advance atof lexer1 (lexer_peek lexer1 0)) as Hreads.
  pose proof (scan_token_proper lexer1 (lexer_peek lexer1 0)) as Hproper.
  pose proof (adv_position _ _ Hws) as Hp1.
  destruct (scan_token atof lexer1 (lexer_peek lexer1 0))
    as [lexer2|[[err token] lexer2]].
  - destruct Hscan as [Ha Hp].
    apply Hnext; [by eapply advances_trans|by eapply keeps_tokens_trans|lia|done].
  - destruct Hscan as (Ha & Hstatus & Hp). simpl in Hreads.
    pose proof (keeps_tokens_trans _ _ _ Hwt Hreads) as (Ht2 & Hf2 & Hb2).
    pose proof (advances_trans _ _ _ Hws Ha) as Ha2.
    destruct Hstatus as [-> | ->]; simpl.
    + specialize (Hp eq_refl).
      destruct token as [token|];
        [|by apply Hnext; [done|done|lia|done]].
      pose proof (remaining_decreases _ _ Ha2 ltac:(lia) Hlt) as Hdec.
      destruct (IH (push_token lexer2 token))
        as (err & lexer' & tokens & final & Hrun & Ha' & Hf' & Hb' & Ht' & Hall & Hlen
            & Hcases); [unfold remaining in *; simpl; lia|].
      exists err, lexer', (token :: tokens), final. split; [exact Hrun|].
      split; [eapply advances_trans; [exact Ha2|];
              eapply advances_trans; [apply push_token_advances|exact Ha']|].
      split; [simpl in Hf'; congruence|].
      split; [by intros H; apply Hb', Hb2|].
      split; [rewrite Ht'; simpl; rewrite Ht2, <- app_assoc; done|].
      split; [by constructor|].
      pose proof (adv_position _ _ Ha') as Hp'. simpl in Hp', Hlen.
      split; [simpl; lia|exact Hcases].
    + eexists _, _, [], _. split; [reflexivity|].
      split; [by eapply advances_trans; [exact Ha2|apply push_token_advances]|].
      split; [exact Hf2|]. split; [exact Hb2|]. split; [simpl; by rewrite Ht2|].
      split; [constructor|]. split; [simpl; lia|]. right. done.
Qed.

(** X23 — the token sequence.  Tokenizing any source comes back with
    an array whose last token is the only [EOF] or [ERROR] token in it:
    every token before it was handed back by a scanner.  There are at most
    as many of these as the source has characters.  On success the whole
    source has been read and the end marker carries the position the lexer
    stopped at; the source text and the file name are the ones given to
    [lexer_create]. *)
Theorem lexer_tokenize_sequence (source : string) (filename : option string) :
  exists err lexer' tokens final,
    lexer_tokenize atof (lexer_create source filename) = Some (err, lexer') /\
    lx_tokens lexer' = tokens ++ [final] /\
    Forall (fun token => is_sentinel (tok_type token) = false) tokens /\
    (length tokens <= String.length source)%nat /\
    lx_source lexer' = source /\
    lx_filename lexer' = lx_filename (lexer_create source filename) /\
    ((err = PCC_SUCCESS /\ tok_type final = TOKEN_EOF /\
      tok_lexeme final = EmptyString /\
      lx_position lexer' = String.length source /\
      pos_line (tok_position final) = Z.of_nat (lx_line lexer') /\
      pos_column (tok_position final) = Z.of_nat (lx_column lexer')) \/
     (err = PCC_ERROR_SYNTAX /\ tok_type final = TOKEN_ERROR)).
Proof.
  destruct (tokenize_loop_sequence (S (remaining (lexer_create source filename)))
              (lexer_create source filename) ltac:(lia))
    as (err & lexer' & tokens & final & Hrun & [Hs Hl Hp] & Hf & Hb & Ht & Hall & Hlen
        & Hcases).
  exists err, lexer', tokens, final. simpl in *.
  split; [exact Hrun|]. split; [exact Ht|]. split; [exact Hall|].
  assert (lx_position lexer' <= String.length source)%nat as Hbound.
  { rewrite <- Hl. apply Hb. lia. }
  split; [lia|]. split; [exact Hs|]. split; [exact Hf|].
  destruct Hcases as [(-> & Hrem & ->)|Herr]; [left|by right].
  unfold remaining in Hrem. rewrite Hl in Hrem. simpl.
  split_and!; try done; lia.
Qed.
End TokenSequence.

Section IdentifierTokens.
Implicit Types (lexer : Lexer).

Lemma identifier_part_not_newline c :
  is_identifier_part c = true -> is_char c "010" = false.
Proof. by destruct c as [[] [] [] [] [] [] [] []]. Qed.

Lemma identifier_start_part c :
  is_identifier_start c = true -> is_identifier_part c = true.
Proof.
  unfold is_identifier_start, is_identifier_part, isalnum.
  intros [->| ->]%orb_true_iff; [done|]. apply orb_true_r.
Qed.

Lemma lexer_peek_char lexer :
  (lx_position lexer < lx_source_len lexer)%nat ->
  lexer_peek lexer 0 = char_at (lx_source lexer) (lx_position lexer).
Proof.
  intros Hlt. unfold lexer_peek. rewrite Nat.add_0_r.
  by destruct (Nat.leb_spec (lx_source_len lexer) (lx_position lexer)); [lia|].
Qed.

Lemma lexer_peek_end lexer :
  (lx_source_len lexer <= lx_position lexer)%nat -> lexer_peek lexer 0 = NUL.
Proof.
  intros Hge. unfold lexer_peek. rewrite Nat.add_0_r.
  by destruct (Nat.leb_spec (lx_source_len lexer) (lx_position lexer)); [|lia].
Qed.

(** One character of an identifier read: same line, next column. *)
Lemma lexer_advance_identifier_part lexer :
  (lx_position lexer < lx_source_len lexer)%nat ->
  is_identifier_part (lexer_peek lexer 0) = true ->
  let lexer' := (lexer_advance lexer).2 in
  lx_source lexer' = lx_source lexer /\
  lx_source_len lexer' = lx_source_len lexer /\
  lx_filename lexer' = lx_filename lexer /\
  lx_position lexer' = S (lx_position lexer) /\
  lx_line lexer' = lx_line lexer /\
  lx_column lexer' = S (lx_column lexer).
Proof.
  intros Hlt Hpart. rewrite lexer_peek_char in Hpart by done.
  apply identifier_part_not_newline in Hpart. unfold lexer_advance.
  destruct (Nat.leb_spec (lx_source_len lexer) (lx_position lexer)); [lia|].
  simpl. by rewrite Hpart.
Qed.

(** The loop of [lexer_read_identifier] reads the longest run of
    identifier characters. *)
Lemma read_identifier_loop_run rounds lexer :
  (remaining lexer <= rounds)%nat ->
  exists n,
    let lexer' := read_identifier_loop rounds lexer in
    lx_source lexer' = lx_source lexer /\
    lx_source_len lexer' = lx_source_len lexer /\
    lx_filename lexer' = lx_filename lexer /\
    lx_position lexer' = (lx_position lexer + n)%nat /\
    lx_line lexer' = lx_line lexer /\
    lx_column lexer' = (lx_column lexer + n)%nat /\
    (forall i, (i < n)%nat ->
       is_identifier_part (char_at (lx_source lexer) (lx_position lexer + i)) = true) /\
    is_identifier_part (lexer_peek lexer' 0) = false.
Proof.
  revert lexer. induction rounds as [|rounds IH]; intros lexer Hrounds; simpl.
  - exists 0%nat. rewrite !Nat.add_0_r. split_and!; try done; [lia|].
    rewrite lexer_peek_end; [done|]. unfold remaining in Hrounds. lia.
  - destruct (Nat.ltb_spec (lx_position lexer) (lx_source_len lexer)) as [Hlt|Hge].
    + destruct (is_identifier_part (lexer_peek lexer 0)) eqn:Hpart.
      * destruct (lexer_advance_identifier_part lexer Hlt Hpart)
          as (Hs & Hl & Hf & Hp & Hline & Hcol).
        destruct (IH (lexer_advance lexer).2) as (n & Hs' & Hl' & Hf' & Hp' & Hline'
                                                  & Hcol' & Hrun & Hstop).
        { unfold remaining in *. rewrite Hl, Hp. lia. }
        exists (S n). cbv zeta in *.
        split_and!; [congruence|congruence|congruence|lia|congruence|lia| |exact Hstop].
        intros [|i] Hi.
        -- rewrite Nat.add_0_r, <- lexer_peek_char by done. exact Hpart.
        -- specialize (Hrun i ltac:(lia)). rewrite Hs, Hp in Hrun.
           by replace (lx_position lexer + S i)%nat with (S (lx_position lexer) + i)%nat
             by lia.
      * exists 0%nat. rewrite !Nat.add_0_r. split_and!; try done. lia.
    + exists 0%nat. rewrite !Nat.add_0_r. split_and!; try done; [lia|].
      by rewrite lexer_peek_end.
Qed.

(** X24 — identifier tokens.  Standing on a letter or an underscore,
    [lexer_read_identifier] reads the longest run of letters, digits and
    underscores that starts there and stops on the first character that is
    none of these (or at the end of the source).  The token it hands back
    holds exactly that run as its lexeme, is typed by the keyword table
    ([TOKEN_IDENTIFIER] when the run is no keyword), and is positioned at
    the line and column of its first character. *)
Theorem lexer_read_identifier_token lexer :
  (lx_position lexer < lx_source_len lexer)%nat ->
  is_identifier_start (lexer_peek lexer 0) = true ->
  exists len lexer',
    let lexeme := String.substring (lx_position lexer) len (lx_source lexer) in
    lexer_read_identifier lexer =
      (PCC_SUCCESS,
       Some {| tok_type := lexer_check_keyword lexeme;
               tok_lexeme := lexeme;
               tok_position :=
                 {| pos_line := Z.of_nat (lx_line lexer);
                    pos_column := Z.of_nat (lx_column lexer);
                    pos_filename := lx_filename lexer |};
               tok_value := NoValue |},
       lexer') /\
    (0 < len)%nat /\
    lx_position lexer' = (lx_position lexer + len)%nat /\
    lx_line lexer' = lx_line lexer /\
    lx_column lexer' = (lx_column lexer + len)%nat /\
    (forall i, (i < len)%nat ->
       is_identifier_part (char_at (lx_source lexer) (lx_position lexer + i)) = true) /\
    is_identifier_part (lexer_peek lexer' 0) = false.
Proof.
  intros Hlt Hstart. pose proof (identifier_start_part _ Hstart) as Hpart.
  destruct (lexer_advance_identifier_part lexer Hlt Hpart)
    as (Hs & Hl & Hf & Hp & Hline & Hcol).
  destruct (read_identifier_loop_run (remaining (lexer_advance lexer).2)
              (lexer_advance lexer).2 (Nat.le_refl _))
    as (n & Hs' & Hl' & Hf' & Hp' & Hline' & Hcol' & Hrun & Hstop).
  cbv zeta in *.
  exists (S n), (read_identifier_loop (remaining (lexer_advance lexer).2)
                   (lexer_advance lexer).2).
  unfold lexer_read_identifier. rewrite Hstart. simpl negb. cbv iota zeta.
  split_and!; [|lia|lia|congruence|lia| |exact Hstop].
  - unfold lexer_create_token.
    replace (lx_position _ - lx_position lexer)%nat with (S n) by lia.
    rewrite Hs', Hs, Hline', Hline, Hf', Hf, Hcol', Hcol.
    repeat f_equal. lia.
  - intros [|i] Hi.
    + rewrite Nat.add_0_r, <- lexer_peek_char by done. exact Hpart.
    + specialize (Hrun i ltac:(lia)). rewrite Hs, Hp in Hrun.
      by replace (lx_position lexer + S i)%nat with (S (lx_position lexer) + i)%nat
        by lia.
Qed.

End IdentifierTokens.

Lemma lexer_read_identifier_token_witness :
  let lexer := lexer_create "PROMPT greet" None in
  (lx_position lexer < lx_source_len lexer)%nat /\
  is_identifier_start (lexer_peek lexer 0) = true /\
  exists len lexer',
    let lexeme := String.substring (lx_position lexer) len (lx_source lexer) in
    lexer_read_identifier lexer =
      (PCC_SUCCESS,
       Some {| tok_type := lexer_check_keyword lexeme;
               tok_lexeme := lexeme;
               tok_position :=
                 {| pos_line := Z.of_nat (lx_line lexer);
                    pos_column := Z.of_nat (lx_column lexer);
                    pos_filename := lx_filename lexer |};
               tok_value := NoValue |},
       lexer') /\
    (0 < len)%nat /\
    lx_position lexer' = (lx_position lexer + len)%nat /\
    lx_line lexer' = lx_line lexer /\
    lx_column lexer' = (lx_column lexer + len)%nat /\
    (forall i, (i < len)%nat ->
       is_identifier_part (char_at (lx_source lexer) (lx_position lexer + i)) = true) /\
    is_identifier_part (lexer_peek lexer' 0) = false.
Proof.
  cbv zeta.
  assert (lx_position (lexer_create "PROMPT greet" None)
          < lx_source_len (lexer_create "PROMPT greet" None))%nat as Hlt
    by (vm_compute; lia).
  split; [exact Hlt|]. split; [reflexivity|].
  exact (lexer_read_identifier_token (lexer_create "PROMPT greet" None) Hlt eq_refl).
Defined.

(** ** The dynamic array: insertion, removal, search, order *)

Section ArrayLoops.
Context {A : Type}.
Implicit Types (array data : list (option A)) (element : option A).

Lemma slot_middle (l1 l2 : list (option A)) x :
  slot (l1 ++ x :: l2) (length l1) = x.
Proof. unfold slot. by rewrite list_lookup_middle. Qed.

Lemma slot_after (l1 l2 : list (option A)) x y :
  slot (l1 ++ x :: y :: l2) (S (length l1)) = y.
Proof.
  replace (l1 ++ x :: y :: l2) with ((l1 ++ [x]) ++ y :: l2)
    by (by rewrite <- !app_assoc).
  replace (S (length l1)) with (length (l1 ++ [x]))
    by (rewrite length_app; simpl; lia).
  apply slot_middle.
Qed.

Lemma insert_middle (l1 l2 : list (option A)) x y :
  <[length l1 := y]> (l1 ++ x :: l2) = l1 ++ y :: l2.
Proof. by rewrite insert_app_r_alt, Nat.sub_diag by done. Qed.

(** The loop of [pcc_array_insert] moves a block one slot to the
    right. *)
Lemma shift_right_block (l2 : list (option A)) :
  forall l1 x rest,
    shift_right (length l2) (length l1 + length l2) (l1 ++ l2 ++ x :: rest)
    = l1 ++ hd x l2 :: l2 ++ rest.
Proof.
  induction l2 as [|y l2 IH] using rev_ind; intros l1 x rest; [done|].
  rewrite length_app. simpl length.
  replace (length l2 + 1)%nat with (S (length l2)) by lia.
  replace (length l1 + S (length l2))%nat with (S (length (l1 ++ l2)))
    by (rewrite length_app; lia).
  cbn [shift_right]. rewrite Nat.sub_succ, Nat.sub_0_r.
  replace (l1 ++ (l2 ++ [y]) ++ x :: rest) with ((l1 ++ l2) ++ y :: x :: rest)
    by (by rewrite <- !app_assoc).
  rewrite slot_middle.
  replace ((l1 ++ l2) ++ y :: x :: rest) with (((l1 ++ l2) ++ [y]) ++ x :: rest)
    by (by rewrite <- !app_assoc).
  replace (S (length (l1 ++ l2))) with (length ((l1 ++ l2) ++ [y]))
    by (rewrite !length_app; simpl; lia).
  rewrite insert_middle.
  replace (((l1 ++ l2) ++ [y]) ++ y :: rest) with (l1 ++ l2 ++ y :: y :: rest)
    by (by rewrite <- !app_assoc).
  rewrite length_app, IH. rewrite <- !app_assoc. simpl. by destruct l2.
Qed.

Lemma last_nonempty (l : list (option A)) y d d' :
  List.last (y :: l) d = List.last (y :: l) d'.
Proof.
  revert y. induction l as [|z l IH]; intros y; [done|].
  change (List.last (z :: l) d = List.last (z :: l) d'). apply IH.
Qed.

(** The loop of [pcc_array_remove] moves a block one slot to the left. *)
Lemma shift_left_block (l2 : list (option A)) :
  forall l1 x rest,
    shift_left (length l2) (length l1) (l1 ++ x :: l2 ++ rest)
    = l1 ++ l2 ++ List.last l2 x :: rest.
Proof.
  induction l2 as [|y l2 IH]; intros l1 x rest; [done|].
  cbn [length shift_left].
  replace (l1 ++ x :: (y :: l2) ++ rest) with ((l1 ++ [x]) ++ y :: l2 ++ rest)
    by (by rewrite <- !app_assoc).
  replace (S (length l1)) with (length (l1 ++ [x])) by (rewrite length_app; simpl; lia).
  rewrite slot_middle.
  replace ((l1 ++ [x]) ++ y :: l2 ++ rest) with (l1 ++ x :: y :: l2 ++ rest)
    by (by rewrite <- !app_assoc).
  rewrite insert_middle.
  replace (l1 ++ y :: y :: l2 ++ rest) with ((l1 ++ [y]) ++ y :: l2 ++ rest)
    by (by rewrite <- !app_assoc).
  rewrite length_app. simpl length.
  replace (length l1 + 1)%nat with (length (l1 ++ [y]))
    by (rewrite length_app; simpl; lia).
  rewrite IH. rewrite <- !app_assoc. simpl.
  destruct l2 as [|z l2]; [done|]. by rewrite (last_nonempty l2 z y x).
Qed.

Lemma swap_slots_ends (l1 mid l3 : list (option A)) a b :
  swap_slots (length l1) (length l1 + S (length mid)) (l1 ++ a :: mid ++ b :: l3)
  = l1 ++ b :: mid ++ a :: l3.
Proof.
  unfold swap_slots. rewrite slot_middle.
  replace (l1 ++ a :: mid ++ b :: l3) with ((l1 ++ a :: mid) ++ b :: l3)
    by (by rewrite <- !app_assoc).
  replace (length l1 + S (length mid))%nat with (length (l1 ++ a :: mid))
    by (rewrite length_app; simpl; lia).
  rewrite slot_middle.
  replace ((l1 ++ a :: mid) ++ b :: l3) with (l1 ++ a :: mid ++ b :: l3)
    by (by rewrite <- !app_assoc).
  rewrite insert_middle.
  replace (l1 ++ b :: mid ++ b :: l3) with ((l1 ++ b :: mid) ++ b :: l3)
    by (by rewrite <- !app_assoc).
  replace (length (l1 ++ a :: mid)) with (length (l1 ++ b :: mid))
    by (rewrite !length_app; done).
  rewrite insert_middle. by rewrite <- !app_assoc.
Qed.

Lemma swap_slots_adjacent (l1 rest : list (option A)) a b :
  swap_slots (length l1) (S (length l1)) (l1 ++ a :: b :: rest) = l1 ++ b :: a :: rest.
Proof.
  pose proof (swap_slots_ends l1 [] rest a b) as H. simpl in H.
  by rewrite Nat.add_1_r in H.
Qed.

(** The loop of [pcc_array_reverse] turns the middle of the array
    around. *)
Lemma reverse_loop_middle count :
  forall (l1 mid l3 : list (option A)),
    length l3 = length l1 ->
    count = (length mid / 2)%nat ->
    reverse_loop (length l1 + length mid + length l3) count (length l1)
      (l1 ++ mid ++ l3)
    = l1 ++ rev mid ++ l3.
Proof.
  induction count as [|count IH]; intros l1 mid l3 Hlen Hcount.
  - destruct mid as [|a [|b mid]]; [done|done|].
    exfalso. simpl length in Hcount.
    pose proof (Nat.div_le_lower_bound (S (S (length mid))) 2 1). lia.
  - destruct mid as [|a mid]; [done|].
    destruct mid as [|b mid _] using rev_ind; [done|].
    cbn [reverse_loop].
    replace (length l1 + length (a :: mid ++ [b]) + length l3 - 1 - length l1)%nat
      with (length l1 + S (length mid))%nat
      by (simpl; rewrite length_app; simpl; lia).
    replace (l1 ++ (a :: mid ++ [b]) ++ l3) with (l1 ++ a :: mid ++ b :: l3)
      by (simpl; by rewrite <- !app_assoc).
    rewrite swap_slots_ends.
    replace (l1 ++ b :: mid ++ a :: l3) with ((l1 ++ [b]) ++ mid ++ a :: l3)
      by (by rewrite <- !app_assoc).
    replace (S (length l1)) with (length (l1 ++ [b]))
      by (rewrite length_app; simpl; lia).
    replace (length l1 + length (a :: mid ++ [b]) + length l3)%nat
      with (length (l1 ++ [b]) + length mid + length (a :: l3))%nat
      by (simpl; rewrite !length_app; simpl; lia).
    rewrite IH.
    + simpl. rewrite rev_app_distr. simpl. by rewrite <- !app_assoc.
    + rewrite length_app. simpl. lia.
    + cbn [length] in Hcount. rewrite length_app in Hcount. cbn [length] in Hcount.
      replace (S (length mid + 1)) with (length mid + 1 * 2)%nat in Hcount by lia.
      rewrite Nat.div_add in Hcount by lia. lia.
Qed.

Section Sorting.
Variable compare_func : option A -> option A -> Z.
Let le (a b : option A) : Prop := compare_func a b <= 0.

(** One pass of the inner loop carries the greatest element it meets to
    the end of the stretch it covers. *)
Lemma sort_inner_pass count :
  forall pre x rest,
    (count <= length rest)%nat ->
    exists init m,
      sort_inner compare_func count (length pre) (pre ++ x :: rest)
        = pre ++ init ++ m :: drop count rest /\
      init ++ [m] ≡ₚ x :: take count rest /\
      (is_ordering compare_func -> Forall (fun y => le y m) init).
Proof.
  induction count as [|count IH]; intros pre x rest Hcount.
  - exists [], x. rewrite drop_0, take_0. by split_and!.
  - destruct rest as [|b rest]; [simpl in Hcount; lia|].
    cbn [sort_inner].
    rewrite slot_middle, slot_after, swap_slots_adjacent.
    set (lo := if 0 <? compare_func x b then b else x).
    set (hi := if 0 <? compare_func x b then x else b).
    assert ((if 0 <? compare_func x b then pre ++ b :: x :: rest
             else pre ++ x :: b :: rest) = (pre ++ [lo]) ++ hi :: rest) as ->.
    { subst lo hi. destruct (0 <? compare_func x b); by rewrite <- !app_assoc. }
    replace (S (length pre)) with (length (pre ++ [lo]))
      by (rewrite length_app; simpl; lia).
    destruct (IH (pre ++ [lo]) hi rest ltac:(simpl in Hcount; lia))
      as (init & m & Hrun & Hperm & Hmax).
    exists (lo :: init), m. split; [by rewrite Hrun, <- !app_assoc|]. split.
    + simpl. rewrite Hperm. subst lo hi.
      destruct (0 <? compare_func x b); [apply perm_swap|done].
    + intros Horder. specialize (Hmax Horder). constructor; [|exact Hmax].
      destruct Horder as [Htotal Htrans].
      assert (le lo hi) as Hlohi.
      { subst lo hi le. simpl.
        destruct (Z.ltb_spec 0 (compare_func x b)); [by apply Htotal|lia]. }
      assert (le hi m) as Hhim.
      { assert (hi ∈ init ++ [m]) as Hin by (rewrite Hperm; left).
        apply elem_of_app in Hin as [Hin|Hin].
        - by apply (proj1 (Forall_forall _ _) Hmax).
        - apply list_elem_of_singleton in Hin as ->. subst le. simpl.
          destruct (Z.ltb_spec 0 (compare_func m m)) as [Hgt|]; [|lia].
          by apply Htotal. }
      by apply (Htrans lo hi m).
Qed.

(** The outer loop: the part already in place grows by one element per
    round. *)
Lemma sort_outer_rounds count :
  forall prefix suffix,
    length prefix = S count ->
    exists result,
      sort_outer compare_func (length prefix + length suffix) count (length suffix)
        (prefix ++ suffix) = result ++ suffix /\
      result ≡ₚ prefix /\
      (is_ordering compare_func ->
       StronglySorted le suffix ->
       Forall (fun x => Forall (le x) suffix) prefix ->
       StronglySorted le (result ++ suffix)).
Proof.
  induction count as [|count IH]; intros prefix suffix Hlen.
  - exists prefix. split; [done|]. split; [done|].
    intros _ Hsorted Hbelow. destruct prefix as [|x [|]]; try done.
    simpl. constructor; [done|]. by inversion Hbelow.
  - destruct prefix as [|x rest]; [done|]. simpl in Hlen.
    cbn [sort_outer].
    replace (length (x :: rest) + length suffix - length suffix - 1)%nat
      with (length rest) by (simpl; lia).
    destruct (sort_inner_pass (length rest) [] x (rest ++ suffix)
                ltac:(rewrite length_app; lia)) as (init & m & Hrun & Hperm & Hmax).
    change (sort_inner compare_func (length rest) 0 ((x :: rest) ++ suffix)
            = init ++ m :: drop (length rest) (rest ++ suffix)) in Hrun.
    rewrite Hrun.
    rewrite drop_app_length. rewrite take_app_length in Hperm.
    assert (length init = S count) as Hinit.
    { apply Permutation_length in Hperm. rewrite length_app in Hperm.
      simpl in Hperm. lia. }
    replace (length (x :: rest) + length suffix)%nat
      with (length init + length (m :: suffix))%nat by (simpl; lia).
    replace (S (length suffix)) with (length (m :: suffix)) by done.
    destruct (IH init (m :: suffix) Hinit) as (result & Hrest & Hperm' & Hsorted').
    exists (result ++ [m]). split; [by rewrite Hrest, <- app_assoc|].
    split; [by rewrite Hperm', Hperm|].
    intros Horder Hsorted Hbelow. rewrite <- app_assoc. simpl.
    assert (Forall (fun y => Forall (le y) suffix) (init ++ [m])) as Hall.
    { by rewrite Hperm. }
    apply Forall_app in Hall as [Hinit_below Hm_below].
    apply Forall_inv in Hm_below.
    apply Hsorted'; [done|by constructor|].
    specialize (Hmax Horder).
    apply Forall_forall. intros y Hy. constructor.
    + by apply (proj1 (Forall_forall _ _) Hmax).
    + by apply (proj1 (Forall_forall _ _) Hinit_below).
Qed.
End Sorting.

Lemma pcc_array_insert_at (l1 l2 : list (option A)) (a : A) :
  pcc_array_insert (l1 ++ l2) (length l1) (Some a) = (PCC_SUCCESS, l1 ++ Some a :: l2).
Proof.
  unfold pcc_array_insert. rewrite length_app.
  destruct (Nat.ltb_spec (length l1 + length l2) (length l1)); [lia|]. cbv zeta.
  replace (length l1 + length l2 - length l1)%nat with (length l2) by lia.
  rewrite <- app_assoc, shift_right_block, insert_middle. by rewrite app_nil_r.
Qed.

Lemma pcc_array_remove_at (l1 l2 : list (option A)) (x : option A) :
  pcc_array_remove (l1 ++ x :: l2) (length l1) = (PCC_SUCCESS, x, l1 ++ l2).
Proof.
  unfold pcc_array_remove. rewrite length_app. cbn [length].
  destruct (Nat.leb_spec (length l1 + S (length l2)) (length l1)); [lia|]. cbv zeta.
  replace (length l1 + S (length l2) - 1 - length l1)%nat with (length l2) by lia.
  rewrite slot_middle.
  pose proof (shift_left_block l2 l1 x []) as Hshift.
  rewrite app_nil_r in Hshift. rewrite Hshift.
  replace (length l1 + S (length l2) - 1)%nat with (length (l1 ++ l2))
    by (rewrite length_app; lia).
  by rewrite app_assoc, take_app_length.
Qed.

Lemma find_loop_first compare_func element data i :
  (find_loop compare_func element data i = -1 /\
   Forall (fun candidate => compare_func candidate element <> 0) data) \/
  (exists k,
     find_loop compare_func element data i = Z.of_nat (i + k) /\
     (k < length data)%nat /\
     compare_func (slot data k) element = 0 /\
     forall k', (k' < k)%nat -> compare_func (slot data k') element <> 0).
Proof.
  revert i. induction data as [|candidate data IH]; intros i; simpl; [by left|].
  destruct (Z.eqb_spec (compare_func candidate element) 0) as [Hzero|Hnonzero].
  - right. exists 0%nat. rewrite Nat.add_0_r. split_and!; [done|lia|done|lia].
  - destruct (IH (S i)) as [[-> Hall]|(k & -> & Hk & Hzero & Hfirst)].
    + left. split; [done|by constructor].
    + right. exists (S k). split_and!; [f_equal; lia|lia|done|].
      intros [|k'] Hk'; [done|]. apply Hfirst. lia.
Qed.

End ArrayLoops.

Section ArrayOperations.
Context {A : Type}.
Implicit Types (array : list (option A)) (element : option A).

(** X25 — inserting and removing.  [pcc_array_insert] at an index up
    to the size puts the element at that index and moves the elements from
    there on one place up; [pcc_array_remove] at an index below the size
    hands out the element at that index and closes the gap.  Past these
    bounds, and for a [NULL] element, both report a runtime error and leave
    the array as it was.  Removing at the index just inserted at, and
    popping after a push, give back the element and the array as it was. *)
Theorem pcc_array_insert_remove array (index : nat) (a : A) :
  pcc_array_insert array index (Some a) =
    (if (index <=? length array)%nat
     then (PCC_SUCCESS, take index array ++ Some a :: drop index array)
     else (PCC_ERROR_RUNTIME, array)) /\
  pcc_array_insert array index None = (PCC_ERROR_RUNTIME, array) /\
  pcc_array_remove array index =
    (if (index <? length array)%nat
     then (PCC_SUCCESS, pcc_array_get array index,
           take index array ++ drop (S index) array)
     else (PCC_ERROR_RUNTIME, None, array)) /\
  ((index <= length array)%nat ->
   pcc_array_remove (pcc_array_insert array index (Some a)).2 index
     = (PCC_SUCCESS, Some a, array)) /\
  pcc_array_pop (pcc_array_push array (Some a)).2 = (PCC_SUCCESS, Some a, array) /\
  pcc_array_pop (@nil (option A)) = (PCC_ERROR_RUNTIME, None, []).
Proof.
  assert (forall (l : list (option A)) i, (i <= length l)%nat ->
            pcc_array_insert l i (Some a)
              = (PCC_SUCCESS, take i l ++ Some a :: drop i l)) as Hinsert.
  { intros l i Hi. pose proof (pcc_array_insert_at (take i l) (drop i l) a) as H.
    by rewrite take_drop, length_take_le in H by done. }
  assert (forall (l : list (option A)) i, (i < length l)%nat ->
            pcc_array_remove l i
              = (PCC_SUCCESS, pcc_array_get l i, take i l ++ drop (S i) l)) as Hremove.
  { intros l i Hi. destruct (lookup_lt_is_Some_2 l i Hi) as [x Hx].
    apply list_elem_of_split_length in Hx as (l1 & l2 & -> & ->).
    rewrite pcc_array_remove_at. unfold pcc_array_get.
    rewrite list_lookup_middle by done. rewrite take_app_length.
    by rewrite (cons_middle x l1 l2), app_assoc, drop_app_length'
      by (rewrite length_app; simpl; lia). }
  split_and!.
  - destruct (Nat.leb_spec index (length array)) as [Hle|Hgt]; [by apply Hinsert|].
    unfold pcc_array_insert. by destruct (Nat.ltb_spec (length array) index); [|lia].
  - done.
  - destruct (Nat.ltb_spec index (length array)) as [Hlt|Hge]; [by apply Hremove|].
    unfold pcc_array_remove. by destruct (Nat.leb_spec (length array) index); [|lia].
  - intros Hle. rewrite Hinsert by done. cbn [snd].
    pose proof (pcc_array_remove_at (take index array) (drop index array) (Some a))
      as H.
    by rewrite length_take_le, take_drop in H by done.
  - unfold pcc_array_push, pcc_array_pop. cbn [snd].
    rewrite length_app. simpl length. rewrite Nat.add_1_r.
    unfold slot. by rewrite list_lookup_middle, take_app_length by done.
  - done.
Qed.

(** X26 — sorting.  Whatever the comparison function, [pcc_array_sort]
    only rearranges the elements of the array: none is lost, none is
    duplicated.  When the comparison never ranks two elements each above the
    other and "not above" is transitive, the array comes out in order: no
    element is ranked above one that stands after it. *)
Theorem pcc_array_sort_sorts array (compare_func : option A -> option A -> Z) :
  pcc_array_sort array compare_func ≡ₚ array /\
  (is_ordering compare_func ->
   StronglySorted (fun a b => compare_func a b <= 0)
     (pcc_array_sort array compare_func)).
Proof.
  unfold pcc_array_sort.
  destruct (Nat.ltb_spec (length array) 2) as [Hshort|Hlong].
  - split; [done|]. intros _.
    destruct array as [|x [|y array]]; [constructor|by repeat constructor|].
    simpl in Hshort. lia.
  - destruct (sort_outer_rounds compare_func (length array - 1) array [])
      as (result & Hrun & Hperm & Hsorted); [lia|].
    simpl in Hrun. rewrite Nat.add_0_r, !app_nil_r in Hrun. rewrite Hrun.
    split; [exact Hperm|]. intros Horder.
    rewrite app_nil_r in Hsorted. apply Hsorted; [done|constructor|].
    apply Forall_forall. intros x _. constructor.
Qed.

(** X27 — reversing.  [pcc_array_reverse] leaves the elements in the
    opposite order, and reversing twice gives the array back. *)
Theorem pcc_array_reverse_rev array :
  pcc_array_reverse array = rev array /\
  pcc_array_reverse (pcc_array_reverse array) = array.
Proof.
  assert (forall l : list (option A), pcc_array_reverse l = rev l) as Hrev.
  { intros l. unfold pcc_array_reverse.
    destruct (Nat.ltb_spec (length l) 2) as [Hshort|Hlong].
    - destruct l as [|x [|y l]]; [done|done|simpl in Hshort; lia].
    - pose proof (reverse_loop_middle (length l / 2) [] l [] eq_refl eq_refl) as H.
      simpl in H. by rewrite Nat.add_0_r, !app_nil_r in H. }
  split; [apply Hrev|]. by rewrite !Hrev, rev_involutive.
Qed.

(** X28 — searching.  [pcc_array_find] answers with the first index
    whose element the comparison function equates with the one looked for,
    and with -1 when there is none or when the element looked for is
    [NULL]; [pcc_array_contains] tells these two answers apart. *)
Theorem pcc_array_find_first array element
    (compare_func : option A -> option A -> Z) :
  let found := pcc_array_find array element compare_func in
  ((found = -1 /\
    (element = None \/
     Forall (fun candidate => compare_func candidate element <> 0) array)) \/
   (exists k,
      found = Z.of_nat k /\ (k < pcc_array_size array)%nat /\ is_Some element /\
      compare_func (pcc_array_get array k) element = 0 /\
      forall k', (k' < k)%nat -> compare_func (pcc_array_get array k') element <> 0)) /\
  pcc_array_contains array element compare_func = negb (found =? -1).
Proof.
  cbv zeta. split; [|done]. unfold pcc_array_find.
  destruct element as [a|]; [|left; split; [done|by left]].
  destruct (find_loop_first compare_func (Some a) array 0)
    as [[Hnone Hall]|(k & Hk & Hlt & Hzero & Hfirst)].
  - left. split; [done|by right].
  - right. exists k. by split_and!.
Qed.

End ArrayOperations.

Lemma pcc_array_sort_sorts_witness :
  is_ordering compare_numbers /\
  pcc_array_sort [Some 3; Some 1; Some 2] compare_numbers
    ≡ₚ [Some 3; Some 1; Some 2] /\
  StronglySorted (fun a b => compare_numbers a b <= 0)
    (pcc_array_sort [Some 3; Some 1; Some 2] compare_numbers).
Proof.
  assert (is_ordering compare_numbers) as Horder.
  { unfold is_ordering, compare_numbers. split; intros; lia. }
  split; [exact Horder|].
  split; [exact (proj1 (pcc_array_sort_sorts [Some 3; Some 1; Some 2] compare_numbers))
         |exact (proj2 (pcc_array_sort_sorts [Some 3; Some 1; Some 2] compare_numbers)
                   Horder)].
Defined.

(** Sorting numbers with the comparison [a - b]. *)
Example pcc_array_sort_numbers :
  pcc_array_sort [Some 3; Some 1; Some 2] compare_numbers
  = [Some 1; Some 2; Some 3].
Proof. reflexivity. Qed.

(** ** The lexer: comments *)

Section UnterminatedComment.
Variable atof : string -> float.
Implicit Types (lexer : Lexer).

(** Without a [*/] ahead, the loop of the block comment reads to the
    end of the source. *)
Lemma skip_block_loop_to_end rounds lexer :
  (remaining lexer <= rounds)%nat ->
  (lx_position lexer <= lx_source_len lexer)%nat ->
  (forall i, (lx_position lexer <= i)%nat ->
     ~ (char_at (lx_source lexer) i = "*"%char /\
        (S i < lx_source_len lexer)%nat /\
        char_at (lx_source lexer) (S i) = "/"%char)) ->
  let lexer' := skip_block_loop rounds lexer in
  lx_position lexer' = lx_source_len lexer /\
  lx_source_len lexer' = lx_source_len lexer /\
  lx_tokens lexer' = lx_tokens lexer.
Proof.
  revert lexer. induction rounds as [|rounds IH]; intros lexer Hrounds Hbound Hopen;
    cbv zeta; simpl.
  - unfold remaining in Hrounds. split_and!; [lia|done|done].
  - destruct (Nat.ltb_spec (lx_position lexer) (lx_source_len lexer)) as [Hlt|Hge];
      [|split_and!; [lia|done|done]].
    assert (lexer_advance lexer
            = (char_at (lx_source lexer) (lx_position lexer), (lexer_advance lexer).2))
      as Hadvance.
    { unfold lexer_advance.
      by destruct (Nat.leb_spec (lx_source_len lexer) (lx_position lexer)); [lia|]. }
    pose proof (lexer_advance_position lexer Hlt) as Hp.
    pose proof (lexer_advance_advances lexer) as [Hs Hl _].
    pose proof (keeps_tokens_advance lexer) as (Ht & _ & _).
    rewrite Hadvance.
    set (lexer1 := (lexer_advance lexer).2) in *.
    destruct (is_char (char_at (lx_source lexer) (lx_position lexer)) "*"
              && is_char (lexer_peek lexer1 0) "/") eqn:Hclose.
    + exfalso. apply andb_true_iff in Hclose as [Hstar Hslash].
      apply Ascii.eqb_eq in Hstar.
      assert (lx_position lexer1 < lx_source_len lexer1)%nat as Hin.
      { apply lexer_peek_in_source. by eapply is_char_not_NUL. }
      rewrite lexer_peek_char in Hslash by done. apply Ascii.eqb_eq in Hslash.
      apply (Hopen (lx_position lexer) (Nat.le_refl _)).
      rewrite Hs, Hp in Hslash. rewrite Hl, Hp in Hin. done.
    + destruct (IH lexer1) as (Hp' & Hl' & Ht').
      * unfold remaining in *. rewrite Hl, Hp. lia.
      * rewrite Hl, Hp. lia.
      * intros i Hi. rewrite Hs, Hl. apply Hopen. rewrite Hp in Hi. lia.
      * cbv zeta in *. split_and!; congruence.
Qed.

(** X29 — a block comment that is never closed.  A source that opens a
    block comment and holds no [*/] after it is tokenized successfully, to
    the end marker alone: the rest of the source is taken for the comment,
    a quote that no quote follows included, and no error is reported. *)
Theorem unterminated_block_comment_is_accepted (body : string)
    (filename : option string) :
  never_closed body ->
  exists lexer',
    lexer_tokenize atof (lexer_create ("/*" +:+ body) filename)
      = Some (PCC_SUCCESS, lexer') /\
    tok_type <$> lx_tokens lexer' = [TOKEN_EOF] /\
    lx_position lexer' = String.length ("/*" +:+ body).
Proof.
  intros Hopen.
  set (lexer := lexer_create ("/*" +:+ body) filename).
  set (lexer2 := (lexer_advance (lexer_advance lexer).2).2).
  assert (lx_source lexer2 = lx_source lexer /\
          lx_source_len lexer2 = S (S (String.length body)) /\
          lx_position lexer2 = 2%nat /\ lx_tokens lexer2 = []) as (Hs2 & Hl2 & Hp2 & Ht2).
  { by subst lexer lexer2. }
  destruct (skip_block_loop_to_end (remaining lexer2) lexer2 (Nat.le_refl _))
    as (Hp3 & Hl3 & Ht3).
  { rewrite Hl2, Hp2. lia. }
  { intros i Hi (Hstar & Hin & Hslash). rewrite Hp2 in Hi.
    destruct i as [|[|i]]; [lia|lia|].
    apply (Hopen i). rewrite Hs2 in Hstar, Hslash. done. }
  cbv zeta in *.
  set (lexer3 := skip_block_loop (remaining lexer2) lexer2) in *.
  exists (finish lexer3).2.
  assert (lexer_tokenize atof lexer = Some (finish lexer3)) as Hrun.
  { unfold lexer_tokenize.
    replace (remaining lexer) with (S (S (String.length body))) by done.
    cbn [tokenize_loop].
    assert (lexer_skip_whitespace lexer = lexer) as -> by done.
    assert (is_comment_start lexer = true) as -> by done.
    assert (lexer_skip_comment lexer = lexer3) as -> by done.
    assert ((lx_position lexer <? lx_source_len lexer)%nat = true) as -> by done.
    cbn [negb].
    assert ((lx_position lexer3 <? lx_source_len lexer3)%nat = false) as ->.
    { apply Nat.ltb_ge. lia. }
    done. }
  split; [by rewrite Hrun|]. split.
  - simpl. rewrite Ht3, Ht2. done.
  - simpl. rewrite Hp3, Hl2. done.
Qed.

End UnterminatedComment.

Lemma unterminated_block_comment_is_accepted_witness :
  never_closed (c_literal " 'never closed") /\
  exists lexer',
    lexer_tokenize stub_atof (lexer_create ("/*" +:+ c_literal " 'never closed") None)
      = Some (PCC_SUCCESS, lexer') /\
    tok_type <$> lx_tokens lexer' = [TOKEN_EOF] /\
    lx_position lexer' = String.length ("/*" +:+ c_literal " 'never closed").
Proof.
  assert (never_closed (c_literal " 'never closed")) as Hopen.
  { intros i [Hstar _]. do 15 (destruct i as [|i]; [discriminate|]). discriminate. }
  split; [exact Hopen|].
  exact (unterminated_block_comment_is_accepted stub_atof _ None Hopen).
Defined.
